(** * A shallow embedding of the gholt/valuestore storage engine

    The development follows the Go sources: the location index
    ([valuelocmap.go]), the value store front end and its write shard
    ([valuestore_GEN_.go]), the value file writer, the direct-file verifier
    and the pull-replication responder.  Goroutines are sequentialised: a
    request handed to a worker over a channel is modelled as a call of the
    worker's loop body on an explicit state. *)

From Stdlib Require Import ZArith List Bool Lia Permutation.
From Stdlib.Strings Require Import String Ascii Byte.
Import ListNotations.
Open Scope Z_scope.

(** ** Fixed-width integers *)

Definition uint64 (z : Z) : Z := z mod 2 ^ 64.
Definition uint32 (z : Z) : Z := z mod 2 ^ 32.
Definition uint16 (z : Z) : Z := z mod 2 ^ 16.

(** Go's conversion of a 64-bit pattern to [int64]. *)
Definition int64 (z : Z) : Z :=
  let u := uint64 z in if u <? 2 ^ 63 then u else u - 2 ^ 64.

Definition int32 (z : Z) : Z :=
  let u := uint32 z in if u <? 2 ^ 31 then u else u - 2 ^ 32.

Definition MaxUint16 : Z := 2 ^ 16 - 1.
Definition MaxUint32 : Z := 2 ^ 32 - 1.
Definition MaxUint64 : Z := 2 ^ 64 - 1.

(** ** A small error monad: [None] is a Go run-time panic (nil dereference,
    index out of range, division by zero) or a receive on an empty channel
    that nobody will fill in the sequential model. *)

Definition bind {A B} (m : option A) (f : A -> option B) : option B :=
  match m with Some x => f x | None => None end.

Notation "' p <- m ;; k" := (bind m (fun p => k))
  (at level 61, p pattern, m at next level, right associativity).
Notation "x <- m ;; k" := (bind m (fun x => k))
  (at level 61, m at next level, right associativity).

Definition guard (b : bool) : option unit := if b then Some tt else None.

(** Replace the element at index [i]; the caller has checked the bound. *)
Fixpoint set_nth {A} (l : list A) (i : nat) (x : A) : list A :=
  match l, i with
  | [], _ => []
  | _ :: l', O => x :: l'
  | y :: l', S i' => y :: set_nth l' i' x
  end.

(** ** The location index ([valuelocmap.go]) *)

Module valuelocmap.

(** [valueLoc] without its [next] pointer; the chain is kept in [bucket]. *)
Record valueLoc := mkValueLoc {
  keyA : Z;
  keyB : Z;
  timestamp : Z;
  blockID : Z;
  offset : Z;
  length : Z
}.

(** The zero value Go gives a freshly allocated [valueLoc]. *)
Definition zeroLoc : valueLoc := mkValueLoc 0 0 0 0 0 0.

(** One element of [valuesLocStore.buckets]: the inline head and the items
    reached from it through [next]. *)
Record bucket := mkBucket {
  head : valueLoc;
  next : list valueLoc
}.

Definition items (bk : bucket) : list valueLoc := head bk :: next bk.

Record valuesLocStore := mkStore {
  buckets : list bucket;
  locks : Z;            (* len(locks); the locks themselves are not modelled *)
  used : Z
}.

(** [rangeStart], [rangeStop], the [resizing] flag and the counters take no
    part in [Get] and [Set] and are left out. *)
Inductive valueLocNode := mkNode {
  leftMask : Z;
  a : option valuesLocStore;
  b : option valuesLocStore;
  c : option valueLocNode;
  d : option valueLocNode;
  e : option valuesLocStore
}.

Record ValueLocMap := mkMap {
  root : valueLocNode;
  cores : Z;
  splitCount : Z
}.

(** [NewValueLocMap]: the bucket and lock counts are what the constructor
    derives from the page size and [unsafe.Sizeof(valueLoc{})]. *)
Definition NewValueLocMap (bucketCount lockCount : nat) (cfgCores split : Z)
  : ValueLocMap :=
  mkMap
    (mkNode (Z.shiftl 1 63)
       (Some (mkStore (repeat (mkBucket zeroLoc []) bucketCount)
                (Z.of_nat lockCount) 0))
       None None None None)
    cfgCores split.

(** A one-bucket index as [NewValueLocMap] builds it. *)
Definition emptyIndex : ValueLocMap := NewValueLocMap 1 1 1 1.

(** The item loops of [Get] and [Set] stop at the first item that is in use
    ([blockID != 0]) and carries the key. *)
Definition isMatch (kA kB : Z) (item : valueLoc) : bool :=
  negb (blockID item =? 0) && (keyA item =? kA) && (keyB item =? kB).

Fixpoint findItem (kA kB : Z) (l : list valueLoc) : option valueLoc :=
  match l with
  | [] => None
  | item :: l' => if isMatch kA kB item then Some item else findItem kA kB l'
  end.

(** Apply [g] to the item [findItem] returns. *)
Fixpoint updItem (kA kB : Z) (g : valueLoc -> valueLoc) (l : list valueLoc)
  : list valueLoc :=
  match l with
  | [] => []
  | item :: l' =>
      if isMatch kA kB item then g item :: l' else item :: updItem kA kB g l'
  end.

(** Apply [g] to the first unused item ([blockID == 0]), if there is one. *)
Fixpoint updUnused (g : valueLoc -> valueLoc) (l : list valueLoc)
  : option (list valueLoc) :=
  match l with
  | [] => None
  | item :: l' =>
      if blockID item =? 0 then Some (g item :: l')
      else match updUnused g l' with
           | Some r => Some (item :: r)
           | None => None
           end
  end.

Definition bucketOfItems (l : list valueLoc) (dflt : bucket) : bucket :=
  match l with
  | [] => dflt
  | h :: t => mkBucket h t
  end.

Definition updBucketItem kA kB g (bk : bucket) : bucket :=
  bucketOfItems (updItem kA kB g (items bk)) bk.

(** [unusedItem] of [Set]: the first unused item of the chain or, when there
    is none, a new item linked in right behind the bucket head. *)
Definition useUnused (g : valueLoc -> valueLoc) (bk : bucket) : bucket :=
  match updUnused g (items bk) with
  | Some l => bucketOfItems l bk
  | None => mkBucket (head bk) (g zeroLoc :: next bk)
  end.

Definition setData (ts bid off len : Z) (item : valueLoc) : valueLoc :=
  mkValueLoc (keyA item) (keyB item) ts bid off len.

Definition setKey (kA kB : Z) (item : valueLoc) : valueLoc :=
  mkValueLoc kA kB (timestamp item) (blockID item) (offset item) (length item).

Definition clearBlockID (item : valueLoc) : valueLoc :=
  mkValueLoc (keyA item) (keyB item) (timestamp item) 0 (offset item)
    (length item).

Definition withBucket (s : valuesLocStore) (bix : nat) (bk : bucket)
  : valuesLocStore :=
  mkStore (set_nth (buckets s) bix bk) (locks s) (used s).

Definition addUsed (s : valuesLocStore) (n : Z) : valuesLocStore :=
  mkStore (buckets s) (locks s) (int32 (used s + n)).

(** [s.locks[lix]] is taken before any bucket is touched. *)
Definition lockOK (s : valuesLocStore) (lix : Z) : bool := lix <? locks s.

(** *** Get *)

(** The four result variables of [Get]. *)
Definition getVars : Type := (Z * Z * Z * Z)%type.

(** The closure [f] of [Get]: [blockID] is reset, the other variables keep
    what an earlier call left in them. *)
Definition getF (kA kB : Z) (bix : nat) (lix : Z)
  (s : valuesLocStore) (fb : option valuesLocStore) (v : getVars)
  : option getVars :=
  let '(ts0, _, off0, len0) := v in
  _ <- guard (lockOK s lix) ;;
  _ <- guard (match fb with Some f => lockOK f lix | None => true end) ;;
  bk <- nth_error (buckets s) bix ;;
  match findItem kA kB (items bk) with
  | Some item =>
      Some (timestamp item, blockID item, offset item, length item)
  | None =>
      match fb with
      | None => Some (ts0, 0, off0, len0)
      | Some f =>
          fbk <- nth_error (buckets f) bix ;;
          match findItem kA kB (items fbk) with
          | Some item =>
              Some (timestamp item, blockID item, offset item, length item)
          | None => Some (ts0, 0, off0, len0)
          end
      end
  end.

(** [bix] and [lix] as [Get] and [Set] compute them from store [a]. *)
Definition indexes (sa : valuesLocStore) (kB : Z) : option (nat * Z) :=
  let n := Z.of_nat (List.length (buckets sa)) in
  _ <- guard (negb (n =? 0)) ;;
  _ <- guard (negb (locks sa =? 0)) ;;
  let bix := kB mod n in
  Some (Z.to_nat bix, bix mod locks sa).

Fixpoint GetNode (vln : valueLocNode) (kA kB : Z) (v : getVars)
  {struct vln} : option getVars :=
  match vln with
  | mkNode lm na nb nc nd ne =>
      match nc with
      | Some cn =>
          if Z.land kA lm =? 0 then GetNode cn kA kB v
          else match nd with
               | Some dn => GetNode dn kA kB v
               | None => None
               end
      | None =>
          sa <- na ;;
          '(bix, lix) <- indexes sa kB ;;
          if Z.land kA lm =? 0 then
            (* left side; [a] is still set when it is read again *)
            getF kA kB bix lix sa None v
          else
            match nb with
            | Some sb => getF kA kB bix lix sb (Some sa) v
            | None =>
                v' <- getF kA kB bix lix sa ne v ;;
                (* [a] is still set and [b] still nil; a set [d] means
                   the split has finished: go on below [d] *)
                match nd with
                | Some dn => GetNode dn kA kB v'
                | None => Some v'
                end
            end
      end
  end.

Definition Get (vlm : ValueLocMap) (kA kB : Z) : option getVars :=
  GetNode (root vlm) kA kB (0, 0, 0, 0).

(** *** Set *)

(** Whether a write with [ts] replaces an entry with timestamp [old]. *)
Definition supersedes (ts old : Z) (evenIfSameTimestamp : bool) : bool :=
  (ts >? old) || (evenIfSameTimestamp && (ts =? old)).

Section SetF.
Variables (kA kB ts bid off len : Z) (evenIfSameTimestamp : bool).

(** The closure [f] of [Set] on store [s] with fallback [fb]; returns the
    two stores and [oldTimestamp]. *)
Definition setF (bix : nat) (lix : Z)
  (s : valuesLocStore) (fb : option valuesLocStore)
  : option (valuesLocStore * option valuesLocStore * Z) :=
  _ <- guard (lockOK s lix) ;;
  _ <- guard (match fb with Some f => lockOK f lix | None => true end) ;;
  bk <- nth_error (buckets s) bix ;;
  fbm <- match fb with
         | None => Some None
         | Some f =>
             fbk <- nth_error (buckets f) bix ;;
             Some (findItem kA kB (items fbk))
         end ;;
  (* the fallback's copy is dropped whenever there is one *)
  let fb' :=
    match fb, fbm with
    | Some f, Some _ =>
        match nth_error (buckets f) bix with
        | Some fbk =>
            Some (withBucket (addUsed f (-1)) bix
                    (updBucketItem kA kB clearBlockID fbk))
        | None => fb
        end
    | _, _ => fb
    end in
  match findItem kA kB (items bk), fbm with
  | Some sm, Some fm =>
      if timestamp sm >=? timestamp fm then
        let bk' :=
          if supersedes ts (timestamp sm) evenIfSameTimestamp
          then updBucketItem kA kB (setData ts bid off len) bk else bk in
        Some (withBucket s bix bk', fb', timestamp sm)
      else
        let g :=
          if supersedes ts (timestamp fm) evenIfSameTimestamp
          then setData ts bid off len
          else setData (timestamp fm) (blockID fm) (offset fm) (length fm) in
        Some (withBucket s bix (updBucketItem kA kB g bk), fb', timestamp fm)
  | Some sm, None =>
      let bk' :=
        if supersedes ts (timestamp sm) evenIfSameTimestamp
        then updBucketItem kA kB (setData ts bid off len) bk else bk in
      Some (withBucket s bix bk', fb', timestamp sm)
  | None, Some fm =>
      let g :=
        if supersedes ts (timestamp fm) evenIfSameTimestamp
        then setData ts bid off len
        else setData (timestamp fm) (blockID fm) (offset fm) (length fm) in
      Some (withBucket (addUsed s 1) bix
              (useUnused (fun item => g (setKey kA kB item)) bk),
            fb', timestamp fm)
  | None, None =>
      Some (withBucket (addUsed s 1) bix
              (useUnused
                 (fun item => setData ts bid off len (setKey kA kB item)) bk),
            fb', 0)
  end.

(** "Clear what we wrote" before a retry. *)
Definition clearWritten (bix : nat) (lix : Z) (s : valuesLocStore)
  : option valuesLocStore :=
  _ <- guard (lockOK s lix) ;;
  bk <- nth_error (buckets s) bix ;;
  let g item :=
    if (timestamp item =? ts) && (blockID item =? bid)
       && (offset item =? off) && (length item =? len)
    then clearBlockID item else item in
  Some (withBucket s bix (updBucketItem kA kB g bk)).

(** [originalOldTimestampCheck] and [originalOldTimestamp]. *)
Definition origVars : Type := (bool * Z)%type.

Definition noteOriginal (o : origVars) (old : Z) : origVars :=
  if fst o then o else (true, old).

(** One run from [VLN_SELECTION]; the result carries [oldTimestamp].  The
    [go vln.split] and [go vlmPrev.unsplit] requests at the end of a
    successful write start background tasks and leave this call's result
    as it is. *)
Fixpoint SetNode (vln : valueLocNode) (o : origVars) {struct vln}
  : option (valueLocNode * origVars * Z) :=
  match vln with
  | mkNode lm na nb nc nd ne =>
      match nc with
      | Some cn =>
          if Z.land kA lm =? 0 then
            '(cn', o', old) <- SetNode cn o ;;
            Some (mkNode lm na nb (Some cn') nd ne, o', old)
          else
            match nd with
            | Some dn =>
                '(dn', o', old) <- SetNode dn o ;;
                Some (mkNode lm na nb nc (Some dn') ne, o', old)
            | None => None
            end
      | None =>
          sa <- na ;;
          '(bix, lix) <- indexes sa kB ;;
          if Z.land kA lm =? 0 then
            '(sa', _, old) <- setF bix lix sa None ;;
            Some (mkNode lm (Some sa') nb nc nd ne, o, old)
          else
            match nb with
            | Some sb =>
                '(sb', fa, old) <- setF bix lix sb (Some sa) ;;
                Some (mkNode lm fa (Some sb') nc nd ne, o, old)
            | None =>
                '(sa', ne', old) <- setF bix lix sa ne ;;
                if supersedes ts old evenIfSameTimestamp then
                  match nd with
                  | Some dn =>
                      sa'' <- clearWritten bix lix sa' ;;
                      '(dn', o', old') <- SetNode dn (noteOriginal o old) ;;
                      Some (mkNode lm (Some sa'') nb nc (Some dn') ne',
                            o', old')
                  | None => Some (mkNode lm (Some sa') nb nc nd ne', o, old)
                  end
                else Some (mkNode lm (Some sa') nb nc nd ne', o, old)
            end
      end
  end.

(** [ValueLocMap.Set]; [Set] itself is reserved in Rocq. *)
Definition SetLoc (vlm : ValueLocMap) : option (ValueLocMap * Z) :=
  '(r, o, old) <- SetNode (root vlm) (false, 0) ;;
  let old' := if fst o && (snd o <? old) then snd o else old in
  Some (mkMap r (cores vlm) (splitCount vlm), old').
End SetF.

(** *** Sequential well-formedness along the path of a key

    What the sequential reading of [Get] and [Set] needs at the node the key
    is routed to: the stores exist and are large enough for [bix] and [lix],
    no finished split is left to chase, the fallback store holds the key at
    most once, and where the primary and the fallback store both hold the
    key the primary copy is at least as new (the order in which [split],
    [unsplit] and [Set] itself leave them). *)

Definition pairOK (kA kB : Z) (bix : nat) (lix : Z)
  (s : valuesLocStore) (fb : option valuesLocStore) : bool :=
  lockOK s lix
  && match nth_error (buckets s) bix with
     | None => false
     | Some bk =>
         match fb with
         | None => true
         | Some f =>
             lockOK f lix
             && match nth_error (buckets f) bix with
                | None => false
                | Some fbk =>
                    match findItem kA kB (items bk),
                          findItem kA kB (items fbk) with
                    | Some sm, Some fm => timestamp fm <=? timestamp sm
                    | _, _ => true
                    end
                    && match findItem kA kB
                               (updItem kA kB clearBlockID (items fbk)) with
                       | Some _ => false
                       | None => true
                       end
                end
         end
     end.

Fixpoint wellFormedFor (vln : valueLocNode) (kA kB : Z) {struct vln} : bool :=
  match vln with
  | mkNode lm na nb nc nd ne =>
      match nc with
      | Some cn =>
          if Z.land kA lm =? 0 then wellFormedFor cn kA kB
          else match nd with
               | Some dn => wellFormedFor dn kA kB
               | None => false
               end
      | None =>
          match na with
          | None => false
          | Some sa =>
              match indexes sa kB with
              | None => false
              | Some (bix, lix) =>
                  if Z.land kA lm =? 0 then pairOK kA kB bix lix sa None
                  else match nb with
                       | Some sb => pairOK kA kB bix lix sb (Some sa)
                       | None =>
                           pairOK kA kB bix lix sa ne
                           && match nd with Some _ => false | None => true end
                       end
              end
          end
      end
  end.

(** The claim as the specification words it: the location is replaced exactly
    when the timestamp supersedes the prior one, and the prior timestamp is
    returned. *)
Definition SetAsSpecified (vlm : ValueLocMap)
  (kA kB ts bid off len : Z) (evenIfSameTimestamp : bool) : Prop :=
  exists pts pbid poff plen vlm',
    Get vlm kA kB = Some (pts, pbid, poff, plen)
    /\ SetLoc kA kB ts bid off len evenIfSameTimestamp vlm = Some (vlm', pts)
    /\ Get vlm' kA kB =
         Some (if supersedes ts pts evenIfSameTimestamp
               then (ts, bid, off, len) else (pts, pbid, poff, plen)).

(** *** The configuration ([resolveConfig] and [NewValueLocMap])

    [splitMultiplier], a float64 that only feeds [splitCount], is left
    out. *)
Record config := mkLocConfig {
  config_cores : Z;
  config_pageSize : Z
}.


Definition OptCores (n : Z) (cfg : config) : config :=
  mkLocConfig n (config_pageSize cfg).

Definition OptPageSize (b : Z) (cfg : config) : config :=
  mkLocConfig (config_cores cfg) b.





(** *** What a key sees of a store

    The item loops of [Get] and [Set] for key (kA,kB) look at the lock
    count of a store and, in a bucket, at the items in use that carry the
    key, in chain order. *)
Definition viewOf (kA kB : Z) (s : valuesLocStore)
  : Z * list (list valueLoc) :=
  (locks s, map (fun bk => filter (isMatch kA kB) (items bk)) (buckets s)).

Definition viewOfOpt (kA kB : Z) (s : option valuesLocStore)
  : option (Z * list (list valueLoc)) :=
  option_map (viewOf kA kB) s.

(** *** split and unsplit

    Both move the items of one store ([a] of the node that splits, [e] of
    the node that unsplits) into another ([b], [a]), bucket by bucket.  The
    goroutines of a pass work on buckets of their own; here they run one
    after the other. *)

(** The two stores of a resize and its counters [copies] and [clears]. *)
Record resize := mkResize {
  src : valuesLocStore;
  dst : valuesLocStore;
  copies : Z;
  clears : Z
}.

(** The four counters while one bucket is worked on. *)
Record tally := mkTally {
  usedSrc : Z;
  usedDst : Z;
  copied : Z;
  cleared : Z
}.

Section Move.
(** Which items in use are moved: those right of [leftMask] in [split],
    all in [unsplit]. *)
Variable moves : valueLoc -> bool.
Variable clear : bool.

Definition moving (item : valueLoc) : bool :=
  negb (blockID item =? 0) && moves item.

(** The item loop ([NEXT_ITEM_A], [NEXT_ITEM_E]) over chain [l] of the
    source bucket, with [bk] the bucket of the other store. *)
Fixpoint moveItems (l : list valueLoc) (bk : bucket) (n : tally)
  : list valueLoc * bucket * tally :=
  match l with
  | [] => ([], bk, n)
  | item :: rest =>
      if moving item then
        let '(bk1, n1) :=
          match findItem (keyA item) (keyB item) (items bk) with
          | Some other =>
              if timestamp item >? timestamp other then
                (updBucketItem (keyA item) (keyB item) (fun _ => item) bk,
                 mkTally (usedSrc n) (usedDst n) (uint32 (copied n + 1))
                   (cleared n))
              else (bk, n)
          | None =>
              (useUnused (fun _ => item) bk,
               mkTally (usedSrc n) (int32 (usedDst n + 1))
                 (uint32 (copied n + 1)) (cleared n))
          end in
        let '(item1, n2) :=
          if clear then
            (clearBlockID item,
             mkTally (int32 (usedSrc n1 - 1)) (usedDst n1) (copied n1)
               (uint32 (cleared n1 + 1)))
          else (item, n1) in
        let '(rest', bk', n') := moveItems rest bk1 n2 in
        (item1 :: rest', bk', n')
      else
        let '(rest', bk', n') := moveItems rest bk n in
        (item :: rest', bk', n')
  end.

(** The body of the bucket loop of [f] for bucket [bix].  The bucket of the
    other store is only looked at when an item moves. *)
Definition moveBucket (bix : Z) (r : resize) : option resize :=
  _ <- guard (negb (locks (src r) =? 0)) ;;
  let lix := bix mod locks (src r) in
  _ <- guard (lockOK (dst r) lix) ;;
  _ <- guard (lockOK (src r) lix) ;;
  bkS <- nth_error (buckets (src r)) (Z.to_nat bix) ;;
  match nth_error (buckets (dst r)) (Z.to_nat bix) with
  | None => if existsb moving (items bkS) then None else Some r
  | Some bkD =>
      let '(l, bkD', n) :=
        moveItems (items bkS) bkD
          (mkTally (used (src r)) (used (dst r)) (copies r) (clears r)) in
      Some (mkResize
              (mkStore (set_nth (buckets (src r)) (Z.to_nat bix)
                          (bucketOfItems l bkS))
                 (locks (src r)) (usedSrc n))
              (mkStore (set_nth (buckets (dst r)) (Z.to_nat bix) bkD')
                 (locks (dst r)) (usedDst n))
              (copied n) (cleared n))
  end.

(** The bucket loop of [f]: [bix], [bix - cores], ... while not negative.
    [f] is only started with a positive [cores], so the loop ends within as
    many turns as there are buckets. *)
Fixpoint strideLoop (fuel : nat) (cores bix : Z) (r : resize)
  : option resize :=
  if bix <? 0 then Some r
  else
    match fuel with
    | O => None
    | S fuel' =>
        r' <- moveBucket bix r ;;
        strideLoop fuel' cores (bix - cores) r'
    end.

(** [f(coreOffset, clear)]. *)
Definition moveStride (cores coreOffset : Z) (r : resize) : option resize :=
  strideLoop (List.length (buckets (src r))) cores
    (Z.of_nat (List.length (buckets (src r))) - 1 - coreOffset) r.

(** One pass: [wg.Add(cores)], which panics on a negative count, the
    goroutines [f(core, clear)] for [core] from 0 up, [wg.Wait()]. *)
Definition onePass (cores : Z) (r : resize) : option resize :=
  _ <- guard (0 <=? cores) ;;
  fold_left
    (fun acc core => r' <- acc ;; moveStride cores (Z.of_nat core) r')
    (seq 0 (Z.to_nat cores)) (Some r).

End Move.

(** [for passes := 0; passes < 2 || copies > 0; passes++]: the passes that
    copy. *)
Fixpoint copyPasses (fuel : nat) (moves : valueLoc -> bool)
    (cores passes : Z) (r : resize) : option resize :=
  if (passes <? 2) || (copies r >? 0) then
    match fuel with
    | O => None
    | S fuel' =>
        r' <- onePass moves false cores
                (mkResize (src r) (dst r) 0 (clears r)) ;;
        copyPasses fuel' moves cores (passes + 1) r'
    end
  else Some r.

(** [for passes := 0; passes < 2 || copies > 0 || clears > 0; passes++]: the
    passes that copy and clear. *)
Fixpoint clearPasses (fuel : nat) (moves : valueLoc -> bool)
    (cores passes : Z) (r : resize) : option resize :=
  if (passes <? 2) || (copies r >? 0) || (clears r >? 0) then
    match fuel with
    | O => None
    | S fuel' =>
        r' <- onePass moves true cores (mkResize (src r) (dst r) 0 0) ;;
        clearPasses fuel' moves cores (passes + 1) r'
    end
  else Some r.

(** [itemA.keyA&vln.leftMask != 0]: the item belongs to the right half. *)
Definition rightOf (leftMask : Z) (item : valueLoc) : bool :=
  negb (Z.land (keyA item) leftMask =? 0).

(** A node as [split] makes it for a half. *)
Definition leafOf (leftMask : Z) (s : valuesLocStore) : valueLocNode :=
  mkNode leftMask (Some s) None None None None.

(** [split]; [resizing] and [nodeSplitCount] are the fields [vln.resizing]
    and [vln.splitCount] at the time of the call, [fuel] bounds the number
    of passes of each kind. *)
Definition split (fuel : nat) (resizing : bool) (nodeSplitCount cores : Z)
    (vln : valueLocNode) : option valueLocNode :=
  match vln with
  | mkNode lm na nb nc nd ne =>
      if resizing then Some vln
      else
        match nc with
        | Some _ => Some vln
        | None =>
            sa <- na ;;
            if used sa <? nodeSplitCount then Some vln
            else
              let sb :=
                mkStore (repeat (mkBucket zeroLoc [])
                           (List.length (buckets sa)))
                  (locks sa) 0 in
              r1 <- copyPasses fuel (rightOf lm) cores 0
                      (mkResize sa sb 0 0) ;;
              r2 <- clearPasses fuel (rightOf lm) cores 0 r1 ;;
              Some (mkNode lm (Some (src r2)) (Some (dst r2))
                      (Some (leafOf (Z.shiftr lm 1) (src r2)))
                      (Some (leafOf (Z.shiftr lm 1) (dst r2)))
                      ne)
        end
  end.

Definition isSome {A} (o : option A) : bool :=
  match o with Some _ => true | None => false end.

(** [unsplit]; [resizing], [cResizing] and [dResizing] are the [resizing]
    fields of the node and of its two children at the time of the call. *)
Definition unsplit (fuel : nat) (resizing cResizing dResizing : bool)
    (cores : Z) (vln : valueLocNode) : option valueLocNode :=
  match vln with
  | mkNode lm na nb nc nd ne =>
      if resizing then Some vln
      else
        match nc with
        | None => Some vln
        | Some cn =>
            if cResizing || isSome (c cn) then Some vln
            else
              dn <- nd ;;
              if dResizing || isSome (c dn) then Some vln
              else
                match a dn, a cn with
                | Some se, Some sa =>
                    r1 <- copyPasses fuel (fun _ => true) cores 0
                            (mkResize se sa 0 0) ;;
                    r2 <- clearPasses fuel (fun _ => true) cores 0 r1 ;;
                    Some (leafOf lm (dst r2))
                | Some se, None =>
                    (* [a.locks] is only reached from a bucket of [e] *)
                    if cores <? 0 then None
                    else if (cores =? 0)
                            || (List.length (buckets se) =? 0)%nat
                    then Some (mkNode lm None None None None None)
                    else None
                | None, sa =>
                    (* [len(e.buckets)] in [f] *)
                    if cores =? 0
                    then Some (mkNode lm sa None None None None)
                    else None
                end
        end
  end.

(** *** What [split] and [unsplit] rely on *)

(** No key is held twice, in use, in a chain. *)
Fixpoint uniqueKeys (l : list valueLoc) : bool :=
  match l with
  | [] => true
  | item :: rest =>
      ((blockID item =? 0)
       || negb (isSome (findItem (keyA item) (keyB item) rest)))
      && uniqueKeys rest
  end.

Definition storeUnique (s : valuesLocStore) : bool :=
  forallb (fun bk => uniqueKeys (items bk)) (buckets s).

Definition optUnique (s : option valuesLocStore) : bool :=
  match s with
  | Some s => storeUnique s
  | None => true
  end.

(** No store of the tree holds a key twice. *)
Fixpoint treeUnique (vln : valueLocNode) : bool :=
  match vln with
  | mkNode lm na nb nc nd ne =>
      optUnique na && optUnique nb && optUnique ne
      && match nc with Some cn => treeUnique cn | None => true end
      && match nd with Some dn => treeUnique dn | None => true end
  end.

(** Every item in use of the store has its key on one side of [leftMask]:
    the right one if [right], the left one if not. *)
Definition onSide (leftMask : Z) (right : bool) (s : valuesLocStore) : bool :=
  forallb
    (fun bk =>
       forallb
         (fun item =>
            (blockID item =? 0) || Bool.eqb (rightOf leftMask item) right)
         (items bk))
    (buckets s).

(** An item as a pass leaves it in the source chain. *)
Definition clearMoving (moves : valueLoc -> bool) (clear : bool)
    (x : valueLoc) : valueLoc :=
  if clear && moving moves x then clearBlockID x else x.

(** Bucket [bkD] holds, for [Get], what [bkD0] held and the moving items of
    [bkS]. *)
Definition Copied (moves : valueLoc -> bool) (bkS bkD0 bkD : bucket) : Prop :=
  forall kA kB,
    findItem kA kB (items bkD)
    = match findItem kA kB (items bkD0) with
      | Some i => Some i
      | None => findItem kA kB (List.filter moves (items bkS))
      end.

(** Every moving item of store [sS] is in the same bucket of store [dS], at
    least as new. *)
Definition settledAt (moves : valueLoc -> bool) (sS dS : valuesLocStore)
  : Prop :=
  forall j bkS bkD x,
    nth_error (buckets sS) j = Some bkS ->
    nth_error (buckets dS) j = Some bkD ->
    In x (items bkS) -> moving moves x = true ->
    exists o, findItem (keyA x) (keyB x) (items bkD) = Some o
              /\ timestamp x <= timestamp o.

(** What [Get] does at a leaf that is not resizing. *)
Definition lookupIn (s : valuesLocStore) (kA kB : Z) (v : getVars)
  : option getVars :=
  match indexes s kB with
  | Some (bix, lix) => getF kA kB bix lix s None v
  | None => None
  end.

(** Example data: a store of two buckets and two locks that holds a key of
    each half, and the two stores the halves make. *)
Definition bothHalves : valuesLocStore :=
  mkStore
    [mkBucket (mkValueLoc 1 2 1280 1 0 7)
       [mkValueLoc (2 ^ 63 + 1) 2 2560 1 7 4];
     mkBucket zeroLoc []]
    2 2.

Definition leftHalf : valuesLocStore :=
  mkStore [mkBucket (mkValueLoc 1 2 1280 1 0 7) []; mkBucket zeroLoc []] 2 1.

Definition rightHalf : valuesLocStore :=
  mkStore
    [mkBucket (mkValueLoc (2 ^ 63 + 1) 2 2560 1 7 4) [];
     mkBucket zeroLoc []]
    2 1.

End valuelocmap.

(** ** Run-time faults and byte slices *)

(** How a Go call can fail to return: a run-time panic, a receive on a
    channel that is empty and that only a goroutine outside the sequential
    model would fill, or a loop that is still running when the fuel the
    model gives it is used up. *)
Inductive fault :=
| IndexOutOfRange
| NilDereference
| SliceBounds
| DivideByZero
| WouldBlock
| Unfinished.

Inductive run (A : Type) :=
| Ret (x : A)
| Fault (f : fault).

Arguments Ret {A} x.
Arguments Fault {A} f.

Definition runBind {A B} (m : run A) (k : A -> run B) : run B :=
  match m with Ret x => k x | Fault f => Fault f end.

Notation "' p <~ m ;; k" := (runBind m (fun p => k))
  (at level 61, p pattern, m at next level, right associativity).
Notation "x <~ m ;; k" := (runBind m (fun x => k))
  (at level 61, m at next level, right associativity).

Definition orFault {A} (f : fault) (m : option A) : run A :=
  match m with Some x => Ret x | None => Fault f end.

(** A Go [[]byte]: the backing array and the length in use. *)
Record slice := mkSlice {
  arr : list byte;
  len : nat
}.

Definition cap (s : slice) : nat := List.length (arr s).

(** [make([]byte, 0, n)]. *)
Definition makeSlice (n : Z) : slice := mkSlice (repeat x00 (Z.to_nat n)) 0.

(** The bytes a reader of the slice sees. *)
Definition bytesOf (s : slice) : list byte := firstn (len s) (arr s).

(** [s[:n]]. *)
Definition sliceTo (s : slice) (n : Z) : run slice :=
  if (0 <=? n) && (n <=? Z.of_nat (cap s))
  then Ret (mkSlice (arr s) (Z.to_nat n))
  else Fault SliceBounds.

(** The array [l] with [bs] written over the elements from index [o] on. *)
Definition patch {A} (l : list A) (o : nat) (bs : list A) : list A :=
  firstn o l ++ bs ++ skipn (o + List.length bs) l.

(** Store [bs] at indexes [off ..]; every index must be below [len s]. *)
Definition storeAt (s : slice) (off : Z) (bs : list byte) : run slice :=
  if (0 <=? off) && (off + Z.of_nat (List.length bs) <=? Z.of_nat (len s))
     && (len s <=? cap s)%nat
  then Ret (mkSlice (patch (arr s) (Z.to_nat off) bs) (len s))
  else Fault IndexOutOfRange.

(** [copy(s[off:], src)]: copies what fits. *)
Definition copyAt (s : slice) (off : Z) (src : list byte) : run slice :=
  if (0 <=? off) && (off <=? Z.of_nat (len s))
  then storeAt s off (firstn (len s - Z.to_nat off) src)
  else Fault SliceBounds.

Definition byteOfZ (z : Z) : byte :=
  match Byte.of_N (Z.to_N (z mod 256)) with
  | Some x => x
  | None => x00
  end.

(** [binary.BigEndian]: the [n] low bytes of [v], most significant first. *)
Definition bigEndian (n : nat) (v : Z) : list byte :=
  map (fun i => byteOfZ (Z.shiftr v (8 * Z.of_nat (n - 1 - i)))) (seq 0 n).

Definition PutUint64 (s : slice) (off v : Z) : run slice :=
  storeAt s off (bigEndian 8 v).

Definition PutUint32 (s : slice) (off v : Z) : run slice :=
  storeAt s off (bigEndian 4 v).

(** ** The value store ([valuestore_GEN_.go]) *)

Module valuestore.

Definition _TSB_UTIL_BITS : Z := 8.
Definition _TSB_INACTIVE : Z := 254.
Definition _TSB_DELETION : Z := 128.
Definition _TSB_COMPACTION_REWRITE : Z := 1.
Definition _TSB_LOCAL_REMOVAL : Z := 2.

Definition TIMESTAMPMICRO_MIN : Z := int64 (uint64 (Z.shiftl 1 _TSB_UTIL_BITS)).
Definition TIMESTAMPMICRO_MAX : Z := int64 (Z.shiftr MaxUint64 _TSB_UTIL_BITS).

Definition _VALUE_FILE_HEADER_SIZE : Z := 32.
Definition _VALUE_FILE_ENTRY_SIZE : Z := 32.

Inductive error :=
| ErrNotFound
| ErrDisabled
| ErrTimestampBelowMin (timestampmicro : Z)
| ErrTimestampAboveMax (timestampmicro : Z)
| ErrValueLength (length valueCap : Z)
| ErrTooManyLocBlocks
| ErrUnexpectedEOF.

Record valueMemBlock := mkMemBlock {
  id : Z;
  fileID : Z;
  fileOffset : Z;
  toc : slice;
  values : slice
}.

(** [valueStoreFile] as far as [read] goes: [payload] is what the
    checksummed readers deliver for the file. *)
Record valueStoreFile := mkFile {
  nameTimestamp : Z;
  readerFPs : Z;
  payload : list byte
}.

(** The two implementations of the [valueLocBlock] interface. *)
Inductive valueLocBlock :=
| memBlockLoc (mb : valueMemBlock)
| fileLoc (fl : valueStoreFile).

(** What travels over [pendingWriteReqChans]. *)
Inductive valueWriteReq :=
| enableValueWriteReq
| disableValueWriteReq
| flushValueWriteReq
| writeReq (keyA keyB timestampbits : Z) (value : list byte) (internal : bool).

(** What travels over [fileMemBlockChan]; a mem block goes by its slot in
    the block registry, which stands for the pointer. *)
Inductive memBlockMsg :=
| flushValueMemBlock
| memBlockPtr (slot : Z).

(** The local variables of one [memWriter] goroutine. *)
Record memWriterVars := mkMemWriter {
  enabled : bool;
  memBlock : option Z;
  memBlockTOCOffset : Z;
  memBlockMemOffset : Z
}.

Record counters := mkCounters {
  lookups : Z;
  lookupErrors : Z;
  reads : Z;
  readErrors : Z;
  writes : Z;
  writeErrors : Z;
  writesOverridden : Z;
  deletes : Z;
  deleteErrors : Z;
  deletesOverridden : Z
}.

Record DefaultValueStore := mkValueStore {
  locmap : valuelocmap.ValueLocMap;
  locBlocks : list (option valueLocBlock);
  locBlockIDer : Z;
  memWriters : list memWriterVars;
  freeMemBlockChan : list Z;
  fileMemBlockChan : list memBlockMsg;
  workers : Z;
  valueCap : Z;
  pageSize : Z;
  minValueAlloc : Z;
  writePagesPerWorker : Z;
  userDisabled : bool;
  stats : counters
}.

Definition withLocmap (st : DefaultValueStore) m : DefaultValueStore :=
  mkValueStore m (locBlocks st) (locBlockIDer st) (memWriters st)
    (freeMemBlockChan st) (fileMemBlockChan st) (workers st) (valueCap st)
    (pageSize st) (minValueAlloc st) (writePagesPerWorker st)
    (userDisabled st) (stats st).

Definition withLocBlocks (st : DefaultValueStore) l : DefaultValueStore :=
  mkValueStore (locmap st) l (locBlockIDer st) (memWriters st)
    (freeMemBlockChan st) (fileMemBlockChan st) (workers st) (valueCap st)
    (pageSize st) (minValueAlloc st) (writePagesPerWorker st)
    (userDisabled st) (stats st).

Definition withLocBlockIDer (st : DefaultValueStore) n : DefaultValueStore :=
  mkValueStore (locmap st) (locBlocks st) n (memWriters st)
    (freeMemBlockChan st) (fileMemBlockChan st) (workers st) (valueCap st)
    (pageSize st) (minValueAlloc st) (writePagesPerWorker st)
    (userDisabled st) (stats st).

Definition withMemWriters (st : DefaultValueStore) l : DefaultValueStore :=
  mkValueStore (locmap st) (locBlocks st) (locBlockIDer st) l
    (freeMemBlockChan st) (fileMemBlockChan st) (workers st) (valueCap st)
    (pageSize st) (minValueAlloc st) (writePagesPerWorker st)
    (userDisabled st) (stats st).

Definition withFreeMemBlockChan (st : DefaultValueStore) l
  : DefaultValueStore :=
  mkValueStore (locmap st) (locBlocks st) (locBlockIDer st) (memWriters st)
    l (fileMemBlockChan st) (workers st) (valueCap st)
    (pageSize st) (minValueAlloc st) (writePagesPerWorker st)
    (userDisabled st) (stats st).

Definition withFileMemBlockChan (st : DefaultValueStore) l
  : DefaultValueStore :=
  mkValueStore (locmap st) (locBlocks st) (locBlockIDer st) (memWriters st)
    (freeMemBlockChan st) l (workers st) (valueCap st)
    (pageSize st) (minValueAlloc st) (writePagesPerWorker st)
    (userDisabled st) (stats st).

Definition withUserDisabled (st : DefaultValueStore) u : DefaultValueStore :=
  mkValueStore (locmap st) (locBlocks st) (locBlockIDer st) (memWriters st)
    (freeMemBlockChan st) (fileMemBlockChan st) (workers st) (valueCap st)
    (pageSize st) (minValueAlloc st) (writePagesPerWorker st)
    u (stats st).

Definition withStats (st : DefaultValueStore) c : DefaultValueStore :=
  mkValueStore (locmap st) (locBlocks st) (locBlockIDer st) (memWriters st)
    (freeMemBlockChan st) (fileMemBlockChan st) (workers st) (valueCap st)
    (pageSize st) (minValueAlloc st) (writePagesPerWorker st)
    (userDisabled st) c.

(** [atomic.AddInt32(&store.<counter>, 1)]. *)
Inductive counter :=
| cLookups | cLookupErrors | cReads | cReadErrors
| cWrites | cWriteErrors | cWritesOverridden
| cDeletes | cDeleteErrors | cDeletesOverridden.

Definition bump (k : counter) (c : counters) : counters :=
  let inc z := int32 (z + 1) in
  match c with
  | mkCounters l le r re w we wo dl de do =>
      match k with
      | cLookups => mkCounters (inc l) le r re w we wo dl de do
      | cLookupErrors => mkCounters l (inc le) r re w we wo dl de do
      | cReads => mkCounters l le (inc r) re w we wo dl de do
      | cReadErrors => mkCounters l le r (inc re) w we wo dl de do
      | cWrites => mkCounters l le r re (inc w) we wo dl de do
      | cWriteErrors => mkCounters l le r re w (inc we) wo dl de do
      | cWritesOverridden => mkCounters l le r re w we (inc wo) dl de do
      | cDeletes => mkCounters l le r re w we wo (inc dl) de do
      | cDeleteErrors => mkCounters l le r re w we wo dl (inc de) do
      | cDeletesOverridden => mkCounters l le r re w we wo dl de (inc do)
      end
  end.

Definition count (k : counter) (st : DefaultValueStore) : DefaultValueStore :=
  withStats st (bump k (stats st)).

Definition countIf (cond : bool) (k : counter) (st : DefaultValueStore)
  : DefaultValueStore :=
  if cond then count k st else st.

(** [store.locBlocks[locBlockID]]. *)
Definition locBlock (st : DefaultValueStore) (locBlockID : Z)
  : run (option valueLocBlock) :=
  if locBlockID <? 0 then Fault IndexOutOfRange
  else orFault IndexOutOfRange (nth_error (locBlocks st) (Z.to_nat locBlockID)).

Definition addLocBlock (st : DefaultValueStore) (block : valueLocBlock)
  : run (DefaultValueStore * (Z * option error)) :=
  let id := uint64 (locBlockIDer st + 1) in
  let st1 := withLocBlockIDer st id in
  if id >=? MaxUint32 then Ret (st1, (0, Some ErrTooManyLocBlocks))
  else
    match nth_error (locBlocks st1) (Z.to_nat id) with
    | None => Fault IndexOutOfRange
    | Some _ =>
        Ret (withLocBlocks st1
               (set_nth (locBlocks st1) (Z.to_nat id) (Some block)),
             (uint32 id, None))
    end.

(** The mem block a registry slot holds; a [memWriter] and the channels only
    ever hold slots of mem blocks. *)
Definition memBlockAt (st : DefaultValueStore) (slot : Z) : run valueMemBlock :=
  b <~ locBlock st slot ;;
  match b with
  | Some (memBlockLoc mb) => Ret mb
  | _ => Fault NilDereference
  end.

Definition putMemBlock (st : DefaultValueStore) (slot : Z) (mb : valueMemBlock)
  : DefaultValueStore :=
  withLocBlocks st (set_nth (locBlocks st) (Z.to_nat slot)
                      (Some (memBlockLoc mb))).

Definition withToc (mb : valueMemBlock) (t : slice) : valueMemBlock :=
  mkMemBlock (id mb) (fileID mb) (fileOffset mb) t (values mb).

Definition withValues (mb : valueMemBlock) (v : slice) : valueMemBlock :=
  mkMemBlock (id mb) (fileID mb) (fileOffset mb) (toc mb) v.

Definition withID (mb : valueMemBlock) (n : Z) : valueMemBlock :=
  mkMemBlock n (fileID mb) (fileOffset mb) (toc mb) (values mb).

Definition putMemWriter (st : DefaultValueStore) (i : nat) (w : memWriterVars)
  : DefaultValueStore :=
  withMemWriters st (set_nth (memWriters st) i w).

(** A send on [fileMemBlockChan]; the file writer drains the channel. *)
Definition toFileWriter (st : DefaultValueStore) (m : memBlockMsg)
  : DefaultValueStore :=
  withFileMemBlockChan st (fileMemBlockChan st ++ [m]).

(** The fixed-width TOC entry [memWriter] appends. *)
Definition tocEntry (kA kB timestampbits memOffset length : Z) : list byte :=
  bigEndian 8 kA ++ bigEndian 8 kB ++ bigEndian 8 timestampbits
  ++ bigEndian 4 (uint32 memOffset) ++ bigEndian 4 (uint32 length).

(** [memWriter], the full-block test: a mem block that cannot take another
    TOC entry or another [alloc] bytes goes to the file writer. *)
Definition handOffIfFull (st : DefaultValueStore) (w : memWriterVars)
  (alloc : Z) : run (DefaultValueStore * memWriterVars) :=
  match memBlock w with
  | Some slot =>
      mb <~ memBlockAt st slot ;;
      if (memBlockTOCOffset w + _VALUE_FILE_ENTRY_SIZE
            >? Z.of_nat (cap (toc mb)))
         || (memBlockMemOffset w + alloc >? Z.of_nat (cap (values mb)))
      then Ret (toFileWriter st (memBlockPtr slot),
                mkMemWriter (enabled w) None (memBlockTOCOffset w)
                  (memBlockMemOffset w))
      else Ret (st, w)
  | None => Ret (st, w)
  end.

(** [memWriter], [if memBlock == nil]: a fresh block comes from
    [freeMemBlockChan] and both offsets restart at 0. *)
Definition obtainMemBlock (st : DefaultValueStore) (w : memWriterVars)
  : run (DefaultValueStore * memWriterVars * Z) :=
  match memBlock w with
  | Some slot => Ret (st, w, slot)
  | None =>
      match freeMemBlockChan st with
      | [] => Fault WouldBlock
      | slot :: rest =>
          Ret (withFreeMemBlockChan st rest,
               mkMemWriter (enabled w) (Some slot) 0 0, slot)
      end
  end.

(** [memWriter]: extend [values] by [alloc], copy the value in and zero the
    rest of the allocation. *)
Definition bufferValue (vals : slice) (memOff alloc : Z) (value : list byte)
  : run slice :=
  let length := Z.of_nat (List.length value) in
  v1 <~ sliceTo vals (memOff + alloc) ;;
  v2 <~ copyAt v1 memOff value ;;
  if alloc >? length
  then storeAt v2 (memOff + length) (repeat x00 (Z.to_nat (alloc - length)))
  else Ret v2.

(** [memWriter]: extend [toc] by one entry and fill it in. *)
Definition appendTOC (t : slice) (tocOff kA kB timestampbits memOff length : Z)
  : run slice :=
  t1 <~ sliceTo t (tocOff + _VALUE_FILE_ENTRY_SIZE) ;;
  t2 <~ PutUint64 t1 tocOff kA ;;
  t3 <~ PutUint64 t2 (tocOff + 8) kB ;;
  t4 <~ PutUint64 t3 (tocOff + 16) timestampbits ;;
  t5 <~ PutUint32 t4 (tocOff + 24) (uint32 memOff) ;;
  PutUint32 t5 (tocOff + 28) (uint32 length).

(** [memWriter]: [alloc := length], raised to [minValueAlloc]. *)
Definition allocFor (st : DefaultValueStore) (length : Z) : Z :=
  if length <? minValueAlloc st then minValueAlloc st else length.

Definition setEnabled (w : memWriterVars) (e : bool) : memWriterVars :=
  mkMemWriter e (memBlock w) (memBlockTOCOffset w) (memBlockMemOffset w).

(** One turn of the [memWriter] loop of shard [i] on request [req].  The
    answer, for a write request, is the request's [timestampbits] field as
    the goroutine leaves it and what it sends on [errChan].  The index takes
    the block id as the store passes it. *)
Definition memWriter (st : DefaultValueStore) (i : nat) (req : valueWriteReq)
  : run (DefaultValueStore * option (Z * option error)) :=
  w <~ orFault IndexOutOfRange (nth_error (memWriters st) i) ;;
  match req with
  | enableValueWriteReq => Ret (putMemWriter st i (setEnabled w true), None)
  | disableValueWriteReq => Ret (putMemWriter st i (setEnabled w false), None)
  | flushValueWriteReq =>
      '(st1, w1) <~
        match memBlock w with
        | Some slot =>
            mb <~ memBlockAt st slot ;;
            if (0 <? len (toc mb))%nat
            then Ret (toFileWriter st (memBlockPtr slot),
                      mkMemWriter (enabled w) None (memBlockTOCOffset w)
                        (memBlockMemOffset w))
            else Ret (st, w)
        | None => Ret (st, w)
        end ;;
      Ret (putMemWriter (toFileWriter st1 flushValueMemBlock) i w1, None)
  | writeReq kA kB timestampbits value internal =>
      if negb (enabled w) && negb internal then
        Ret (st, Some (timestampbits, Some ErrDisabled))
      else
        let length := Z.of_nat (List.length value) in
        if length >? valueCap st then
          Ret (st, Some (timestampbits,
                         Some (ErrValueLength length (valueCap st))))
        else
          let alloc := allocFor st length in
          '(st1, w1) <~ handOffIfFull st w alloc ;;
          '(st2, w2, slot) <~ obtainMemBlock st1 w1 ;;
          let tocOff := memBlockTOCOffset w2 in
          let memOff := memBlockMemOffset w2 in
          mb <~ memBlockAt st2 slot ;;
          v3 <~ bufferValue (values mb) memOff alloc value ;;
          let st3 := putMemBlock st2 slot (withValues mb v3) in
          '(m', ptimestampbits) <~
            orFault NilDereference
              (valuelocmap.SetLoc kA kB timestampbits (id mb)
                 (uint32 memOff) (uint32 length) false (locmap st3)) ;;
          let st4 := withLocmap st3 m' in
          if ptimestampbits <? timestampbits then
            t6 <~ appendTOC (toc mb) tocOff kA kB timestampbits memOff length ;;
            Ret (putMemWriter
                   (putMemBlock st4 slot (withToc (withValues mb v3) t6)) i
                   (mkMemWriter (enabled w2) (Some slot)
                      (tocOff + _VALUE_FILE_ENTRY_SIZE) (memOff + alloc)),
                 Some (ptimestampbits, None))
          else
            v4 <~ sliceTo v3 memOff ;;
            Ret (putMemWriter (putMemBlock st4 slot (withValues mb v4)) i w2,
                 Some (ptimestampbits, None))
  end.

(** [int(keyA>>1) % len(store.freeWriteReqChans)]. *)
Definition shardOf (st : DefaultValueStore) (kA : Z) : nat :=
  Z.to_nat (Z.shiftr kA 1 mod workers st).

(** [store.write]: the request goes to the key's shard and the caller waits
    for the answer. *)
Definition write (st : DefaultValueStore)
  (kA kB timestampbits : Z) (value : list byte) (internal : bool)
  : run (DefaultValueStore * (Z * option error)) :=
  if workers st =? 0 then Fault DivideByZero
  else
    let i := shardOf st kA in
    '(st', answer) <~
      memWriter st i (writeReq kA kB timestampbits value internal) ;;
    orFault WouldBlock (option_map (fun r => (st', r)) answer).

Definition Write (st : DefaultValueStore)
  (kA kB timestampmicro : Z) (value : list byte)
  : run (DefaultValueStore * (Z * option error)) :=
  let st := count cWrites st in
  if timestampmicro <? TIMESTAMPMICRO_MIN then
    Ret (count cWriteErrors st,
         (0, Some (ErrTimestampBelowMin timestampmicro)))
  else if timestampmicro >? TIMESTAMPMICRO_MAX then
    Ret (count cWriteErrors st,
         (0, Some (ErrTimestampAboveMax timestampmicro)))
  else
    '(st, (timestampbits, err)) <~
      write st kA kB
        (uint64 (Z.shiftl (uint64 timestampmicro) _TSB_UTIL_BITS)) value
        false ;;
    let st :=
      countIf (match err with Some _ => true | None => false end)
        cWriteErrors st in
    let st :=
      countIf
        (timestampmicro <=? int64 (Z.shiftr timestampbits _TSB_UTIL_BITS))
        cWritesOverridden st in
    Ret (st, (int64 (Z.shiftr timestampbits _TSB_UTIL_BITS), err)).

Definition Delete (st : DefaultValueStore) (kA kB timestampmicro : Z)
  : run (DefaultValueStore * (Z * option error)) :=
  let st := count cDeletes st in
  if timestampmicro <? TIMESTAMPMICRO_MIN then
    Ret (count cDeleteErrors st,
         (0, Some (ErrTimestampBelowMin timestampmicro)))
  else if timestampmicro >? TIMESTAMPMICRO_MAX then
    Ret (count cDeleteErrors st,
         (0, Some (ErrTimestampAboveMax timestampmicro)))
  else
    '(st, (ptimestampbits, err)) <~
      write st kA kB
        (Z.lor (uint64 (Z.shiftl (uint64 timestampmicro) _TSB_UTIL_BITS))
           _TSB_DELETION)
        [] true ;;
    let st :=
      countIf (match err with Some _ => true | None => false end)
        cDeleteErrors st in
    let st :=
      countIf
        (timestampmicro <=? int64 (Z.shiftr ptimestampbits _TSB_UTIL_BITS))
        cDeletesOverridden st in
    Ret (st, (int64 (Z.shiftr ptimestampbits _TSB_UTIL_BITS), err)).

Definition lookup (st : DefaultValueStore) (kA kB : Z)
  : run (Z * Z * Z * option error) :=
  '(timestampbits, id, _, length) <~
    orFault NilDereference (valuelocmap.Get (locmap st) kA kB) ;;
  if (id =? 0) || negb (Z.land timestampbits _TSB_DELETION =? 0)
  then Ret (timestampbits, id, 0, Some ErrNotFound)
  else Ret (timestampbits, id, length, None).

Definition Lookup (st : DefaultValueStore) (kA kB : Z)
  : run (DefaultValueStore * (Z * Z * option error)) :=
  let st := count cLookups st in
  '(timestampbits, _, length, err) <~ lookup st kA kB ;;
  let st :=
    countIf (match err with Some _ => true | None => false end)
      cLookupErrors st in
  Ret (st, (int64 (Z.shiftr timestampbits _TSB_UTIL_BITS), length, err)).

(** Modelled from the spec: [valueMemBlock.read] (memblock.got) is not among
    the sources.  The specification has the value of a key whose block id
    refers to a mem block be the bytes at [offset, offset+length) of that
    block's [values] buffer; the result is appended to the caller's value. *)
Definition memBlockRead (mb : valueMemBlock)
  (timestampbits offset length : Z) (value : list byte)
  : run (Z * list byte * option error) :=
  if (offset + length <=? Z.of_nat (len (values mb)))
  then Ret (timestampbits,
            value ++ firstn (Z.to_nat length)
                       (skipn (Z.to_nat offset) (bytesOf (values mb))),
            None)
  else Fault SliceBounds.

(** [valueStoreFile.read]: seek to [offset] and read [length] bytes in full. *)
Definition fileRead (fl : valueStoreFile)
  (kA timestampbits offset length : Z) (value : list byte)
  : run (Z * list byte * option error) :=
  if negb (Z.land timestampbits _TSB_DELETION =? 0)
  then Ret (timestampbits, value, Some ErrNotFound)
  else if readerFPs fl =? 0 then Fault DivideByZero
  else
    let got := firstn (Z.to_nat length) (skipn (Z.to_nat offset) (payload fl)) in
    if Z.of_nat (List.length got) <? length
    then Ret (timestampbits,
              value ++ got ++ repeat x00 (Z.to_nat length - List.length got),
              Some ErrUnexpectedEOF)
    else Ret (timestampbits, value ++ got, None).

Definition read (st : DefaultValueStore) (kA kB : Z) (value : list byte)
  : run (Z * list byte * option error) :=
  '(timestampbits, id, offset, length) <~
    orFault NilDereference (valuelocmap.Get (locmap st) kA kB) ;;
  if (id =? 0) || negb (Z.land timestampbits _TSB_DELETION =? 0)
     || negb (Z.land timestampbits _TSB_LOCAL_REMOVAL =? 0)
  then Ret (timestampbits, value, Some ErrNotFound)
  else
    b <~ locBlock st id ;;
    match b with
    | None => Fault NilDereference
    | Some (memBlockLoc mb) => memBlockRead mb timestampbits offset length value
    | Some (fileLoc fl) => fileRead fl kA timestampbits offset length value
    end.

Definition Read (st : DefaultValueStore) (kA kB : Z) (value : list byte)
  : run (DefaultValueStore * (Z * list byte * option error)) :=
  let st := count cReads st in
  '(timestampbits, value, err) <~ read st kA kB value ;;
  let st :=
    countIf (match err with Some _ => true | None => false end)
      cReadErrors st in
  Ret (st, (int64 (Z.shiftr timestampbits _TSB_UTIL_BITS), value, err)).

(** Hand [req] to every [memWriter], in channel order. *)
Fixpoint toAllMemWriters (st : DefaultValueStore) (req : valueWriteReq)
  (i n : nat) : run DefaultValueStore :=
  match n with
  | O => Ret st
  | S n' =>
      '(st', _) <~ memWriter st i req ;;
      toAllMemWriters st' req (S i) n'
  end.

Definition disableWrites (st : DefaultValueStore) (userCall : bool)
  : run DefaultValueStore :=
  let st := if userCall then withUserDisabled st true else st in
  toAllMemWriters st disableValueWriteReq 0 (List.length (memWriters st)).

Definition DisableWrites (st : DefaultValueStore) : run DefaultValueStore :=
  disableWrites st true.

Definition enableWrites (st : DefaultValueStore) (userCall : bool)
  : run DefaultValueStore :=
  if userCall || negb (userDisabled st) then
    let st := withUserDisabled st false in
    toAllMemWriters st enableValueWriteReq 0 (List.length (memWriters st))
  else Ret st.

Definition EnableWrites (st : DefaultValueStore) : run DefaultValueStore :=
  enableWrites st true.

(** The part of [ValueStoreConfig] that [NewValueStore] reads for the
    structures modelled here. *)
Record ValueStoreConfig := mkConfig {
  cfgValueLocMap : valuelocmap.ValueLocMap;
  cfgWorkers : Z;
  cfgValueCap : Z;
  cfgPageSize : Z;
  cfgMinValueAlloc : Z;
  cfgWritePagesPerWorker : Z
}.

(** The loop of [NewValueStore] that creates the mem blocks, registers each
    and queues it on [freeMemBlockChan]. *)
Fixpoint newMemBlocks (st : DefaultValueStore) (n : nat)
  : run (DefaultValueStore * option error) :=
  match n with
  | O => Ret (st, None)
  | S n' =>
      let mb :=
        mkMemBlock 0 0 0 (makeSlice (pageSize st)) (makeSlice (pageSize st)) in
      '(st1, (newID, err)) <~ addLocBlock st (memBlockLoc mb) ;;
      match err with
      | Some e => Ret (st1, Some e)
      | None =>
          (* [memBlock.id] is assigned after the block has been stored *)
          let st2 := putMemBlock st1 newID (withID mb newID) in
          newMemBlocks
            (withFreeMemBlockChan st2 (freeMemBlockChan st2 ++ [newID])) n'
      end
  end.

(** What [recovery] gets when it opens [store.pathtoc] and reads the names
    in it: the error of [os.Open], the error of [Readdirnames], or the
    names. *)
Inductive pathtocDir :=
| openFails (err : error)
| readdirFails (err : error)
| dirNames (names : list string).

(** [strings.HasSuffix(s, suffix)]. *)
Definition hasSuffix (s suffix : string) : bool :=
  (String.length suffix <=? String.length s)%nat
  && String.eqb
       (substring (String.length s - String.length suffix)
          (String.length suffix) s)
       suffix.

(** The names [recovery] does not skip at once. *)
Definition isTOCName (name : string) : bool := hasSuffix name ".valuetoc".

Section Recovery.
(** What the loop of [recovery] over the names does to the store, batches
    handed to the workers included, once one of the names ends in
    [".valuetoc"]: for such a name it opens the value file with
    [newValueFile], which is not among the sources. *)
Variable loadTOCs : list string -> DefaultValueStore -> run DefaultValueStore.

(** [recovery].  A directory that cannot be opened or read is the one error
    it returns; a name that does not end in [".valuetoc"] is skipped, and
    with no other name the workers are handed nothing but the closing nil,
    so that the store stays as it is. *)
Definition recovery (dir : pathtocDir) (st : DefaultValueStore)
  : run (DefaultValueStore * option error) :=
  match dir with
  | openFails err => Ret (st, Some err)
  | readdirFails err => Ret (st, Some err)
  | dirNames names =>
      if existsb isTOCName names
      then st1 <~ loadTOCs names st ;; Ret (st1, None)
      else Ret (st, None)
  end.

(** [NewValueStore]: the store and its mem blocks, then [recovery] on the
    directory [store.pathtoc] as [dir] has it.  [locmap.SetInactiveMask]
    is not a method of the index of [valuelocmap.go] and is left out, as
    are the calls that configure and launch the background tasks once
    [recovery] has returned without error. *)
Definition NewValueStore (cfg : ValueStoreConfig) (dir : pathtocDir)
  : run (DefaultValueStore * option error) :=
  let st :=
    mkValueStore (cfgValueLocMap cfg)
      (repeat None (Z.to_nat MaxUint16)) 0
      (repeat (mkMemWriter false None 0 0) (Z.to_nat (cfgWorkers cfg)))
      [] [] (cfgWorkers cfg) (uint32 (cfgValueCap cfg))
      (uint32 (cfgPageSize cfg)) (cfgMinValueAlloc cfg)
      (cfgWritePagesPerWorker cfg) false
      (mkCounters 0 0 0 0 0 0 0 0 0 0) in
  '(st1, err) <~
    newMemBlocks st (Z.to_nat (workers st * writePagesPerWorker st)) ;;
  match err with
  | Some e => Ret (st1, Some e)
  | None => recovery dir st1
  end.

End Recovery.

(** *** What the sequential reading of the write path relies on *)

(** A registry slot that holds a mem block as [NewValueStore] makes them. *)
Definition memSlotOK (st : DefaultValueStore) (slot : Z) : bool :=
  match locBlock st slot with
  | Ret (Some (memBlockLoc mb)) =>
      negb (id mb =? 0)
      && (Z.of_nat (cap (toc mb)) =? pageSize st)
      && (Z.of_nat (cap (values mb)) =? pageSize st)
  | _ => false
  end.

Definition writerOK (st : DefaultValueStore) (w : memWriterVars) : bool :=
  match memBlock w with
  | Some slot => memSlotOK st slot
  | None => true
  end
  && (0 <=? memBlockTOCOffset w) && (0 <=? memBlockMemOffset w).

(** One [memWriter] per shard, pages that hold a TOC entry and any accepted
    value, and only mem blocks in the hands of the writers and on the free
    queue. *)
Definition storeOK (st : DefaultValueStore) : bool :=
  (0 <? workers st)
  && (Z.of_nat (List.length (memWriters st)) =? workers st)
  && (_VALUE_FILE_ENTRY_SIZE <=? pageSize st)
  && (0 <=? valueCap st)
  && (valueCap st <=? pageSize st)
  && (minValueAlloc st <=? pageSize st)
  && forallb (writerOK st) (memWriters st)
  && forallb (memSlotOK st) (freeMemBlockChan st).

(** No [memWriter] accepts user writes. *)
Definition writesDisabled (st : DefaultValueStore) : bool :=
  forallb (fun w => negb (enabled w)) (memWriters st).

(** A [timestampmicro] the public calls accept. *)
Definition valid (t : Z) : Prop :=
  TIMESTAMPMICRO_MIN <= t <= TIMESTAMPMICRO_MAX.

(** The configured sizes are the same in both stores. *)
Definition sameConfig (s1 s2 : DefaultValueStore) : Prop :=
  workers s2 = workers s1 /\ valueCap s2 = valueCap s1
  /\ pageSize s2 = pageSize s1 /\ minValueAlloc s2 = minValueAlloc s1.

(** Two stores that differ at most in their statistics counters. *)
Definition sameButStats (s1 s2 : DefaultValueStore) : Prop :=
  withStats s1 (stats s2) = s2.

(** The configuration of the scenarios: one worker, two pages of 64 bytes. *)
Definition scenarioConfig : ValueStoreConfig :=
  mkConfig valuelocmap.emptyIndex 1 64 64 0 2.

Definition noStore : DefaultValueStore :=
  mkValueStore valuelocmap.emptyIndex [] 0 [] [] [] 0 0 0 0 0 false
    (mkCounters 0 0 0 0 0 0 0 0 0 0).

(** The store a scenario starts from: [NewValueStore] on an empty
    directory, followed by [EnableWrites], as a caller does before the first
    write. *)
Definition freshStore : DefaultValueStore :=
  match NewValueStore (fun _ st => Ret st) scenarioConfig (dirNames []) with
  | Ret (st, None) =>
      match EnableWrites st with
      | Ret st' => st'
      | Fault _ => noStore
      end
  | _ => noStore
  end.

Definition testing : list byte := list_byte_of_string "testing".

(** What a call answers, the store left aside. *)
Definition answer {A} (r : run (DefaultValueStore * A)) : run A :=
  '(_, x) <~ r ;; Ret x.

(** [Write] of "testing" under key (1,2) on the fresh store, then [Read]. *)
Definition roundTrips (timestampmicro : Z) : Prop :=
  answer ('(s1, _) <~ Write freshStore 1 2 timestampmicro testing ;;
          Read s1 1 2 [])
  = Ret (timestampmicro, testing, None).

(** Successive registrations, as [NewValueStore] makes for the mem blocks
    and [createValueFile] for every value file after them. *)
Fixpoint addLocBlocks (st : DefaultValueStore) (blocks : list valueLocBlock)
  : run (DefaultValueStore * option error) :=
  match blocks with
  | [] => Ret (st, None)
  | blk :: rest =>
      '(st1, (_, err)) <~ addLocBlock st blk ;;
      match err with
      | Some e => Ret (st1, Some e)
      | None => addLocBlocks st1 rest
      end
  end.

(** The registry as [NewValueStore] allocates it. *)
Definition newRegistry : DefaultValueStore :=
  withLocBlocks noStore (repeat None (Z.to_nat MaxUint16)).

(** The fresh store after the public [Write] of "testing" under key (1,2)
    with timestamp 0x500. *)
Definition storeWithEntry : DefaultValueStore :=
  match Write freshStore 1 2 1280 testing with
  | Ret (st, _) => st
  | Fault _ => noStore
  end.

End valuestore.

(** ** Closing a value file (valuestorefile, [closeWriting]) *)

Module valuestorefile.

(** ["TERM v0 ":8] *)
Definition _VALUE_FILE_TRAILER_SIZE : Z := 8.

Definition term : list byte := Eval cbv in list_byte_of_string "TERM v0 ".

Section CloseWriting.
(** [murmur3.Sum32]. *)
Variable Sum32 : list byte -> Z.
Variable checksumInterval : Z.

(** The loop that writes the trailer.  [held] is [writerCurrentBuf.buf]
    up to [writerCurrentBuf.offset], [rest] the part of [term] still to go
    and [file] what has reached [writerFP]; writes to [writerFP] succeed. *)
Fixpoint writeTerm (fuel : nat) (held rest file : list byte)
  : run (list byte) :=
  match rest with
  | [] => Ret file
  | _ :: _ =>
      match fuel with
      | O => Fault Unfinished
      | S fuel' =>
          if checksumInterval <? Z.of_nat (List.length held)
          then Fault SliceBounds
          else
            let n :=
              Z.to_nat (Z.min (checksumInterval - Z.of_nat (List.length held))
                          (Z.of_nat (List.length rest))) in
            let held1 := held ++ firstn n rest in
            let rest1 := skipn n rest in
            let held2 :=
              match rest1 with
              | [] => held1
              | _ :: _ => held1 ++ bigEndian 4 (Sum32 held1)
              end in
            writeTerm fuel' [] rest1 (file ++ held2)
      end
  end.

(** [closeWriting] once the checksummers and the writer have drained: the
    full intervals are in [file], the current buffer holds [held].  Two
    turns of the loop take at least one byte of [term]. *)
Definition closeWriting (held file : list byte) : run (list byte) :=
  writeTerm (2 * List.length term + 1) held term file.

End CloseWriting.

End valuestorefile.

(** ** Verifying a value file ([valuedirectfile_GEN_.go]) *)

Module valuedirectfile.

Definition _VALUE_FILE_HEADER_SIZE : Z := 32.

(** [0:4, offsetWhereTrailerOccurs:8, "TERM":4] *)
Definition _VALUE_FILE_TRAILER_SIZE : Z := 16.

Inductive verifyError :=
| ErrOpenRead
| ErrReadHeader
| ErrUnknownFileType
| ErrChecksumIntervalTooSmall (checksumInterval : Z)
| ErrSeekTrailer
| ErrReadTrailer
| ErrTrailerNotZero
| ErrDataEndingOffset (recorded actual : Z)
| ErrTrailerNotTERM
| ErrOpenWrite.

(** What [VerifyHeaderAndTrailer] finds under [df.path]: the bytes
    [openReadSeeker] gives, if it opens; the bytes the checksummed reader
    built on it delivers (brimutil, outside this repository); and whether
    [openWriteSeeker] opens. *)
Record fileOnDisk := mkFileOnDisk {
  rawBytes : option (list byte);
  payloadBytes : list byte;
  writable : bool
}.

Fixpoint bytesEqual (x y : list byte) : bool :=
  match x, y with
  | [], [] => true
  | h1 :: t1, h2 :: t2 => Byte.eqb h1 h2 && bytesEqual t1 t2
  | _, _ => false
  end.

(** [binary.BigEndian.Uint32] and [Uint64] of the leading bytes. *)
Definition fromBigEndian (l : list byte) : Z :=
  fold_left (fun acc x => acc * 256 + Z.of_N (Byte.to_N x)) l 0.

Definition TERM : list byte := Eval cbv in list_byte_of_string "TERM".

Definition valueFileType : list byte :=
  Eval cbv in list_byte_of_string "VALUESTORE v0               ".

(** The trailer checks, on the 16 bytes read at [size - 16]; once the seek
    has succeeded the 16 bytes are there to read. *)
Definition trailerErrors (buf : list byte) (size : Z) : list verifyError :=
  (if bytesEqual (firstn 4 buf) [x00; x00; x00; x00]
   then [] else [ErrTrailerNotZero])
  ++ (let recorded := fromBigEndian (firstn 8 (skipn 4 buf)) in
      if int64 recorded >? size - _VALUE_FILE_TRAILER_SIZE
      then [ErrDataEndingOffset recorded (size - _VALUE_FILE_TRAILER_SIZE)]
      else [])
  ++ (if bytesEqual (skipn 12 buf) TERM then [] else [ErrTrailerNotTERM]).

Definition VerifyHeaderAndTrailer (f : fileOnDisk) : bool * list verifyError :=
  match rawBytes f with
  | None => (false, [ErrOpenRead])
  | Some raw =>
      if Z.of_nat (List.length raw) <? _VALUE_FILE_HEADER_SIZE
      then (false, [ErrReadHeader])
      else
        let buf := firstn 32 raw in
        if negb (bytesEqual (firstn 28 buf) valueFileType)
        then (false, [ErrUnknownFileType])
        else
          let checksumInterval := int32 (fromBigEndian (skipn 28 buf)) in
          if checksumInterval <? _VALUE_FILE_HEADER_SIZE
          then (false, [ErrChecksumIntervalTooSmall checksumInterval])
          else
            let size := Z.of_nat (List.length (payloadBytes f)) in
            let errs :=
              if size <? _VALUE_FILE_TRAILER_SIZE
              then [ErrSeekTrailer]
              else
                trailerErrors
                  (firstn 16
                     (skipn (Z.to_nat (size - _VALUE_FILE_TRAILER_SIZE))
                        (payloadBytes f)))
                  size in
            if writable f then (true, errs)
            else (false, errs ++ [ErrOpenWrite])
  end.


(** [errs[0]]. *)
Definition firstError {E} (errs : list E) : run E :=
  match errs with
  | [] => Fault IndexOutOfRange
  | e :: _ => Ret e
  end.

(** [DataSize] on a [ValueDirectFile] whose reader is not set yet:
    [df.size] is the size the checksummed reader reports. *)
Definition DataSize (f : fileOnDisk) : run (Z * option verifyError) :=
  let '(ok, errs) := VerifyHeaderAndTrailer f in
  if ok
  then Ret (Z.of_nat (List.length (payloadBytes f))
            - _VALUE_FILE_HEADER_SIZE - _VALUE_FILE_TRAILER_SIZE, None)
  else e <~ firstError errs ;; Ret (0, Some e).

(** Example data: a file that holds its header and nothing else. *)
Definition headerOnly : fileOnDisk :=
  let bytes := valueFileType ++ bigEndian 4 1024 in
  mkFileOnDisk (Some bytes) bytes true.

(** *** The TOC file *)

(** keyA:8, keyB:8, timestamp:8, offset:4, length:4 *)
Definition _VALUE_FILE_ENTRY_SIZE : Z := 32.

Definition tocFileType : list byte :=
  Eval cbv in list_byte_of_string "VALUESTORETOC v0            ".

Inductive tocError :=
| ErrTOCOpenRead
| ErrTOCReadHeader
| ErrUnknownTOCFileType
| ErrTOCChecksumIntervalTooSmall (checksumInterval : Z)
| ErrTOCSeekTrailer
| ErrTOCTrailerNotZero
| ErrTOCDataEndingOffset (recorded actual : Z)
| ErrTOCTrailerNotTERM
| ErrTOCNotAligned (offBy : Z)
| ErrTOCOpenWrite
| ErrClosedReader
| ErrEOF
| ErrUnexpectedEOF.

(** [df.readerTOC]: where it stands in the payload, and whether it has been
    closed. *)
Record tocReader := mkTocReader {
  readerPos : Z;
  readerClosed : bool
}.

(** [ValueDirectFile]: what is under [path] and [pathTOC], and the fields
    the TOC functions set. *)
Record ValueDirectFile := mkDirectFile {
  dataFile : fileOnDisk;
  tocFile : fileOnDisk;
  readerTOC : option tocReader;
  checksumIntervalTOC : Z;
  sizeTOC : Z
}.

Definition NewValueDirectFile (data toc : fileOnDisk) : ValueDirectFile :=
  mkDirectFile data toc None 0 0.

Definition withReaderTOC (df : ValueDirectFile) (r : option tocReader)
  : ValueDirectFile :=
  mkDirectFile (dataFile df) (tocFile df) r (checksumIntervalTOC df)
    (sizeTOC df).

Definition closeReaderTOC (df : ValueDirectFile) : ValueDirectFile :=
  match readerTOC df with
  | Some r => withReaderTOC df (Some (mkTocReader (readerPos r) true))
  | None => df
  end.

Definition tocTrailerErrors (buf : list byte) (size : Z) : list tocError :=
  (if bytesEqual (firstn 4 buf) [x00; x00; x00; x00]
   then [] else [ErrTOCTrailerNotZero])
  ++ (let recorded := fromBigEndian (firstn 8 (skipn 4 buf)) in
      if int64 recorded >? size - _VALUE_FILE_TRAILER_SIZE
      then [ErrTOCDataEndingOffset recorded (size - _VALUE_FILE_TRAILER_SIZE)]
      else [])
  ++ (if bytesEqual (skipn 12 buf) TERM then [] else [ErrTOCTrailerNotTERM])
  ++ (let rest :=
        Z.rem (size - _VALUE_FILE_HEADER_SIZE - _VALUE_FILE_TRAILER_SIZE)
          _VALUE_FILE_ENTRY_SIZE in
      if rest =? 0 then [] else [ErrTOCNotAligned rest]).

(** [VerifyHeaderAndTrailerTOC].  The header is read from [pathTOC] and the
    write seeker is opened on [path], as the source has it. *)
Definition VerifyHeaderAndTrailerTOC (df : ValueDirectFile)
  : ValueDirectFile * (bool * list tocError) :=
  let df := closeReaderTOC df in
  match rawBytes (tocFile df) with
  | None => (df, (false, [ErrTOCOpenRead]))
  | Some raw =>
      if Z.of_nat (List.length raw) <? _VALUE_FILE_HEADER_SIZE
      then (df, (false, [ErrTOCReadHeader]))
      else
        let buf := firstn 32 raw in
        if negb (bytesEqual (firstn 28 buf) tocFileType)
        then (df, (false, [ErrUnknownTOCFileType]))
        else
          let ci := int32 (fromBigEndian (skipn 28 buf)) in
          let df :=
            mkDirectFile (dataFile df) (tocFile df) (readerTOC df) ci
              (sizeTOC df) in
          if (ci <? _VALUE_FILE_HEADER_SIZE) || (ci <? _VALUE_FILE_TRAILER_SIZE)
          then (df, (false, [ErrTOCChecksumIntervalTooSmall ci]))
          else
            let size := Z.of_nat (List.length (payloadBytes (tocFile df))) in
            let errs :=
              if size <? _VALUE_FILE_TRAILER_SIZE
              then [ErrTOCSeekTrailer]
              else
                tocTrailerErrors
                  (firstn 16
                     (skipn (Z.to_nat (size - _VALUE_FILE_TRAILER_SIZE))
                        (payloadBytes (tocFile df))))
                  size in
            let df :=
              mkDirectFile (dataFile df) (tocFile df)
                (Some (mkTocReader size false)) ci size in
            if writable (dataFile df) then (df, (true, errs))
            else (closeReaderTOC df, (false, errs ++ [ErrTOCOpenWrite]))
  end.

(** [EntryCount]; Go's integer division truncates. *)
Definition EntryCount (df : ValueDirectFile)
  : run (ValueDirectFile * (Z * option tocError)) :=
  let '(df, (ok, errs)) :=
    match readerTOC df with
    | None => VerifyHeaderAndTrailerTOC df
    | Some _ => (df, (true, []))
    end in
  if ok
  then Ret (df, (Z.quot (sizeTOC df - _VALUE_FILE_HEADER_SIZE
                         - _VALUE_FILE_TRAILER_SIZE) _VALUE_FILE_ENTRY_SIZE,
                 None))
  else e <~ firstError errs ;; Ret (df, (0, Some e)).

(** One TOC entry as [FirstEntry] and [NextEntry] return it. *)
Record tocFields := mkTocFields {
  entryKeyA : Z;
  entryKeyB : Z;
  entryTimestamp : Z;
  entryOffset : Z;
  entryLength : Z
}.

Definition decodeEntry (buf : list byte) : tocFields :=
  mkTocFields (fromBigEndian (firstn 8 buf))
    (fromBigEndian (firstn 8 (skipn 8 buf)))
    (fromBigEndian (firstn 8 (skipn 16 buf)))
    (fromBigEndian (firstn 4 (skipn 24 buf)))
    (fromBigEndian (firstn 4 (skipn 28 buf))).

(** [io.ReadFull] of one entry at the reader's position. *)
Definition readEntry (df : ValueDirectFile) (r : tocReader)
  : ValueDirectFile * (option tocFields * option tocError) :=
  if readerClosed r then (df, (None, Some ErrClosedReader))
  else
    let rest := skipn (Z.to_nat (readerPos r)) (payloadBytes (tocFile df)) in
    let got := firstn 32 rest in
    let r' :=
      mkTocReader (readerPos r + Z.of_nat (List.length got)) false in
    let df' := withReaderTOC df (Some r') in
    match got with
    | [] => (df', (None, Some ErrEOF))
    | _ :: _ =>
        if (List.length got <? 32)%nat
        then (df', (None, Some ErrUnexpectedEOF))
        else (df', (Some (decodeEntry got), None))
    end.

(** [Seek(_VALUE_FILE_HEADER_SIZE, 0)] on the TOC reader. *)
Definition seekFirst (r : tocReader) : tocReader + tocError :=
  if readerClosed r then inr ErrClosedReader
  else inl (mkTocReader _VALUE_FILE_HEADER_SIZE false).

(** Seek to the first entry and read it. *)
Definition readFirst (df : ValueDirectFile)
  : run (ValueDirectFile * (option tocFields * option tocError)) :=
  match readerTOC df with
  | None => Fault NilDereference
  | Some r =>
      match seekFirst r with
      | inr e => Ret (df, (None, Some e))
      | inl r' => Ret (readEntry (withReaderTOC df (Some r')) r')
      end
  end.

Definition FirstEntry (df : ValueDirectFile)
  : run (ValueDirectFile * (option tocFields * option tocError)) :=
  let '(df, (ok, errs)) :=
    match readerTOC df with
    | None => VerifyHeaderAndTrailerTOC df
    | Some _ => (df, (true, []))
    end in
  if ok then readFirst df
  else e <~ firstError errs ;; Ret (df, (None, Some e)).

Definition NextEntry (df : ValueDirectFile)
  : run (ValueDirectFile * (option tocFields * option tocError)) :=
  match readerTOC df with
  | Some r => Ret (readEntry df r)
  | None =>
      let '(df, (ok, errs)) := VerifyHeaderAndTrailerTOC df in
      if ok then readFirst df
      else e <~ firstError errs ;; Ret (df, (None, Some e))
  end.

End valuedirectfile.

(** ** Answering a pull-replication message
    ([grouppullreplication_GEN_.go], [groupstore_GEN_.go]) *)

Module grouppullreplication.

Definition _GROUP_PULL_REPLICATION_MSG_HEADER_BYTES : Z := 44.

Record groupKey := mkGroupKey {
  keyA : Z;
  keyB : Z;
  nameKeyA : Z;
  nameKeyB : Z
}.

Definition sameKey (x y : groupKey) : bool :=
  (keyA x =? keyA y) && (keyB x =? keyB y)
  && (nameKeyA x =? nameKeyA y) && (nameKeyB x =? nameKeyB y).

(** One entry of the group location map, with the bytes its block holds
    for it. *)
Record groupItem := mkGroupItem {
  key : groupKey;
  timestampbits : Z;
  blockID : Z;
  offset : Z;
  length : Z;
  held : list byte
}.

(** Modelled from the spec: the group location map, which is not among the
    sources, by its entries; an entry with [blockID = 0] is a free slot. *)
Definition groupLocMap := list groupItem.

Definition live (it : groupItem) : bool := negb (blockID it =? 0).

Definition entryOf (vlm : groupLocMap) (k : groupKey) : option groupItem :=
  find (fun it => live it && sameKey (key it) k) vlm.

(** Modelled from the spec: [get(key) -> (ts, block_id, offset, length)],
    [(0,0,0,0)] if absent. *)
Definition Get (vlm : groupLocMap) (k : groupKey) : Z * Z * Z * Z :=
  match entryOf vlm k with
  | Some it => (timestampbits it, blockID it, offset it, length it)
  | None => (0, 0, 0, 0)
  end.

Fixpoint insertByKeyA (it : groupItem) (its : list groupItem)
  : list groupItem :=
  match its with
  | [] => [it]
  | x :: rest =>
      if keyA (key it) <? keyA (key x) then it :: its
      else x :: insertByKeyA it rest
  end.

Definition ascending (its : list groupItem) : list groupItem :=
  fold_right insertByKeyA [] its.

(** The entries a scan of [start .. stop] visits. *)
Definition scanned (start stop notMask cutoff : Z) (it : groupItem) : bool :=
  live it
  && (start <=? keyA (key it)) && (keyA (key it) <=? stop)
  && (Z.land (timestampbits it) notMask =? 0)
  && ((cutoff =? 0) || (timestampbits it <=? cutoff)).

Section Scan.
Context {S : Type}.
Variable cb : S -> groupKey -> Z -> Z -> S * bool.

Fixpoint visit (max : Z) (its : list groupItem) (s : S) : S * bool :=
  match its with
  | [] => (s, false)
  | it :: rest =>
      if max <=? 0 then (s, true)
      else
        let '(s1, more) := cb s (key it) (timestampbits it) (length it) in
        if more then visit (max - 1) rest s1 else (s1, true)
  end.

(** Modelled from the spec: [scan_callback(range_start, range_stop,
    require_mask, reject_mask, cutoff_ts, max_count, cb)] visits live
    entries in ascending-keyA order within the range, skips entries with
    [ts & reject_mask != 0] or [ts > cutoff_ts] (when non-zero), and stops
    when [cb] returns false or [max_count] is reached.  The spec gives no
    rule for [require_mask], and the responder passes 0; the resume key is
    left out, the responder drops it.  The result is the state [cb] has
    built and whether the scan stopped early. *)
Definition ScanCallback (vlm : groupLocMap)
    (start stop mask notMask cutoff max : Z) (s : S) : S * bool :=
  visit max (ascending (filter (scanned start stop notMask cutoff) vlm)) s.

End Scan.

(** Modelled from the spec: the key-and-timestamp bloom filter, by its
    membership test [mayHave]. *)
Definition groupKTBloomFilter := groupKey -> Z -> bool.

Definition mayHave (ktbf : groupKTBloomFilter) (k : groupKey) (ts : Z)
  : bool := ktbf k ts.

(** A received message: its 44 header bytes and the filter that the bytes
    after them decode to. *)
Record groupPullReplicationMsg := mkGroupPullReplicationMsg {
  header : list byte;
  filter : groupKTBloomFilter
}.

Definition Uint64 (b : list byte) : Z :=
  valuedirectfile.fromBigEndian (firstn 8 b).

Definition nodeID (prm : groupPullReplicationMsg) : Z := Uint64 (header prm).

Definition cutoff (prm : groupPullReplicationMsg) : Z :=
  Uint64 (skipn 20 (header prm)).

Definition rangeStart (prm : groupPullReplicationMsg) : Z :=
  Uint64 (skipn 28 (header prm)).

Definition rangeStop (prm : groupPullReplicationMsg) : Z :=
  Uint64 (skipn 36 (header prm)).

Definition ktBloomFilter (prm : groupPullReplicationMsg)
  : groupKTBloomFilter := filter prm.

(** The header as [newOutPullReplicationMsg] fills it. *)
Definition newOutPullReplicationMsg
    (localNode ringVersion partition cutoff rangeStart rangeStop : Z)
    (ktbf : groupKTBloomFilter) : groupPullReplicationMsg :=
  mkGroupPullReplicationMsg
    (bigEndian 8 localNode ++ bigEndian 8 (uint64 ringVersion)
     ++ bigEndian 4 partition ++ bigEndian 8 cutoff
     ++ bigEndian 8 rangeStart ++ bigEndian 8 rangeStop)
    ktbf.

(** What the responder asks of the ring (gholt/ring). *)
Record Ring := mkRing {
  ReplicaCount : Z;
  PartitionBitCount : Z;
  ResponsibleReplica : Z -> Z;
  LocalNode : Z
}.

(** Modelled from the spec: the bulk-set framing, an 8-byte ack-node-id
    header and, per group entry, keyA:8, keyB:8, nameKeyA:8, nameKeyB:8,
    ts:8, length:4 and the value. *)
Definition _GROUP_BULK_SET_MSG_HEADER_LENGTH : Z := 8.
Definition _GROUP_BULK_SET_MSG_ENTRY_HEADER_LENGTH : Z := 44.

Record bulkSetEntry := mkBulkSetEntry {
  entryKey : groupKey;
  entryTimestampbits : Z;
  entryValue : list byte
}.

Record groupBulkSetMsg := mkGroupBulkSetMsg {
  bsmHeader : list byte;
  body : list bulkSetEntry
}.

Definition entryLength (e : bulkSetEntry) : Z :=
  _GROUP_BULK_SET_MSG_ENTRY_HEADER_LENGTH
  + Z.of_nat (List.length (entryValue e)).

Definition bodyLength (b : list bulkSetEntry) : Z :=
  fold_right (fun e n => entryLength e + n) 0 b.

(** Modelled from the spec: a new outgoing bulk-set message; its header
    names the local node as the one to acknowledge to. *)
Definition newOutBulkSetMsg (ring : Ring) : groupBulkSetMsg :=
  mkGroupBulkSetMsg (bigEndian 8 (LocalNode ring)) [].

(** Modelled from the spec: adding an entry is rejected if it would exceed
    [bulkSetMsgCap]. *)
Definition add (msgCap : Z) (bsm : groupBulkSetMsg)
    (k : groupKey) (t : Z) (v : list byte) : groupBulkSetMsg * bool :=
  let e := mkBulkSetEntry k t v in
  if _GROUP_BULK_SET_MSG_HEADER_LENGTH + bodyLength (body bsm)
     + entryLength e >? msgCap
  then (bsm, false)
  else (mkGroupBulkSetMsg (bsmHeader bsm) (body bsm ++ [e]), true).

(** [DefaultGroupStore.read].  Modelled from the spec: the read of the
    location's block, which appends the entry's bytes to [value]. *)
Definition read (vlm : groupLocMap) (k : groupKey) (value : list byte)
  : Z * list byte * option valuestore.error :=
  let '(ts, id, _, _) := Get vlm k in
  if (id =? 0)
     || negb (Z.land ts valuestore._TSB_DELETION =? 0)
     || negb (Z.land ts valuestore._TSB_LOCAL_REMOVAL =? 0)
  then (ts, value, Some valuestore.ErrNotFound)
  else
    match entryOf vlm k with
    | Some it => (ts, value ++ held it, None)
    | None => (ts, value, Some valuestore.ErrNotFound)
    end.

(** The keys picked so far, [k], and what is left of the budget, [l]. *)
Record picked := mkPicked {
  k : list groupKey;
  l : Z
}.

(** The closure [callback] of [inPullReplication]. *)
Definition callback (tombstoneCutoff : Z) (ktbf : groupKTBloomFilter)
    (s : picked) (key : groupKey) (timestampbits length : Z)
  : picked * bool :=
  if (Z.land timestampbits valuestore._TSB_DELETION =? 0)
     || (timestampbits >=? tombstoneCutoff)
  then
    if negb (mayHave ktbf key timestampbits)
    then
      let s1 :=
        mkPicked (k s ++ [key])
          (int64 (l s - (_GROUP_BULK_SET_MSG_ENTRY_HEADER_LENGTH
                         + int64 length))) in
      if l s1 <=? 0 then (s1, false) else (s1, true)
    else (s, true)
  else (s, true).

(** Where the first scan starts. *)
Definition scanStartOf (ring : Ring) (prm : groupPullReplicationMsg)
  : run Z :=
  let partition :=
    uint32 (Z.shiftr (rangeStart prm)
              (uint16 (64 - PartitionBitCount ring))) in
  if uint64 (ReplicaCount ring) =? 0 then Fault DivideByZero
  else
    Ret (uint64 (rangeStart prm
                 + uint64 (uint64 (rangeStop prm - rangeStart prm)
                           / uint64 (ReplicaCount ring)
                           * uint64 (ResponsibleReplica ring partition)))).

(** The two scans; [now] is [brimtime.TimeToUnixMicro(time.Now())] and
    [age] is [tombstoneDiscardState.age]. *)
Definition pick (vlm : groupLocMap) (ring : Ring)
    (prm : groupPullReplicationMsg) (now age msgCap : Z) : run picked :=
  let tombstoneCutoff :=
    uint64 (uint64 (Z.shiftl (uint64 now) valuestore._TSB_UTIL_BITS) - age) in
  let cb := callback tombstoneCutoff (ktBloomFilter prm) in
  scanStart <~ scanStartOf ring prm ;;
  let scanStop := rangeStop prm in
  let s1 :=
    fst (ScanCallback cb vlm scanStart scanStop 0
           valuestore._TSB_LOCAL_REMOVAL (cutoff prm) MaxUint64
           (mkPicked [] (int64 msgCap))) in
  if l s1 >? 0
  then
    let scanStop := uint64 (scanStart - 1) in
    let scanStart := rangeStart prm in
    Ret (fst (ScanCallback cb vlm scanStart scanStop 0
                valuestore._TSB_LOCAL_REMOVAL (cutoff prm) MaxUint64 s1))
  else Ret s1.

(** The loop that reads each picked key again and fills the bulk-set. *)
Fixpoint fill (vlm : groupLocMap) (msgCap : Z) (ks : list groupKey)
    (bsm : groupBulkSetMsg) : groupBulkSetMsg :=
  match ks with
  | [] => bsm
  | key :: rest =>
      let '(t, v, err) := read vlm key [] in
      let skip :=
        match err with
        | Some valuestore.ErrNotFound => t =? 0
        | Some _ => true
        | None => false
        end in
      if skip then fill vlm msgCap rest bsm
      else if Z.land t valuestore._TSB_LOCAL_REMOVAL =? 0
      then
        let '(bsm1, ok) := add msgCap bsm key t v in
        if ok then fill vlm msgCap rest bsm1 else bsm
      else fill vlm msgCap rest bsm
  end.

(** One turn of the loop of [inPullReplication], for a message [prm] and a
    ring that is there: the bulk-set handed to [MsgToNode] and the node it
    goes to, if any. *)
Definition inPullReplication (vlm : groupLocMap) (ring : Ring)
    (prm : groupPullReplicationMsg) (now age msgCap : Z)
  : run (option (groupBulkSetMsg * Z)) :=
  s <~ pick vlm ring prm now age msgCap ;;
  match k s with
  | [] => Ret None
  | _ :: _ =>
      let bsm := newOutBulkSetMsg ring in
      let bsm :=
        mkGroupBulkSetMsg (bigEndian 8 0 ++ skipn 8 (bsmHeader bsm))
          (body bsm) in
      let bsm := fill vlm msgCap (k s) bsm in
      match body bsm with
      | [] => Ret None
      | _ :: _ => Ret (Some (bsm, nodeID prm))
      end
  end.

(** A store of a two-partition ring that holds one entry of each
    partition. *)
Definition more : list byte := Eval cbv in list_byte_of_string "more".

Definition inFirstPartition : groupItem :=
  mkGroupItem (mkGroupKey 1 2 3 4) 1280 1 0 7 valuestore.testing.

Definition inSecondPartition : groupItem :=
  mkGroupItem (mkGroupKey (2 ^ 63 + 5) 6 7 8) 2560 1 7 4 more.

Definition twoPartitions : groupLocMap :=
  [inFirstPartition; inSecondPartition].

(** Three replicas; the local node, 9, is replica [replica] of every
    partition. *)
Definition ringOf (replica : Z) : Ring := mkRing 3 1 (fun _ => replica) 9.

(** The summary node 7 sends for the whole of partition 0 when it holds
    nothing of it. *)
Definition emptySummary : groupPullReplicationMsg :=
  newOutPullReplicationMsg 7 1 0 256000 0 (2 ^ 63 - 1) (fun _ _ => false).

(** *** The outgoing side *)

Definition Uint32 (b : list byte) : Z :=
  valuedirectfile.fromBigEndian (firstn 4 b).

Definition ringVersion (prm : groupPullReplicationMsg) : Z :=
  int64 (Uint64 (skipn 8 (header prm))).

Definition partition (prm : groupPullReplicationMsg) : Z :=
  Uint32 (skipn 16 (header prm)).

(** Go's [x << s] on [uint64]: a count of 64 or more gives 0. *)
Definition shl64 (x s : Z) : Z :=
  if s <? 64 then uint64 (Z.shiftl x s) else 0.

(** [rb] and [re] of the closure [f] of [outPullReplicationPass]: the key
    range worker [w] of [ws] asks about in partition [p]. *)
Definition outRange (partitionBitCount ws p w : Z) : run (Z * Z) :=
  let rightwardPartitionShift := uint16 (64 - partitionBitCount) in
  let partitionCount := shl64 1 partitionBitCount in
  if ws =? 0 then Fault DivideByZero
  else
    let pb := shl64 p rightwardPartitionShift in
    let rb :=
      uint64 (pb + uint64 (shl64 1 rightwardPartitionShift / ws * w)) in
    let re :=
      if uint64 (w + 1) =? ws then
        if uint64 (p + 1) =? partitionCount then MaxUint64
        else uint64 (shl64 (uint64 (p + 1)) rightwardPartitionShift - 1)
      else
        uint64 (uint64 (pb + uint64 (shl64 1 rightwardPartitionShift / ws
                                     * uint64 (w + 1))) - 1) in
    Ret (rb, re).

(** [a, a+1, ..., b-1]. *)
Definition upTo (a b : Z) : list Z :=
  map (fun i => a + Z.of_nat i) (seq 0 (Z.to_nat (b - a))).

(** The partitions worker [w] of [outPullReplicationPass] calls [f] for, in
    order, in a pass that is not aborted and sees no ring change. *)
Definition passPartitions (partitionBitCount ws w : Z)
    (Responsible : Z -> bool) : run (list Z) :=
  let partitionCount := shl64 1 partitionBitCount in
  if ws =? 0 then Fault DivideByZero
  else
    let pb := uint64 (partitionCount / ws * w) in
    Ret (List.filter (fun p => Responsible (uint32 p))
           (upTo pb partitionCount ++ upTo 0 pb)).

End grouppullreplication.

(** ** The TOC pipeline of the value store ([memClearer] and [tocWriter] of
    [valuestore_GEN_.go]) *)

Module valuestore_toc.
Import valuestore.

Definition Uint64 (b : list byte) : Z :=
  valuedirectfile.fromBigEndian (firstn 8 b).

Definition Uint32 (b : list byte) : Z :=
  valuedirectfile.fromBigEndian (firstn 4 b).

Definition headText : list byte :=
  Eval cbv in list_byte_of_string "VALUESTORETOC v0                ".

(** [head] of [tocWriter], the checksum interval put at offset 28. *)
Definition head (checksumInterval : Z) : list byte :=
  patch headText 28 (bigEndian 4 (uint32 checksumInterval)).

(** [term] of [tocWriter] with the offset put at 4: 16 bytes, ["TERM"] at
    offset 12. *)
Definition term (offset : Z) : list byte :=
  patch (patch (repeat x00 16) 12 valuedirectfile.TERM) 4
    (bigEndian 8 offset).

(** A TOC file being written: the name it was created under and what has
    been written to its checksummed writer. *)
Record tocFileWriter := mkTocFileWriter {
  tocName : Z;
  written : list byte
}.

(** The local variables of [tocWriter], the two store fields it keeps
    ([activeTOCA], [activeTOCB]), the channels it sends on and the TOC files
    it has closed.  Writes and [os.Create] succeed. *)
Record tocWriterVars := mkTocWriter {
  memClearersFlushLeft : Z;
  writerA : option tocFileWriter;
  offsetA : Z;
  writerB : option tocFileWriter;
  offsetB : Z;
  activeTOCA : Z;
  activeTOCB : Z;
  closedTOCs : list tocFileWriter;
  flushedChan : nat;
  freeTOCBlockChan : list slice
}.

(** [tocWriter] before its first turn; [memClearers] is
    [len(store.freeableMemBlockChans)]. *)
Definition newTocWriter (memClearers : Z) (free : list slice)
  : tocWriterVars :=
  mkTocWriter memClearers None 0 None 0 0 0 [] 0 free.

(** Write [term] and close. *)
Definition finish (w : tocFileWriter) (offset : Z) : tocFileWriter :=
  mkTocFileWriter (tocName w) (written w ++ term offset).

Definition writeTo (w : option tocFileWriter) (bs : list byte)
  : run (option tocFileWriter) :=
  match w with
  | None => Fault NilDereference
  | Some f => Ret (Some (mkTocFileWriter (tocName f) (written f ++ bs)))
  end.

(** One turn of the loop of [tocWriter] on what it receives from
    [pendingTOCBlockChan]; [None] is the nil block. *)
Definition tocWriter (checksumInterval memClearers : Z)
    (v : tocWriterVars) (t : option slice) : run tocWriterVars :=
  match t with
  | None =>
      let left := memClearersFlushLeft v - 1 in
      if left >? 0 then
        Ret (mkTocWriter left (writerA v) (offsetA v) (writerB v) (offsetB v)
               (activeTOCA v) (activeTOCB v) (closedTOCs v) (flushedChan v)
               (freeTOCBlockChan v))
      else
        let '(closed, activeB, offB) :=
          match writerB v with
          | Some w => (closedTOCs v ++ [finish w (offsetB v)], 0, 0)
          | None => (closedTOCs v, activeTOCB v, offsetB v)
          end in
        let '(closed, activeA, offA) :=
          match writerA v with
          | Some w => (closed ++ [finish w (offsetA v)], 0, 0)
          | None => (closed, activeTOCA v, offsetA v)
          end in
        Ret (mkTocWriter memClearers None offA None offB activeA activeB
               closed (S (flushedChan v)) (freeTOCBlockChan v))
  | Some t =>
      v1 <~
        (if (8 <? len t)%nat then
           let bts := Uint64 (bytesOf t) in
           let entries := skipn 8 (bytesOf t) in
           let n := Z.of_nat (len t) - 8 in
           if bts =? activeTOCA v then
             w <~ writeTo (writerA v) entries ;;
             Ret (mkTocWriter (memClearersFlushLeft v) w
                    (uint64 (offsetA v + n)) (writerB v) (offsetB v)
                    (activeTOCA v) (activeTOCB v) (closedTOCs v)
                    (flushedChan v) (freeTOCBlockChan v))
           else if bts =? activeTOCB v then
             w <~ writeTo (writerB v) entries ;;
             Ret (mkTocWriter (memClearersFlushLeft v) (writerA v)
                    (offsetA v) w (uint64 (offsetB v + n))
                    (activeTOCA v) (activeTOCB v) (closedTOCs v)
                    (flushedChan v) (freeTOCBlockChan v))
           else
             let closed :=
               match writerB v with
               | Some w => closedTOCs v ++ [finish w (offsetB v)]
               | None => closedTOCs v
               end in
             Ret (mkTocWriter (memClearersFlushLeft v)
                    (Some (mkTocFileWriter bts
                             (head checksumInterval ++ entries)))
                    (uint64 (_VALUE_FILE_HEADER_SIZE + n))
                    (writerA v) (offsetA v)
                    bts (activeTOCA v) closed
                    (flushedChan v) (freeTOCBlockChan v))
         else Ret v) ;;
      Ret (mkTocWriter (memClearersFlushLeft v1) (writerA v1) (offsetA v1)
             (writerB v1) (offsetB v1) (activeTOCA v1) (activeTOCB v1)
             (closedTOCs v1) (flushedChan v1)
             (freeTOCBlockChan v1 ++ [mkSlice (arr t) 0]))
  end.

(** The turns of [tocWriter] on a sequence of received blocks. *)
Fixpoint tocWriterRun (checksumInterval memClearers : Z)
    (v : tocWriterVars) (ts : list (option slice)) : run tocWriterVars :=
  match ts with
  | [] => Ret v
  | t :: rest =>
      v1 <~ tocWriter checksumInterval memClearers v t ;;
      tocWriterRun checksumInterval memClearers v1 rest
  end.

(** A TOC block as [memClearer] fills it: the name timestamp of the value
    file and then the entries. *)
Definition tocBlock (timestampnano : Z) (entries : list byte) (room : nat)
  : slice :=
  mkSlice (bigEndian 8 timestampnano ++ entries ++ repeat x00 room)
    (8 + List.length entries).

(** Example data: a TOC file of two entries under checksum interval 1024; of
    the raw bytes only the header is read. *)
Definition writtenTOC : valuedirectfile.fileOnDisk :=
  let bytes :=
    head 1024 ++ tocEntry 1 2 1280 0 7 ++ tocEntry 3 4 512 7 5 ++ term 96 in
  valuedirectfile.mkFileOnDisk (Some bytes) bytes false.

(** The same file opened by a [ValueDirectFile], the reader standing at the
    second entry, and at the trailer. *)
Definition openTOC : valuedirectfile.ValueDirectFile :=
  valuedirectfile.mkDirectFile
    (valuedirectfile.mkFileOnDisk None [] true) writtenTOC
    (Some (valuedirectfile.mkTocReader 64 false)) 1024 112.

Definition atTrailerTOC : valuedirectfile.ValueDirectFile :=
  valuedirectfile.mkDirectFile
    (valuedirectfile.mkFileOnDisk None [] true) writtenTOC
    (Some (valuedirectfile.mkTocReader 96 false)) 1024 112.

End valuestore_toc.

(** ** Reading a file header back ([storefile]) *)

Module valuestorefile_header.

Inductive headerError :=
| ErrReadFull
| ErrUnknownFileType
| ErrChecksumIntervalTooSmall (checksumInterval : Z).

(** [head] of [createValueReadWriteFile], [store.checksumInterval] put at
    offset 28. *)
Definition headText : list byte :=
  Eval cbv in list_byte_of_string "VALUESTORE v0                   ".

Definition head (checksumInterval : Z) : list byte :=
  patch headText 28 (bigEndian 4 checksumInterval).

(** [_readValueHeader] on the bytes [fpr] delivers from position 0. *)
Definition _readValueHeader (fpr : list byte) (toc : bool)
  : Z * option headerError :=
  if (List.length fpr <? 32)%nat then (0, Some ErrReadFull)
  else
    let buf := firstn 32 fpr in
    let cmp :=
      if toc then valuedirectfile.tocFileType
      else valuedirectfile.valueFileType in
    if negb (valuedirectfile.bytesEqual (firstn 28 buf) cmp)
    then (0, Some ErrUnknownFileType)
    else
      let checksumInterval :=
        valuedirectfile.fromBigEndian (firstn 4 (skipn 28 buf)) in
      if checksumInterval <? valuedirectfile._VALUE_FILE_HEADER_SIZE
      then (0, Some (ErrChecksumIntervalTooSmall checksumInterval))
      else (checksumInterval, None).

Definition readValueHeader (fpr : list byte) : Z * option headerError :=
  _readValueHeader fpr false.

Definition readValueHeaderTOC (fpr : list byte) : Z * option headerError :=
  _readValueHeader fpr true.

End valuestorefile_header.

(** ** Writing a value file ([valueStoreFile.write]) *)

Module valuestorefile_write.

(** [valueStoreFileWriteBuf]: [buf] is [buf[:offset]], what the buffer
    holds so far.  The sequence number only orders the buffers for the
    writer goroutine. *)
Record valueStoreFileWriteBuf := mkWriteBuf {
  buf : list byte;
  memBlocks : list valuestore.valueMemBlock
}.

(** [valueStoreFile] as far as writing goes.  [writerFP] is what has been
    written to the file, [freeable] the blocks sent to
    [store.freeableMemBlockChans] with the index of the channel, oldest
    first.  Writes to the file succeed, and a buffer handed to the
    checksummers is on disk, and its blocks are sent on, before the next
    statement of [write] runs. *)
Record valueStoreFile := mkWriting {
  id : Z;
  writerFP : list byte;
  writerOffset : Z;
  writerCurrentBuf : option valueStoreFileWriteBuf;
  freeableMemBlockChanIndex : Z;
  freeable : list (Z * valuestore.valueMemBlock)
}.

Section Writing.
(** [murmur3.Sum32]. *)
Variable Sum32 : list byte -> Z.
(** [store.checksumInterval]. *)
Variable checksumInterval : Z.
(** [len(store.freeableMemBlockChans)]. *)
Variable memClearers : Z.

(** [make([]byte, store.checksumInterval+4)]. *)
Definition bufLen : Z := uint32 (checksumInterval + 4).

(** [createValueReadWriteFile], with the id [store.addLocBlock] gives the
    file: the header is copied into the first buffer. *)
Definition createValueReadWriteFile (fileID : Z) : valueStoreFile :=
  let held :=
    firstn (Z.to_nat bufLen) (valuestorefile_header.head checksumInterval) in
  mkWriting fileID [] (Z.of_nat (List.length held))
    (Some (mkWriteBuf held [])) 0 [].

(** The block goes to [store.freeableMemBlockChans] at
    [fl.freeableMemBlockChanIndex], and the index moves on. *)
Definition free (fl : valueStoreFile) (memBlock : valuestore.valueMemBlock)
  : run valueStoreFile :=
  let i := freeableMemBlockChanIndex fl in
  if (0 <=? i) && (i <? memClearers)
  then Ret (mkWriting (id fl) (writerFP fl) (writerOffset fl)
              (writerCurrentBuf fl)
              (if i + 1 >=? memClearers then 0 else i + 1)
              (freeable fl ++ [(i, memBlock)]))
  else Fault IndexOutOfRange.

(** [fl.freeableMemBlockChanIndex] is the index of one of the channels. *)
Definition indexOK (fl : valueStoreFile) : Prop :=
  0 <= freeableMemBlockChanIndex fl < memClearers.

Fixpoint freeAll (fl : valueStoreFile) (bs : list valuestore.valueMemBlock)
  : run valueStoreFile :=
  match bs with
  | [] => Ret fl
  | b :: rest => fl1 <~ free fl b ;; freeAll fl1 rest
  end.

(** The copy loop of [write]; [left] is what of [memBlock.values] is still
    to go, [cur] the current buffer.  A buffer that is full gets its
    checksum behind the interval, is written to the file, and its blocks
    are sent on; the next buffer starts empty. *)
Fixpoint writeLoop (fuel : nat) (fl : valueStoreFile)
    (cur : valueStoreFileWriteBuf) (left : list byte)
  : run (valueStoreFile * valueStoreFileWriteBuf) :=
  match left with
  | [] => Ret (fl, cur)
  | _ :: _ =>
      match fuel with
      | O => Fault Unfinished
      | S fuel' =>
          let offset := Z.of_nat (List.length (buf cur)) in
          if (checksumInterval <? offset) || (bufLen <? checksumInterval)
          then Fault SliceBounds
          else
            let n :=
              Z.to_nat (Z.min (checksumInterval - offset)
                          (Z.of_nat (List.length left))) in
            let held := buf cur ++ firstn n left in
            let fl1 :=
              mkWriting (id fl) (writerFP fl)
                (uint32 (writerOffset fl + Z.of_nat n))
                (writerCurrentBuf fl) (freeableMemBlockChanIndex fl)
                (freeable fl) in
            if Z.of_nat (List.length held) >=? checksumInterval
            then
              fl2 <~ freeAll
                       (mkWriting (id fl1)
                          (writerFP fl1 ++ held ++ bigEndian 4 (Sum32 held))
                          (writerOffset fl1) (writerCurrentBuf fl1)
                          (freeableMemBlockChanIndex fl1) (freeable fl1))
                       (memBlocks cur) ;;
              writeLoop fuel' fl2 (mkWriteBuf [] []) (skipn n left)
            else
              writeLoop fuel' fl1 (mkWriteBuf held (memBlocks cur))
                (skipn n left)
      end
  end.

Definition withCurrentBuf (fl : valueStoreFile)
    (cur : option valueStoreFileWriteBuf) : valueStoreFile :=
  mkWriting (id fl) (writerFP fl) (writerOffset fl) cur
    (freeableMemBlockChanIndex fl) (freeable fl).

(** [write]; [None] is the nil block.  The block gets the id of the file
    and the offset its values start at.  Two turns of the loop take at
    least one byte. *)
Definition write (fl : valueStoreFile)
    (memBlock : option valuestore.valueMemBlock) : run valueStoreFile :=
  match memBlock with
  | None => Ret fl
  | Some mb =>
      let mb :=
        valuestore.mkMemBlock (valuestore.id mb) (id fl) (writerOffset fl)
          (valuestore.toc mb) (valuestore.values mb) in
      if (len (valuestore.values mb) <? 1)%nat then free fl mb
      else
        cur <~ orFault NilDereference (writerCurrentBuf fl) ;;
        '(fl1, cur1) <~
          writeLoop (2 * len (valuestore.values mb) + 1) fl cur
            (bytesOf (valuestore.values mb)) ;;
        if (List.length (buf cur1) =? 0)%nat
        then free (withCurrentBuf fl1 (Some cur1)) mb
        else Ret (withCurrentBuf fl1
                    (Some (mkWriteBuf (buf cur1) (memBlocks cur1 ++ [mb]))))
  end.

(** [closeWriting] with what it does to the blocks of the last buffer; a
    file closed before is left as it is. *)
Definition closeWriting (fl : valueStoreFile) : run valueStoreFile :=
  match writerCurrentBuf fl with
  | None => Ret fl
  | Some cur =>
      file <~ valuestorefile.closeWriting Sum32 checksumInterval (buf cur)
                (writerFP fl) ;;
      fl1 <~ freeAll
               (mkWriting (id fl) file (writerOffset fl) (writerCurrentBuf fl)
                  (freeableMemBlockChanIndex fl) (freeable fl))
               (memBlocks cur) ;;
      Ret (withCurrentBuf fl1 None)
  end.

(** [write] for each block in turn. *)
Fixpoint writeAll (fl : valueStoreFile) (bs : list valuestore.valueMemBlock)
  : run valueStoreFile :=
  match bs with
  | [] => Ret fl
  | b :: rest => fl1 <~ write fl (Some b) ;; writeAll fl1 rest
  end.

(** A file created, written block by block and closed. *)
Definition writtenFile (fileID : Z) (bs : list valuestore.valueMemBlock)
  : run valueStoreFile :=
  fl <~ writeAll (createValueReadWriteFile fileID) bs ;;
  closeWriting fl.

(** The layout of a checksummed file: the payload in intervals of
    [checksumInterval] bytes, each interval that more payload follows with
    its checksum behind it. *)
Fixpoint checksummed (fuel : nat) (p : list byte) : list byte :=
  match fuel with
  | O => p
  | S fuel' =>
      if Z.of_nat (List.length p) <=? checksumInterval then p
      else
        let c := firstn (Z.to_nat checksumInterval) p in
        c ++ bigEndian 4 (Sum32 c)
          ++ checksummed fuel' (skipn (Z.to_nat checksumInterval) p)
  end.

Definition layout (p : list byte) : list byte :=
  checksummed (List.length p) p.

End Writing.

(** What the blocks hold, one after the other. *)
Definition valuesOf (bs : list valuestore.valueMemBlock) : list byte :=
  List.concat (map (fun b => bytesOf (valuestore.values b)) bs).

(** The blocks as [write] hands them on, each with the id of the file and
    the offset its values start at. *)
Fixpoint stamped (fileID offset : Z) (bs : list valuestore.valueMemBlock)
  : list valuestore.valueMemBlock :=
  match bs with
  | [] => []
  | b :: rest =>
      valuestore.mkMemBlock (valuestore.id b) fileID offset
        (valuestore.toc b) (valuestore.values b)
      :: stamped fileID
           (uint32 (offset
                    + Z.of_nat (List.length (bytesOf (valuestore.values b)))))
           rest
  end.

(** Two blocks of five and three bytes, and an empty one between them. *)
Definition threeBlocks : list valuestore.valueMemBlock :=
  [valuestore.mkMemBlock 1 0 0 (makeSlice 0)
     (mkSlice [x01; x02; x03; x04; x05; x00; x00; x00] 5);
   valuestore.mkMemBlock 2 0 0 (makeSlice 0) (makeSlice 8);
   valuestore.mkMemBlock 3 0 0 (makeSlice 0) (mkSlice [x0a; x0b; x0c] 3)].

End valuestorefile_write.

(** ** Moving the index over to the file ([memClearer]) *)

Module valuestore_memclearer.
Import valuestore.

(** The local variables of one [memClearer] goroutine and the two channels
    of TOC blocks: [freeTOCBlockChan] with the block to be received next
    first, [pendingTOCBlockChan] with what has been sent, oldest first. *)
Record memClearerVars := mkMemClearer {
  tb : option slice;
  tbTS : Z;
  tbOffset : Z;
  freeTOCBlockChan : list slice;
  pendingTOCBlockChan : list (option slice)
}.

(** [store.pendingTOCBlockChan <- b]. *)
Definition sendTOC (v : memClearerVars) (b : option slice) : memClearerVars :=
  mkMemClearer (tb v) (tbTS v) (tbOffset v) (freeTOCBlockChan v)
    (pendingTOCBlockChan v ++ [b]).

Definition withTb (v : memClearerVars) (t : option slice) : memClearerVars :=
  mkMemClearer t (tbTS v) (tbOffset v) (freeTOCBlockChan v)
    (pendingTOCBlockChan v).

(** [store.pendingTOCBlockChan <- tb; tb = nil] where [cond] holds of a
    block that is there. *)
Definition passOnIf (cond : slice -> bool) (v : memClearerVars)
  : memClearerVars :=
  match tb v with
  | Some t => if cond t then withTb (sendTOC v (Some t)) None else v
  | None => v
  end.

(** [binary.BigEndian.Uint64(s[o:])]. *)
Definition uint64From (s : slice) (o : Z) : run Z :=
  if (o <? 0) || (Z.of_nat (len s) <? o) then Fault SliceBounds
  else if Z.of_nat (len s) - o <? 8 then Fault IndexOutOfRange
  else Ret (valuestore_toc.Uint64 (skipn (Z.to_nat o) (bytesOf s))).

(** [binary.BigEndian.Uint32(s[o:])]. *)
Definition uint32From (s : slice) (o : Z) : run Z :=
  if (o <? 0) || (Z.of_nat (len s) <? o) then Fault SliceBounds
  else if Z.of_nat (len s) - o <? 4 then Fault IndexOutOfRange
  else Ret (valuestore_toc.Uint32 (skipn (Z.to_nat o) (bytesOf s))).

(** [if tb == nil]: a block from [store.freeTOCBlockChan], cut to 8 bytes
    that take the timestamp of the file; [timestampnano] is the call
    [fl.timestampnano()]. *)
Definition startTb (v : memClearerVars) (timestampnano : run Z)
  : run memClearerVars :=
  match tb v with
  | Some _ => Ret v
  | None =>
      match freeTOCBlockChan v with
      | [] => Fault WouldBlock
      | t :: rest =>
          timestampnano <~ timestampnano ;;
          t1 <~ sliceTo t 8 ;;
          t2 <~ PutUint64 t1 0 (uint64 timestampnano) ;;
          Ret (mkMemClearer (Some t2) timestampnano 8 rest
                 (pendingTOCBlockChan v))
      end
  end.

(** The body of the loop over [memBlock.toc] at [memBlockTOCOffset];
    [timestampnano] is the call [fl.timestampnano()]. *)
Definition clearEntry (st : DefaultValueStore) (v : memClearerVars)
    (memBlock : valueMemBlock) (timestampnano : run Z)
    (memBlockTOCOffset : Z)
  : run (DefaultValueStore * memClearerVars) :=
  keyA <~ uint64From (toc memBlock) memBlockTOCOffset ;;
  keyB <~ uint64From (toc memBlock) (memBlockTOCOffset + 8) ;;
  timestampbits <~ uint64From (toc memBlock) (memBlockTOCOffset + 16) ;;
  '(blockID, offset, length) <~
    (if Z.land timestampbits _TSB_LOCAL_REMOVAL =? 0
     then
       o <~ uint32From (toc memBlock) (memBlockTOCOffset + 24) ;;
       l <~ uint32From (toc memBlock) (memBlockTOCOffset + 28) ;;
       Ret (fileID memBlock, uint32 (fileOffset memBlock + o), l)
     else Ret (0, 0, 0)) ;;
  '(m', old) <~
    orFault NilDereference
      (valuelocmap.SetLoc keyA keyB timestampbits blockID offset length true
         (locmap st)) ;;
  let st1 := withLocmap st m' in
  if old >? timestampbits then Ret (st1, v)
  else
    let v1 :=
      passOnIf
        (fun t => tbOffset v + _VALUE_FILE_ENTRY_SIZE >? Z.of_nat (cap t)) v in
    v2 <~ startTb v1 timestampnano ;;
    t <~ orFault NilDereference (tb v2) ;;
    let o := tbOffset v2 in
    t1 <~ sliceTo t (o + _VALUE_FILE_ENTRY_SIZE) ;;
    t2 <~ PutUint64 t1 o keyA ;;
    t3 <~ PutUint64 t2 (o + 8) keyB ;;
    t4 <~ PutUint64 t3 (o + 16) timestampbits ;;
    t5 <~ PutUint32 t4 (o + 24) offset ;;
    t6 <~ PutUint32 t5 (o + 28) length ;;
    Ret (st1,
         mkMemClearer (Some t6) (tbTS v2) (o + _VALUE_FILE_ENTRY_SIZE)
           (freeTOCBlockChan v2) (pendingTOCBlockChan v2)).

(** The loop over the entries of [memBlock.toc]; an entry takes 32 bytes,
    so that [len(memBlock.toc)] turns are enough. *)
Fixpoint clearEntries (fuel : nat) (st : DefaultValueStore)
    (v : memClearerVars) (memBlock : valueMemBlock)
    (timestampnano : run Z) (memBlockTOCOffset : Z)
  : run (DefaultValueStore * memClearerVars) :=
  if memBlockTOCOffset <? Z.of_nat (len (toc memBlock)) then
    match fuel with
    | O => Fault Unfinished
    | S fuel' =>
        '(st1, v1) <~
          clearEntry st v memBlock timestampnano memBlockTOCOffset ;;
        clearEntries fuel' st1 v1 memBlock timestampnano
          (memBlockTOCOffset + _VALUE_FILE_ENTRY_SIZE)
    end
  else Ret (st, v).

Section MemClearer.
(** [valueMemBlock.timestampnano], which is not among the sources: what
    [store.locBlock(memBlock.fileID).timestampnano()] gives if that block
    is a mem block. *)
Variable memTimestampnano : valueMemBlock -> Z.

(** One turn of the [memClearer] loop on what it receives from its
    [freeableMemBlockChan]. *)
Definition memClearer (st : DefaultValueStore) (v : memClearerVars)
    (msg : memBlockMsg) : run (DefaultValueStore * memClearerVars) :=
  match msg with
  | flushValueMemBlock =>
      Ret (st, sendTOC (passOnIf (fun _ => true) v) None)
  | memBlockPtr slot =>
      memBlock <~ memBlockAt st slot ;;
      fl <~ locBlock st (fileID memBlock) ;;
      let timestampnano :=
        match fl with
        | None => Fault NilDereference
        | Some (fileLoc f) => Ret (nameTimestamp f)
        | Some (memBlockLoc m) => Ret (memTimestampnano m)
        end in
      v1 <~
        match tb v with
        | Some _ =>
            ts <~ timestampnano ;;
            Ret (passOnIf (fun _ => negb (tbTS v =? ts)) v)
        | None => Ret v
        end ;;
      '(st1, v2) <~
        clearEntries (len (toc memBlock)) st v1 memBlock timestampnano 0 ;;
      toc0 <~ sliceTo (toc memBlock) 0 ;;
      values0 <~ sliceTo (values memBlock) 0 ;;
      let st2 :=
        putMemBlock st1 slot (mkMemBlock (id memBlock) 0 0 toc0 values0) in
      Ret (withFreeMemBlockChan st2 (freeMemBlockChan st2 ++ [slot]), v2)
  end.

End MemClearer.

(** The bytes of a TOC of the entries [(keyA, keyB, timestampbits, offset,
    length)], as [memWriter] appends them. *)
Definition tocOf (es : list (Z * Z * Z * Z * Z)) : list byte :=
  List.concat
    (map (fun '(kA, kB, timestampbits, offset, length) =>
            tocEntry kA kB timestampbits offset length) es).

(** A free TOC block is there whenever [memClearer] needs one for a TOC of
    [entries] entries: the block it is filling, if any, has an offset that
    is not negative, and [freeTOCBlockChan] holds a block for every entry,
    each with room for the timestamp and one entry. *)
Definition tocBlocksReady (v : memClearerVars) (entries : nat) : Prop :=
  match tb v with Some _ => 0 <= tbOffset v | None => True end
  /\ Forall (fun t => 8 + _VALUE_FILE_ENTRY_SIZE <= Z.of_nat (cap t))
       (freeTOCBlockChan v)
  /\ (entries <= List.length (freeTOCBlockChan v))%nat.

(** One worker, two pages of 128 bytes. *)
Definition roomyConfig : ValueStoreConfig :=
  mkConfig valuelocmap.emptyIndex 1 128 128 0 2.

Definition hello : list byte := list_byte_of_string "hello".

Definition newer : list byte := list_byte_of_string "new".

(** A store on an empty directory after three writes, "testing" under key
    (1,2), "hello" under (3,4) and "new" under (1,2) again, once a value
    file is registered and holds the mem block of the three values at
    offset 32, as [valueStoreFile.write] records it in the block. *)
Definition storeOnFile : DefaultValueStore :=
  match
    '(st, _) <~ NewValueStore (fun _ st => Ret st) roomyConfig (dirNames []) ;;
    s0 <~ EnableWrites st ;;
    '(s1, _) <~ Write s0 1 2 1280 testing ;;
    '(s2, _) <~ Write s1 3 4 1300 hello ;;
    '(s3, _) <~ Write s2 1 2 1400 newer ;;
    '(s4, (fid, _)) <~
      addLocBlock s3
        (fileLoc (mkFile 77 1
                    (valuestorefile_header.head 1024 ++ testing ++ hello
                     ++ newer ++ valuestorefile.term))) ;;
    mb <~ memBlockAt s4 1 ;;
    Ret (putMemBlock s4 1 (mkMemBlock (id mb) fid 32 (toc mb) (values mb)))
  with
  | Ret st => st
  | Fault _ => noStore
  end.

End valuestore_memclearer.

(** * Theorems *)

(** ** Lists *)

Lemma set_nth_same {A} (l : list A) i x y :
  nth_error l i = Some y -> nth_error (set_nth l i x) i = Some x.
Proof.
  revert i; induction l as [|h t IH]; intros [|i] H; simpl in *;
    try discriminate; auto.
Qed.

Lemma set_nth_length {A} (l : list A) i x :
  List.length (set_nth l i x) = List.length l.
Proof.
  revert i; induction l as [|h t IH]; intros [|i]; simpl; auto.
Qed.

Lemma set_nth_other {A} (l : list A) i j x :
  i <> j -> nth_error (set_nth l i x) j = nth_error l j.
Proof.
  revert i j; induction l as [|h t IH]; intros [|i] [|j] H; simpl; auto.
  - contradiction.
Qed.

(** ** The option monad *)

Lemma bind_Some {A B} (m : option A) (f : A -> option B) y :
  bind m f = Some y -> exists x, m = Some x /\ f x = Some y.
Proof. destruct m as [x|]; simpl; [eauto | discriminate]. Qed.

Lemma guard_true b : guard b = Some tt <-> b = true.
Proof. destruct b; simpl; split; congruence. Qed.

(** ** The location index *)

Module valuelocmap_facts.
Import valuelocmap.

Lemma valueLocNode_induction (P : valueLocNode -> Prop) :
  (forall lm na nb nc nd ne,
      (forall cn, nc = Some cn -> P cn) ->
      (forall dn, nd = Some dn -> P dn) ->
      P (mkNode lm na nb nc nd ne)) ->
  forall vln, P vln.
Proof.
  intros H. fix IH 1. intros [lm na nb nc nd ne]. apply H.
  - intros cn E. destruct nc as [x|]; [|discriminate].
    injection E as <-. apply IH.
  - intros dn E. destruct nd as [x|]; [|discriminate].
    injection E as <-. apply IH.
Qed.

Lemma isMatch_setData kA kB ts bid off len item :
  bid <> 0 -> keyA item = kA -> keyB item = kB ->
  isMatch kA kB (setData ts bid off len item) = true.
Proof.
  intros Hb <- <-. unfold isMatch, setData; simpl.
  rewrite !Z.eqb_refl. destruct (Z.eqb_spec bid 0); [contradiction|reflexivity].
Qed.

Lemma findItem_Some kA kB l item :
  findItem kA kB l = Some item -> isMatch kA kB item = true.
Proof.
  induction l as [|x l IH]; simpl; [discriminate|].
  destruct (isMatch kA kB x) eqn:E; [intros [= <-]; exact E | exact IH].
Qed.

Lemma isMatch_keys kA kB item :
  isMatch kA kB item = true ->
  blockID item <> 0 /\ keyA item = kA /\ keyB item = kB.
Proof.
  unfold isMatch. intros H.
  apply andb_prop in H as [H H3]. apply andb_prop in H as [H1 H2].
  apply Z.eqb_eq in H2, H3. apply negb_true_iff, Z.eqb_neq in H1. auto.
Qed.

Lemma findItem_updItem kA kB g l item :
  findItem kA kB l = Some item ->
  isMatch kA kB (g item) = true ->
  findItem kA kB (updItem kA kB g l) = Some (g item).
Proof.
  induction l as [|x l IH]; simpl; [discriminate|].
  destruct (isMatch kA kB x) eqn:E.
  - intros [= <-] Hg. simpl. now rewrite Hg.
  - intros Hf Hg. simpl. rewrite E. auto.
Qed.

Lemma findItem_updItem_clear kA kB l :
  findItem kA kB l = None ->
  updItem kA kB clearBlockID l = l.
Proof.
  induction l as [|x l IH]; simpl; [reflexivity|].
  destruct (isMatch kA kB x) eqn:E; [discriminate|].
  intros H. now rewrite IH.
Qed.

Lemma updItem_nonempty kA kB g l : l <> [] -> updItem kA kB g l <> [].
Proof. destruct l; simpl; [congruence|]. destruct isMatch; discriminate. Qed.

Lemma items_bucketOfItems l bk : l <> [] -> items (bucketOfItems l bk) = l.
Proof. destruct l; [congruence|reflexivity]. Qed.

Lemma items_updBucketItem kA kB g bk :
  items (updBucketItem kA kB g bk) = updItem kA kB g (items bk).
Proof.
  unfold updBucketItem. apply items_bucketOfItems.
  apply updItem_nonempty. discriminate.
Qed.

Lemma findItem_updUnused kA kB g l l' v :
  findItem kA kB l = None ->
  (forall x, g x = v) -> isMatch kA kB v = true ->
  updUnused g l = Some l' ->
  findItem kA kB l' = Some v /\ l' <> [].
Proof.
  intros Hf Hg Hv. revert l' Hf.
  induction l as [|x l IH]; simpl; intros l' Hf; [discriminate|].
  destruct (isMatch kA kB x) eqn:E; [discriminate|].
  destruct (blockID x =? 0).
  - intros [= <-]. simpl. rewrite Hg, Hv. split; [reflexivity|discriminate].
  - destruct (updUnused g l) as [r|] eqn:Er; [|discriminate].
    intros [= <-]. simpl. rewrite E. split; [|discriminate].
    now apply (IH r).
Qed.

Lemma findItem_useUnused kA kB g bk v :
  findItem kA kB (items bk) = None ->
  (forall x, g x = v) -> isMatch kA kB v = true ->
  findItem kA kB (items (useUnused g bk)) = Some v.
Proof.
  intros Hf Hg Hv. unfold useUnused.
  destruct (updUnused g (items bk)) as [l'|] eqn:E.
  - destruct (findItem_updUnused _ _ _ _ _ _ Hf Hg Hv E) as [H1 H2].
    now rewrite items_bucketOfItems.
  - unfold items in *. simpl in *.
    destruct (isMatch kA kB (head bk)); [discriminate|].
    now rewrite Hg, Hv.
Qed.

Lemma nth_error_withBucket s bix bk bk' :
  nth_error (buckets s) bix = Some bk ->
  nth_error (buckets (withBucket s bix bk')) bix = Some bk'.
Proof. intros H. simpl. eapply set_nth_same; eauto. Qed.

Lemma indexes_ext s s' kB :
  List.length (buckets s') = List.length (buckets s) -> locks s' = locks s ->
  indexes s' kB = indexes s kB.
Proof. intros H1 H2. unfold indexes. now rewrite H1, H2. Qed.

Lemma findItem_blockID kA kB l item :
  findItem kA kB l = Some item -> (blockID item =? 0) = false.
Proof.
  intros H. apply findItem_Some, isMatch_keys in H as [H _].
  now apply Z.eqb_neq.
Qed.

#[local] Arguments items : simpl never.

Section SetThenGet.
Variables (kA kB ts bid off len : Z) (even : bool).
Hypothesis Hbid : bid <> 0.

Let written (x : valueLoc) := setData ts bid off len (setKey kA kB x).

Lemma written_const x : written x = mkValueLoc kA kB ts bid off len.
Proof. reflexivity. Qed.

Lemma written_match : isMatch kA kB (mkValueLoc kA kB ts bid off len) = true.
Proof.
  unfold isMatch; simpl. rewrite !Z.eqb_refl.
  destruct (Z.eqb_spec bid 0); [contradiction|reflexivity].
Qed.

Lemma moved_match fm :
  isMatch kA kB fm = true ->
  isMatch kA kB
    (mkValueLoc kA kB (timestamp fm) (blockID fm) (offset fm) (length fm))
  = true.
Proof.
  intros H. apply isMatch_keys in H as (H & _ & _).
  unfold isMatch; simpl. rewrite !Z.eqb_refl.
  destruct (Z.eqb_spec (blockID fm) 0); [contradiction|reflexivity].
Qed.

Lemma pairOK_alone bix lix s bk :
  lockOK s lix = true -> nth_error (buckets s) bix = Some bk ->
  pairOK kA kB bix lix s None = true.
Proof. intros Hl Hb. unfold pairOK. now rewrite Hl, Hb. Qed.

Lemma pairOK_fallback_without_key bix lix s f bk fbk :
  lockOK s lix = true -> nth_error (buckets s) bix = Some bk ->
  lockOK f lix = true -> nth_error (buckets f) bix = Some fbk ->
  findItem kA kB (items fbk) = None ->
  pairOK kA kB bix lix s (Some f) = true.
Proof.
  intros Hl Hb Hlf Hfb Hn. unfold pairOK.
  rewrite Hl, Hb, Hlf, Hfb, (findItem_updItem_clear _ _ _ Hn), Hn.
  now destruct (findItem kA kB (items bk)).
Qed.

Ltac after_write Ebk :=
  unfold lockOK in *; cbn;
  rewrite ?(set_nth_same _ _ _ _ Ebk); cbn; rewrite ?set_nth_length.

(** What [f] of [Set] does to the stores, seen through [f] of [Get]. *)
Lemma setF_getF bix lix s fb :
  pairOK kA kB bix lix s fb = true ->
  exists pts pbid poff plen s' fb',
    getF kA kB bix lix s fb (0, 0, 0, 0) = Some (pts, pbid, poff, plen)
    /\ setF kA kB ts bid off len even bix lix s fb = Some (s', fb', pts)
    /\ (pbid = 0 -> pts = 0)
    /\ getF kA kB bix lix s' fb' (0, 0, 0, 0) =
         Some (if supersedes ts pts even || (pbid =? 0)
               then (ts, bid, off, len) else (pts, pbid, poff, plen))
    /\ List.length (buckets s') = List.length (buckets s)
    /\ locks s' = locks s
    /\ match fb, fb' with
       | Some f, Some f' =>
           List.length (buckets f') = List.length (buckets f)
           /\ locks f' = locks f
       | None, None => True
       | _, _ => False
       end
    /\ pairOK kA kB bix lix s' fb' = true.
Proof.
  unfold pairOK at 1. intros H.
  apply andb_prop in H as [Hl H].
  destruct (nth_error (buckets s) bix) as [bk|] eqn:Ebk; [|discriminate].
  destruct fb as [f|].
  - apply andb_prop in H as [Hlf H].
    destruct (nth_error (buckets f) bix) as [fbk|] eqn:Efbk; [|discriminate].
    apply andb_prop in H as [Hco Huq].
    destruct (findItem kA kB (updItem kA kB clearBlockID (items fbk)))
      eqn:Euq; [discriminate|]. clear Huq.
    unfold getF, setF. rewrite Hl, Hlf, Ebk, Efbk. cbn.
    destruct (findItem kA kB (items bk)) as [sm|] eqn:Esm;
      destruct (findItem kA kB (items fbk)) as [fm|] eqn:Efm.
    + (* both stores hold the key *)
      apply Z.leb_le in Hco.
      assert (Hge : (timestamp sm >=? timestamp fm) = true)
        by (apply Z.geb_le; lia).
      rewrite Hge.
      do 6 eexists. split; [reflexivity|]. split; [reflexivity|].
      split; [intros E; apply findItem_blockID in Esm;
              rewrite E in Esm; discriminate|].
      rewrite (findItem_blockID _ _ _ _ Esm), orb_false_r.
      split; [|split; [|split; [|split]]].
      * after_write Ebk. rewrite Hl, Hlf. cbn.
        destruct (supersedes ts (timestamp sm) even).
        -- rewrite items_updBucketItem.
           rewrite (findItem_updItem _ _ _ _ _ Esm)
             by (apply findItem_Some, isMatch_keys in Esm as (_ & ? & ?);
                 now apply isMatch_setData).
           reflexivity.
        -- now rewrite Esm.
      * cbn. now rewrite set_nth_length.
      * reflexivity.
      * cbn. now rewrite set_nth_length.
      * eapply pairOK_fallback_without_key.
        -- exact Hl.
        -- eapply nth_error_withBucket; eassumption.
        -- exact Hlf.
        -- cbn. eapply set_nth_same; eassumption.
        -- now rewrite items_updBucketItem.
    + (* only the primary store holds the key *)
      do 6 eexists. split; [reflexivity|]. split; [reflexivity|].
      split; [intros E; apply findItem_blockID in Esm;
              rewrite E in Esm; discriminate|].
      rewrite (findItem_blockID _ _ _ _ Esm), orb_false_r.
      split; [|split; [|split; [|split]]].
      * after_write Ebk. rewrite Hl, Hlf. cbn.
        destruct (supersedes ts (timestamp sm) even).
        -- rewrite items_updBucketItem.
           rewrite (findItem_updItem _ _ _ _ _ Esm)
             by (apply findItem_Some, isMatch_keys in Esm as (_ & ? & ?);
                 now apply isMatch_setData).
           reflexivity.
        -- now rewrite Esm.
      * cbn. now rewrite set_nth_length.
      * reflexivity.
      * auto.
      * eapply pairOK_fallback_without_key.
        -- exact Hl.
        -- eapply nth_error_withBucket; eassumption.
        -- exact Hlf.
        -- eassumption.
        -- assumption.
    + (* only the fallback store holds the key: it moves over *)
      do 6 eexists. split; [reflexivity|]. split; [reflexivity|].
      split; [intros E; apply findItem_blockID in Efm;
              rewrite E in Efm; discriminate|].
      rewrite (findItem_blockID _ _ _ _ Efm), orb_false_r.
      split; [|split; [|split; [|split]]].
      * after_write Ebk. rewrite Hl, Hlf. cbn.
        destruct (supersedes ts (timestamp fm) even).
        -- erewrite (findItem_useUnused kA kB _ bk
                       (mkValueLoc kA kB ts bid off len) Esm);
             [|intros; reflexivity|apply written_match].
           reflexivity.
        -- erewrite (findItem_useUnused kA kB _ bk
                       (mkValueLoc kA kB (timestamp fm) (blockID fm)
                          (offset fm) (length fm)) Esm);
             [|intros; reflexivity
              |apply moved_match, (findItem_Some _ _ _ _ Efm)].
           reflexivity.
      * cbn. now rewrite set_nth_length.
      * reflexivity.
      * cbn. now rewrite set_nth_length.
      * eapply pairOK_fallback_without_key.
        -- exact Hl.
        -- eapply nth_error_withBucket; eassumption.
        -- exact Hlf.
        -- cbn. eapply set_nth_same; eassumption.
        -- now rewrite items_updBucketItem.
    + (* the key is absent *)
      do 6 eexists. split; [reflexivity|]. split; [reflexivity|].
      split; [reflexivity|].
      rewrite orb_true_r.
      split; [|split; [|split; [|split]]].
      * after_write Ebk. rewrite Hl, Hlf. cbn.
        erewrite (findItem_useUnused kA kB _ bk
                    (mkValueLoc kA kB ts bid off len) Esm);
          [|intros; reflexivity|apply written_match].
        reflexivity.
      * cbn. now rewrite set_nth_length.
      * reflexivity.
      * auto.
      * eapply pairOK_fallback_without_key.
        -- exact Hl.
        -- eapply nth_error_withBucket; eassumption.
        -- exact Hlf.
        -- eassumption.
        -- assumption.
  - unfold getF, setF. rewrite Hl, Ebk. cbn.
    destruct (findItem kA kB (items bk)) as [sm|] eqn:Esm.
    + do 6 eexists. split; [reflexivity|]. split; [reflexivity|].
      split; [intros E; apply findItem_blockID in Esm;
              rewrite E in Esm; discriminate|].
      rewrite (findItem_blockID _ _ _ _ Esm), orb_false_r.
      split; [|split; [|split; [|split]]].
      * after_write Ebk. rewrite Hl. cbn.
        destruct (supersedes ts (timestamp sm) even).
        -- rewrite items_updBucketItem.
           rewrite (findItem_updItem _ _ _ _ _ Esm)
             by (apply findItem_Some, isMatch_keys in Esm as (_ & ? & ?);
                 now apply isMatch_setData).
           reflexivity.
        -- now rewrite Esm.
      * cbn. now rewrite set_nth_length.
      * reflexivity.
      * exact I.
      * eapply pairOK_alone; [exact Hl|].
        eapply nth_error_withBucket; eassumption.
    + do 6 eexists. split; [reflexivity|]. split; [reflexivity|].
      split; [reflexivity|].
      rewrite orb_true_r.
      split; [|split; [|split; [|split]]].
      * after_write Ebk. rewrite Hl. cbn.
        erewrite (findItem_useUnused kA kB _ bk
                    (mkValueLoc kA kB ts bid off len) Esm);
          [|intros; reflexivity|apply written_match].
        reflexivity.
      * cbn. now rewrite set_nth_length.
      * reflexivity.
      * exact I.
      * eapply pairOK_alone; [exact Hl|].
        eapply nth_error_withBucket; eassumption.
Qed.

Lemma SetNode_GetNode vln :
  forall o, wellFormedFor vln kA kB = true ->
  exists pts pbid poff plen vln',
    GetNode vln kA kB (0, 0, 0, 0) = Some (pts, pbid, poff, plen)
    /\ SetNode kA kB ts bid off len even vln o = Some (vln', o, pts)
    /\ (pbid = 0 -> pts = 0)
    /\ GetNode vln' kA kB (0, 0, 0, 0) =
         Some (if supersedes ts pts even || (pbid =? 0)
               then (ts, bid, off, len) else (pts, pbid, poff, plen))
    /\ wellFormedFor vln' kA kB = true.
Proof.
  induction vln as [lm na nb nc nd ne IHc IHd] using valueLocNode_induction.
  intros o. cbn [wellFormedFor GetNode SetNode].
  destruct nc as [cn|].
  - (* an inner node: follow the key to one side *)
    destruct (Z.land kA lm =? 0) eqn:Eside.
    + intros W.
      destruct (IHc cn eq_refl o W)
        as (pts & pbid & poff & plen & cn' & G & S & Z0 & G' & W').
      exists pts, pbid, poff, plen. eexists.
      rewrite S. cbn [bind]. repeat split; auto;
        cbn [GetNode wellFormedFor]; now rewrite Eside.
    + destruct nd as [dn|]; [|discriminate]. intros W.
      destruct (IHd dn eq_refl o W)
        as (pts & pbid & poff & plen & dn' & G & S & Z0 & G' & W').
      exists pts, pbid, poff, plen. eexists.
      rewrite S. cbn [bind]. repeat split; auto;
        cbn [GetNode wellFormedFor]; now rewrite Eside.
  - destruct na as [sa|]; [|discriminate]. cbn [bind].
    destruct (indexes sa kB) as [[bix lix]|] eqn:Eix; [|discriminate].
    cbn [bind].
    destruct (Z.land kA lm =? 0) eqn:Eside.
    + (* left side: store [a] alone *)
      intros W.
      destruct (setF_getF bix lix sa None W)
        as (pts & pbid & poff & plen & s' & fb' & G & S & Z0 & G'
            & L1 & L2 & F & W').
      destruct fb'; [contradiction|].
      exists pts, pbid, poff, plen. eexists.
      rewrite G, S. cbn [bind]. repeat split; auto;
        cbn [GetNode wellFormedFor bind];
        rewrite (indexes_ext _ _ kB L1 L2), Eix; cbn [bind];
        now rewrite Eside.
    + destruct nb as [sb|].
      * (* a split is in progress: write to [b], fall back to [a] *)
        intros W.
        destruct (setF_getF bix lix sb (Some sa) W)
          as (pts & pbid & poff & plen & s' & fb' & G & S & Z0 & G'
              & L1 & L2 & F & W').
        destruct fb' as [f'|]; [|contradiction]. destruct F as [F1 F2].
        exists pts, pbid, poff, plen. eexists.
        rewrite G, S. cbn [bind]. repeat split; auto;
          cbn [GetNode wellFormedFor bind];
          rewrite (indexes_ext _ _ kB F1 F2), Eix; cbn [bind];
          now rewrite Eside.
      * (* write to [a], fall back to [e] if an unsplit is in progress *)
        intros W. apply andb_prop in W as [W Wd].
        destruct nd; [discriminate|].
        destruct (setF_getF bix lix sa ne W)
          as (pts & pbid & poff & plen & s' & fb' & G & S & Z0 & G'
              & L1 & L2 & F & W').
        exists pts, pbid, poff, plen. eexists.
        rewrite G, S. cbn [bind].
        split; [reflexivity|].
        split; [destruct (supersedes ts pts even); reflexivity|].
        split; [assumption|].
        split; cbn [GetNode wellFormedFor bind];
          rewrite (indexes_ext _ _ kB L1 L2), Eix; cbn [bind];
          rewrite Eside.
        -- now rewrite G'.
        -- now rewrite W'.
Qed.
End SetThenGet.

Lemma SetLoc_Get (vlm : ValueLocMap) (kA kB ts bid off len : Z) (even : bool) :
  wellFormedFor (root vlm) kA kB = true ->
  bid <> 0 ->
  exists pts pbid poff plen vlm',
    Get vlm kA kB = Some (pts, pbid, poff, plen)
    /\ SetLoc kA kB ts bid off len even vlm = Some (vlm', pts)
    /\ (pbid = 0 -> pts = 0)
    /\ Get vlm' kA kB =
         Some (if supersedes ts pts even || (pbid =? 0)
               then (ts, bid, off, len) else (pts, pbid, poff, plen))
    /\ wellFormedFor (root vlm') kA kB = true.
Proof.
  intros W Hb.
  destruct (SetNode_GetNode kA kB ts bid off len even Hb (root vlm)
              (false, 0) W)
    as (pts & pbid & poff & plen & r' & G & S & Z0 & G' & W').
  exists pts, pbid, poff, plen. eexists.
  unfold Get, SetLoc. rewrite G, S. cbn [bind fst snd andb].
  repeat split; auto.
Qed.

(** C1 (amended).  On an index that is well-formed for the key, [Set] with a
    nonzero block id returns the prior stored timestamp (0 when the key was
    absent) and replaces the stored (timestamp, blockID, offset, length)
    exactly when the new timestamp is greater than the prior one, or
    [evenIfSameTimestamp] holds and the two are equal, or the key was absent;
    otherwise the stored location stays what it was. *)
Theorem Set_overwrites_when_newer_or_absent
  (vlm : ValueLocMap) (kA kB ts bid off len : Z) (even : bool) :
  wellFormedFor (root vlm) kA kB = true ->
  bid <> 0 ->
  exists pts pbid poff plen vlm',
    Get vlm kA kB = Some (pts, pbid, poff, plen)
    /\ SetLoc kA kB ts bid off len even vlm = Some (vlm', pts)
    /\ (pbid = 0 -> pts = 0)
    /\ Get vlm' kA kB =
         Some (if supersedes ts pts even || (pbid =? 0)
               then (ts, bid, off, len) else (pts, pbid, poff, plen)).
Proof.
  intros W Hb.
  destruct (SetNode_GetNode kA kB ts bid off len even Hb (root vlm)
              (false, 0) W)
    as (pts & pbid & poff & plen & r' & G & S & Z0 & G' & _).
  exists pts, pbid, poff, plen. eexists.
  unfold Get, SetLoc. rewrite G, S. cbn [bind fst snd andb].
  repeat split; auto.
Qed.

Lemma Set_overwrites_when_newer_or_absent_witness :
  exists pts pbid poff plen vlm',
    Get emptyIndex 1 2 = Some (pts, pbid, poff, plen)
    /\ SetLoc 1 2 1280 1 0 7 false emptyIndex = Some (vlm', pts)
    /\ (pbid = 0 -> pts = 0)
    /\ Get vlm' 1 2 =
         Some (if supersedes 1280 pts false || (pbid =? 0)
               then (1280, 1, 0, 7) else (pts, pbid, poff, plen)).
Proof.
  apply (Set_overwrites_when_newer_or_absent emptyIndex 1 2 1280 1 0 7 false).
  - reflexivity.
  - discriminate.
Defined.

(** C1 as worded fails for an absent key written with timestamp 0 and
    [evenIfSameTimestamp] false: 0 does not supersede the prior 0, yet the
    location is stored. *)
Lemma Set_absent_key_timestamp_zero_is_stored :
  ~ SetAsSpecified emptyIndex 1 2 0 1 3 4 false.
Proof.
  intros (pts & pbid & poff & plen & vlm' & G & S & G').
  vm_compute in G. injection G as <- <- <- <-.
  vm_compute in S. injection S as <-.
  vm_compute in G'. discriminate G'.
Qed.

(** *** A write to one key and the other keys *)

Section OtherKeys.
Variables (kA kB ts bid off len : Z) (even : bool).
Variables (kA' kB' : Z).
Hypothesis Hother : kA' <> kA \/ kB' <> kB.

Lemma isMatch_other item :
  keyA item = kA -> keyB item = kB -> isMatch kA' kB' item = false.
Proof.
  intros <- <-. unfold isMatch.
  destruct Hother as [H|H].
  - destruct (Z.eqb_spec (keyA item) kA'); [congruence|].
    now rewrite andb_false_r.
  - destruct (Z.eqb_spec (keyB item) kB'); [congruence|].
    now rewrite andb_false_r.
Qed.

Lemma isMatch_unused item :
  blockID item = 0 -> isMatch kA' kB' item = false.
Proof. intros E. unfold isMatch. now rewrite E. Qed.

(** Rewriting the item of (kA,kB) in a chain leaves the items of the other
    key where they are. *)
Lemma filter_updItem g l :
  (forall x, keyA (g x) = keyA x /\ keyB (g x) = keyB x) ->
  filter (isMatch kA' kB') (updItem kA kB g l) = filter (isMatch kA' kB') l.
Proof.
  intros Hg. induction l as [|x l IH]; cbn [updItem filter]; [reflexivity|].
  destruct (isMatch kA kB x) eqn:E.
  - apply isMatch_keys in E as (_ & EA & EB). cbn [filter].
    rewrite (isMatch_other x EA EB).
    destruct (Hg x) as [GA GB].
    rewrite (isMatch_other (g x)) by congruence. reflexivity.
  - cbn [filter]. now rewrite IH.
Qed.

Lemma filter_updUnused g l l' :
  (forall x, keyA (g x) = kA /\ keyB (g x) = kB) ->
  updUnused g l = Some l' ->
  filter (isMatch kA' kB') l' = filter (isMatch kA' kB') l.
Proof.
  intros Hg. revert l'.
  induction l as [|x l IH]; cbn [updUnused]; intros l' H; [discriminate|].
  destruct (Z.eqb_spec (blockID x) 0) as [E|E].
  - injection H as <-. cbn [filter].
    destruct (Hg x) as [GA GB].
    now rewrite (isMatch_other (g x) GA GB), (isMatch_unused x E).
  - destruct (updUnused g l) as [r|]; [|discriminate].
    injection H as <-. cbn [filter]. now rewrite (IH r eq_refl).
Qed.

Lemma filter_useUnused g bk :
  (forall x, keyA (g x) = kA /\ keyB (g x) = kB) ->
  filter (isMatch kA' kB') (items (useUnused g bk))
  = filter (isMatch kA' kB') (items bk).
Proof.
  intros Hg. unfold useUnused.
  destruct (updUnused g (items bk)) as [l'|] eqn:E.
  - assert (Hne : l' <> []).
    { unfold items in E. cbn [updUnused] in E.
      destruct (blockID (head bk) =? 0); [injection E as <-; discriminate|].
      destruct (updUnused g (next bk)); [injection E as <-|]; discriminate. }
    rewrite items_bucketOfItems by exact Hne.
    now apply (filter_updUnused g).
  - unfold items. cbn [head next filter].
    destruct (Hg zeroLoc) as [GA GB].
    now rewrite (isMatch_other (g zeroLoc) GA GB).
Qed.

Lemma filter_updBucketItem g bk :
  (forall x, keyA (g x) = keyA x /\ keyB (g x) = keyB x) ->
  filter (isMatch kA' kB') (items (updBucketItem kA kB g bk))
  = filter (isMatch kA' kB') (items bk).
Proof. intros Hg. rewrite items_updBucketItem. now apply filter_updItem. Qed.

Lemma map_set_nth_same {A B} (f : A -> B) (l : list A) i x y :
  nth_error l i = Some y -> f x = f y ->
  map f (set_nth l i x) = map f l.
Proof.
  revert i. induction l as [|h t IH]; intros [|i] H E; cbn in *;
    try discriminate.
  - injection H as ->. now rewrite E.
  - f_equal. now apply IH.
Qed.

Lemma viewOf_withBucket s bix bk bk' :
  nth_error (buckets s) bix = Some bk ->
  filter (isMatch kA' kB') (items bk')
  = filter (isMatch kA' kB') (items bk) ->
  viewOf kA' kB' (withBucket s bix bk') = viewOf kA' kB' s.
Proof.
  intros Hb E. unfold viewOf, withBucket. cbn [locks buckets]. f_equal.
  now apply (map_set_nth_same _ _ _ _ bk).
Qed.

Lemma viewOf_addUsed s n : viewOf kA' kB' (addUsed s n) = viewOf kA' kB' s.
Proof. reflexivity. Qed.

Lemma setData_keys t b o l x :
  keyA (setData t b o l x) = keyA x /\ keyB (setData t b o l x) = keyB x.
Proof. split; reflexivity. Qed.

Lemma clearBlockID_keys x :
  keyA (clearBlockID x) = keyA x /\ keyB (clearBlockID x) = keyB x.
Proof. split; reflexivity. Qed.

(** [f] of [Set] leaves both stores as the other key sees them. *)
Lemma setF_view bix lix s fb s' fb' old :
  setF kA kB ts bid off len even bix lix s fb = Some (s', fb', old) ->
  viewOf kA' kB' s' = viewOf kA' kB' s
  /\ viewOfOpt kA' kB' fb' = viewOfOpt kA' kB' fb.
Proof.
  unfold setF. intros H.
  apply bind_Some in H as ([] & _ & H).
  apply bind_Some in H as ([] & _ & H).
  apply bind_Some in H as (bk & Hbk & H).
  apply bind_Some in H as (fbm & Hfbm & H).
  assert (Hfb : viewOfOpt kA' kB'
                  match fb, fbm with
                  | Some f, Some _ =>
                      match nth_error (buckets f) bix with
                      | Some fbk =>
                          Some (withBucket (addUsed f (-1)) bix
                                  (updBucketItem kA kB clearBlockID fbk))
                      | None => fb
                      end
                  | _, _ => fb
                  end = viewOfOpt kA' kB' fb).
  { destruct fb as [f|]; [|reflexivity].
    destruct fbm; [|reflexivity].
    destruct (nth_error (buckets f) bix) as [fbk|] eqn:Hfbk; [|reflexivity].
    cbn [viewOfOpt option_map]. f_equal.
    rewrite (viewOf_withBucket (addUsed f (-1)) bix fbk) by
      (try exact Hfbk; apply filter_updBucketItem, clearBlockID_keys).
    apply viewOf_addUsed. }
  assert (Hkept : forall g,
             (forall x, keyA (g x) = keyA x /\ keyB (g x) = keyB x) ->
             viewOf kA' kB' (withBucket s bix (updBucketItem kA kB g bk))
             = viewOf kA' kB' s).
  { intros g Hg. apply (viewOf_withBucket s bix bk); [exact Hbk|].
    now apply filter_updBucketItem. }
  assert (Hsame : viewOf kA' kB' (withBucket s bix bk) = viewOf kA' kB' s)
    by now apply (viewOf_withBucket s bix bk).
  assert (Hnew : forall g,
             (forall x, keyA (g x) = kA /\ keyB (g x) = kB) ->
             viewOf kA' kB' (withBucket (addUsed s 1) bix (useUnused g bk))
             = viewOf kA' kB' s).
  { intros g Hg.
    rewrite (viewOf_withBucket (addUsed s 1) bix bk);
      [apply viewOf_addUsed|exact Hbk|now apply filter_useUnused]. }
  destruct (findItem kA kB (items bk)) as [sm|]; destruct fbm as [fm|].
  - destruct (timestamp sm >=? timestamp fm);
      [destruct (supersedes ts (timestamp sm) even)
      |destruct (supersedes ts (timestamp fm) even)];
      injection H as <- <- _; (split; [|exact Hfb]);
      try exact Hsame; apply Hkept, setData_keys.
  - destruct (supersedes ts (timestamp sm) even);
      injection H as <- <- _; (split; [|exact Hfb]);
      try exact Hsame; apply Hkept, setData_keys.
  - destruct (supersedes ts (timestamp fm) even);
      injection H as <- <- _; (split; [|exact Hfb]);
      apply Hnew; intros x; split; reflexivity.
  - injection H as <- <- _. split; [|exact Hfb].
    apply Hnew; intros x; split; reflexivity.
Qed.

Lemma clearWritten_view bix lix s s' :
  clearWritten kA kB ts bid off len bix lix s = Some s' ->
  viewOf kA' kB' s' = viewOf kA' kB' s.
Proof.
  unfold clearWritten. intros H.
  apply bind_Some in H as ([] & _ & H).
  apply bind_Some in H as (bk & Hbk & H).
  injection H as <-.
  apply (viewOf_withBucket s bix bk); [exact Hbk|].
  apply filter_updBucketItem. intros x.
  destruct (_ && _); [apply clearBlockID_keys|split; reflexivity].
Qed.

End OtherKeys.

(** What [Get] returns and whether the index is well-formed for a key depend
    on the stores through [viewOf] alone. *)
Section ViewOnly.
Variables (kA kB : Z).

Lemma findItem_filter l :
  findItem kA kB l = hd_error (filter (isMatch kA kB) l).
Proof.
  induction l as [|x l IH]; cbn [findItem filter]; [reflexivity|].
  destruct (isMatch kA kB x); [reflexivity|exact IH].
Qed.

Lemma findItem_cleared l :
  findItem kA kB (updItem kA kB clearBlockID l)
  = hd_error (tl (filter (isMatch kA kB) l)).
Proof.
  induction l as [|x l IH]; cbn [updItem filter]; [reflexivity|].
  destruct (isMatch kA kB x) eqn:E.
  - cbn [findItem tl].
    assert (C : isMatch kA kB (clearBlockID x) = false) by reflexivity.
    rewrite C. apply findItem_filter.
  - cbn [findItem]. rewrite E. exact IH.
Qed.

Lemma nth_view s s' bix :
  viewOf kA kB s' = viewOf kA kB s ->
  match nth_error (buckets s') bix, nth_error (buckets s) bix with
  | Some bk', Some bk =>
      filter (isMatch kA kB) (items bk') = filter (isMatch kA kB) (items bk)
  | None, None => True
  | _, _ => False
  end.
Proof.
  unfold viewOf. intros [= _ E].
  apply (f_equal (fun l => nth_error l bix)) in E.
  rewrite !nth_error_map in E.
  destruct (nth_error (buckets s') bix), (nth_error (buckets s) bix);
    cbn in E; try discriminate; [now injection E|exact I].
Qed.

Lemma locks_view s s' :
  viewOf kA kB s' = viewOf kA kB s -> locks s' = locks s.
Proof. unfold viewOf. now intros [= E _]. Qed.

Lemma indexes_view s s' k :
  viewOf kA kB s' = viewOf kA kB s -> indexes s' k = indexes s k.
Proof.
  intros E. apply indexes_ext; [|now apply locks_view].
  unfold viewOf in E. injection E as _ E.
  apply (f_equal (@List.length _)) in E. now rewrite !length_map in E.
Qed.

Lemma viewOfOpt_cases fb fb' :
  viewOfOpt kA kB fb' = viewOfOpt kA kB fb ->
  match fb', fb with
  | Some f', Some f => viewOf kA kB f' = viewOf kA kB f
  | None, None => True
  | _, _ => False
  end.
Proof.
  destruct fb', fb; cbn [viewOfOpt option_map]; intros E;
    try discriminate; [congruence|exact I].
Qed.

Lemma getF_view bix lix s s' fb fb' v :
  viewOf kA kB s' = viewOf kA kB s ->
  viewOfOpt kA kB fb' = viewOfOpt kA kB fb ->
  getF kA kB bix lix s' fb' v = getF kA kB bix lix s fb v.
Proof.
  intros Es Ef. unfold getF. destruct v as [[[ts0 bid0] off0] len0].
  unfold lockOK. rewrite (locks_view _ _ Es).
  destruct (guard (lix <? locks s)); [|reflexivity]. cbn [bind].
  apply viewOfOpt_cases in Ef.
  pose proof (nth_view s s' bix Es) as Nb.
  destruct fb' as [f'|], fb as [f|]; try contradiction.
  - rewrite (locks_view _ _ Ef).
    destruct (guard (lix <? locks f)); [|reflexivity]. cbn [bind].
    pose proof (nth_view f f' bix Ef) as Nf.
    destruct (nth_error (buckets s') bix) as [bk'|],
             (nth_error (buckets s) bix) as [bk|]; try contradiction;
      [|reflexivity].
    cbn [bind]. rewrite !findItem_filter, Nb.
    destruct (hd_error _); [reflexivity|].
    destruct (nth_error (buckets f') bix) as [fbk'|],
             (nth_error (buckets f) bix) as [fbk|]; try contradiction;
      [|reflexivity].
    cbn [bind]. now rewrite !findItem_filter, Nf.
  - cbn [guard bind].
    destruct (nth_error (buckets s') bix) as [bk'|],
             (nth_error (buckets s) bix) as [bk|]; try contradiction;
      [|reflexivity].
    cbn [bind]. now rewrite !findItem_filter, Nb.
Qed.

Lemma pairOK_view bix lix s s' fb fb' :
  viewOf kA kB s' = viewOf kA kB s ->
  viewOfOpt kA kB fb' = viewOfOpt kA kB fb ->
  pairOK kA kB bix lix s' fb' = pairOK kA kB bix lix s fb.
Proof.
  intros Es Ef. unfold pairOK, lockOK. rewrite (locks_view _ _ Es).
  f_equal.
  apply viewOfOpt_cases in Ef.
  pose proof (nth_view s s' bix Es) as Nb.
  destruct (nth_error (buckets s') bix) as [bk'|],
           (nth_error (buckets s) bix) as [bk|]; try contradiction;
    [|reflexivity].
  destruct fb' as [f'|], fb as [f|]; try contradiction; [|reflexivity].
  rewrite (locks_view _ _ Ef). f_equal.
  pose proof (nth_view f f' bix Ef) as Nf.
  destruct (nth_error (buckets f') bix) as [fbk'|],
           (nth_error (buckets f) bix) as [fbk|]; try contradiction;
    [|reflexivity].
  now rewrite !findItem_cleared, !findItem_filter, Nb, Nf.
Qed.

(** Two nodes with no [c] whose stores look the same to the key and whose
    [d] lead to the same results. *)
Lemma GetNode_leaf_view lm na na' nb nb' nd nd' ne ne' :
  viewOfOpt kA kB na' = viewOfOpt kA kB na ->
  viewOfOpt kA kB nb' = viewOfOpt kA kB nb ->
  viewOfOpt kA kB ne' = viewOfOpt kA kB ne ->
  match nd', nd with
  | Some dn', Some dn => forall v, GetNode dn' kA kB v = GetNode dn kA kB v
  | None, None => True
  | _, _ => False
  end ->
  forall v,
    GetNode (mkNode lm na' nb' None nd' ne') kA kB v
    = GetNode (mkNode lm na nb None nd ne) kA kB v.
Proof.
  intros Ea Eb Ee Ed v. cbn [GetNode].
  pose proof (viewOfOpt_cases _ _ Ea) as Ca.
  destruct na' as [sa'|], na as [sa|]; try contradiction; [|reflexivity].
  cbn [bind]. rewrite (indexes_view _ _ kB Ca).
  destruct (indexes sa kB) as [[bix lix]|]; [|reflexivity]. cbn [bind].
  destruct (Z.land kA lm =? 0).
  - now apply getF_view.
  - pose proof (viewOfOpt_cases _ _ Eb) as Cb.
    destruct nb' as [sb'|], nb as [sb|]; try contradiction.
    + now apply getF_view.
    + rewrite (getF_view bix lix sa sa' ne ne' v Ca Ee).
      destruct (getF kA kB bix lix sa ne v) as [v'|]; [|reflexivity].
      cbn [bind].
      destruct nd' as [dn'|], nd as [dn|]; try contradiction;
        [apply Ed|reflexivity].
Qed.

Lemma wellFormedFor_leaf_view lm na na' nb nb' nd nd' ne ne' :
  viewOfOpt kA kB na' = viewOfOpt kA kB na ->
  viewOfOpt kA kB nb' = viewOfOpt kA kB nb ->
  viewOfOpt kA kB ne' = viewOfOpt kA kB ne ->
  match nd', nd with
  | Some _, Some _ | None, None => True
  | _, _ => False
  end ->
  wellFormedFor (mkNode lm na' nb' None nd' ne') kA kB
  = wellFormedFor (mkNode lm na nb None nd ne) kA kB.
Proof.
  intros Ea Eb Ee Ed. cbn [wellFormedFor].
  pose proof (viewOfOpt_cases _ _ Ea) as Ca.
  destruct na' as [sa'|], na as [sa|]; try contradiction; [|reflexivity].
  rewrite (indexes_view _ _ kB Ca).
  destruct (indexes sa kB) as [[bix lix]|]; [|reflexivity].
  destruct (Z.land kA lm =? 0).
  - now apply pairOK_view.
  - pose proof (viewOfOpt_cases _ _ Eb) as Cb.
    destruct nb' as [sb'|], nb as [sb|]; try contradiction.
    + now apply pairOK_view.
    + rewrite (pairOK_view bix lix sa sa' ne ne' Ca Ee).
      destruct nd', nd; try contradiction; reflexivity.
Qed.

End ViewOnly.

Section SetFrame.
Variables (kA kB ts bid off len : Z) (even : bool).
Variables (kA' kB' : Z).
Hypothesis Hother : kA' <> kA \/ kB' <> kB.

(** [Set] for (kA,kB), retries included, leaves what the other key reads
    and the shape the other key relies on as they were. *)
Lemma SetNode_frame vln :
  forall o vln' o' old,
    SetNode kA kB ts bid off len even vln o = Some (vln', o', old) ->
    (forall v, GetNode vln' kA' kB' v = GetNode vln kA' kB' v)
    /\ wellFormedFor vln' kA' kB' = wellFormedFor vln kA' kB'.
Proof.
  induction vln as [lm na nb nc nd ne IHc IHd] using valueLocNode_induction.
  intros o vln' o' old H. cbn [SetNode] in H.
  destruct nc as [cn|].
  - (* an inner node *)
    destruct (Z.land kA lm =? 0).
    + apply bind_Some in H as ([[cn' o1] old1] & Hc & H).
      injection H as <- <- <-.
      destruct (IHc cn eq_refl _ _ _ _ Hc) as [G W].
      split; [intros v|]; cbn [GetNode wellFormedFor];
        destruct (Z.land kA' lm =? 0); auto.
    + destruct nd as [dn|]; [|discriminate].
      apply bind_Some in H as ([[dn' o1] old1] & Hd & H).
      injection H as <- <- <-.
      destruct (IHd dn eq_refl _ _ _ _ Hd) as [G W].
      split; [intros v|]; cbn [GetNode wellFormedFor];
        destruct (Z.land kA' lm =? 0); auto.
  - (* a node that holds stores *)
    apply bind_Some in H as (sa & -> & H).
    apply bind_Some in H as ([bix lix] & _ & H).
    destruct (Z.land kA lm =? 0).
    + apply bind_Some in H as ([[sa' fb'] old1] & Hf & H).
      injection H as <- <- <-.
      destruct (setF_view kA kB ts bid off len even kA' kB' Hother
                  _ _ _ _ _ _ _ Hf) as [Es _].
      split; [apply GetNode_leaf_view|apply wellFormedFor_leaf_view];
        try reflexivity; try (cbn [viewOfOpt option_map]; now f_equal);
        destruct nd; auto.
    + destruct nb as [sb|].
      * apply bind_Some in H as ([[sb' fa] old1] & Hf & H).
        injection H as <- <- <-.
        destruct (setF_view kA kB ts bid off len even kA' kB' Hother
                    _ _ _ _ _ _ _ Hf) as [Es Ef].
        split; [apply GetNode_leaf_view|apply wellFormedFor_leaf_view];
          try reflexivity; try exact Ef;
          try (cbn [viewOfOpt option_map]; now f_equal);
          destruct nd; auto.
      * apply bind_Some in H as ([[sa' ne'] old1] & Hf & H).
        destruct (setF_view kA kB ts bid off len even kA' kB' Hother
                    _ _ _ _ _ _ _ Hf) as [Es Ef].
        assert (Plain :
          (forall v,
              GetNode (mkNode lm (Some sa') None None nd ne') kA' kB' v
              = GetNode (mkNode lm (Some sa) None None nd ne) kA' kB' v)
          /\ wellFormedFor (mkNode lm (Some sa') None None nd ne') kA' kB'
             = wellFormedFor (mkNode lm (Some sa) None None nd ne) kA' kB').
        { split; [apply GetNode_leaf_view|apply wellFormedFor_leaf_view];
            try reflexivity; try exact Ef;
            try (cbn [viewOfOpt option_map]; now f_equal);
            destruct nd; auto. }
        destruct (supersedes ts old1 even); [|injection H as <- <- <-; exact Plain].
        destruct nd as [dn|]; [|injection H as <- <- <-; exact Plain].
        apply bind_Some in H as (sa'' & Hc & H).
        apply bind_Some in H as ([[dn' o1] old2] & Hd & H).
        injection H as <- <- <-.
        pose proof (clearWritten_view kA kB ts bid off len kA' kB' Hother
                      _ _ _ _ Hc) as Ec.
        destruct (IHd dn eq_refl _ _ _ _ Hd) as [G W].
        split; [apply GetNode_leaf_view|apply wellFormedFor_leaf_view];
          try reflexivity; try exact Ef; try exact G; try exact I;
          cbn [viewOfOpt option_map]; f_equal; congruence.
Qed.

End SetFrame.

(** *** A new index *)





(** The frame of [Set], for further use. *)
Lemma SetLoc_frame vlm kA kB ts bid off len even kA' kB' vlm' old :
  kA' <> kA \/ kB' <> kB ->
  SetLoc kA kB ts bid off len even vlm = Some (vlm', old) ->
  Get vlm' kA' kB' = Get vlm kA' kB'
  /\ wellFormedFor (root vlm') kA' kB' = wellFormedFor (root vlm) kA' kB'.
Proof.
  intros Hother H. unfold SetLoc in H.
  apply bind_Some in H as ([[r o] old1] & Hn & H).
  injection H as <- _.
  destruct (SetNode_frame kA kB ts bid off len even kA' kB' Hother
              _ _ _ _ _ Hn) as [G W].
  split; [apply G|exact W].
Qed.

(** X2.  [Set] for one key, whatever it does to that key and whether or
    not it has to retry, leaves every other key as it was: [Get] of another
    key answers the same before and after. *)
Theorem Set_leaves_other_keys
    vlm kA kB ts bid off len even kA' kB' vlm' old :
  kA' <> kA \/ kB' <> kB ->
  SetLoc kA kB ts bid off len even vlm = Some (vlm', old) ->
  Get vlm' kA' kB' = Get vlm kA' kB'.
Proof.
  intros Hother H.
  apply (SetLoc_frame vlm kA kB ts bid off len even kA' kB' vlm' old Hother H).
Qed.

Lemma Set_leaves_other_keys_witness :
  exists vlm1 vlm2 old,
    SetLoc 3 4 512 1 0 5 false emptyIndex = Some (vlm1, 0)
    /\ SetLoc 1 2 1280 1 5 7 false vlm1 = Some (vlm2, old)
    /\ Get vlm1 3 4 = Some (512, 1, 0, 5)
    /\ Get vlm2 3 4 = Get vlm1 3 4.
Proof.
  eexists. eexists. eexists.
  split; [vm_compute; reflexivity|].
  split; [vm_compute; reflexivity|].
  split; [vm_compute; reflexivity|].
  eapply (Set_leaves_other_keys _ 1 2 1280 1 5 7 false 3 4).
  - left. lia.
  - vm_compute. reflexivity.
Defined.

End valuelocmap_facts.

(** ** Slices *)

Lemma patch_length {A} (l : list A) o bs :
  (o + List.length bs <= List.length l)%nat ->
  List.length (patch l o bs) = List.length l.
Proof.
  intros H. unfold patch.
  rewrite !length_app, length_firstn, length_skipn. lia.
Qed.

Lemma firstn_patch {A} (l : list A) o bs :
  (o <= List.length l)%nat ->
  firstn (o + List.length bs) (patch l o bs) = firstn o l ++ bs.
Proof.
  intros H. unfold patch. rewrite app_assoc.
  rewrite firstn_app.
  replace (o + List.length bs - List.length (firstn o l ++ bs))%nat
    with 0%nat by (rewrite length_app, length_firstn; lia).
  rewrite firstn_O, app_nil_r. apply firstn_all2.
  rewrite length_app, length_firstn. lia.
Qed.

Lemma skipn_patch {A} (l : list A) o bs :
  (o <= List.length l)%nat ->
  skipn (o + List.length bs) (patch l o bs) = skipn (o + List.length bs) l.
Proof.
  intros H. unfold patch. rewrite app_assoc.
  rewrite skipn_app.
  replace (o + List.length bs - List.length (firstn o l ++ bs))%nat
    with 0%nat by (rewrite length_app, length_firstn; lia).
  rewrite skipn_O.
  rewrite skipn_all2 by (rewrite length_app, length_firstn; lia).
  reflexivity.
Qed.

Lemma patch_patch {A} (l : list A) o bs1 bs2 :
  (o <= List.length l)%nat ->
  patch (patch l o bs1) (o + List.length bs1) bs2 = patch l o (bs1 ++ bs2).
Proof.
  intros H. unfold patch at 1.
  rewrite firstn_patch by assumption.
  replace (o + List.length bs1 + List.length bs2)%nat
    with (List.length bs2 + (o + List.length bs1))%nat by lia.
  rewrite <- skipn_skipn, skipn_patch by assumption.
  rewrite skipn_skipn. unfold patch.
  rewrite length_app, <- !app_assoc.
  replace (List.length bs2 + (o + List.length bs1))%nat
    with (o + (List.length bs1 + List.length bs2))%nat by lia.
  reflexivity.
Qed.

Lemma sliceTo_Ret s n :
  0 <= n <= Z.of_nat (cap s) ->
  sliceTo s n = Ret (mkSlice (arr s) (Z.to_nat n)).
Proof.
  intros [H1 H2]. unfold sliceTo.
  apply Z.leb_le in H1, H2. now rewrite H1, H2.
Qed.

Lemma storeAt_Ret s off bs :
  0 <= off -> off + Z.of_nat (List.length bs) <= Z.of_nat (len s) ->
  (len s <= cap s)%nat ->
  storeAt s off bs = Ret (mkSlice (patch (arr s) (Z.to_nat off) bs) (len s)).
Proof.
  intros H1 H2 H3. unfold storeAt.
  apply Z.leb_le in H1, H2. apply Nat.leb_le in H3.
  now rewrite H1, H2, H3.
Qed.

Lemma storeAt_ok s off bs :
  0 <= off -> off + Z.of_nat (List.length bs) <= Z.of_nat (len s) ->
  (len s <= cap s)%nat ->
  exists s', storeAt s off bs = Ret s'
             /\ arr s' = patch (arr s) (Z.to_nat off) bs
             /\ len s' = len s /\ cap s' = cap s.
Proof.
  intros H1 H2 H3. eexists. split; [now apply storeAt_Ret|].
  cbn. repeat split. unfold cap; cbn. apply patch_length. unfold cap in H3. lia.
Qed.

Lemma bigEndian_length n v : List.length (bigEndian n v) = n.
Proof. unfold bigEndian. now rewrite length_map, length_seq. Qed.

(** ** Byte order: what [binary.BigEndian] puts, it reads back *)

Lemma byteOfZ_value z : Z.of_N (Byte.to_N (byteOfZ z)) = z mod 256.
Proof.
  unfold byteOfZ.
  assert (R : 0 <= z mod 256 < 256) by (apply Z.mod_pos_bound; lia).
  destruct (Byte.of_N (Z.to_N (z mod 256))) as [x|] eqn:E.
  - apply Byte.to_of_N in E. rewrite E. lia.
  - apply Byte.of_N_None_iff in E. lia.
Qed.

Lemma bigEndian_S n v :
  bigEndian (S n) v = byteOfZ (Z.shiftr v (8 * Z.of_nat n)) :: bigEndian n v.
Proof.
  unfold bigEndian. cbn [seq map]. f_equal.
  - f_equal. f_equal. lia.
  - rewrite <- seq_shift, map_map. apply map_ext_in.
    intros i Hi. apply in_seq in Hi. do 3 f_equal. lia.
Qed.

Lemma fromBigEndian_from acc l :
  fold_left (fun a x => a * 256 + Z.of_N (Byte.to_N x)) l acc
  = acc * 256 ^ Z.of_nat (List.length l) + valuedirectfile.fromBigEndian l.
Proof.
  unfold valuedirectfile.fromBigEndian. revert acc.
  induction l as [|x l IH]; intros acc; cbn [fold_left List.length].
  - cbn. lia.
  - rewrite IH, (IH (0 * 256 + _)).
    rewrite Nat2Z.inj_succ, Z.pow_succ_r by lia. lia.
Qed.

Lemma fromBigEndian_cons x l :
  valuedirectfile.fromBigEndian (x :: l)
  = Z.of_N (Byte.to_N x) * 256 ^ Z.of_nat (List.length l)
    + valuedirectfile.fromBigEndian l.
Proof.
  unfold valuedirectfile.fromBigEndian at 1. cbn [fold_left].
  rewrite fromBigEndian_from. lia.
Qed.

Lemma fromBigEndian_bigEndian n v :
  0 <= v ->
  valuedirectfile.fromBigEndian (bigEndian n v) = v mod 2 ^ (8 * Z.of_nat n).
Proof.
  intros Hv. induction n as [|n IH].
  - cbn. now rewrite Z.mod_1_r.
  - rewrite bigEndian_S, fromBigEndian_cons, bigEndian_length, IH.
    rewrite byteOfZ_value, Z.shiftr_div_pow2 by lia.
    replace (256 ^ Z.of_nat n) with (2 ^ (8 * Z.of_nat n))
      by (rewrite Z.pow_mul_r by lia; reflexivity).
    replace (8 * Z.of_nat (S n)) with (8 * Z.of_nat n + 8) by lia.
    rewrite Z.pow_add_r by lia. change (2 ^ 8) with 256.
    set (m := 2 ^ (8 * Z.of_nat n)).
    assert (Hm : 0 < m) by (apply Z.pow_pos_nonneg; lia).
    rewrite Z.rem_mul_r by lia. ring.
Qed.

Lemma fromBigEndian_bigEndian_small n v :
  0 <= v < 2 ^ (8 * Z.of_nat n) ->
  valuedirectfile.fromBigEndian (bigEndian n v) = v.
Proof.
  intros Hv. rewrite fromBigEndian_bigEndian by lia. apply Z.mod_small, Hv.
Qed.

Module valuestore_facts.
Import valuestore.

Lemma tocEntry_length kA kB ts memOff length :
  List.length (tocEntry kA kB ts memOff length) = 32%nat.
Proof. unfold tocEntry. now rewrite !length_app, !bigEndian_length. Qed.

Lemma bufferValue_ok vals memOff alloc value :
  0 <= memOff ->
  Z.of_nat (List.length value) <= alloc ->
  memOff + alloc <= Z.of_nat (cap vals) ->
  exists v3, bufferValue vals memOff alloc value = Ret v3
             /\ cap v3 = cap vals
             /\ len v3 = Z.to_nat (memOff + alloc).
Proof.
  intros H0 Hl Hc. unfold bufferValue.
  rewrite sliceTo_Ret by lia. cbn [runBind].
  set (v1 := mkSlice (arr vals) (Z.to_nat (memOff + alloc))).
  assert (Hlen1 : len v1 = Z.to_nat (memOff + alloc)) by reflexivity.
  assert (Hcap1 : cap v1 = cap vals) by reflexivity.
  unfold copyAt.
  assert (E1 : (0 <=? memOff) && (memOff <=? Z.of_nat (len v1)) = true).
  { apply andb_true_intro; split; apply Z.leb_le; lia. }
  rewrite E1.
  destruct (storeAt_ok v1 memOff
              (firstn (len v1 - Z.to_nat memOff) value))
    as (v2 & S2 & A2 & L2 & C2).
  - assumption.
  - rewrite length_firstn. lia.
  - lia.
  - rewrite S2. cbn [runBind].
    destruct (alloc >? Z.of_nat (List.length value)) eqn:Ez.
    + destruct (storeAt_ok v2 (memOff + Z.of_nat (List.length value))
                  (repeat x00 (Z.to_nat (alloc - Z.of_nat (List.length value)))))
        as (v3 & S3 & A3 & L3 & C3).
      * lia.
      * rewrite repeat_length. lia.
      * lia.
      * exists v3. rewrite S3. repeat split; congruence.
    + exists v2. repeat split; congruence.
Qed.

Lemma appendTOC_ok t tocOff kA kB ts memOff length :
  0 <= tocOff ->
  tocOff + _VALUE_FILE_ENTRY_SIZE <= Z.of_nat (cap t) ->
  exists t6, appendTOC t tocOff kA kB ts memOff length = Ret t6
             /\ cap t6 = cap t
             /\ len t6 = Z.to_nat (tocOff + _VALUE_FILE_ENTRY_SIZE)
             /\ arr t6 = patch (arr t) (Z.to_nat tocOff)
                           (tocEntry kA kB ts memOff length).
Proof.
  unfold _VALUE_FILE_ENTRY_SIZE. intros H0 Hc. unfold appendTOC.
  unfold _VALUE_FILE_ENTRY_SIZE.
  rewrite sliceTo_Ret by lia. cbn [runBind].
  set (t1 := mkSlice (arr t) (Z.to_nat (tocOff + 32))).
  assert (L1 : len t1 = Z.to_nat (tocOff + 32)) by reflexivity.
  assert (C1 : cap t1 = cap t) by reflexivity.
  assert (A1 : arr t1 = arr t) by reflexivity.
  assert (Ho : (Z.to_nat tocOff <= List.length (arr t))%nat)
    by (unfold cap in Hc; lia).
  unfold PutUint64, PutUint32.
  destruct (storeAt_ok t1 tocOff (bigEndian 8 kA))
    as (t2 & S2 & A2 & L2 & C2);
    [lia | rewrite bigEndian_length; lia | lia |].
  rewrite S2. cbn [runBind].
  destruct (storeAt_ok t2 (tocOff + 8) (bigEndian 8 kB))
    as (t3 & S3 & A3 & L3 & C3);
    [lia | rewrite bigEndian_length; lia | lia |].
  rewrite S3. cbn [runBind].
  destruct (storeAt_ok t3 (tocOff + 16) (bigEndian 8 ts))
    as (t4 & S4 & A4 & L4 & C4);
    [lia | rewrite bigEndian_length; lia | lia |].
  rewrite S4. cbn [runBind].
  destruct (storeAt_ok t4 (tocOff + 24) (bigEndian 4 (uint32 memOff)))
    as (t5 & S5 & A5 & L5 & C5);
    [lia | rewrite bigEndian_length; lia | lia |].
  rewrite S5. cbn [runBind].
  destruct (storeAt_ok t5 (tocOff + 28) (bigEndian 4 (uint32 length)))
    as (t6 & S6 & A6 & L6 & C6);
    [lia | rewrite bigEndian_length; lia | lia |].
  exists t6. split; [exact S6|]. split; [congruence|]. split; [congruence|].
  rewrite A6, A5, A4, A3, A2, A1. unfold tocEntry.
  set (o := Z.to_nat tocOff).
  replace (Z.to_nat (tocOff + 8)) with (o + List.length (bigEndian 8 kA))%nat
    by (rewrite bigEndian_length; lia).
  rewrite patch_patch by assumption.
  replace (Z.to_nat (tocOff + 16))
    with (o + List.length (bigEndian 8 kA ++ bigEndian 8 kB))%nat
    by (rewrite length_app, !bigEndian_length; lia).
  rewrite patch_patch by assumption.
  replace (Z.to_nat (tocOff + 24))
    with (o + List.length ((bigEndian 8 kA ++ bigEndian 8 kB)
                           ++ bigEndian 8 ts))%nat
    by (rewrite !length_app, !bigEndian_length; lia).
  rewrite patch_patch by assumption.
  replace (Z.to_nat (tocOff + 28))
    with (o + List.length (((bigEndian 8 kA ++ bigEndian 8 kB)
                            ++ bigEndian 8 ts)
                           ++ bigEndian 4 (uint32 memOff)))%nat
    by (rewrite !length_app, !bigEndian_length; lia).
  rewrite patch_patch by assumption.
  now rewrite <- !app_assoc.
Qed.

(** *** The block registry *)

Lemma forallb_impl {A} (P Q : A -> bool) l :
  (forall x, P x = true -> Q x = true) ->
  forallb P l = true -> forallb Q l = true.
Proof.
  intros H. induction l as [|x l IH]; simpl; [reflexivity|].
  intros E. apply andb_prop in E as [E1 E2].
  now rewrite (H _ E1), IH.
Qed.

Lemma forallb_set_nth {A} (P : A -> bool) l i x :
  forallb P l = true -> P x = true -> forallb P (set_nth l i x) = true.
Proof.
  revert i. induction l as [|y l IH]; intros [|i] H Hx; simpl in *; auto.
  - apply andb_prop in H as [_ H]. now rewrite Hx.
  - apply andb_prop in H as [H1 H2]. now rewrite H1, IH.
Qed.

Lemma forallb_nth_error {A} (P : A -> bool) l i x :
  forallb P l = true -> nth_error l i = Some x -> P x = true.
Proof.
  intros H E. apply nth_error_In in E.
  rewrite forallb_forall in H. auto.
Qed.

Lemma map_set_nth {A B} (f : A -> B) l i x y :
  nth_error l i = Some y -> f x = f y -> map f (set_nth l i x) = map f l.
Proof.
  revert i. induction l as [|h t IH]; intros [|i] E Hf; simpl in *;
    try discriminate.
  - injection E as ->. now rewrite Hf.
  - f_equal. eauto.
Qed.

Lemma memBlockAt_inv st slot mb :
  memBlockAt st slot = Ret mb ->
  0 <= slot
  /\ nth_error (locBlocks st) (Z.to_nat slot) = Some (Some (memBlockLoc mb)).
Proof.
  unfold memBlockAt, locBlock.
  destruct (Z.ltb_spec slot 0); [discriminate|].
  destruct (nth_error (locBlocks st) (Z.to_nat slot)) as [[[m|f]|]|];
    cbn; try discriminate.
  intros [= ->]. auto.
Qed.

Lemma memBlockAt_intro st slot mb :
  0 <= slot ->
  nth_error (locBlocks st) (Z.to_nat slot) = Some (Some (memBlockLoc mb)) ->
  memBlockAt st slot = Ret mb.
Proof.
  intros H E. unfold memBlockAt, locBlock.
  destruct (Z.ltb_spec slot 0); [lia|]. now rewrite E.
Qed.

Lemma memBlockAt_ext st st' slot :
  locBlocks st' = locBlocks st -> memBlockAt st' slot = memBlockAt st slot.
Proof. intros E. unfold memBlockAt, locBlock. now rewrite E. Qed.

Lemma memSlotOK_ext st st' slot :
  locBlocks st' = locBlocks st -> pageSize st' = pageSize st ->
  memSlotOK st' slot = memSlotOK st slot.
Proof. intros E1 E2. unfold memSlotOK, locBlock. now rewrite E1, E2. Qed.

Lemma memSlotOK_inv st slot :
  memSlotOK st slot = true ->
  exists mb, memBlockAt st slot = Ret mb
             /\ id mb <> 0
             /\ Z.of_nat (cap (toc mb)) = pageSize st
             /\ Z.of_nat (cap (values mb)) = pageSize st.
Proof.
  unfold memSlotOK, memBlockAt.
  destruct (locBlock st slot) as [[[mb|fl]|]|]; try discriminate.
  intros H. apply andb_prop in H as [H H3]. apply andb_prop in H as [H1 H2].
  exists mb. cbn. repeat split; try now apply Z.eqb_eq.
  now apply negb_true_iff, Z.eqb_neq in H1.
Qed.

Lemma memBlockAt_putMemBlock st slot mb mb' :
  memBlockAt st slot = Ret mb ->
  memBlockAt (putMemBlock st slot mb') slot = Ret mb'.
Proof.
  intros H. apply memBlockAt_inv in H as [H0 H].
  apply memBlockAt_intro; [assumption|]. cbn.
  eapply set_nth_same; eassumption.
Qed.

(** Replacing a mem block by one of the same make keeps every slot good. *)
Lemma memSlotOK_putMemBlock st slot mb mb' slot2 :
  memBlockAt st slot = Ret mb ->
  id mb' <> 0 ->
  Z.of_nat (cap (toc mb')) = pageSize st ->
  Z.of_nat (cap (values mb')) = pageSize st ->
  memSlotOK st slot2 = true ->
  memSlotOK (putMemBlock st slot mb') slot2 = true.
Proof.
  intros H Hid Ht Hv H2.
  destruct (Z.eq_dec slot2 slot) as [->|Hne].
  - unfold memSlotOK.
    pose proof (memBlockAt_putMemBlock _ _ _ mb' H) as E.
    apply memBlockAt_inv in E as [E0 E].
    unfold locBlock. destruct (Z.ltb_spec slot 0); [lia|].
    rewrite E. cbn.
    apply Z.eqb_eq in Ht, Hv. apply Z.eqb_neq in Hid.
    now rewrite Hid, Ht, Hv.
  - unfold memSlotOK in *. unfold locBlock in *.
    destruct (Z.ltb_spec slot2 0); [discriminate|].
    apply memBlockAt_inv in H as [Hs _].
    cbn. rewrite set_nth_other by lia. exact H2.
Qed.

(** *** The write shard *)

Lemma storeOK_inv st :
  storeOK st = true ->
  0 < workers st
  /\ Z.of_nat (List.length (memWriters st)) = workers st
  /\ _VALUE_FILE_ENTRY_SIZE <= pageSize st
  /\ 0 <= valueCap st
  /\ valueCap st <= pageSize st
  /\ minValueAlloc st <= pageSize st
  /\ forallb (writerOK st) (memWriters st) = true
  /\ forallb (memSlotOK st) (freeMemBlockChan st) = true.
Proof.
  unfold storeOK. intros H.
  repeat (apply andb_prop in H as [H ?]).
  repeat split; auto;
    try (apply Z.ltb_lt; assumption);
    try (apply Z.leb_le; assumption);
    try (apply Z.eqb_eq; assumption).
Qed.

Lemma storeOK_intro st :
  0 < workers st ->
  Z.of_nat (List.length (memWriters st)) = workers st ->
  _VALUE_FILE_ENTRY_SIZE <= pageSize st ->
  0 <= valueCap st ->
  valueCap st <= pageSize st ->
  minValueAlloc st <= pageSize st ->
  forallb (writerOK st) (memWriters st) = true ->
  forallb (memSlotOK st) (freeMemBlockChan st) = true ->
  storeOK st = true.
Proof.
  intros H1 H2 H3 H4 H5 H6 H7 H8. unfold storeOK.
  apply Z.ltb_lt in H1. apply Z.eqb_eq in H2.
  apply Z.leb_le in H3, H4, H5, H6.
  now rewrite H1, H2, H3, H4, H5, H6, H7, H8.
Qed.

Lemma writerOK_inv st w :
  writerOK st w = true ->
  match memBlock w with
  | Some slot => memSlotOK st slot = true
  | None => True
  end
  /\ 0 <= memBlockTOCOffset w /\ 0 <= memBlockMemOffset w.
Proof.
  unfold writerOK. intros H.
  apply andb_prop in H as [H H3]. apply andb_prop in H as [H1 H2].
  apply Z.leb_le in H2, H3. repeat split; auto.
  destruct (memBlock w); auto.
Qed.

(** The block a write lands in: the one the writer holds if it has room,
    else the next free one. *)
Lemma select_ok st w alloc :
  storeOK st = true ->
  writerOK st w = true ->
  freeMemBlockChan st <> [] ->
  0 <= alloc <= pageSize st ->
  exists st1 w1 st2 w2 slot mb,
    handOffIfFull st w alloc = Ret (st1, w1)
    /\ obtainMemBlock st1 w1 = Ret (st2, w2, slot)
    /\ memBlockAt st2 slot = Ret mb
    /\ memBlock w2 = Some slot
    /\ enabled w2 = enabled w
    /\ 0 <= memBlockTOCOffset w2 /\ 0 <= memBlockMemOffset w2
    /\ memBlockTOCOffset w2 + _VALUE_FILE_ENTRY_SIZE <= Z.of_nat (cap (toc mb))
    /\ memBlockMemOffset w2 + alloc <= Z.of_nat (cap (values mb))
    /\ id mb <> 0
    /\ Z.of_nat (cap (toc mb)) = pageSize st
    /\ Z.of_nat (cap (values mb)) = pageSize st
    /\ locmap st2 = locmap st
    /\ locBlocks st2 = locBlocks st
    /\ memWriters st2 = memWriters st
    /\ sameConfig st st2
    /\ (forall s, In s (freeMemBlockChan st2) -> In s (freeMemBlockChan st))
    /\ (List.length (freeMemBlockChan st)
        <= List.length (freeMemBlockChan st2) + 1)%nat.
Proof.
  intros OK Hw Hfree Ha.
  destruct (storeOK_inv _ OK) as (Hwk & Hlen & Hps & Hvc0 & Hvc & Hma & Hws & Hfs).
  destruct (writerOK_inv _ _ Hw) as (Hslot & Ht0 & Hm0).
  assert (Fresh : forall st1 w1,
             memBlock w1 = None ->
             locBlocks st1 = locBlocks st -> pageSize st1 = pageSize st ->
             freeMemBlockChan st1 = freeMemBlockChan st ->
             exists st2 w2 slot mb,
               obtainMemBlock st1 w1 = Ret (st2, w2, slot)
               /\ st2 = withFreeMemBlockChan st1 (tl (freeMemBlockChan st))
               /\ w2 = mkMemWriter (enabled w1) (Some slot) 0 0
               /\ memBlockAt st slot = Ret mb
               /\ id mb <> 0
               /\ Z.of_nat (cap (toc mb)) = pageSize st
               /\ Z.of_nat (cap (values mb)) = pageSize st
               /\ freeMemBlockChan st
                  = slot :: tl (freeMemBlockChan st)).
  { intros st1 w1 En E1 E2 E3. unfold obtainMemBlock. rewrite En, E3.
    destruct (freeMemBlockChan st) as [|s rest] eqn:Ef; [contradiction|].
    cbn in Hfs. apply andb_prop in Hfs as [Hs _].
    destruct (memSlotOK_inv _ _ Hs) as (mb & M & I1 & I2 & I3).
    exists (withFreeMemBlockChan st1 rest),
      (mkMemWriter (enabled w1) (Some s) 0 0), s, mb.
    cbn. repeat split; auto. }
  unfold handOffIfFull.
  destruct (memBlock w) as [slot|] eqn:Emb.
  - destruct (memSlotOK_inv _ _ Hslot) as (mb & M & I1 & I2 & I3).
    rewrite M. cbn [runBind].
    destruct ((memBlockTOCOffset w + _VALUE_FILE_ENTRY_SIZE
                 >? Z.of_nat (cap (toc mb)))
              || (memBlockMemOffset w + alloc >? Z.of_nat (cap (values mb))))
      eqn:Efull.
    + (* full: hand it off and take a fresh one *)
      destruct (Fresh (toFileWriter st (memBlockPtr slot))
                  (mkMemWriter (enabled w) None (memBlockTOCOffset w)
                     (memBlockMemOffset w))
                  eq_refl eq_refl eq_refl eq_refl)
        as (st2 & w2 & s & mb2 & O & -> & -> & M2 & J1 & J2 & J3 & Ef).
      do 6 eexists. split; [reflexivity|]. split; [exact O|].
      split; [rewrite <- M2; now apply memBlockAt_ext|].
      cbn. unfold sameConfig. cbn.
      repeat split; auto; try lia.
      * intros x Hx. rewrite Ef. now right.
      * rewrite Ef at 1. cbn. lia.
    + (* room left: keep it *)
      apply orb_false_elim in Efull as [F1 F2].
      rewrite Z.gtb_ltb in F1, F2. apply Z.ltb_ge in F1, F2.
      exists st, w, st, w, slot, mb.
      unfold obtainMemBlock. rewrite Emb.
      unfold sameConfig. repeat split; auto; lia.
  - destruct (Fresh st w Emb eq_refl eq_refl eq_refl)
      as (st2 & w2 & s & mb2 & O & -> & -> & M2 & J1 & J2 & J3 & Ef).
    exists st, w. do 4 eexists. split; [reflexivity|].
    split; [exact O|].
    split; [rewrite <- M2; now apply memBlockAt_ext|].
    cbn. unfold sameConfig. cbn.
    repeat split; auto; try lia.
    * intros x Hx. rewrite Ef. now right.
    * rewrite Ef at 1. cbn. lia.
Qed.

Lemma allocFor_bounds st n :
  storeOK st = true -> 0 <= n <= valueCap st ->
  n <= allocFor st n <= pageSize st.
Proof.
  intros OK Hn.
  destruct (storeOK_inv _ OK) as (_ & _ & _ & _ & Hvc & Hma & _).
  unfold allocFor. destruct (Z.ltb_spec n (minValueAlloc st)); lia.
Qed.

(** A slot stays good through the updates of one accepted write. *)
Lemma memSlotOK_after_write st2 slot mb mb1 mb2 m' i w' x :
  memBlockAt st2 slot = Ret mb ->
  id mb1 <> 0 -> Z.of_nat (cap (toc mb1)) = pageSize st2 ->
  Z.of_nat (cap (values mb1)) = pageSize st2 ->
  id mb2 <> 0 -> Z.of_nat (cap (toc mb2)) = pageSize st2 ->
  Z.of_nat (cap (values mb2)) = pageSize st2 ->
  memSlotOK st2 x = true ->
  memSlotOK
    (putMemWriter
       (putMemBlock (withLocmap (putMemBlock st2 slot mb1) m') slot mb2) i w')
    x = true.
Proof.
  intros M A1 A2 A3 B1 B2 B3 Hx.
  rewrite (memSlotOK_ext
             (putMemBlock (withLocmap (putMemBlock st2 slot mb1) m') slot mb2))
    by reflexivity.
  apply (memSlotOK_putMemBlock _ _ mb1); auto.
  - rewrite (memBlockAt_ext (putMemBlock st2 slot mb1)) by reflexivity.
    eapply memBlockAt_putMemBlock; eassumption.
  - rewrite (memSlotOK_ext (putMemBlock st2 slot mb1)) by reflexivity.
    apply (memSlotOK_putMemBlock _ _ mb); auto.
Qed.

(** One accepted write request, from the block it lands in to the state the
    [memWriter] leaves behind. *)
Lemma memWriter_accepts st i w kA kB tsb value internal :
  storeOK st = true ->
  nth_error (memWriters st) i = Some w ->
  valuelocmap.wellFormedFor (valuelocmap.root (locmap st)) kA kB = true ->
  freeMemBlockChan st <> [] ->
  enabled w || internal = true ->
  Z.of_nat (List.length value) <= valueCap st ->
  let length := Z.of_nat (List.length value) in
  let alloc := allocFor st length in
  exists st1 w1 st2 w2 slot mb pts pbid poff plen st' mb' w',
    handOffIfFull st w alloc = Ret (st1, w1)
    /\ obtainMemBlock st1 w1 = Ret (st2, w2, slot)
    /\ memBlockAt st2 slot = Ret mb
    /\ valuelocmap.Get (locmap st) kA kB = Some (pts, pbid, poff, plen)
    /\ (pbid = 0 -> pts = 0)
    /\ memWriter st i (writeReq kA kB tsb value internal)
       = Ret (st', Some (pts, None))
    /\ memBlockAt st' slot = Ret mb'
    /\ nth_error (memWriters st') i = Some w'
    /\ memBlock w' = Some slot
    /\ (if pts <? tsb then
          bytesOf (toc mb')
          = firstn (Z.to_nat (memBlockTOCOffset w2)) (arr (toc mb))
            ++ tocEntry kA kB tsb (memBlockMemOffset w2) length
          /\ memBlockTOCOffset w'
             = memBlockTOCOffset w2 + _VALUE_FILE_ENTRY_SIZE
          /\ memBlockMemOffset w' = memBlockMemOffset w2 + alloc
          /\ len (values mb') = Z.to_nat (memBlockMemOffset w2 + alloc)
        else
          toc mb' = toc mb
          /\ len (values mb') = Z.to_nat (memBlockMemOffset w2)
          /\ memBlockTOCOffset w' = memBlockTOCOffset w2
          /\ memBlockMemOffset w' = memBlockMemOffset w2)
    /\ storeOK st' = true
    /\ valuelocmap.wellFormedFor (valuelocmap.root (locmap st')) kA kB = true
    /\ (List.length (freeMemBlockChan st)
        <= List.length (freeMemBlockChan st') + 1)%nat
    /\ map enabled (memWriters st') = map enabled (memWriters st)
    /\ sameConfig st st'
    /\ id mb <> 0
    /\ valuelocmap.Get (locmap st') kA kB =
         Some (if valuelocmap.supersedes tsb pts false || (pbid =? 0)
               then (tsb, id mb, uint32 (memBlockMemOffset w2), uint32 length)
               else (pts, pbid, poff, plen)).
Proof.
  intros OK Hw Hwf Hfree Hacc Hlen length alloc.
  assert (Hl0 : 0 <= length <= valueCap st) by (unfold length; lia).
  pose proof (allocFor_bounds st length OK Hl0) as Ha. fold alloc in Ha.
  destruct (storeOK_inv _ OK)
    as (Hwk & Hlw & Hps & Hvc0 & Hvc & Hma & Hws & Hfs).
  pose proof (forallb_nth_error _ _ _ _ Hws Hw) as HwOK.
  destruct (select_ok st w alloc OK HwOK Hfree ltac:(lia))
    as (st1 & w1 & st2 & w2 & slot & mb & S1 & S2 & M & Eslot & Een
        & T0 & M0 & Troom & Mroom & Hid & Ctoc & Cval
        & Elm & Elb & Emw & Ecfg & Hin & Hfl).
  destruct Ecfg as (Ewk & Evc & Eps & Ema).
  destruct (bufferValue_ok (values mb) (memBlockMemOffset w2) alloc value)
    as (v3 & B & Cv3 & Lv3); [lia | fold length; lia | lia |].
  destruct (valuelocmap_facts.SetLoc_Get (locmap st) kA kB tsb (id mb)
              (uint32 (memBlockMemOffset w2)) (uint32 length) false Hwf Hid)
    as (pts & pbid & poff & plen & m' & G & SL & Z0 & G' & Wf').
  (* the two blocks the slot goes through *)
  set (mbV := withValues mb v3).
  assert (HV : id mbV <> 0 /\ Z.of_nat (cap (toc mbV)) = pageSize st2
               /\ Z.of_nat (cap (values mbV)) = pageSize st2)
    by (unfold mbV; cbn; rewrite Cv3, Eps; auto).
  destruct HV as (V1 & V2 & V3).
  assert (Run : forall mb2 w2' K,
             id mb2 <> 0 -> Z.of_nat (cap (toc mb2)) = pageSize st2 ->
             Z.of_nat (cap (values mb2)) = pageSize st2 ->
             memBlock w2' = Some slot -> enabled w2' = enabled w ->
             0 <= memBlockTOCOffset w2' -> 0 <= memBlockMemOffset w2' ->
             K mb2 w2' ->
             let st' :=
               putMemWriter
                 (putMemBlock (withLocmap (putMemBlock st2 slot mbV) m')
                    slot mb2) i w2' in
             memBlockAt st' slot = Ret mb2
             /\ nth_error (memWriters st') i = Some w2'
             /\ memBlock w2' = Some slot
             /\ K mb2 w2'
             /\ storeOK st' = true
             /\ valuelocmap.wellFormedFor
                  (valuelocmap.root (locmap st')) kA kB = true
             /\ (List.length (freeMemBlockChan st)
                 <= List.length (freeMemBlockChan st') + 1)%nat
             /\ map enabled (memWriters st') = map enabled (memWriters st)
             /\ sameConfig st st'
             /\ id mb <> 0
             /\ valuelocmap.Get (locmap st') kA kB =
                  Some (if valuelocmap.supersedes tsb pts false || (pbid =? 0)
                        then (tsb, id mb, uint32 (memBlockMemOffset w2),
                              uint32 length)
                        else (pts, pbid, poff, plen))).
  { intros mb2 w2' K A1 A2 A3 Hs He Ht Hm HK st'.
    assert (Mono : forall x, memSlotOK st x = true -> memSlotOK st' x = true).
    { intros x Hx. unfold st'.
      apply (memSlotOK_after_write st2 slot mb mbV mb2); auto.
      rewrite (memSlotOK_ext st st2); auto. }
    split.
    { unfold st'.
      rewrite (memBlockAt_ext
                 (putMemBlock (withLocmap (putMemBlock st2 slot mbV) m')
                    slot mb2)) by reflexivity.
      apply (memBlockAt_putMemBlock _ _ mbV).
      rewrite (memBlockAt_ext (putMemBlock st2 slot mbV)) by reflexivity.
      eapply memBlockAt_putMemBlock; eassumption. }
    split.
    { unfold st'. cbn. rewrite Emw. eapply set_nth_same; eassumption. }
    split; [assumption|]. split; [assumption|].
    split.
    { assert (SlotOK : memSlotOK st slot = true).
      { rewrite (memSlotOK_ext st2 st) by congruence.
        unfold memSlotOK. apply memBlockAt_inv in M as [M1 M2].
        unfold locBlock. destruct (Z.ltb_spec slot 0); [lia|].
        rewrite M2. cbn. apply Z.eqb_neq in Hid.
        apply Z.eqb_eq in Ctoc, Cval.
        now rewrite Hid, Eps, Ctoc, Cval. }
      apply storeOK_intro.
      - unfold st'; cbn; lia.
      - unfold st'; cbn. rewrite set_nth_length, Emw. lia.
      - unfold st'; cbn; lia.
      - unfold st'; cbn; lia.
      - unfold st'; cbn; lia.
      - unfold st'; cbn; lia.
      - change (memWriters st') with (set_nth (memWriters st2) i w2').
        rewrite Emw. apply forallb_set_nth.
        + apply (forallb_impl (writerOK st)); [|assumption].
          intros x Hx. destruct (writerOK_inv _ _ Hx) as (X1 & X2 & X3).
          unfold writerOK. apply Z.leb_le in X2, X3. rewrite X2, X3.
          revert X1. destruct (memBlock x); [|reflexivity].
          intros X1. now rewrite (Mono _ X1).
        + unfold writerOK. rewrite Hs.
          apply Z.leb_le in Ht, Hm. rewrite Ht, Hm.
          now rewrite (Mono _ SlotOK).
      - change (freeMemBlockChan st') with (freeMemBlockChan st2).
        apply forallb_forall. intros x Hx. apply Mono.
        rewrite forallb_forall in Hfs. auto. }
    split; [unfold st'; cbn; exact Wf'|].
    split; [unfold st'; cbn; exact Hfl|].
    split.
    { unfold st'. cbn. rewrite Emw.
      eapply map_set_nth; [eassumption|assumption]. }
    split; [unfold sameConfig, st'; cbn; auto|].
    split; [assumption|].
    unfold st'. cbn. exact G'. }
  (* run the loop body *)
  assert (Hrej : negb (enabled w) && negb internal = false).
  { destruct (enabled w), internal; cbn in *; congruence. }
  assert (Hfit : (length >? valueCap st) = false)
    by (rewrite Z.gtb_ltb; apply Z.ltb_ge; lia).
  assert (Body :
     memWriter st i (writeReq kA kB tsb value internal)
     = if pts <? tsb then
         t6 <~ appendTOC (toc mb) (memBlockTOCOffset w2) kA kB tsb
                 (memBlockMemOffset w2) length ;;
         Ret (putMemWriter
                (putMemBlock (withLocmap (putMemBlock st2 slot mbV) m') slot
                   (withToc mbV t6)) i
                (mkMemWriter (enabled w2) (Some slot)
                   (memBlockTOCOffset w2 + _VALUE_FILE_ENTRY_SIZE)
                   (memBlockMemOffset w2 + alloc)),
              Some (pts, None))
       else
         v4 <~ sliceTo v3 (memBlockMemOffset w2) ;;
         Ret (putMemWriter
                (putMemBlock (withLocmap (putMemBlock st2 slot mbV) m') slot
                   (withValues mb v4)) i w2,
              Some (pts, None))).
  { unfold memWriter. rewrite Hw. cbn [orFault runBind].
    rewrite Hrej. fold length. rewrite Hfit. fold alloc.
    rewrite S1. cbn [runBind]. rewrite S2. cbn [runBind].
    rewrite M. cbn [runBind]. rewrite B. cbn [runBind].
    cbn [locmap putMemBlock withLocBlocks]. rewrite Elm, SL.
    cbn [orFault runBind]. reflexivity. }
  exists st1, w1, st2, w2, slot, mb, pts, pbid, poff, plen.
  destruct (pts <? tsb) eqn:Ewin.
  - destruct (appendTOC_ok (toc mb) (memBlockTOCOffset w2) kA kB tsb
                (memBlockMemOffset w2) length T0 Troom)
      as (t6 & AT & Ct6 & Lt6 & At6).
    rewrite AT in Body. cbn [runBind] in Body.
    do 3 eexists.
    split; [exact S1|]. split; [exact S2|]. split; [exact M|].
    split; [exact G|]. split; [exact Z0|]. split; [exact Body|].
    apply (Run (withToc mbV t6) _
             (fun mb' w' =>
                bytesOf (toc mb')
                = firstn (Z.to_nat (memBlockTOCOffset w2)) (arr (toc mb))
                  ++ tocEntry kA kB tsb (memBlockMemOffset w2) length
                /\ memBlockTOCOffset w'
                   = memBlockTOCOffset w2 + _VALUE_FILE_ENTRY_SIZE
                /\ memBlockMemOffset w' = memBlockMemOffset w2 + alloc
                /\ len (values mb')
                   = Z.to_nat (memBlockMemOffset w2 + alloc)));
      unfold mbV;
      cbn [id toc values withToc withValues enabled memBlock
             memBlockTOCOffset memBlockMemOffset].
    + exact Hid.
    + rewrite Ct6. congruence.
    + rewrite Cv3. congruence.
    + reflexivity.
    + exact Een.
    + unfold _VALUE_FILE_ENTRY_SIZE. lia.
    + lia.
    + repeat split; auto.
      unfold bytesOf. rewrite Lt6, At6.
      unfold _VALUE_FILE_ENTRY_SIZE.
      replace (Z.to_nat (memBlockTOCOffset w2 + 32))
        with (Z.to_nat (memBlockTOCOffset w2)
              + List.length (tocEntry kA kB tsb (memBlockMemOffset w2) length))%nat
        by (rewrite tocEntry_length; lia).
      apply firstn_patch. unfold cap, _VALUE_FILE_ENTRY_SIZE in Troom. lia.
  - rewrite sliceTo_Ret in Body by lia. cbn [runBind] in Body.
    do 3 eexists.
    split; [exact S1|]. split; [exact S2|]. split; [exact M|].
    split; [exact G|]. split; [exact Z0|]. split; [exact Body|].
    apply (Run _ w2
             (fun mb' w' =>
                toc mb' = toc mb
                /\ len (values mb') = Z.to_nat (memBlockMemOffset w2)
                /\ memBlockTOCOffset w' = memBlockTOCOffset w2
                /\ memBlockMemOffset w' = memBlockMemOffset w2));
      cbn [id toc values withToc withValues enabled memBlock len
             memBlockTOCOffset memBlockMemOffset].
    + exact Hid.
    + congruence.
    + unfold cap in *. cbn [arr]. congruence.
    + exact Eslot.
    + exact Een.
    + exact T0.
    + exact M0.
    + repeat split.
Qed.

(** C5.  A write request the shard accepts lands in the block the writer
    holds or, if that one is full, in the next free one.  When the index
    reports a prior timestamp at or above the request's, the values buffer
    is cut back to the mem offset, the TOC is left alone and both offsets
    stay; when the prior is below, the TOC becomes its first TOC-offset
    bytes followed by exactly one 32-byte entry and the offsets advance by
    the entry size and the allocation.  Either way the prior timestamp goes
    back to the caller. *)
Theorem memWriter_frame_effect st i w kA kB tsb value internal :
  storeOK st = true ->
  nth_error (memWriters st) i = Some w ->
  valuelocmap.wellFormedFor (valuelocmap.root (locmap st)) kA kB = true ->
  freeMemBlockChan st <> [] ->
  enabled w || internal = true ->
  Z.of_nat (List.length value) <= valueCap st ->
  let length := Z.of_nat (List.length value) in
  let alloc := allocFor st length in
  exists st1 w1 st2 w2 slot mb pts pbid poff plen st' mb' w',
    handOffIfFull st w alloc = Ret (st1, w1)
    /\ obtainMemBlock st1 w1 = Ret (st2, w2, slot)
    /\ memBlockAt st2 slot = Ret mb
    /\ valuelocmap.Get (locmap st) kA kB = Some (pts, pbid, poff, plen)
    /\ memWriter st i (writeReq kA kB tsb value internal)
       = Ret (st', Some (pts, None))
    /\ memBlockAt st' slot = Ret mb'
    /\ nth_error (memWriters st') i = Some w'
    /\ memBlock w' = Some slot
    /\ (if pts <? tsb then
          bytesOf (toc mb')
          = firstn (Z.to_nat (memBlockTOCOffset w2)) (arr (toc mb))
            ++ tocEntry kA kB tsb (memBlockMemOffset w2) length
          /\ memBlockTOCOffset w'
             = memBlockTOCOffset w2 + _VALUE_FILE_ENTRY_SIZE
          /\ memBlockMemOffset w' = memBlockMemOffset w2 + alloc
          /\ len (values mb') = Z.to_nat (memBlockMemOffset w2 + alloc)
        else
          toc mb' = toc mb
          /\ len (values mb') = Z.to_nat (memBlockMemOffset w2)
          /\ memBlockTOCOffset w' = memBlockTOCOffset w2
          /\ memBlockMemOffset w' = memBlockMemOffset w2).
Proof.
  intros OK Hw Hwf Hfree Hacc Hlen length alloc.
  destruct (memWriter_accepts st i w kA kB tsb value internal
              OK Hw Hwf Hfree Hacc Hlen)
    as (st1 & w1 & st2 & w2 & slot & mb & pts & pbid & poff & plen
        & st' & mb' & w' & H1 & H2 & H3 & H4 & _ & H5 & H6 & H7 & H8 & H9 & _).
  exists st1, w1, st2, w2, slot, mb, pts, pbid, poff, plen, st', mb', w'.
  repeat split; assumption.
Qed.

Lemma memWriter_frame_effect_witness :
  exists st1 w1 st2 w2 slot mb pts pbid poff plen st' mb' w',
    handOffIfFull freshStore (mkMemWriter true None 0 0)
      (allocFor freshStore 7) = Ret (st1, w1)
    /\ obtainMemBlock st1 w1 = Ret (st2, w2, slot)
    /\ memBlockAt st2 slot = Ret mb
    /\ valuelocmap.Get (locmap freshStore) 1 2 = Some (pts, pbid, poff, plen)
    /\ memWriter freshStore 0 (writeReq 1 2 1280 testing false)
       = Ret (st', Some (pts, None))
    /\ memBlockAt st' slot = Ret mb'
    /\ nth_error (memWriters st') 0 = Some w'
    /\ memBlock w' = Some slot
    /\ (if pts <? 1280 then
          bytesOf (toc mb')
          = firstn (Z.to_nat (memBlockTOCOffset w2)) (arr (toc mb))
            ++ tocEntry 1 2 1280 (memBlockMemOffset w2) 7
          /\ memBlockTOCOffset w'
             = memBlockTOCOffset w2 + _VALUE_FILE_ENTRY_SIZE
          /\ memBlockMemOffset w' = memBlockMemOffset w2 + allocFor freshStore 7
          /\ len (values mb')
             = Z.to_nat (memBlockMemOffset w2 + allocFor freshStore 7)
        else
          toc mb' = toc mb
          /\ len (values mb') = Z.to_nat (memBlockMemOffset w2)
          /\ memBlockTOCOffset w' = memBlockTOCOffset w2
          /\ memBlockMemOffset w' = memBlockMemOffset w2).
Proof.
  apply (memWriter_frame_effect freshStore 0 (mkMemWriter true None 0 0)
           1 2 1280 testing false).
  - vm_compute; reflexivity.
  - vm_compute; reflexivity.
  - vm_compute; reflexivity.
  - vm_compute; discriminate.
  - reflexivity.
  - vm_compute; discriminate.
Defined.

(** *** [write] and the public calls *)

Lemma shard_exists st kA :
  storeOK st = true -> exists w, nth_error (memWriters st) (shardOf st kA) = Some w.
Proof.
  intros OK. destruct (storeOK_inv _ OK) as (Hwk & Hlw & _).
  destruct (nth_error (memWriters st) (shardOf st kA)) eqn:E; [eauto|].
  apply nth_error_None in E. unfold shardOf in E.
  pose proof (Z.mod_pos_bound (Z.shiftr kA 1) (workers st) Hwk). lia.
Qed.

(** What a call of [write] with a positive timestamp does: it is turned
    away with the store untouched, or the index answers with the prior
    timestamp and holds the newer of the two entries afterwards. *)
Lemma write_effect st kA kB tsb value internal :
  storeOK st = true ->
  valuelocmap.wellFormedFor (valuelocmap.root (locmap st)) kA kB = true ->
  freeMemBlockChan st <> [] ->
  0 < tsb ->
  exists w pts pbid poff plen st' ans,
    nth_error (memWriters st) (shardOf st kA) = Some w
    /\ valuelocmap.Get (locmap st) kA kB = Some (pts, pbid, poff, plen)
    /\ write st kA kB tsb value internal = Ret (st', ans)
    /\ storeOK st' = true
    /\ valuelocmap.wellFormedFor (valuelocmap.root (locmap st')) kA kB = true
    /\ (List.length (freeMemBlockChan st)
        <= List.length (freeMemBlockChan st') + 1)%nat
    /\ map enabled (memWriters st') = map enabled (memWriters st)
    /\ ((st' = st /\ fst ans = tsb
         /\ ((enabled w || internal = false /\ snd ans = Some ErrDisabled)
             \/ (valueCap st < Z.of_nat (List.length value)
                 /\ exists e, snd ans = Some e)))
        \/ (enabled w || internal = true
            /\ Z.of_nat (List.length value) <= valueCap st
            /\ ans = (pts, None)
            /\ exists bid off,
                bid <> 0
                /\ valuelocmap.Get (locmap st') kA kB =
                     Some (if pts <? tsb
                           then (tsb, bid, off,
                                 uint32 (Z.of_nat (List.length value)))
                           else (pts, pbid, poff, plen)))).
Proof.
  intros OK Hwf Hfree Hts.
  destruct (shard_exists st kA OK) as [w Hw].
  destruct (storeOK_inv _ OK) as (Hwk & _).
  assert (Ew : (workers st =? 0) = false) by (apply Z.eqb_neq; lia).
  destruct (valuelocmap_facts.SetLoc_Get (locmap st) kA kB 0 1 0 0 false Hwf
              ltac:(discriminate))
    as (pts & pbid & poff & plen & _ & G & _).
  exists w, pts, pbid, poff, plen.
  unfold write. rewrite Ew. cbn zeta.
  destruct (enabled w || internal) eqn:Eacc.
  - destruct (Z.leb_spec (Z.of_nat (List.length value)) (valueCap st)) as [Hl|Hl].
    + destruct (memWriter_accepts st (shardOf st kA) w kA kB tsb value internal
                  OK Hw Hwf Hfree Eacc Hl)
        as (st1 & w1 & st2 & w2 & slot & mb & pts' & pbid' & poff' & plen'
            & st' & mb' & w' & _ & _ & _ & G2 & Z0 & MW & _ & _ & _ & _
            & OK' & Wf' & Fl & En & _ & Hid & G').
      rewrite G in G2. injection G2 as <- <- <- <-.
      exists st', (pts, None). rewrite MW. cbn [runBind orFault option_map].
      do 7 (split; [auto|]).
      right. do 3 (split; [auto|]).
      exists (id mb), (uint32 (memBlockMemOffset w2)). split; [assumption|].
      rewrite G'. f_equal.
      assert (E : valuelocmap.supersedes tsb pts false || (pbid =? 0)
                  = (pts <? tsb)).
      { unfold valuelocmap.supersedes. cbn [andb]. rewrite orb_false_r.
        rewrite Z.gtb_ltb.
        destruct (Z.eqb_spec pbid 0) as [E0|E0].
        - rewrite (Z0 E0). rewrite orb_true_r. symmetry. now apply Z.ltb_lt.
        - now rewrite orb_false_r. }
      now rewrite E.
    + exists st, (tsb, Some (ErrValueLength (Z.of_nat (List.length value))
                               (valueCap st))).
      unfold memWriter. rewrite Hw. cbn [orFault runBind].
      assert (Hrej : negb (enabled w) && negb internal = false)
        by (destruct (enabled w), internal; cbn in *; congruence).
      rewrite Hrej.
      assert (Hbig : (Z.of_nat (List.length value) >? valueCap st) = true)
        by (rewrite Z.gtb_ltb; apply Z.ltb_lt; lia).
      rewrite Hbig. cbn [runBind orFault option_map].
      do 5 (split; [auto|]). split; [lia|]. split; [reflexivity|].
      left. do 2 (split; [reflexivity|]). right. split; [lia|].
      eexists. reflexivity.
  - exists st, (tsb, Some ErrDisabled).
    unfold memWriter. rewrite Hw. cbn [orFault runBind].
    assert (Hrej : negb (enabled w) && negb internal = true)
      by (destruct (enabled w), internal; cbn in *; congruence).
    rewrite Hrej. cbn [runBind orFault option_map].
    do 5 (split; [auto|]). split; [lia|]. split; [reflexivity|].
    left. do 2 (split; [reflexivity|]). left. split; reflexivity.
Qed.

(** *** Timestamp bits *)

Lemma TIMESTAMPMICRO_MIN_eq : TIMESTAMPMICRO_MIN = 256.
Proof. reflexivity. Qed.

Lemma TIMESTAMPMICRO_MAX_eq : TIMESTAMPMICRO_MAX = 2 ^ 56 - 1.
Proof. reflexivity. Qed.

Lemma writeBits_eq t :
  TIMESTAMPMICRO_MIN <= t <= TIMESTAMPMICRO_MAX ->
  uint64 (Z.shiftl (uint64 t) _TSB_UTIL_BITS) = t * 256.
Proof.
  rewrite TIMESTAMPMICRO_MIN_eq, TIMESTAMPMICRO_MAX_eq. intros H.
  unfold uint64, _TSB_UTIL_BITS.
  rewrite (Z.mod_small t) by lia.
  rewrite Z.shiftl_mul_pow2 by lia.
  change (2 ^ 8) with 256. apply Z.mod_small. lia.
Qed.

Lemma land_deletion_clear t : Z.land (t * 256) _TSB_DELETION = 0.
Proof.
  apply Z.bits_inj'. intros n Hn.
  rewrite Z.land_spec, Z.bits_0. unfold _TSB_DELETION.
  change 128 with (2 ^ 7). rewrite Z.pow2_bits_eqb by lia.
  destruct (Z.eqb_spec 7 n) as [<-|]; [|apply andb_false_r].
  rewrite andb_true_r. apply Z.testbit_false; [lia|].
  replace (t * 256) with (2 * t * 2 ^ 7) by lia.
  rewrite Z.div_mul by lia.
  rewrite Z.mul_comm. apply Z.mod_mul. lia.
Qed.

Lemma deleteBits_eq t : Z.lor (t * 256) _TSB_DELETION = t * 256 + 128.
Proof.
  rewrite <- Z.lxor_lor by apply land_deletion_clear.
  symmetry. apply Z.add_nocarry_lxor, land_deletion_clear.
Qed.

Lemma deleteBits_marked t :
  (Z.land (t * 256 + 128) _TSB_DELETION =? 0) = false.
Proof.
  apply Z.eqb_neq. intros E.
  assert (B : Z.testbit (Z.land (t * 256 + 128) _TSB_DELETION) 7 = false)
    by (rewrite E; apply Z.bits_0).
  rewrite Z.land_spec in B. unfold _TSB_DELETION in B.
  change 128 with (2 ^ 7) in B at 2. rewrite Z.pow2_bits_eqb in B by lia.
  rewrite Z.eqb_refl, andb_true_r in B.
  assert (T : Z.testbit (t * 256 + 128) 7 = true).
  { apply Z.testbit_true; [lia|].
    replace (t * 256 + 128) with ((1 + t * 2) * 2 ^ 7) by lia.
    rewrite Z.div_mul by lia.
    rewrite Z.mod_add by lia. reflexivity. }
  congruence.
Qed.

(** Every bit pattern in the upper half of a timestamp's util bits carries
    the deletion bit. *)
Lemma tombstone_bits t k :
  128 <= k < 256 ->
  (Z.land (t * 256 + k) _TSB_DELETION =? 0) = false.
Proof.
  intros Hk. apply Z.eqb_neq. intros E.
  assert (B : Z.testbit (Z.land (t * 256 + k) _TSB_DELETION) 7 = false)
    by (rewrite E; apply Z.bits_0).
  rewrite Z.land_spec in B. unfold _TSB_DELETION in B.
  change 128 with (2 ^ 7) in B. rewrite Z.pow2_bits_eqb in B by lia.
  rewrite Z.eqb_refl, andb_true_r in B.
  assert (T : Z.testbit (t * 256 + k) 7 = true).
  { apply Z.testbit_true; [lia|].
    replace (t * 256 + k) with ((1 + t * 2) * 2 ^ 7 + (k - 128)) by lia.
    rewrite Z.div_add_l by lia.
    rewrite (Z.div_small (k - 128)) by lia.
    rewrite Z.add_0_r, Z.mod_add by lia. reflexivity. }
  congruence.
Qed.

Lemma shiftr_bits t k :
  0 <= k < 256 -> Z.shiftr (t * 256 + k) _TSB_UTIL_BITS = t.
Proof.
  intros H. unfold _TSB_UTIL_BITS. rewrite Z.shiftr_div_pow2 by lia.
  change (2 ^ 8) with 256.
  rewrite Z.add_comm, Z.div_add by lia.
  rewrite Z.div_small by lia. reflexivity.
Qed.

Lemma int64_small t : 0 <= t < 2 ^ 63 -> int64 t = t.
Proof.
  intros H. unfold int64, uint64. rewrite Z.mod_small by lia.
  destruct (Z.ltb_spec t (2 ^ 63)); lia.
Qed.

(** *** The statistics counters stay out of the way *)

Lemma countIf_withStats b k st : exists c, countIf b k st = withStats st c.
Proof.
  destruct b; cbn; [eexists; reflexivity|].
  exists (stats st). now destruct st.
Qed.

Lemma storeOK_withStats st c : storeOK (withStats st c) = storeOK st.
Proof. reflexivity. Qed.

Lemma sameButStats_withStats st c : sameButStats st (withStats st c).
Proof. reflexivity. Qed.

Lemma withStats_withStats st c1 c2 :
  withStats (withStats st c1) c2 = withStats st c2.
Proof. reflexivity. Qed.

Lemma valid_checks t :
  valid t ->
  (t <? TIMESTAMPMICRO_MIN) = false /\ (t >? TIMESTAMPMICRO_MAX) = false.
Proof.
  intros [H1 H2]. split; [now apply Z.ltb_ge|].
  rewrite Z.gtb_ltb. now apply Z.ltb_ge.
Qed.

Lemma Write_then st kA kB t v :
  storeOK st = true ->
  valuelocmap.wellFormedFor (valuelocmap.root (locmap st)) kA kB = true ->
  freeMemBlockChan st <> [] ->
  valid t ->
  exists w pts pbid poff plen s1 r1,
    nth_error (memWriters st) (shardOf st kA) = Some w
    /\ valuelocmap.Get (locmap st) kA kB = Some (pts, pbid, poff, plen)
    /\ Write st kA kB t v = Ret (s1, r1)
    /\ storeOK s1 = true
    /\ valuelocmap.wellFormedFor (valuelocmap.root (locmap s1)) kA kB = true
    /\ (List.length (freeMemBlockChan st)
        <= List.length (freeMemBlockChan s1) + 1)%nat
    /\ map enabled (memWriters s1) = map enabled (memWriters st)
    /\ ((sameButStats st s1 /\ fst r1 = t
         /\ ((enabled w = false /\ snd r1 = Some ErrDisabled)
             \/ (valueCap st < Z.of_nat (List.length v)
                 /\ exists e, snd r1 = Some e)))
        \/ (enabled w = true
            /\ r1 = (int64 (Z.shiftr pts _TSB_UTIL_BITS), None)
            /\ exists bid off,
                bid <> 0
                /\ valuelocmap.Get (locmap s1) kA kB =
                     Some (if pts <? t * 256
                           then (t * 256, bid, off,
                                 uint32 (Z.of_nat (List.length v)))
                           else (pts, pbid, poff, plen)))).
Proof.
  intros OK Hwf Hfree Hv.
  destruct (valid_checks t Hv) as [C1 C2].
  assert (Hpos : 0 < t * 256)
    by (destruct Hv as [Hv _]; rewrite TIMESTAMPMICRO_MIN_eq in Hv; lia).
  destruct (write_effect (count cWrites st) kA kB (t * 256) v false
              OK Hwf Hfree Hpos)
    as (w & pts & pbid & poff & plen & st' & [tb err]
        & Hw & G & W & OK' & Wf' & Fl & En & Cases).
  exists w, pts, pbid, poff, plen.
  unfold Write. rewrite C1, C2, (writeBits_eq t Hv), W. cbn [runBind].
  destruct (countIf_withStats
              (match err with Some _ => true | None => false end)
              cWriteErrors st') as [c1 E1].
  rewrite E1.
  destruct (countIf_withStats
              (t <=? int64 (Z.shiftr tb _TSB_UTIL_BITS))
              cWritesOverridden (withStats st' c1)) as [c2 E2].
  rewrite E2, withStats_withStats.
  do 2 eexists. split; [exact Hw|]. split; [exact G|].
  split; [reflexivity|].
  split; [exact OK'|]. split; [exact Wf'|]. split; [exact Fl|].
  split; [exact En|].
  destruct Cases as [(-> & Ets & Hrej) | (Eacc & Hl & Eans & bid & off & Hb & G')].
  - left. cbn [fst snd] in *. subst tb.
    split; [reflexivity|]. split.
    + replace (t * 256) with (t * 256 + 0) by lia.
      rewrite shiftr_bits by lia. apply int64_small.
      destruct Hv as [Hv1 Hv2].
      rewrite TIMESTAMPMICRO_MIN_eq in Hv1. rewrite TIMESTAMPMICRO_MAX_eq in Hv2.
      lia.
    + destruct Hrej as [[Hd ->] | [Hbig He]].
      * left. split; [|reflexivity]. now rewrite orb_false_r in Hd.
      * right. split; assumption.
  - right. injection Eans as -> ->.
    split; [now rewrite orb_false_r in Eacc|]. split; [reflexivity|].
    exists bid, off. split; assumption.
Qed.

Lemma Delete_then st kA kB t :
  storeOK st = true ->
  valuelocmap.wellFormedFor (valuelocmap.root (locmap st)) kA kB = true ->
  freeMemBlockChan st <> [] ->
  valid t ->
  exists pts pbid poff plen s1,
    valuelocmap.Get (locmap st) kA kB = Some (pts, pbid, poff, plen)
    /\ Delete st kA kB t
       = Ret (s1, (int64 (Z.shiftr pts _TSB_UTIL_BITS), None))
    /\ storeOK s1 = true
    /\ valuelocmap.wellFormedFor (valuelocmap.root (locmap s1)) kA kB = true
    /\ (List.length (freeMemBlockChan st)
        <= List.length (freeMemBlockChan s1) + 1)%nat
    /\ map enabled (memWriters s1) = map enabled (memWriters st)
    /\ exists bid off,
        bid <> 0
        /\ valuelocmap.Get (locmap s1) kA kB =
             Some (if pts <? t * 256 + 128
                   then (t * 256 + 128, bid, off, 0)
                   else (pts, pbid, poff, plen)).
Proof.
  intros OK Hwf Hfree Hv.
  destruct (valid_checks t Hv) as [C1 C2].
  assert (Hpos : 0 < t * 256 + 128)
    by (destruct Hv as [Hv _]; rewrite TIMESTAMPMICRO_MIN_eq in Hv; lia).
  destruct (write_effect (count cDeletes st) kA kB (t * 256 + 128) [] true
              OK Hwf Hfree Hpos)
    as (w & pts & pbid & poff & plen & st' & [tb err]
        & Hw & G & W & OK' & Wf' & Fl & En & Cases).
  exists pts, pbid, poff, plen.
  unfold Delete.
  rewrite C1, C2, (writeBits_eq t Hv), deleteBits_eq, W. cbn [runBind].
  destruct (countIf_withStats
              (match err with Some _ => true | None => false end)
              cDeleteErrors st') as [c1 E1].
  rewrite E1.
  destruct (countIf_withStats
              (t <=? int64 (Z.shiftr tb _TSB_UTIL_BITS))
              cDeletesOverridden (withStats st' c1)) as [c2 E2].
  rewrite E2, withStats_withStats.
  destruct Cases as [(_ & _ & Hrej) | (Eacc & Hl & Eans & bid & off & Hb & G')].
  - exfalso. destruct Hrej as [[Hd _] | [Hbig _]].
    + rewrite orb_true_r in Hd. discriminate.
    + destruct (storeOK_inv _ OK) as (_ & _ & _ & Hvc & _).
      cbn in Hbig, Hvc. lia.
  - injection Eans as -> ->. eexists.
    split; [exact G|]. split; [reflexivity|].
    split; [exact OK'|]. split; [exact Wf'|]. split; [exact Fl|].
    split; [exact En|].
    exists bid, off. split; assumption.
Qed.

Lemma Read_tombstone st kA kB ts bid off len value0 :
  valuelocmap.Get (locmap st) kA kB = Some (ts, bid, off, len) ->
  (Z.land ts _TSB_DELETION =? 0) = false ->
  exists st',
    Read st kA kB value0
    = Ret (st', (int64 (Z.shiftr ts _TSB_UTIL_BITS), value0, Some ErrNotFound)).
Proof.
  intros G D. unfold Read, read.
  change (locmap (count cReads st)) with (locmap st).
  rewrite G. cbn [orFault runBind]. rewrite D.
  cbn [negb orb]. rewrite orb_true_r. cbn [orb runBind].
  eexists. reflexivity.
Qed.

Lemma two_free_blocks {A} (l l' : list A) :
  (2 <= List.length l)%nat -> (List.length l <= List.length l' + 1)%nat ->
  l <> [] /\ l' <> [].
Proof. destruct l, l'; cbn; intros; split; try discriminate; lia. Qed.

(** C2.  On a store whose entry for the key, if any, has a timestamp no
    later than [t], a [Write] and a [Delete] with the same valid
    [timestampmicro] [t] leave the key deleted whichever comes first:
    [Read] answers [ErrNotFound] and reports [t]. *)
Theorem delete_wins_timestamp_tie st kA kB t v value0 :
  storeOK st = true ->
  valuelocmap.wellFormedFor (valuelocmap.root (locmap st)) kA kB = true ->
  (2 <= List.length (freeMemBlockChan st))%nat ->
  valid t ->
  (forall pts pbid poff plen,
      valuelocmap.Get (locmap st) kA kB = Some (pts, pbid, poff, plen) ->
      Z.shiftr pts _TSB_UTIL_BITS <= t) ->
  (exists s1 r1 s2 r2 s3,
      Write st kA kB t v = Ret (s1, r1)
      /\ Delete s1 kA kB t = Ret (s2, r2)
      /\ Read s2 kA kB value0 = Ret (s3, (t, value0, Some ErrNotFound)))
  /\ (exists s1 r1 s2 r2 s3,
         Delete st kA kB t = Ret (s1, r1)
         /\ Write s1 kA kB t v = Ret (s2, r2)
         /\ Read s2 kA kB value0 = Ret (s3, (t, value0, Some ErrNotFound))).
Proof.
  intros OK Hwf Hfree Hv Hold.
  assert (Hrange : 0 <= t < 2 ^ 63).
  { destruct Hv as [Hv1 Hv2].
    rewrite TIMESTAMPMICRO_MIN_eq in Hv1. rewrite TIMESTAMPMICRO_MAX_eq in Hv2.
    lia. }
  assert (Hold' : forall pts pbid poff plen,
             valuelocmap.Get (locmap st) kA kB = Some (pts, pbid, poff, plen) ->
             pts < t * 256 + 256).
  { intros pts pbid poff plen G. specialize (Hold _ _ _ _ G).
    unfold _TSB_UTIL_BITS in Hold. rewrite Z.shiftr_div_pow2 in Hold by lia.
    change (2 ^ 8) with 256 in Hold.
    pose proof (Z.mul_succ_div_gt pts 256 ltac:(lia)). lia. }
  assert (Final : forall s2 p bid off len,
             valuelocmap.Get (locmap s2) kA kB = Some (p, bid, off, len) ->
             t * 256 + 128 <= p < t * 256 + 256 ->
             exists s3,
               Read s2 kA kB value0
               = Ret (s3, (t, value0, Some ErrNotFound))).
  { intros s2 p bid off len G Hp.
    assert (Hk : 128 <= p - t * 256 < 256) by lia.
    replace p with (t * 256 + (p - t * 256)) in G by lia.
    destruct (Read_tombstone s2 kA kB _ _ _ _ value0 G
                (tombstone_bits t _ Hk)) as [s3 R].
    rewrite shiftr_bits in R by lia. rewrite int64_small in R by lia.
    eauto. }
  assert (Hne : freeMemBlockChan st <> [])
    by (destruct (freeMemBlockChan st); cbn in *; [lia|discriminate]).
  split.
  - (* the write first *)
    destruct (Write_then st kA kB t v OK Hwf Hne Hv)
      as (w & pts & pbid & poff & plen & s1 & r1
          & _ & G & W & OK1 & Wf1 & Fl1 & _ & Cases).
    destruct (two_free_blocks _ _ Hfree Fl1) as [_ Hne1].
    destruct (Delete_then s1 kA kB t OK1 Wf1 Hne1 Hv)
      as (p1 & b1 & o1 & l1 & s2 & G1 & D & _ & _ & _ & _ & bid & off & _ & G2).
    assert (Hp1 : p1 < t * 256 + 256).
    { destruct Cases as [(Same & _) | (_ & _ & bid' & off' & _ & G')].
      - unfold sameButStats in Same. rewrite <- Same in G1. cbn in G1.
        rewrite G in G1. injection G1 as <- <- <- <-.
        exact (Hold' _ _ _ _ G).
      - rewrite G' in G1.
        destruct (pts <? t * 256) eqn:E; injection G1 as <- <- <- <-.
        + lia.
        + exact (Hold' _ _ _ _ G). }
    destruct (Z.ltb_spec p1 (t * 256 + 128)).
    + destruct (Final _ _ _ _ _ G2 ltac:(lia)) as [s3 R]. eauto 10.
    + destruct (Final _ _ _ _ _ G2 ltac:(lia)) as [s3 R]. eauto 10.
  - (* the delete first *)
    destruct (Delete_then st kA kB t OK Hwf Hne Hv)
      as (pts & pbid & poff & plen & s1 & G & D & OK1 & Wf1 & Fl1 & _
          & bid & off & _ & G1).
    pose proof (Hold' _ _ _ _ G) as Hp.
    assert (Q : exists q qb qo ql,
               valuelocmap.Get (locmap s1) kA kB = Some (q, qb, qo, ql)
               /\ t * 256 + 128 <= q < t * 256 + 256).
    { destruct (Z.ltb_spec pts (t * 256 + 128));
        do 4 eexists; (split; [exact G1|lia]). }
    clear G1. destruct Q as (q & qb & qo & ql & G1 & Hq).
    destruct (two_free_blocks _ _ Hfree Fl1) as [_ Hne1].
    destruct (Write_then s1 kA kB t v OK1 Wf1 Hne1 Hv)
      as (w & p1 & b1 & o1 & l1 & s2 & r2
          & _ & G1' & W & _ & _ & _ & _ & Cases).
    rewrite G1 in G1'. injection G1' as <- <- <- <-.
    assert (G2 : valuelocmap.Get (locmap s2) kA kB = Some (q, qb, qo, ql)).
    { destruct Cases as [(Same & _) | (_ & _ & bid' & off' & _ & G')].
      - unfold sameButStats in Same. rewrite <- Same. exact G1.
      - rewrite G'.
        destruct (Z.ltb_spec q (t * 256)); [lia|reflexivity]. }
    destruct (Final _ _ _ _ _ G2 Hq) as [s3 R]. eauto 10.
Qed.

Lemma delete_wins_timestamp_tie_witness :
  (exists s1 r1 s2 r2 s3,
      Write freshStore 1 2 1280 testing = Ret (s1, r1)
      /\ Delete s1 1 2 1280 = Ret (s2, r2)
      /\ Read s2 1 2 [] = Ret (s3, (1280, [], Some ErrNotFound)))
  /\ (exists s1 r1 s2 r2 s3,
         Delete freshStore 1 2 1280 = Ret (s1, r1)
         /\ Write s1 1 2 1280 testing = Ret (s2, r2)
         /\ Read s2 1 2 [] = Ret (s3, (1280, [], Some ErrNotFound))).
Proof.
  apply (delete_wins_timestamp_tie freshStore 1 2 1280 testing []).
  - vm_compute; reflexivity.
  - vm_compute; reflexivity.
  - vm_compute. lia.
  - split; vm_compute; discriminate.
  - intros pts pbid poff plen G. vm_compute in G.
    injection G as <- <- <- <-. vm_compute. discriminate.
Defined.

(** *** The write gate *)

Lemma set_nth_split {A} (l : list A) i x y :
  nth_error l i = Some y ->
  set_nth l i x = firstn i l ++ x :: skipn (S i) l
  /\ l = firstn i l ++ y :: skipn (S i) l.
Proof.
  revert i. induction l as [|h t IH]; intros [|i] E; simpl in *;
    try discriminate.
  - injection E as ->. auto.
  - destruct (IH _ E) as [E1 E2]. split; f_equal; assumption.
Qed.

Lemma app_cons_at {A} (F R : list A) x i :
  List.length F = i ->
  firstn (S i) (F ++ x :: R) = F ++ [x]
  /\ skipn (S i) (F ++ x :: R) = R
  /\ skipn i (F ++ x :: R) = x :: R.
Proof.
  revert i. induction F as [|h F IH]; intros i <-; cbn; auto.
  destruct (IH _ eq_refl) as (E1 & E2 & E3).
  repeat split; [f_equal; exact E1 | exact E2 | exact E3].
Qed.

Lemma withMemWriters_same st : withMemWriters st (memWriters st) = st.
Proof. now destruct st. Qed.

(** A control request handed to the writers [i ..] switches each of them. *)
Lemma toAllMemWriters_switch (req : valueWriteReq) (e : bool) :
  (req = enableValueWriteReq /\ e = true)
  \/ (req = disableValueWriteReq /\ e = false) ->
  forall n i st,
    List.length (memWriters st) = (i + n)%nat ->
    toAllMemWriters st req i n
    = Ret (withMemWriters st
             (firstn i (memWriters st)
              ++ map (fun w => setEnabled w e) (skipn i (memWriters st)))).
Proof.
  intros Hreq. induction n as [|n IH]; intros i st Hlen.
  - cbn. rewrite skipn_all2 by lia. cbn. rewrite app_nil_r.
    rewrite firstn_all2 by lia. now rewrite withMemWriters_same.
  - destruct (nth_error (memWriters st) i) as [w|] eqn:Ew;
      [|apply nth_error_None in Ew; lia].
    destruct (set_nth_split _ i (setEnabled w e) w Ew) as [E1 E2].
    assert (Step : memWriter st i req
                   = Ret (putMemWriter st i (setEnabled w e), None)).
    { unfold memWriter. rewrite Ew. cbn [orFault runBind].
      destruct Hreq as [[-> ->] | [-> ->]]; reflexivity. }
    cbn [toAllMemWriters]. rewrite Step. cbn [runBind].
    rewrite IH by (cbn; rewrite set_nth_length; lia).
    f_equal. cbn [putMemWriter withMemWriters memWriters].
    transitivity
      (withMemWriters st
         (firstn (S i) (set_nth (memWriters st) i (setEnabled w e))
          ++ map (fun w0 => setEnabled w0 e)
               (skipn (S i) (set_nth (memWriters st) i (setEnabled w e)))));
      [reflexivity|].
    f_equal.
    assert (Hi : List.length (firstn i (memWriters st)) = i)
      by (rewrite length_firstn; lia).
    destruct (app_cons_at (firstn i (memWriters st))
                (skipn (S i) (memWriters st)) (setEnabled w e) i Hi)
      as (A1 & A2 & _).
    destruct (app_cons_at (firstn i (memWriters st))
                (skipn (S i) (memWriters st)) w i Hi)
      as (_ & _ & A3).
    rewrite E1, A1, A2. rewrite <- E2 in A3. rewrite A3.
    cbn [map]. now rewrite <- app_assoc.
Qed.

Lemma forallb_enabled_map (l1 l2 : list memWriterVars) :
  map enabled l1 = map enabled l2 ->
  forallb (fun w => negb (enabled w)) l1
  = forallb (fun w => negb (enabled w)) l2.
Proof.
  revert l2. induction l1 as [|x l1 IH]; intros [|y l2] E; cbn in *;
    try discriminate; auto.
  injection E as E1 E2. now rewrite E1, (IH _ E2).
Qed.

Lemma all_switched_off (l : list memWriterVars) :
  forallb (fun w => negb (enabled w)) (map (fun w => setEnabled w false) l)
  = true.
Proof. induction l as [|w l IH]; cbn; auto. Qed.

Lemma DisableWrites_effect st :
  storeOK st = true ->
  exists sd, DisableWrites st = Ret sd
             /\ storeOK sd = true
             /\ writesDisabled sd = true
             /\ locmap sd = locmap st
             /\ locBlocks sd = locBlocks st
             /\ freeMemBlockChan sd = freeMemBlockChan st.
Proof.
  intros OK. unfold DisableWrites, disableWrites.
  rewrite (toAllMemWriters_switch disableValueWriteReq false)
    by (auto; cbn; lia).
  eexists. split; [reflexivity|]. cbn [firstn app skipn].
  destruct (storeOK_inv _ OK) as (H1 & H2 & H3 & H4 & H5 & H6 & H7 & H8).
  split; [|split; [|repeat split; reflexivity]].
  - apply storeOK_intro; cbn; try assumption.
    + now rewrite length_map.
    + rewrite forallb_forall in H7. apply forallb_forall.
      intros w' Hin. apply in_map_iff in Hin as (w & <- & Hin).
      exact (H7 _ Hin).
  - unfold writesDisabled. cbn. apply all_switched_off.
Qed.

Lemma Write_disabled st kA kB t v :
  storeOK st = true -> writesDisabled st = true -> valid t ->
  exists st', Write st kA kB t v = Ret (st', (t, Some ErrDisabled))
              /\ sameButStats st st'.
Proof.
  intros OK Hd Hv.
  destruct (valid_checks t Hv) as [C1 C2].
  destruct (shard_exists st kA OK) as [w Hw].
  pose proof (forallb_nth_error _ _ _ _ Hd Hw) as Hen. cbn in Hen.
  apply negb_true_iff in Hen.
  destruct (storeOK_inv _ OK) as (Hwk & _).
  assert (Ew : (workers st =? 0) = false) by (apply Z.eqb_neq; lia).
  unfold Write. rewrite C1, C2, (writeBits_eq t Hv).
  unfold write. change (workers (count cWrites st)) with (workers st).
  rewrite Ew. cbn zeta. unfold memWriter.
  change (memWriters (count cWrites st)) with (memWriters st).
  change (shardOf (count cWrites st) kA) with (shardOf st kA).
  rewrite Hw. cbn [orFault runBind]. rewrite Hen.
  cbn [negb andb runBind orFault option_map].
  replace (t * 256) with (t * 256 + 0) by lia.
  rewrite shiftr_bits by lia.
  rewrite int64_small
    by (destruct Hv as [Hv1 Hv2]; rewrite TIMESTAMPMICRO_MIN_eq in Hv1;
        rewrite TIMESTAMPMICRO_MAX_eq in Hv2; lia).
  rewrite Z.leb_refl. eexists. split; reflexivity.
Qed.

(** C9.  [DisableWrites] switches every write shard off.  From then on, as
    long as the shards stay off, a public [Write] with a valid timestamp
    answers [ErrDisabled] and changes nothing but the counters, whereas a
    public [Delete] with a valid timestamp goes through: it returns the
    prior timestamp, leaves the tombstone in the index when it is newer
    than the entry there, and leaves the shards off. *)
Theorem Delete_bypasses_write_gate st kA kB t v :
  storeOK st = true ->
  valid t ->
  exists sd,
    DisableWrites st = Ret sd
    /\ storeOK sd = true
    /\ writesDisabled sd = true
    /\ forall s,
        storeOK s = true ->
        writesDisabled s = true ->
        (exists s', Write s kA kB t v = Ret (s', (t, Some ErrDisabled))
                    /\ sameButStats s s')
        /\ (valuelocmap.wellFormedFor (valuelocmap.root (locmap s)) kA kB
            = true ->
            freeMemBlockChan s <> [] ->
            exists pts pbid poff plen s' bid off,
              valuelocmap.Get (locmap s) kA kB = Some (pts, pbid, poff, plen)
              /\ Delete s kA kB t
                 = Ret (s', (int64 (Z.shiftr pts _TSB_UTIL_BITS), None))
              /\ storeOK s' = true
              /\ writesDisabled s' = true
              /\ bid <> 0
              /\ valuelocmap.Get (locmap s') kA kB =
                   Some (if pts <? t * 256 + 128
                         then (t * 256 + 128, bid, off, 0)
                         else (pts, pbid, poff, plen))).
Proof.
  intros OK Hv.
  destruct (DisableWrites_effect st OK) as (sd & D & OKd & Off & _).
  exists sd. do 3 (split; [assumption|]).
  intros s OKs Offs. split.
  - now apply Write_disabled.
  - intros Hwf Hfree.
    destruct (Delete_then s kA kB t OKs Hwf Hfree Hv)
      as (pts & pbid & poff & plen & s' & G & Dl & OK' & _ & _ & En
          & bid & off & Hb & G').
    exists pts, pbid, poff, plen, s', bid, off.
    repeat split; auto.
    unfold writesDisabled in *.
    now rewrite (forallb_enabled_map _ _ En).
Qed.

Lemma Delete_bypasses_write_gate_witness :
  exists sd,
    DisableWrites freshStore = Ret sd
    /\ storeOK sd = true
    /\ writesDisabled sd = true
    /\ forall s,
        storeOK s = true ->
        writesDisabled s = true ->
        (exists s', Write s 1 2 1280 testing = Ret (s', (1280, Some ErrDisabled))
                    /\ sameButStats s s')
        /\ (valuelocmap.wellFormedFor (valuelocmap.root (locmap s)) 1 2
            = true ->
            freeMemBlockChan s <> [] ->
            exists pts pbid poff plen s' bid off,
              valuelocmap.Get (locmap s) 1 2 = Some (pts, pbid, poff, plen)
              /\ Delete s 1 2 1280
                 = Ret (s', (int64 (Z.shiftr pts _TSB_UTIL_BITS), None))
              /\ storeOK s' = true
              /\ writesDisabled s' = true
              /\ bid <> 0
              /\ valuelocmap.Get (locmap s') 1 2 =
                   Some (if pts <? 1280 * 256 + 128
                         then (1280 * 256 + 128, bid, off, 0)
                         else (pts, pbid, poff, plen))).
Proof.
  apply (Delete_bypasses_write_gate freshStore 1 2 1280 testing).
  - vm_compute; reflexivity.
  - split; vm_compute; discriminate.
Defined.

(** C6 (amended).  A [timestampmicro] outside [TIMESTAMPMICRO_MIN ..
    TIMESTAMPMICRO_MAX], 0 among them, makes [Write] and [Delete] answer an
    error with prior timestamp 0 and leaves the store as it was but for the
    counters; the timestamps at the two ends of the range, [1<<8] and
    [(2^64-1)>>8], are written and read back. *)
Theorem timestamp_range_checked st kA kB t v :
  ~ valid t ->
  (exists e s1, Write st kA kB t v = Ret (s1, (0, Some e))
                /\ sameButStats st s1)
  /\ (exists e s2, Delete st kA kB t = Ret (s2, (0, Some e))
                   /\ sameButStats st s2)
  /\ roundTrips (Z.shiftl 1 8)
  /\ roundTrips (Z.shiftr (2 ^ 64 - 1) 8).
Proof.
  intros Hn.
  assert (C : (t <? TIMESTAMPMICRO_MIN) = true
              \/ ((t <? TIMESTAMPMICRO_MIN) = false
                  /\ (t >? TIMESTAMPMICRO_MAX) = true)).
  { destruct (Z.ltb_spec t TIMESTAMPMICRO_MIN); [now left|right].
    split; [reflexivity|]. rewrite Z.gtb_ltb. apply Z.ltb_lt.
    unfold valid in Hn. lia. }
  split; [|split; [|split]].
  - unfold Write.
    destruct C as [-> | [-> ->]]; do 2 eexists; split; reflexivity.
  - unfold Delete.
    destruct C as [-> | [-> ->]]; do 2 eexists; split; reflexivity.
  - vm_compute; reflexivity.
  - vm_compute; reflexivity.
Qed.

Lemma timestamp_range_checked_witness :
  (exists e s1, Write freshStore 1 2 0 testing = Ret (s1, (0, Some e))
                /\ sameButStats freshStore s1)
  /\ (exists e s2, Delete freshStore 1 2 0 = Ret (s2, (0, Some e))
                   /\ sameButStats freshStore s2)
  /\ roundTrips (Z.shiftl 1 8)
  /\ roundTrips (Z.shiftr (2 ^ 64 - 1) 8).
Proof.
  apply (timestamp_range_checked freshStore 1 2 0 testing).
  intros [H _]. vm_compute in H. apply H. reflexivity.
Defined.

(** C6 as worded fails at 2^64-1: that timestamp lies above
    [TIMESTAMPMICRO_MAX], the write is turned away and nothing is read
    back. *)
Lemma timestamp_2_64_minus_1_does_not_round_trip : ~ roundTrips (2 ^ 64 - 1).
Proof. unfold roundTrips. vm_compute. discriminate. Qed.



(** C3, where the code departs from it.  Key (1,2) is written with timestamp
    bits 0x500 and then marked for local removal by an internal write with
    bits 0x500|[_TSB_LOCAL_REMOVAL], as the bulk-set-ack handler issues it.
    [Read] answers [ErrNotFound]; [Lookup] answers without an error. *)
Theorem Lookup_ignores_local_removal :
  let marked :=
    '(s1, _) <~ write freshStore 1 2 1280 testing false ;;
    write s1 1 2 (Z.lor 1280 _TSB_LOCAL_REMOVAL) [] true in
  answer ('(s2, _) <~ marked ;; Read s2 1 2 []) = Ret (5, [], Some ErrNotFound)
  /\ answer ('(s2, _) <~ marked ;; Lookup s2 1 2) = Ret (5, 0, None).
Proof. split; vm_compute; reflexivity. Qed.

(** *** The block registry's bound *)

Lemma addLocBlock_in_bounds st blk :
  List.length (locBlocks st) = Z.to_nat MaxUint16 ->
  0 <= locBlockIDer st < MaxUint16 - 1 ->
  exists st',
    addLocBlock st blk = Ret (st', (locBlockIDer st + 1, None))
    /\ List.length (locBlocks st') = Z.to_nat MaxUint16
    /\ locBlockIDer st' = locBlockIDer st + 1.
Proof.
  unfold MaxUint16. intros Hlen Hid. unfold addLocBlock.
  assert (E : uint64 (locBlockIDer st + 1) = locBlockIDer st + 1)
    by (unfold uint64; apply Z.mod_small; lia).
  rewrite E.
  assert (G : (locBlockIDer st + 1 >=? MaxUint32) = false)
    by (unfold MaxUint32; rewrite Z.geb_leb; apply Z.leb_gt; lia).
  rewrite G. cbn [locBlocks withLocBlockIDer].
  destruct (nth_error (locBlocks st) (Z.to_nat (locBlockIDer st + 1))) eqn:N;
    [|apply nth_error_None in N; lia].
  eexists. split; [|split].
  - f_equal. f_equal. f_equal. unfold uint32. apply Z.mod_small. lia.
  - cbn. now rewrite set_nth_length.
  - reflexivity.
Qed.

Lemma addLocBlocks_in_bounds blocks :
  forall st,
    List.length (locBlocks st) = Z.to_nat MaxUint16 ->
    0 <= locBlockIDer st ->
    locBlockIDer st + Z.of_nat (List.length blocks) <= MaxUint16 - 1 ->
    exists st',
      addLocBlocks st blocks = Ret (st', None)
      /\ List.length (locBlocks st') = Z.to_nat MaxUint16
      /\ locBlockIDer st' = locBlockIDer st + Z.of_nat (List.length blocks).
Proof.
  induction blocks as [|blk rest IH]; intros st Hlen H0 Hfit.
  - exists st. cbn. repeat split; auto. lia.
  - cbn [List.length] in Hfit.
    destruct (addLocBlock_in_bounds st blk Hlen ltac:(lia))
      as (st1 & A & L1 & I1).
    destruct (IH st1 L1 ltac:(lia) ltac:(lia)) as (st' & A' & L' & I').
    exists st'. cbn [addLocBlocks]. rewrite A. cbn [runBind].
    repeat split; auto. cbn [List.length]. lia.
Qed.

(** C10, where the code departs from it.  Once 65534 blocks are registered
    (the mem blocks of [NewValueStore] and one per value file since), every
    one of them stored in bounds, the next [addLocBlock] passes the
    [id >= math.MaxUint32] guard with id 65535 and indexes [locBlocks], of
    length 65535, out of range. *)
Theorem addLocBlock_overruns_registry blocks blk :
  List.length blocks = Z.to_nat (MaxUint16 - 1) ->
  exists st',
    addLocBlocks newRegistry blocks = Ret (st', None)
    /\ locBlockIDer st' = MaxUint16 - 1
    /\ List.length (locBlocks st') = Z.to_nat MaxUint16
    /\ addLocBlock st' blk = Fault IndexOutOfRange.
Proof.
  intros Hn.
  destruct (addLocBlocks_in_bounds blocks newRegistry) as (st' & A & L & I).
  - cbn. now rewrite repeat_length.
  - cbn. lia.
  - cbn [newRegistry locBlockIDer withLocBlocks noStore]. rewrite Hn.
    unfold MaxUint16. lia.
  - exists st'. split; [assumption|].
    cbn [newRegistry locBlockIDer withLocBlocks noStore] in I.
    rewrite Hn in I. unfold MaxUint16 in *.
    assert (I' : locBlockIDer st' = 65534) by lia.
    split; [lia|]. split; [assumption|].
    unfold addLocBlock. rewrite I'.
    change (uint64 (65534 + 1)) with 65535.
    change (65535 >=? MaxUint32) with false. cbn [locBlocks withLocBlockIDer].
    destruct (nth_error (locBlocks st') (Z.to_nat 65535)) eqn:N; [|reflexivity].
    assert (N' : nth_error (locBlocks st') (Z.to_nat 65535) <> None)
      by congruence.
    apply nth_error_Some in N'. lia.
Qed.

Lemma addLocBlock_overruns_registry_witness :
  exists st',
    addLocBlocks newRegistry
      (repeat (fileLoc (mkFile 1 1 [])) (Z.to_nat (MaxUint16 - 1)))
    = Ret (st', None)
    /\ locBlockIDer st' = MaxUint16 - 1
    /\ List.length (locBlocks st') = Z.to_nat MaxUint16
    /\ addLocBlock st' (fileLoc (mkFile 2 1 [])) = Fault IndexOutOfRange.
Proof.
  apply (addLocBlock_overruns_registry
           (repeat (fileLoc (mkFile 1 1 [])) (Z.to_nat (MaxUint16 - 1)))
           (fileLoc (mkFile 2 1 []))).
  apply repeat_length.
Defined.

(** *** Writes seen through [Lookup] *)

Lemma micro_below t pts :
  Z.shiftr pts _TSB_UTIL_BITS < t -> pts < t * 256.
Proof.
  unfold _TSB_UTIL_BITS. rewrite Z.shiftr_div_pow2 by lia.
  change (2 ^ 8) with 256. intros H.
  pose proof (Z.mul_succ_div_gt pts 256). lia.
Qed.

Lemma valid_range t : valid t -> 256 <= t < 2 ^ 56.
Proof.
  intros [H1 H2]. rewrite TIMESTAMPMICRO_MIN_eq in H1.
  rewrite TIMESTAMPMICRO_MAX_eq in H2. lia.
Qed.

Lemma Lookup_found st kA kB ts bid off len :
  valuelocmap.Get (locmap st) kA kB = Some (ts, bid, off, len) ->
  bid <> 0 ->
  Z.land ts _TSB_DELETION = 0 ->
  exists st',
    Lookup st kA kB
    = Ret (st', (int64 (Z.shiftr ts _TSB_UTIL_BITS), len, None))
    /\ sameButStats st st'.
Proof.
  intros G Hb Hd. unfold Lookup, lookup.
  change (locmap (count cLookups st)) with (locmap st).
  rewrite G. cbn [orFault runBind].
  apply Z.eqb_neq in Hb. rewrite Hb, Hd. cbn [Z.eqb negb orb runBind countIf].
  eexists. split; reflexivity.
Qed.

(** X3.  A public [Write] that the key's shard accepts and that is newer
    than what the index holds for the key answers the prior timestamp, and
    [Lookup] then answers the written timestamp and the length of the
    value, with no error. *)
Theorem Write_then_Lookup st kA kB t v w :
  storeOK st = true ->
  valuelocmap.wellFormedFor (valuelocmap.root (locmap st)) kA kB = true ->
  freeMemBlockChan st <> [] ->
  valid t ->
  nth_error (memWriters st) (shardOf st kA) = Some w ->
  enabled w = true ->
  Z.of_nat (List.length v) <= valueCap st ->
  valueCap st < 2 ^ 32 ->
  (forall pts pbid poff plen,
      valuelocmap.Get (locmap st) kA kB = Some (pts, pbid, poff, plen) ->
      Z.shiftr pts _TSB_UTIL_BITS < t) ->
  exists pts pbid poff plen s1 s2,
    valuelocmap.Get (locmap st) kA kB = Some (pts, pbid, poff, plen)
    /\ Write st kA kB t v
       = Ret (s1, (int64 (Z.shiftr pts _TSB_UTIL_BITS), None))
    /\ Lookup s1 kA kB = Ret (s2, (t, Z.of_nat (List.length v), None)).
Proof.
  intros OK Hwf Hfree Hv Hw Hen Hlen Hcap Hold.
  destruct (Write_then st kA kB t v OK Hwf Hfree Hv)
    as (w0 & pts & pbid & poff & plen & s1 & r1
        & Hw0 & G & W & _ & _ & _ & _ & Cases).
  rewrite Hw in Hw0. injection Hw0 as <-.
  pose proof (micro_below _ _ (Hold _ _ _ _ G)) as Hp.
  destruct Cases as [(_ & _ & [[Hd _]|[Hbig _]]) | (_ & -> & bid & off & Hb & G')].
  - congruence.
  - lia.
  - apply Z.ltb_lt in Hp. rewrite Hp in G'.
    destruct (Lookup_found s1 kA kB _ _ _ _ G' Hb (land_deletion_clear t))
      as (s2 & L & _).
    exists pts, pbid, poff, plen, s1, s2.
    split; [exact G|]. split; [exact W|]. rewrite L.
    replace (t * 256) with (t * 256 + 0) by lia.
    rewrite shiftr_bits by lia.
    rewrite int64_small by (pose proof (valid_range t Hv); lia).
    unfold uint32. rewrite Z.mod_small by lia. reflexivity.
Qed.

Lemma Write_then_Lookup_witness :
  exists pts pbid poff plen s1 s2,
    valuelocmap.Get (locmap freshStore) 1 2 = Some (pts, pbid, poff, plen)
    /\ Write freshStore 1 2 1280 testing
       = Ret (s1, (int64 (Z.shiftr pts _TSB_UTIL_BITS), None))
    /\ Lookup s1 1 2 = Ret (s2, (1280, Z.of_nat (List.length testing), None)).
Proof.
  apply (Write_then_Lookup freshStore 1 2 1280 testing
           (mkMemWriter true None 0 0)).
  - vm_compute; reflexivity.
  - vm_compute; reflexivity.
  - vm_compute; discriminate.
  - split; vm_compute; discriminate.
  - vm_compute; reflexivity.
  - reflexivity.
  - vm_compute; discriminate.
  - vm_compute; reflexivity.
  - intros pts pbid poff plen G. vm_compute in G.
    injection G as <- <- <- <-. vm_compute. reflexivity.
Defined.

(** X4.  A public [Write] whose timestamp is not newer than the one the
    index holds for the key leaves the index entry of the key as it is,
    whether the shard turns the request away or takes it; when it takes it,
    the answer is the stored timestamp. *)
Theorem Write_not_newer_changes_nothing st kA kB t v pts pbid poff plen :
  storeOK st = true ->
  valuelocmap.wellFormedFor (valuelocmap.root (locmap st)) kA kB = true ->
  freeMemBlockChan st <> [] ->
  valid t ->
  valuelocmap.Get (locmap st) kA kB = Some (pts, pbid, poff, plen) ->
  t * 256 <= pts ->
  exists s1 r1,
    Write st kA kB t v = Ret (s1, r1)
    /\ valuelocmap.Get (locmap s1) kA kB = Some (pts, pbid, poff, plen)
    /\ (snd r1 = None -> fst r1 = int64 (Z.shiftr pts _TSB_UTIL_BITS)).
Proof.
  intros OK Hwf Hfree Hv G Hnew.
  destruct (Write_then st kA kB t v OK Hwf Hfree Hv)
    as (w0 & pts' & pbid' & poff' & plen' & s1 & r1
        & _ & G0 & W & _ & _ & _ & _ & Cases).
  rewrite G in G0. injection G0 as <- <- <- <-.
  exists s1, r1. split; [exact W|].
  destruct Cases as [(Same & _ & [[_ E]|[_ [e E]]]) | (_ & -> & bid & off & _ & G')].
  - unfold sameButStats in Same. rewrite <- Same. cbn [locmap withStats].
    split; [exact G|]. rewrite E. discriminate.
  - unfold sameButStats in Same. rewrite <- Same. cbn [locmap withStats].
    split; [exact G|]. rewrite E. discriminate.
  - destruct (Z.ltb_spec pts (t * 256)); [lia|].
    split; [exact G'|reflexivity].
Qed.

Lemma Write_not_newer_changes_nothing_witness :
  exists s1 r1,
    Write storeWithEntry 1 2 1000 [] = Ret (s1, r1)
    /\ valuelocmap.Get (locmap s1) 1 2 = Some (327680, 1, 0, 7)
    /\ (snd r1 = None -> fst r1 = int64 (Z.shiftr 327680 _TSB_UTIL_BITS)).
Proof.
  apply (Write_not_newer_changes_nothing storeWithEntry 1 2 1000 []
           327680 1 0 7).
  - vm_compute; reflexivity.
  - vm_compute; reflexivity.
  - vm_compute; discriminate.
  - split; vm_compute; discriminate.
  - vm_compute; reflexivity.
  - lia.
Defined.

(** X5.  A public [Write] of a value longer than [valueCap] on an enabled
    shard answers the value-length error together with the timestamp it was
    given, and changes nothing in the store but the statistics counters. *)
Theorem Write_value_too_long st kA kB t v w :
  storeOK st = true ->
  valid t ->
  nth_error (memWriters st) (shardOf st kA) = Some w ->
  enabled w = true ->
  valueCap st < Z.of_nat (List.length v) ->
  exists st',
    Write st kA kB t v
    = Ret (st', (t, Some (ErrValueLength (Z.of_nat (List.length v))
                            (valueCap st))))
    /\ sameButStats st st'.
Proof.
  intros OK Hv Hw Hen Hbig.
  destruct (valid_checks t Hv) as [C1 C2].
  destruct (storeOK_inv _ OK) as (Hwk & _).
  assert (Ew : (workers st =? 0) = false) by (apply Z.eqb_neq; lia).
  unfold Write. rewrite C1, C2, (writeBits_eq t Hv).
  unfold write. change (workers (count cWrites st)) with (workers st).
  rewrite Ew. cbn zeta. unfold memWriter.
  change (memWriters (count cWrites st)) with (memWriters st).
  change (shardOf (count cWrites st) kA) with (shardOf st kA).
  rewrite Hw. cbn [orFault runBind]. rewrite Hen.
  cbn [negb andb].
  change (valueCap (count cWrites st)) with (valueCap st).
  assert (Eb : (Z.of_nat (List.length v) >? valueCap st) = true)
    by (rewrite Z.gtb_ltb; apply Z.ltb_lt; lia).
  rewrite Eb. cbn [runBind orFault option_map].
  replace (t * 256) with (t * 256 + 0) by lia.
  rewrite shiftr_bits by lia.
  rewrite int64_small by (pose proof (valid_range t Hv); lia).
  rewrite Z.leb_refl. eexists. split; reflexivity.
Qed.

Lemma Write_value_too_long_witness :
  exists st',
    Write freshStore 1 2 1280 (repeat x00 65)
    = Ret (st', (1280, Some (ErrValueLength
                               (Z.of_nat (List.length (repeat x00 65)))
                               (valueCap freshStore))))
    /\ sameButStats freshStore st'.
Proof.
  apply (Write_value_too_long freshStore 1 2 1280 (repeat x00 65)
           (mkMemWriter true None 0 0)).
  - vm_compute; reflexivity.
  - split; vm_compute; discriminate.
  - vm_compute; reflexivity.
  - reflexivity.
  - vm_compute; reflexivity.
Defined.

(** *** Switching the write gate *)

Lemma map_setEnabled_twice (l : list memWriterVars) e1 e2 :
  map (fun w => setEnabled w e2) (map (fun w => setEnabled w e1) l)
  = map (fun w => setEnabled w e2) l.
Proof. rewrite map_map. apply map_ext. now intros []. Qed.

(** X6.  [DisableWrites] switches every shard off and notes that the user
    asked for it.  From then on an [enableWrites] that is not a user call
    has no effect, while [EnableWrites] switches every shard on again and
    leaves the rest of the store as it was before the two calls. *)
Theorem EnableWrites_undoes_DisableWrites st :
  exists sd se,
    DisableWrites st = Ret sd
    /\ writesDisabled sd = true
    /\ userDisabled sd = true
    /\ enableWrites sd false = Ret sd
    /\ EnableWrites sd = Ret se
    /\ forallb enabled (memWriters se) = true
    /\ se = withMemWriters (withUserDisabled st false)
              (map (fun w => setEnabled w true) (memWriters st)).
Proof.
  unfold DisableWrites, disableWrites.
  rewrite (toAllMemWriters_switch disableValueWriteReq false)
    by (auto; cbn; lia).
  cbn [firstn skipn app].
  eexists. eexists. split; [reflexivity|].
  split; [unfold writesDisabled; cbn; apply all_switched_off|].
  split; [reflexivity|].
  split; [reflexivity|].
  unfold EnableWrites, enableWrites. cbn [orb].
  rewrite (toAllMemWriters_switch enableValueWriteReq true)
    by (auto; cbn; lia).
  cbn [firstn skipn app].
  split; [reflexivity|].
  cbn [memWriters withMemWriters withUserDisabled].
  rewrite map_setEnabled_twice.
  split; [|reflexivity].
  induction (memWriters st) as [|w l IH]; cbn; auto.
Qed.

(** *** A new store *)








(** *** Keys the index does not hold *)



(** *** The block registry *)

(** X9.  While fewer than 65534 blocks are registered, [addLocBlock] gives
    the block the next id, counting from 1, [locBlock] of that id returns
    the block, and [locBlock] of every other id returns what it returned
    before. *)
Theorem addLocBlock_then_locBlock st blk :
  List.length (locBlocks st) = Z.to_nat MaxUint16 ->
  0 <= locBlockIDer st < MaxUint16 - 1 ->
  exists st',
    addLocBlock st blk = Ret (st', (locBlockIDer st + 1, None))
    /\ locBlockIDer st' = locBlockIDer st + 1
    /\ locBlock st' (locBlockIDer st + 1) = Ret (Some blk)
    /\ forall other,
        other <> locBlockIDer st + 1 -> 0 <= other ->
        locBlock st' other = locBlock st other.
Proof.
  unfold MaxUint16. intros Hlen Hid. unfold addLocBlock.
  assert (E : uint64 (locBlockIDer st + 1) = locBlockIDer st + 1)
    by (unfold uint64; apply Z.mod_small; lia).
  rewrite E.
  assert (G : (locBlockIDer st + 1 >=? MaxUint32) = false)
    by (unfold MaxUint32; rewrite Z.geb_leb; apply Z.leb_gt; lia).
  rewrite G. cbn [locBlocks withLocBlockIDer].
  destruct (nth_error (locBlocks st) (Z.to_nat (locBlockIDer st + 1)))
    as [old|] eqn:N; [|apply nth_error_None in N; lia].
  assert (E32 : uint32 (locBlockIDer st + 1) = locBlockIDer st + 1)
    by (unfold uint32; apply Z.mod_small; lia).
  rewrite E32. eexists. split; [reflexivity|]. split; [reflexivity|].
  split.
  - unfold locBlock. destruct (Z.ltb_spec (locBlockIDer st + 1) 0); [lia|].
    cbn [locBlocks withLocBlocks withLocBlockIDer].
    now rewrite (set_nth_same _ _ _ old N).
  - intros other Hne H0. unfold locBlock.
    cbn [locBlocks withLocBlocks withLocBlockIDer].
    rewrite set_nth_other by lia. reflexivity.
Qed.

Lemma addLocBlock_then_locBlock_witness :
  exists st',
    addLocBlock newRegistry (fileLoc (mkFile 1 1 []))
    = Ret (st', (locBlockIDer newRegistry + 1, None))
    /\ locBlockIDer st' = locBlockIDer newRegistry + 1
    /\ locBlock st' (locBlockIDer newRegistry + 1)
       = Ret (Some (fileLoc (mkFile 1 1 [])))
    /\ forall other,
        other <> locBlockIDer newRegistry + 1 -> 0 <= other ->
        locBlock st' other = locBlock newRegistry other.
Proof.
  apply (addLocBlock_then_locBlock newRegistry (fileLoc (mkFile 1 1 []))).
  - cbn. now rewrite repeat_length.
  - vm_compute. split; [discriminate|reflexivity].
Defined.

End valuestore_facts.

(** ** The value file trailer *)

Module valuefile_facts.
Import valuestorefile valuedirectfile.

Section Trailer.
Variable Sum32 : list byte -> Z.
Variable checksumInterval : Z.

(** One turn of the trailer loop that takes [n] bytes of what is left. *)
Lemma writeTerm_turn fuel held x rest file (n : nat) :
  Z.of_nat (List.length held) <= checksumInterval ->
  Z.min (checksumInterval - Z.of_nat (List.length held))
    (Z.of_nat (List.length (x :: rest))) = Z.of_nat n ->
  writeTerm Sum32 checksumInterval (S fuel) held (x :: rest) file
  = writeTerm Sum32 checksumInterval fuel [] (skipn n (x :: rest))
      (file ++ match skipn n (x :: rest) with
               | [] => held ++ firstn n (x :: rest)
               | _ :: _ =>
                   (held ++ firstn n (x :: rest))
                   ++ bigEndian 4 (Sum32 (held ++ firstn n (x :: rest)))
               end).
Proof.
  intros Hfit Hn. cbn [writeTerm].
  destruct (Z.ltb_spec checksumInterval (Z.of_nat (List.length held)));
    [lia|].
  rewrite Hn, Nat2Z.id. reflexivity.
Qed.

(** What [closeWriting] appends: the held bytes and the trailer, with a
    checksum of the interval the trailer closes where it does not fit. *)
Lemma closeWriting_output held file :
  8 <= checksumInterval ->
  Z.of_nat (List.length held) < checksumInterval ->
  let k :=
    Z.to_nat (Z.min (checksumInterval - Z.of_nat (List.length held)) 8) in
  closeWriting Sum32 checksumInterval held file
  = Ret (file ++ held ++ firstn k term
         ++ (if (k <? 8)%nat
             then bigEndian 4 (Sum32 (held ++ firstn k term)) else [])
         ++ skipn k term).
Proof.
  intros Hci Hheld k.
  set (room := checksumInterval - Z.of_nat (List.length held)) in *.
  assert (Cases : room = 1 \/ room = 2 \/ room = 3 \/ room = 4 \/ room = 5
                  \/ room = 6 \/ room = 7 \/ 8 <= room) by lia.
  unfold closeWriting.
  change (2 * List.length term + 1)%nat with 17%nat.
  unfold term.
  assert (Second : forall (tl : list byte) y f,
             (List.length (y :: tl) <= 7)%nat ->
             writeTerm Sum32 checksumInterval 16 [] (y :: tl) f
             = Ret (f ++ y :: tl)).
  { intros tl y f Hl.
    rewrite (writeTerm_turn 15 [] y tl f (List.length (y :: tl)));
      [|cbn; lia|cbn in *; lia].
    rewrite skipn_all, firstn_all. reflexivity. }
  destruct Cases as [R|[R|[R|[R|[R|[R|[R|R]]]]]]].
  1-7: subst k; rewrite R;
    match goal with
    | |- context [Z.to_nat (Z.min ?r 8)] =>
        let n := eval vm_compute in (Z.to_nat (Z.min r 8)) in
        change (Z.to_nat (Z.min r 8)) with n;
        rewrite (writeTerm_turn 16 held _ _ file n);
          [|lia|fold room; rewrite R; reflexivity]
    end;
    cbn [skipn firstn Nat.ltb Nat.leb];
    (rewrite Second; [|cbn; lia]);
    rewrite <- !app_assoc; reflexivity.
  subst k. rewrite (Z.min_r room 8) by lia.
  change (Z.to_nat 8) with 8%nat.
  rewrite (writeTerm_turn 16 held _ _ file 8);
    [|lia|fold room; cbn [List.length]; lia].
  cbn [skipn firstn Nat.ltb Nat.leb writeTerm].
  rewrite !app_nil_r. reflexivity.
Qed.

End Trailer.






End valuefile_facts.

(** ** The pull-replication responder *)

Module grouppullreplication_facts.
Import grouppullreplication.

Lemma In_insertByKeyA (x it : groupItem) (its : list groupItem) :
  In x (insertByKeyA it its) <-> x = it \/ In x its.
Proof.
  induction its as [|y rest IH]; cbn [insertByKeyA].
  - cbn. intuition congruence.
  - destruct (keyA (key it) <? keyA (key y)); cbn [In].
    + intuition congruence.
    + rewrite IH. intuition congruence.
Qed.

Lemma In_ascending (x : groupItem) (its : list groupItem) :
  In x (ascending its) <-> In x its.
Proof.
  induction its as [|y rest IH]; cbn [ascending fold_right].
  - reflexivity.
  - fold (ascending rest). rewrite In_insertByKeyA, IH. cbn.
    intuition congruence.
Qed.

(** A key the callback has added belongs to an entry it was shown, one the
    filter may not have and that is no stale tombstone. *)
Lemma visit_callback_picks tc ktbf its : forall max s s' more key0,
  visit (callback tc ktbf) max its s = (s', more) ->
  In key0 (k s') ->
  In key0 (k s)
  \/ exists it, In it its /\ key it = key0
       /\ mayHave ktbf key0 (timestampbits it) = false
       /\ (Z.land (timestampbits it) valuestore._TSB_DELETION = 0
           \/ tc <= timestampbits it).
Proof.
  induction its as [|it rest IH]; intros max s s' more key0 V Hin.
  - cbn in V. injection V as <- _. now left.
  - cbn [visit] in V.
    destruct (max <=? 0); [injection V as <- _; now left|].
    assert (Step : forall s1,
      fst (callback tc ktbf s (key it) (timestampbits it) (length it)) = s1 ->
      In key0 (k s1) ->
      In key0 (k s)
      \/ (key it = key0
          /\ mayHave ktbf key0 (timestampbits it) = false
          /\ (Z.land (timestampbits it) valuestore._TSB_DELETION = 0
              \/ tc <= timestampbits it))).
    { intros s1 <-. unfold callback.
      destruct (_ || _) eqn:Keep; [|now left].
      destruct (mayHave ktbf (key it) (timestampbits it)) eqn:May;
        cbn [negb]; [now left|].
      destruct (_ <=? 0); cbn [fst k]; intros Hk;
        (apply in_app_or in Hk as [Hk|[<-|[]]]; [now left|right];
         split; [reflexivity|split; [exact May|]];
         apply orb_true_iff in Keep as [E|E];
         [left; apply Z.eqb_eq; exact E
         |right; rewrite Z.geb_leb in E; apply Z.leb_le; exact E]). }
    destruct (callback tc ktbf s (key it) (timestampbits it) (length it))
      as [s1 go] eqn:Cb.
    specialize (Step s1 eq_refl).
    destruct go.
    + destruct (IH _ _ _ _ _ V Hin) as [Hs1|(it' & Hit' & Rest)].
      * destruct (Step Hs1) as [?|Here]; [now left|].
        right. exists it. split; [now left|exact Here].
      * right. exists it'. split; [now right|exact Rest].
    + injection V as <- _.
      destruct (Step Hin) as [?|Here]; [now left|].
      right. exists it. split; [now left|exact Here].
Qed.

(** What a scan adds to the picked keys lies within its bounds. *)
Lemma ScanCallback_picks_in_bounds tc ktbf vlm start stop notMask cut max
    s key0 :
  In key0 (k (fst (ScanCallback (callback tc ktbf) vlm start stop 0 notMask
                     cut max s))) ->
  In key0 (k s)
  \/ exists it, In it vlm /\ key it = key0
       /\ start <= keyA key0 <= stop
       /\ mayHave ktbf key0 (timestampbits it) = false
       /\ (Z.land (timestampbits it) valuestore._TSB_DELETION = 0
           \/ tc <= timestampbits it).
Proof.
  unfold ScanCallback. intros Hin.
  destruct (visit _ _ _ _) as [s' more] eqn:V. cbn [fst] in Hin.
  destruct (visit_callback_picks _ _ _ _ _ _ _ _ V Hin)
    as [?|(it & Hit & Hkey & May & Tomb)]; [now left|].
  right. exists it.
  apply In_ascending, filter_In in Hit as [Hit Sc].
  unfold scanned in Sc.
  repeat (apply andb_true_iff in Sc as [Sc ?]).
  subst key0. repeat split; try assumption; apply Z.leb_le; assumption.
Qed.

(** Away from the start of the key space the two scans stay within the
    range of the summary. *)
Lemma pick_within_range vlm ring prm now age msgCap scanStart s key0 :
  scanStartOf ring prm = Ret scanStart ->
  0 < scanStart ->
  rangeStart prm <= scanStart <= rangeStop prm ->
  rangeStop prm < 2 ^ 64 ->
  pick vlm ring prm now age msgCap = Ret s ->
  In key0 (k s) ->
  exists it, In it vlm /\ key it = key0
    /\ rangeStart prm <= keyA key0 <= rangeStop prm
    /\ mayHave (ktBloomFilter prm) key0 (timestampbits it) = false.
Proof.
  intros Start Pos Within Stop P Hin. unfold pick in P.
  rewrite Start in P. cbn [runBind] in P.
  assert (Wrap : uint64 (scanStart - 1) = scanStart - 1)
    by (unfold uint64; apply Z.mod_small; lia).
  rewrite Wrap in P.
  destruct (l _ >? 0); injection P as <-.
  - apply ScanCallback_picks_in_bounds in Hin
      as [Hin|(it & Hit & Hkey & Bounds & May & _)].
    + apply ScanCallback_picks_in_bounds in Hin
        as [[]|(it & Hit & Hkey & Bounds & May & _)].
      exists it. repeat split; try assumption; lia.
    + exists it. repeat split; try assumption; lia.
  - apply ScanCallback_picks_in_bounds in Hin
      as [[]|(it & Hit & Hkey & Bounds & May & _)].
    exists it. repeat split; try assumption; lia.
Qed.

(** For the first replica of a range that starts at key 0 the second scan
    runs from 0 to [2^64 - 1]. *)
Lemma second_scan_wraps ring prm :
  rangeStart prm = 0 ->
  uint64 (ReplicaCount ring) <> 0 ->
  uint64 (ResponsibleReplica ring 0) = 0 ->
  scanStartOf ring prm = Ret 0 /\ uint64 (0 - 1) = MaxUint64.
Proof.
  intros Zero Count First. unfold scanStartOf. rewrite Zero.
  rewrite Z.shiftr_0_l. change (uint32 0) with 0.
  apply Z.eqb_neq in Count. rewrite Count, First.
  rewrite Z.mul_0_r. split; reflexivity.
Qed.

(** C8, at the first replica of a range that starts at key 0.  The local
    node holds one entry below [rangeStop = 2^63 - 1] and one above it and
    is replica 0 of three; node 7 sends the summary of [0 .. 2^63 - 1] with
    an empty filter.  The first scan starts at key 0 and the second, which
    should be empty, runs up to [2^64 - 1]: the bulk-set sent to node 7,
    with ack-node-id 0, holds the entry of the range twice and the entry
    above [rangeStop].  As replica 1 the same node answers with the entry
    of the range alone. *)
Theorem inPullReplication_first_replica_from_key_0 :
  rangeStart emptySummary = 0
  /\ rangeStop emptySummary = 2 ^ 63 - 1
  /\ rangeStop emptySummary < keyA (key inSecondPartition)
  /\ scanStartOf (ringOf 0) emptySummary = Ret 0
  /\ inPullReplication twoPartitions (ringOf 0) emptySummary 1000 0 1024
     = Ret (Some
              (mkGroupBulkSetMsg (bigEndian 8 0)
                 [mkBulkSetEntry (mkGroupKey 1 2 3 4) 1280 valuestore.testing;
                  mkBulkSetEntry (mkGroupKey 1 2 3 4) 1280 valuestore.testing;
                  mkBulkSetEntry (mkGroupKey (2 ^ 63 + 5) 6 7 8) 2560 more],
               7))
  /\ inPullReplication twoPartitions (ringOf 1) emptySummary 1000 0 1024
     = Ret (Some
              (mkGroupBulkSetMsg (bigEndian 8 0)
                 [mkBulkSetEntry (mkGroupKey 1 2 3 4) 1280 valuestore.testing],
               7)).
Proof.
  repeat split; vm_compute; reflexivity.
Qed.

End grouppullreplication_facts.

(** ** The TOC file: [tocWriter], [VerifyHeaderAndTrailerTOC] and the entry
    readers *)

Module valuetoc_facts.
Import valuestore valuestore_toc valuedirectfile.

Lemma bytesEqual_refl x : bytesEqual x x = true.
Proof.
  induction x as [|h t IH]; cbn [bytesEqual]; [reflexivity|].
  rewrite IH, andb_true_r. now apply Byte.byte_dec_lb.
Qed.

Lemma bytesEqual_eq x y : bytesEqual x y = true -> x = y.
Proof.
  revert y. induction x as [|h t IH]; intros [|h' t'] H; cbn in H;
    try discriminate; [reflexivity|].
  apply andb_true_iff in H as [H1 H2].
  apply Byte.byte_dec_bl in H1. now rewrite H1, (IH _ H2).
Qed.

Lemma head_eq ci : head ci = tocFileType ++ bigEndian 4 (uint32 ci).
Proof.
  unfold head, patch. rewrite bigEndian_length.
  change (skipn (28 + 4) headText) with (@nil byte).
  now rewrite app_nil_r.
Qed.

Lemma term_eq offset :
  term offset = [x00; x00; x00; x00] ++ bigEndian 8 offset ++ TERM.
Proof. unfold term, patch at 1. now rewrite bigEndian_length. Qed.

Lemma head_length ci : List.length (head ci) = 32%nat.
Proof. rewrite head_eq, length_app, bigEndian_length. reflexivity. Qed.

Lemma term_length offset : List.length (term offset) = 16%nat.
Proof.
  rewrite term_eq, !length_app, bigEndian_length. reflexivity.
Qed.

Lemma bytesOf_tocBlock T es room :
  bytesOf (tocBlock T es room) = bigEndian 8 T ++ es.
Proof.
  unfold bytesOf, tocBlock. cbn [arr len].
  rewrite app_assoc, firstn_app.
  rewrite length_app, bigEndian_length.
  replace (8 + List.length es - (8 + List.length es))%nat with 0%nat by lia.
  rewrite firstn_O, app_nil_r.
  apply firstn_all2. rewrite length_app, bigEndian_length. lia.
Qed.

Lemma Uint64_bigEndian v rest :
  0 <= v < 2 ^ 64 -> Uint64 (bigEndian 8 v ++ rest) = v.
Proof.
  intros Hv. unfold Uint64.
  rewrite firstn_app, bigEndian_length, Nat.sub_diag.
  rewrite firstn_O, app_nil_r, firstn_all2 by (rewrite bigEndian_length; lia).
  now apply fromBigEndian_bigEndian_small.
Qed.

(** Blocks for the file that [writerA] is writing are appended to it. *)
Lemma tocWriterRun_same_file ci m T :
  0 < T < 2 ^ 64 ->
  forall (bs : list (list byte * nat)) left w offA wB offB actB closed
         flushed free,
    offA + Z.of_nat (List.length (List.concat (map fst bs))) < 2 ^ 64 ->
    0 <= offA ->
    tocWriterRun ci m
      (mkTocWriter left (Some (mkTocFileWriter T w)) offA wB offB T actB
         closed flushed free)
      (map (fun b => Some (tocBlock T (fst b) (snd b))) bs)
    = Ret (mkTocWriter left
             (Some (mkTocFileWriter T (w ++ List.concat (map fst bs))))
             (offA + Z.of_nat (List.length (List.concat (map fst bs))))
             wB offB T actB closed flushed
             (free ++ map (fun b => mkSlice (arr (tocBlock T (fst b) (snd b)))
                                      0) bs)).
Proof.
  intros HT. induction bs as [|[es room] bs IH];
    intros left w offA wB offB actB closed flushed free Hfit H0.
  - cbn. now rewrite !app_nil_r, Z.add_0_r.
  - cbn [map tocWriterRun fst snd List.concat] in *.
    rewrite length_app in Hfit.
    unfold tocWriter at 1.
    rewrite bytesOf_tocBlock, Uint64_bigEndian by lia.
    cbn [activeTOCA writerA offsetA memClearersFlushLeft writerB offsetB
         activeTOCB closedTOCs flushedChan freeTOCBlockChan].
    change (len (tocBlock T es room)) with (8 + List.length es)%nat.
    rewrite Z.eqb_refl.
    rewrite skipn_app, bigEndian_length, Nat.sub_diag, skipn_O.
    rewrite skipn_all2 by (rewrite bigEndian_length; lia). cbn [app].
    destruct (Nat.ltb_spec 8 (8 + List.length es)) as [Hne|He].
    + cbn [writeTo runBind tocName written].
      cbn [activeTOCA writerA offsetA memClearersFlushLeft writerB offsetB
           activeTOCB closedTOCs flushedChan freeTOCBlockChan].
      replace (Z.of_nat (8 + List.length es) - 8)
        with (Z.of_nat (List.length es)) by lia.
      assert (Hu : uint64 (offA + Z.of_nat (List.length es))
                   = offA + Z.of_nat (List.length es))
        by (unfold uint64; apply Z.mod_small; lia).
      rewrite Hu, IH by lia.
      rewrite length_app, <- !app_assoc. do 2 f_equal. lia.
    + assert (Ees : es = []) by (destruct es; cbn in He; [reflexivity|lia]).
      subst es. cbn [runBind].
      cbn [activeTOCA writerA offsetA memClearersFlushLeft writerB offsetB
           activeTOCB closedTOCs flushedChan freeTOCBlockChan].
      rewrite IH by (cbn in *; lia).
      cbn [List.length app]. rewrite <- !app_assoc. reflexivity.
Qed.

(** The nil blocks of a flush: all but the last only count down. *)
Lemma tocWriterRun_countdown ci m n :
  forall left wA offA wB offB actA actB closed flushed free,
    Z.of_nat n < left ->
    tocWriterRun ci m
      (mkTocWriter left wA offA wB offB actA actB closed flushed free)
      (repeat None n)
    = Ret (mkTocWriter (left - Z.of_nat n) wA offA wB offB actA actB closed
             flushed free).
Proof.
  induction n as [|n IH];
    intros left wA offA wB offB actA actB closed flushed free Hn.
  - cbn. now rewrite Z.sub_0_r.
  - cbn [repeat tocWriterRun]. unfold tocWriter at 1.
    cbn [memClearersFlushLeft writerA offsetA writerB offsetB activeTOCA
         activeTOCB closedTOCs flushedChan freeTOCBlockChan].
    destruct (Z.gtb_spec (left - 1) 0); [|lia].
    cbn [runBind]. rewrite IH by lia. do 2 f_equal. lia.
Qed.

Lemma repeat_snoc {A} (x : A) n : repeat x (S n) = repeat x n ++ [x].
Proof. induction n as [|n IH]; cbn in *; [reflexivity|now rewrite <- IH]. Qed.

Lemma tocWriterRun_app ci m v ts1 ts2 v1 :
  tocWriterRun ci m v ts1 = Ret v1 ->
  tocWriterRun ci m v (ts1 ++ ts2) = tocWriterRun ci m v1 ts2.
Proof.
  revert v. induction ts1 as [|t ts1 IH]; intros v H; cbn in *.
  - now injection H as ->.
  - destruct (tocWriter ci m v t) as [v'|]; cbn in *; [auto|discriminate].
Qed.

(** X10.  Started afresh, [tocWriter] that receives TOC blocks which all
    carry the name timestamp of one value file, the first of them not
    empty, and then one nil block from each [memClearer], leaves exactly one
    closed TOC file, named by that timestamp: the 32-byte header with the
    checksum interval, the entries of the blocks in the order received, and
    the 16-byte trailer that records the offset at which it starts.  It has
    then signalled the flush once, handed every block back emptied and is
    back in its initial state. *)
Theorem tocWriter_writes_one_file ci m T b1 bs free :
  0 < T < 2 ^ 64 ->
  1 <= m ->
  fst b1 <> [] ->
  32 + Z.of_nat (List.length (List.concat (map fst (b1 :: bs)))) < 2 ^ 64 ->
  tocWriterRun ci m (newTocWriter m free)
    (map (fun b => Some (tocBlock T (fst b) (snd b))) (b1 :: bs)
     ++ repeat None (Z.to_nat m))
  = Ret (mkTocWriter m None 0 None 0 0 0
           [mkTocFileWriter T
              (head ci ++ List.concat (map fst (b1 :: bs))
               ++ term (32 + Z.of_nat
                               (List.length
                                  (List.concat (map fst (b1 :: bs))))))]
           1
           (free ++ map (fun b => mkSlice (arr (tocBlock T (fst b) (snd b))) 0)
                      (b1 :: bs))).
Proof.
  destruct b1 as [e1 r1]. cbn [fst snd map List.concat app].
  intros HT Hm He Hfit. rewrite length_app in *.
  cbn [tocWriterRun]. unfold tocWriter at 1, newTocWriter.
  rewrite bytesOf_tocBlock, Uint64_bigEndian by lia.
  cbn [activeTOCA writerA offsetA memClearersFlushLeft writerB offsetB
       activeTOCB closedTOCs flushedChan freeTOCBlockChan].
  change (len (tocBlock T e1 r1)) with (8 + List.length e1)%nat.
  destruct (Nat.ltb_spec 8 (8 + List.length e1)) as [_|Hbad];
    [|destruct e1; [congruence|cbn in Hbad; lia]].
  destruct (Z.eqb_spec T 0); [lia|].
  rewrite skipn_app, bigEndian_length, Nat.sub_diag, skipn_O.
  rewrite skipn_all2 by (rewrite bigEndian_length; lia). cbn [app runBind].
  cbn [activeTOCA writerA offsetA memClearersFlushLeft writerB offsetB
       activeTOCB closedTOCs flushedChan freeTOCBlockChan].
  replace (Z.of_nat (8 + List.length e1) - 8)
    with (Z.of_nat (List.length e1)) by lia.
  assert (Hu : uint64 (valuestore._VALUE_FILE_HEADER_SIZE
                       + Z.of_nat (List.length e1))
               = 32 + Z.of_nat (List.length e1))
    by (unfold uint64, valuestore._VALUE_FILE_HEADER_SIZE;
        apply Z.mod_small; lia).
  rewrite Hu.
  pose proof (tocWriterRun_same_file ci m T HT bs m (head ci ++ e1)
                (32 + Z.of_nat (List.length e1)) None 0 0 [] 0%nat
                (free ++ [mkSlice (arr (tocBlock T e1 r1)) 0])) as Hs.
  rewrite (tocWriterRun_app _ _ _ _ _ _ (Hs ltac:(lia) ltac:(lia))).
  clear Hs.
  replace (Z.to_nat m) with (S (Z.to_nat (m - 1))) by lia.
  rewrite repeat_snoc.
  assert (Hc : Z.of_nat (Z.to_nat (m - 1)) < m) by lia.
  rewrite (tocWriterRun_app _ _ _ _ _ _
             (tocWriterRun_countdown ci m (Z.to_nat (m - 1))
                _ _ _ _ _ _ _ _ _ _ Hc)).
  cbn [tocWriterRun]. unfold tocWriter.
  cbn [activeTOCA writerA offsetA memClearersFlushLeft writerB offsetB
       activeTOCB closedTOCs flushedChan freeTOCBlockChan].
  destruct (Z.gtb_spec (m - Z.of_nat (Z.to_nat (m - 1)) - 1) 0); [lia|].
  unfold finish. cbn [runBind app tocName written].
  rewrite <- !app_assoc. cbn [app].
  now rewrite Nat2Z.inj_add, Z.add_assoc.
Qed.

Lemma tocWriter_writes_one_file_witness :
  tocWriterRun 64 1 (newTocWriter 1 [])
    (map (fun b => Some (tocBlock 7 (fst b) (snd b)))
       [(tocEntry 1 2 1280 0 7, 24%nat); (tocEntry 3 4 512 7 5, 24%nat)]
     ++ repeat None (Z.to_nat 1))
  = Ret (mkTocWriter 1 None 0 None 0 0 0
           [mkTocFileWriter 7
              (head 64 ++ (tocEntry 1 2 1280 0 7 ++ tocEntry 3 4 512 7 5)
               ++ term 96)]
           1
           [mkSlice (arr (tocBlock 7 (tocEntry 1 2 1280 0 7) 24)) 0;
            mkSlice (arr (tocBlock 7 (tocEntry 3 4 512 7 5) 24)) 0]).
Proof.
  apply (tocWriter_writes_one_file 64 1 7
           (tocEntry 1 2 1280 0 7, 24%nat)
           [(tocEntry 3 4 512 7 5, 24%nat)] []).
  - lia.
  - lia.
  - vm_compute. discriminate.
  - vm_compute. reflexivity.
Defined.

Lemma firstn_app_exact {A} (l1 l2 : list A) n :
  List.length l1 = n -> firstn n (l1 ++ l2) = l1.
Proof.
  intros <-. rewrite firstn_app, Nat.sub_diag, firstn_O, app_nil_r.
  apply firstn_all.
Qed.

Lemma skipn_app_exact {A} (l1 l2 : list A) n :
  List.length l1 = n -> skipn n (l1 ++ l2) = l2.
Proof.
  intros <-. now rewrite skipn_app, Nat.sub_diag, skipn_O, skipn_all.
Qed.

Lemma int32_small v : 0 <= v < 2 ^ 31 -> int32 v = v.
Proof.
  intros Hv. unfold int32, uint32. rewrite Z.mod_small by lia.
  destruct (Z.ltb_spec v (2 ^ 31)); [reflexivity|lia].
Qed.

(** The trailer [tocWriter] writes passes every trailer check of
    [VerifyHeaderAndTrailerTOC] when the recorded offset is where the trailer
    is and the entries fill whole 32-byte slots. *)
Lemma tocTrailerErrors_term off size :
  0 <= off < 2 ^ 63 ->
  off <= size - 16 ->
  Z.rem (size - 32 - 16) 32 = 0 ->
  tocTrailerErrors (term off) size = [].
Proof.
  intros Ho Hs Hr. unfold tocTrailerErrors. rewrite term_eq.
  rewrite (firstn_app_exact [x00; x00; x00; x00]) by reflexivity.
  rewrite (skipn_app_exact [x00; x00; x00; x00]) by reflexivity.
  rewrite (firstn_app_exact (bigEndian 8 off)) by apply bigEndian_length.
  rewrite (app_assoc [x00; x00; x00; x00]).
  rewrite skipn_app_exact
    by (rewrite length_app, bigEndian_length; reflexivity).
  rewrite fromBigEndian_bigEndian_small
    by (change (2 ^ (8 * Z.of_nat 8)) with (2 ^ 64); lia).
  rewrite valuestore_facts.int64_small by lia.
  unfold _VALUE_FILE_TRAILER_SIZE, _VALUE_FILE_HEADER_SIZE,
    _VALUE_FILE_ENTRY_SIZE.
  rewrite Hr.
  destruct (Z.gtb_spec off (size - 16)); [lia|].
  reflexivity.
Qed.

Lemma VerifyHeaderAndTrailerTOC_written ci entries n raw data toc :
  32 <= ci < 2 ^ 31 ->
  rawBytes toc = Some raw ->
  firstn 32 raw = head ci ->
  payloadBytes toc
  = head ci ++ entries ++ term (32 + Z.of_nat (List.length entries)) ->
  List.length entries = (32 * n)%nat ->
  32 + Z.of_nat (List.length entries) < 2 ^ 63 ->
  writable data = true ->
  VerifyHeaderAndTrailerTOC (NewValueDirectFile data toc)
  = (mkDirectFile data toc
       (Some (mkTocReader (48 + 32 * Z.of_nat n) false)) ci
       (48 + 32 * Z.of_nat n),
     (true, [])).
Proof.
  intros Hci Hraw Hhead Hpay Hlen Hfit Hw.
  assert (Hrl : (List.length raw >= 32)%nat).
  { assert (E : List.length (firstn 32 raw) = 32%nat)
      by (rewrite Hhead; apply head_length).
    rewrite length_firstn in E. lia. }
  assert (Hsize : Z.of_nat (List.length (payloadBytes toc))
                  = 48 + 32 * Z.of_nat n).
  { rewrite Hpay, !length_app, head_length, term_length, Hlen. lia. }
  unfold VerifyHeaderAndTrailerTOC, NewValueDirectFile, closeReaderTOC.
  cbn [readerTOC tocFile dataFile sizeTOC checksumIntervalTOC].
  rewrite Hraw.
  destruct (Z.ltb_spec (Z.of_nat (List.length raw)) _VALUE_FILE_HEADER_SIZE)
    as [Hbad|_]; [unfold _VALUE_FILE_HEADER_SIZE in Hbad; lia|].
  rewrite Hhead, head_eq.
  rewrite (firstn_app_exact tocFileType) by reflexivity.
  rewrite (skipn_app_exact tocFileType) by reflexivity.
  rewrite bytesEqual_refl. cbn [negb].
  assert (Hu : uint32 ci = ci) by (unfold uint32; apply Z.mod_small; lia).
  rewrite Hu.
  rewrite fromBigEndian_bigEndian_small
    by (change (2 ^ (8 * Z.of_nat 4)) with (2 ^ 32); lia).
  rewrite int32_small by lia.
  unfold _VALUE_FILE_HEADER_SIZE, _VALUE_FILE_TRAILER_SIZE.
  destruct (Z.ltb_spec ci 32); [lia|].
  destruct (Z.ltb_spec ci 16); [lia|]. cbn [orb].
  rewrite Hsize, Hw.
  destruct (Z.ltb_spec (48 + 32 * Z.of_nat n) 16); [lia|].
  rewrite Hpay, app_assoc.
  rewrite skipn_app_exact
    by (rewrite length_app, head_length, Hlen; lia).
  rewrite firstn_all2 by (rewrite term_length; lia).
  rewrite tocTrailerErrors_term; [reflexivity|lia|lia|].
  replace (48 + 32 * Z.of_nat n - 32 - 16) with (Z.of_nat n * 32) by lia.
  apply Z.rem_mul. lia.
Qed.

(** X11.  A TOC file as [tocWriter] closes it (header with a checksum
    interval of at least 32, entries filling whole 32-byte slots, trailer
    recording where it starts) passes [VerifyHeaderAndTrailerTOC] with no
    error when the data path opens for writing: the call returns true and an
    empty list, leaves the reader open and records the interval and the
    size; [EntryCount] on the new [ValueDirectFile] returns the number of
    entries written and no error. *)
Theorem EntryCount_of_written_TOC ci entries n raw data toc :
  32 <= ci < 2 ^ 31 ->
  rawBytes toc = Some raw ->
  firstn 32 raw = head ci ->
  payloadBytes toc
  = head ci ++ entries ++ term (32 + Z.of_nat (List.length entries)) ->
  List.length entries = (32 * n)%nat ->
  32 + Z.of_nat (List.length entries) < 2 ^ 63 ->
  writable data = true ->
  VerifyHeaderAndTrailerTOC (NewValueDirectFile data toc)
  = (mkDirectFile data toc
       (Some (mkTocReader (48 + 32 * Z.of_nat n) false)) ci
       (48 + 32 * Z.of_nat n),
     (true, []))
  /\ EntryCount (NewValueDirectFile data toc)
     = Ret (mkDirectFile data toc
              (Some (mkTocReader (48 + 32 * Z.of_nat n) false)) ci
              (48 + 32 * Z.of_nat n),
            (Z.of_nat n, None)).
Proof.
  intros Hci Hraw Hhead Hpay Hlen Hfit Hw.
  pose proof (VerifyHeaderAndTrailerTOC_written ci entries n raw data toc
                Hci Hraw Hhead Hpay Hlen Hfit Hw) as V.
  split; [exact V|].
  unfold EntryCount.
  change (readerTOC (NewValueDirectFile data toc)) with (@None tocReader).
  cbv iota. rewrite V. cbn [sizeTOC].
  unfold _VALUE_FILE_HEADER_SIZE, _VALUE_FILE_TRAILER_SIZE,
    _VALUE_FILE_ENTRY_SIZE.
  replace (48 + 32 * Z.of_nat n - 32 - 16) with (Z.of_nat n * 32) by lia.
  rewrite Z.quot_mul by lia. reflexivity.
Qed.

Lemma EntryCount_of_written_TOC_witness :
  VerifyHeaderAndTrailerTOC
    (NewValueDirectFile (mkFileOnDisk None [] true) writtenTOC)
  = (mkDirectFile (mkFileOnDisk None [] true) writtenTOC
       (Some (mkTocReader (48 + 32 * Z.of_nat 2) false)) 1024
       (48 + 32 * Z.of_nat 2),
     (true, []))
  /\ EntryCount (NewValueDirectFile (mkFileOnDisk None [] true) writtenTOC)
     = Ret (mkDirectFile (mkFileOnDisk None [] true) writtenTOC
              (Some (mkTocReader (48 + 32 * Z.of_nat 2) false)) 1024
              (48 + 32 * Z.of_nat 2),
            (Z.of_nat 2, None)).
Proof.
  apply (EntryCount_of_written_TOC 1024
           (tocEntry 1 2 1280 0 7 ++ tocEntry 3 4 512 7 5) 2
           (head 1024 ++ tocEntry 1 2 1280 0 7 ++ tocEntry 3 4 512 7 5
            ++ term 96)).
  - lia.
  - reflexivity.
  - reflexivity.
  - reflexivity.
  - reflexivity.
  - vm_compute. reflexivity.
  - reflexivity.
Defined.

(** ** Reading the entries back *)

Lemma decodeEntry_tocEntry kA kB ts off length :
  0 <= kA < 2 ^ 64 -> 0 <= kB < 2 ^ 64 -> 0 <= ts < 2 ^ 64 ->
  decodeEntry (tocEntry kA kB ts off length)
  = mkTocFields kA kB ts (uint32 off) (uint32 length).
Proof.
  intros HA HB HT. unfold decodeEntry, tocEntry.
  set (A := bigEndian 8 kA). set (B := bigEndian 8 kB).
  set (C := bigEndian 8 ts). set (D := bigEndian 4 (uint32 off)).
  set (E := bigEndian 4 (uint32 length)).
  assert (LA : List.length A = 8%nat) by apply bigEndian_length.
  assert (LB : List.length B = 8%nat) by apply bigEndian_length.
  assert (LC : List.length C = 8%nat) by apply bigEndian_length.
  assert (LD : List.length D = 4%nat) by apply bigEndian_length.
  assert (LE : List.length E = 4%nat) by apply bigEndian_length.
  assert (S8 : skipn 8 (A ++ B ++ C ++ D ++ E) = B ++ C ++ D ++ E)
    by now apply skipn_app_exact.
  assert (S16 : skipn 16 (A ++ B ++ C ++ D ++ E) = C ++ D ++ E).
  { change 16%nat with (8 + 8)%nat. rewrite <- skipn_skipn, S8.
    now apply skipn_app_exact. }
  assert (S24 : skipn 24 (A ++ B ++ C ++ D ++ E) = D ++ E).
  { change 24%nat with (8 + 16)%nat. rewrite <- skipn_skipn, S16.
    now apply skipn_app_exact. }
  assert (S28 : skipn 28 (A ++ B ++ C ++ D ++ E) = E).
  { change 28%nat with (4 + 24)%nat. rewrite <- skipn_skipn, S24.
    now apply skipn_app_exact. }
  rewrite S8, S16, S24, S28.
  rewrite !firstn_app_exact by assumption.
  rewrite (firstn_all2 (n := 4) E) by lia.
  assert (U1 : 0 <= uint32 off < 2 ^ 32)
    by (unfold uint32; apply Z.mod_pos_bound; lia).
  assert (U2 : 0 <= uint32 length < 2 ^ 32)
    by (unfold uint32; apply Z.mod_pos_bound; lia).
  unfold A, B, C, D, E.
  now rewrite !fromBigEndian_bigEndian_small.
Qed.

Lemma readEntry_entry df r pre e post :
  readerClosed r = false ->
  payloadBytes (tocFile df) = pre ++ e ++ post ->
  List.length e = 32%nat ->
  readerPos r = Z.of_nat (List.length pre) ->
  readEntry df r
  = (withReaderTOC df (Some (mkTocReader (readerPos r + 32) false)),
     (Some (decodeEntry e), None)).
Proof.
  intros Hc Hpay He Hpos. unfold readEntry. rewrite Hc, Hpay, Hpos.
  rewrite Nat2Z.id, skipn_app_exact by reflexivity.
  rewrite firstn_app_exact by assumption.
  destruct e as [|b e']; [discriminate|].
  rewrite He. reflexivity.
Qed.

Lemma readEntry_short df r pre tail :
  readerClosed r = false ->
  payloadBytes (tocFile df) = pre ++ tail ->
  (0 < List.length tail < 32)%nat ->
  readerPos r = Z.of_nat (List.length pre) ->
  readEntry df r
  = (withReaderTOC df
       (Some (mkTocReader
                (Z.of_nat (List.length (payloadBytes (tocFile df)))) false)),
     (None, Some ErrUnexpectedEOF)).
Proof.
  intros Hc Hpay Ht Hpos. unfold readEntry. rewrite Hc, Hpay, Hpos.
  rewrite Nat2Z.id, skipn_app_exact by reflexivity.
  rewrite firstn_all2 by lia.
  destruct tail as [|b t']; [cbn in Ht; lia|].
  destruct (Nat.ltb_spec (List.length (b :: t')) 32); [|lia].
  rewrite length_app, Nat2Z.inj_add. reflexivity.
Qed.

Lemma readEntry_at_end df r :
  readerClosed r = false ->
  readerPos r = Z.of_nat (List.length (payloadBytes (tocFile df))) ->
  readEntry df r = (withReaderTOC df (Some r), (None, Some ErrEOF)).
Proof.
  intros Hc Hpos. unfold readEntry. rewrite Hc, Hpos.
  rewrite Nat2Z.id, skipn_all. cbn [firstn List.length].
  rewrite Z.add_0_r, <- Hpos, <- Hc. now destruct r.
Qed.

(** X12.  With the TOC reader open and standing where a 32-byte entry
    starts, [NextEntry] returns the five fields that were encoded there
    (offset and length as the 32-bit values written) with no error, and
    moves the reader 32 bytes on. *)
Theorem NextEntry_returns_entry df r pre post kA kB ts off length :
  readerTOC df = Some r ->
  readerClosed r = false ->
  payloadBytes (tocFile df) = pre ++ tocEntry kA kB ts off length ++ post ->
  readerPos r = Z.of_nat (List.length pre) ->
  0 <= kA < 2 ^ 64 -> 0 <= kB < 2 ^ 64 -> 0 <= ts < 2 ^ 64 ->
  NextEntry df
  = Ret (withReaderTOC df (Some (mkTocReader (readerPos r + 32) false)),
         (Some (mkTocFields kA kB ts (uint32 off) (uint32 length)), None)).
Proof.
  intros Hr Hc Hpay Hpos HA HB HT.
  unfold NextEntry. rewrite Hr.
  rewrite (readEntry_entry df r pre _ post Hc Hpay
             (valuestore_facts.tocEntry_length _ _ _ _ _) Hpos).
  now rewrite decodeEntry_tocEntry.
Qed.

Lemma NextEntry_returns_entry_witness :
  NextEntry openTOC
  = Ret (withReaderTOC openTOC
           (Some (mkTocReader (readerPos (mkTocReader 64 false) + 32) false)),
         (Some (mkTocFields 3 4 512 (uint32 7) (uint32 5)), None)).
Proof.
  apply (NextEntry_returns_entry openTOC (mkTocReader 64 false)
           (head 1024 ++ tocEntry 1 2 1280 0 7) (term 96) 3 4 512 7 5).
  - reflexivity.
  - reflexivity.
  - reflexivity.
  - reflexivity.
  - lia.
  - lia.
  - lia.
Defined.

(** X14.  On a new [ValueDirectFile] over a TOC file as [tocWriter] closes
    it, with at least one entry, [FirstEntry] verifies the file, seeks past
    the header and returns the fields of the first entry written with no
    error, leaving the reader at 64; [NextEntry] called first does exactly
    the same. *)
Theorem FirstEntry_of_written_TOC
    ci kA kB ts off length rest n raw data toc :
  32 <= ci < 2 ^ 31 ->
  rawBytes toc = Some raw ->
  firstn 32 raw = head ci ->
  payloadBytes toc
  = head ci ++ (tocEntry kA kB ts off length ++ rest)
    ++ term (32 + Z.of_nat
                    (List.length (tocEntry kA kB ts off length ++ rest))) ->
  List.length (tocEntry kA kB ts off length ++ rest) = (32 * n)%nat ->
  32 + Z.of_nat (List.length (tocEntry kA kB ts off length ++ rest))
  < 2 ^ 63 ->
  writable data = true ->
  0 <= kA < 2 ^ 64 -> 0 <= kB < 2 ^ 64 -> 0 <= ts < 2 ^ 64 ->
  FirstEntry (NewValueDirectFile data toc)
  = Ret (mkDirectFile data toc (Some (mkTocReader 64 false)) ci
           (48 + 32 * Z.of_nat n),
         (Some (mkTocFields kA kB ts (uint32 off) (uint32 length)), None))
  /\ NextEntry (NewValueDirectFile data toc)
     = FirstEntry (NewValueDirectFile data toc).
Proof.
  intros Hci Hraw Hhead Hpay Hlen Hfit Hw HA HB HT.
  pose proof (VerifyHeaderAndTrailerTOC_written ci _ n raw data toc
                Hci Hraw Hhead Hpay Hlen Hfit Hw) as V.
  assert (F : FirstEntry (NewValueDirectFile data toc)
              = Ret (mkDirectFile data toc (Some (mkTocReader 64 false)) ci
                       (48 + 32 * Z.of_nat n),
                     (Some (mkTocFields kA kB ts (uint32 off)
                              (uint32 length)), None))).
  { unfold FirstEntry.
    change (readerTOC (NewValueDirectFile data toc)) with (@None tocReader).
    cbv iota. rewrite V. cbv iota.
    unfold readFirst. cbn [readerTOC]. unfold seekFirst.
    cbn [readerClosed].
    rewrite (readEntry_entry _ _ (head ci) (tocEntry kA kB ts off length)
               (rest ++ term (32 + Z.of_nat
                                     (List.length
                                        (tocEntry kA kB ts off length
                                         ++ rest)))));
      [ | reflexivity
        | cbn [withReaderTOC tocFile]; rewrite Hpay, <- app_assoc;
          reflexivity
        | apply valuestore_facts.tocEntry_length
        | cbn [readerPos]; rewrite head_length; reflexivity ].
    now rewrite decodeEntry_tocEntry. }
  split; [exact F|].
  rewrite F. unfold NextEntry.
  change (readerTOC (NewValueDirectFile data toc)) with (@None tocReader).
  cbv iota. rewrite <- F. unfold FirstEntry.
  change (readerTOC (NewValueDirectFile data toc)) with (@None tocReader).
  reflexivity.
Qed.

Lemma FirstEntry_of_written_TOC_witness :
  FirstEntry (NewValueDirectFile (mkFileOnDisk None [] true) writtenTOC)
  = Ret (mkDirectFile (mkFileOnDisk None [] true) writtenTOC
           (Some (mkTocReader 64 false)) 1024 (48 + 32 * Z.of_nat 2),
         (Some (mkTocFields 1 2 1280 (uint32 0) (uint32 7)), None))
  /\ NextEntry (NewValueDirectFile (mkFileOnDisk None [] true) writtenTOC)
     = FirstEntry (NewValueDirectFile (mkFileOnDisk None [] true) writtenTOC).
Proof.
  apply (FirstEntry_of_written_TOC 1024 1 2 1280 0 7
           (tocEntry 3 4 512 7 5) 2
           (head 1024 ++ tocEntry 1 2 1280 0 7 ++ tocEntry 3 4 512 7 5
            ++ term 96)).
  - lia.
  - reflexivity.
  - reflexivity.
  - vm_compute. reflexivity.
  - reflexivity.
  - vm_compute. reflexivity.
  - reflexivity.
  - lia.
  - lia.
  - lia.
Defined.

(** X13.  [NextEntry] does not know where the entries end: with the open
    reader standing at the 16-byte trailer that ends the file, it returns
    [io.ErrUnexpectedEOF] with all five values 0 and leaves the reader at the
    end of the file; the call after that returns [io.EOF]. *)
Theorem NextEntry_at_trailer df r pre offset :
  readerTOC df = Some r ->
  readerClosed r = false ->
  payloadBytes (tocFile df) = pre ++ term offset ->
  readerPos r = Z.of_nat (List.length pre) ->
  exists df1,
    NextEntry df = Ret (df1, (None, Some ErrUnexpectedEOF))
    /\ readerTOC df1
       = Some (mkTocReader (Z.of_nat (List.length pre) + 16) false)
    /\ NextEntry df1 = Ret (df1, (None, Some ErrEOF)).
Proof.
  intros Hr Hc Hpay Hpos.
  assert (Hsize : Z.of_nat (List.length (payloadBytes (tocFile df)))
                  = Z.of_nat (List.length pre) + 16)
    by (rewrite Hpay, length_app, term_length; lia).
  eexists. split; [|split].
  - unfold NextEntry. rewrite Hr.
    rewrite (readEntry_short df r pre (term offset) Hc Hpay); 
      [reflexivity | rewrite term_length; lia | exact Hpos].
  - cbn [withReaderTOC readerTOC]. now rewrite Hsize.
  - unfold NextEntry. cbn [withReaderTOC readerTOC].
    rewrite readEntry_at_end by reflexivity.
    reflexivity.
Qed.

Lemma NextEntry_at_trailer_witness :
  exists df1,
    NextEntry atTrailerTOC = Ret (df1, (None, Some ErrUnexpectedEOF))
    /\ readerTOC df1
       = Some (mkTocReader
                 (Z.of_nat
                    (List.length
                       (head 1024 ++ tocEntry 1 2 1280 0 7
                        ++ tocEntry 3 4 512 7 5)) + 16) false)
    /\ NextEntry df1 = Ret (df1, (None, Some ErrEOF)).
Proof.
  apply (NextEntry_at_trailer atTrailerTOC (mkTocReader 96 false)
           (head 1024 ++ tocEntry 1 2 1280 0 7 ++ tocEntry 3 4 512 7 5) 96).
  - reflexivity.
  - reflexivity.
  - vm_compute. reflexivity.
  - reflexivity.
Defined.

(** ** What the callers of the two verifiers rely on *)

Lemma VerifyHeaderAndTrailer_false f errs :
  VerifyHeaderAndTrailer f = (false, errs) -> errs <> [].
Proof.
  unfold VerifyHeaderAndTrailer.
  destruct (rawBytes f) as [raw|]; [|intros [= <-]; discriminate].
  destruct (Z.of_nat (List.length raw) <? _VALUE_FILE_HEADER_SIZE);
    [intros [= <-]; discriminate|].
  destruct (negb _); [intros [= <-]; discriminate|].
  destruct (_ <? _VALUE_FILE_HEADER_SIZE); [intros [= <-]; discriminate|].
  destruct (writable f); [discriminate|].
  intros [= <-]. now destruct (if _ <? _ then _ else _).
Qed.

Lemma VerifyHeaderAndTrailerTOC_false df df' errs :
  VerifyHeaderAndTrailerTOC df = (df', (false, errs)) -> errs <> [].
Proof.
  unfold VerifyHeaderAndTrailerTOC.
  destruct (rawBytes (tocFile (closeReaderTOC df))) as [raw|];
    [|intros [= _ <-]; discriminate].
  destruct (Z.of_nat (List.length raw) <? _VALUE_FILE_HEADER_SIZE);
    [intros [= _ <-]; discriminate|].
  destruct (negb _); [intros [= _ <-]; discriminate|].
  destruct (_ || _); [intros [= _ <-]; discriminate|].
  cbn [dataFile].
  destruct (writable (dataFile (closeReaderTOC df))); [discriminate|].
  intros [= _ <-]. now destruct (if _ <? _ then _ else _).
Qed.

Lemma VerifyHeaderAndTrailerTOC_true df df' errs :
  VerifyHeaderAndTrailerTOC df = (df', (true, errs)) ->
  exists pos, readerTOC df' = Some (mkTocReader pos false).
Proof.
  unfold VerifyHeaderAndTrailerTOC.
  destruct (rawBytes (tocFile (closeReaderTOC df))) as [raw|];
    [|discriminate].
  destruct (Z.of_nat (List.length raw) <? _VALUE_FILE_HEADER_SIZE);
    [discriminate|].
  destruct (negb _); [discriminate|].
  destruct (_ || _); [discriminate|].
  cbn [dataFile].
  destruct (writable (dataFile (closeReaderTOC df))); [|discriminate].
  intros [= <- _]. cbn [readerTOC]. eauto.
Qed.

Lemma readFirst_returns df pos :
  readerTOC df = Some (mkTocReader pos false) ->
  exists r, readFirst df = Ret r.
Proof. intros H. unfold readFirst. rewrite H. cbn. eauto. Qed.

(** X15.  [DataSize] (on a file whose reader is not set yet), [EntryCount],
    [FirstEntry] and [NextEntry] never panic: whenever the verifier they
    call returns false its error list is not empty, so [errs[0]] is in
    range, and whenever [VerifyHeaderAndTrailerTOC] returns true it has set
    the TOC reader that is used next. *)
Theorem direct_file_calls_return f df :
  (exists r, DataSize f = Ret r)
  /\ (exists r, EntryCount df = Ret r)
  /\ (exists r, FirstEntry df = Ret r)
  /\ (exists r, NextEntry df = Ret r).
Proof.
  assert (Fresh : forall d, exists r,
             (let '(df, (ok, errs)) := VerifyHeaderAndTrailerTOC d in
              if ok then readFirst df
              else e <~ firstError errs ;; Ret (df, (None, Some e)))
             = Ret r).
  { intros d.
    destruct (VerifyHeaderAndTrailerTOC d) as [df' [[|] errs]] eqn:V.
    - apply VerifyHeaderAndTrailerTOC_true in V as [pos V].
      now apply (readFirst_returns df' pos).
    - apply VerifyHeaderAndTrailerTOC_false in V.
      destruct errs as [|e errs]; [congruence|]. cbn. eauto. }
  repeat split.
  - unfold DataSize.
    destruct (VerifyHeaderAndTrailer f) as [[|] errs] eqn:V; [eauto|].
    apply VerifyHeaderAndTrailer_false in V.
    destruct errs as [|e errs]; [congruence|]. cbn. eauto.
  - unfold EntryCount. destruct (readerTOC df) as [r|]; [eauto|].
    destruct (VerifyHeaderAndTrailerTOC df) as [df' [[|] errs]] eqn:V;
      [eauto|].
    apply VerifyHeaderAndTrailerTOC_false in V.
    destruct errs as [|e errs]; [congruence|]. cbn. eauto.
  - unfold FirstEntry. destruct (readerTOC df) as [r|] eqn:R.
    + unfold readFirst. rewrite R. destruct (seekFirst r); eauto.
    + apply Fresh.
  - unfold NextEntry. destruct (readerTOC df) as [r|]; [eauto|].
    apply Fresh.
Qed.

(** X16.  [DataSize] reports no trailer problem: when the header is valid
    (the 28-byte file type and a checksum interval of at least 32) and the
    path opens for writing, it returns the size the reader reports less the
    48 bytes of header and trailer, with a nil error, whatever the trailer
    holds; the result is negative for a file shorter than 48 bytes. *)
Theorem DataSize_ignores_trailer f raw ci :
  rawBytes f = Some raw ->
  firstn 32 raw = valueFileType ++ bigEndian 4 ci ->
  32 <= ci < 2 ^ 31 ->
  writable f = true ->
  fst (VerifyHeaderAndTrailer f) = true
  /\ DataSize f
     = Ret (Z.of_nat (List.length (payloadBytes f)) - 48, None).
Proof.
  intros Hraw Hhead Hci Hw.
  assert (Hrl : (List.length raw >= 32)%nat).
  { assert (E : List.length (firstn 32 raw) = 32%nat)
      by (rewrite Hhead, length_app, bigEndian_length; reflexivity).
    rewrite length_firstn in E. lia. }
  assert (V : exists errs, VerifyHeaderAndTrailer f = (true, errs)).
  { unfold VerifyHeaderAndTrailer. rewrite Hraw.
    destruct (Z.ltb_spec (Z.of_nat (List.length raw))
                _VALUE_FILE_HEADER_SIZE) as [Hbad|_];
      [unfold _VALUE_FILE_HEADER_SIZE in Hbad; lia|].
    rewrite Hhead.
    rewrite (firstn_app_exact valueFileType) by reflexivity.
    rewrite (skipn_app_exact valueFileType) by reflexivity.
    rewrite bytesEqual_refl. cbn [negb].
    rewrite fromBigEndian_bigEndian_small
      by (change (2 ^ (8 * Z.of_nat 4)) with (2 ^ 32); lia).
    rewrite int32_small by lia.
    unfold _VALUE_FILE_HEADER_SIZE.
    destruct (Z.ltb_spec ci 32); [lia|].
    rewrite Hw. eauto. }
  destruct V as [errs V]. unfold DataSize. rewrite V.
  split; [reflexivity|].
  unfold _VALUE_FILE_HEADER_SIZE, _VALUE_FILE_TRAILER_SIZE.
  do 2 f_equal. lia.
Qed.

Lemma DataSize_ignores_trailer_witness :
  fst (VerifyHeaderAndTrailer headerOnly) = true
  /\ DataSize headerOnly
     = Ret (Z.of_nat (List.length (payloadBytes headerOnly)) - 48, None).
Proof.
  apply (DataSize_ignores_trailer headerOnly
           (valueFileType ++ bigEndian 4 1024) 1024).
  - reflexivity.
  - reflexivity.
  - lia.
  - reflexivity.
Defined.

End valuetoc_facts.

(** ** Outgoing pull replication ([grouppullreplication_GEN_.go]) *)

Module outpullreplication_facts.
Import grouppullreplication.

(** X17.  What [newOutPullReplicationMsg] puts in the 44-byte header, the
    accessors of the received message read back: node id, ring version
    (also a negative one), partition, cutoff, range start and range stop. *)
Theorem pull_replication_header_round_trip
    node rv part cut rs re ktbf :
  0 <= node < 2 ^ 64 ->
  - 2 ^ 63 <= rv < 2 ^ 63 ->
  0 <= part < 2 ^ 32 ->
  0 <= cut < 2 ^ 64 ->
  0 <= rs < 2 ^ 64 ->
  0 <= re < 2 ^ 64 ->
  Z.of_nat (List.length
              (header (newOutPullReplicationMsg node rv part cut rs re ktbf)))
  = _GROUP_PULL_REPLICATION_MSG_HEADER_BYTES
  /\ nodeID (newOutPullReplicationMsg node rv part cut rs re ktbf) = node
  /\ ringVersion (newOutPullReplicationMsg node rv part cut rs re ktbf) = rv
  /\ partition (newOutPullReplicationMsg node rv part cut rs re ktbf) = part
  /\ cutoff (newOutPullReplicationMsg node rv part cut rs re ktbf) = cut
  /\ rangeStart (newOutPullReplicationMsg node rv part cut rs re ktbf) = rs
  /\ rangeStop (newOutPullReplicationMsg node rv part cut rs re ktbf) = re.
Proof.
  intros Hn Hv Hp Hc Hs He.
  unfold nodeID, ringVersion, partition, cutoff, rangeStart, rangeStop,
    newOutPullReplicationMsg, Uint64, Uint32. cbn [header].
  set (A := bigEndian 8 node). set (B := bigEndian 8 (uint64 rv)).
  set (C := bigEndian 4 part). set (D := bigEndian 8 cut).
  set (E := bigEndian 8 rs). set (F := bigEndian 8 re).
  assert (LA : List.length A = 8%nat) by apply bigEndian_length.
  assert (LB : List.length B = 8%nat) by apply bigEndian_length.
  assert (LC : List.length C = 4%nat) by apply bigEndian_length.
  assert (LD : List.length D = 8%nat) by apply bigEndian_length.
  assert (LE : List.length E = 8%nat) by apply bigEndian_length.
  assert (LF : List.length F = 8%nat) by apply bigEndian_length.
  assert (S8 : skipn 8 (A ++ B ++ C ++ D ++ E ++ F) = B ++ C ++ D ++ E ++ F)
    by now apply valuetoc_facts.skipn_app_exact.
  assert (S16 : skipn 16 (A ++ B ++ C ++ D ++ E ++ F) = C ++ D ++ E ++ F).
  { change 16%nat with (8 + 8)%nat. rewrite <- skipn_skipn, S8.
    now apply valuetoc_facts.skipn_app_exact. }
  assert (S20 : skipn 20 (A ++ B ++ C ++ D ++ E ++ F) = D ++ E ++ F).
  { change 20%nat with (4 + 16)%nat. rewrite <- skipn_skipn, S16.
    now apply valuetoc_facts.skipn_app_exact. }
  assert (S28 : skipn 28 (A ++ B ++ C ++ D ++ E ++ F) = E ++ F).
  { change 28%nat with (8 + 20)%nat. rewrite <- skipn_skipn, S20.
    now apply valuetoc_facts.skipn_app_exact. }
  assert (S36 : skipn 36 (A ++ B ++ C ++ D ++ E ++ F) = F).
  { change 36%nat with (8 + 28)%nat. rewrite <- skipn_skipn, S28.
    now apply valuetoc_facts.skipn_app_exact. }
  rewrite S8, S16, S20, S28, S36.
  rewrite !valuetoc_facts.firstn_app_exact by assumption.
  rewrite (firstn_all2 (n := 8) F) by lia.
  assert (U : 0 <= uint64 rv < 2 ^ 64)
    by (unfold uint64; apply Z.mod_pos_bound; lia).
  unfold A, B, C, D, E, F.
  rewrite !fromBigEndian_bigEndian_small by assumption.
  split; [rewrite !length_app, !bigEndian_length; reflexivity|].
  repeat split.
  unfold int64, uint64. cbv zeta. rewrite !Z.mod_mod by lia.
  destruct (Z.ltb_spec (rv mod 2 ^ 64) (2 ^ 63)) as [Hl|Hl].
  - destruct (Z.lt_ge_cases rv 0) as [Hneg|Hpos].
    + rewrite <- (Z.mod_add rv 1) in Hl by lia.
      rewrite Z.mod_small in Hl by lia. lia.
    + apply Z.mod_small. lia.
  - destruct (Z.lt_ge_cases rv 0) as [Hneg|Hpos].
    + rewrite <- (Z.mod_add rv 1) by lia.
      rewrite Z.mod_small by lia. lia.
    + rewrite Z.mod_small in Hl by lia. lia.
Qed.

Lemma pull_replication_header_round_trip_witness :
  Z.of_nat (List.length
              (header (newOutPullReplicationMsg 7 (-1) 3 256000 0
                         (2 ^ 63 - 1) (fun _ _ => false))))
  = _GROUP_PULL_REPLICATION_MSG_HEADER_BYTES
  /\ nodeID (newOutPullReplicationMsg 7 (-1) 3 256000 0 (2 ^ 63 - 1)
               (fun _ _ => false)) = 7
  /\ ringVersion (newOutPullReplicationMsg 7 (-1) 3 256000 0 (2 ^ 63 - 1)
                    (fun _ _ => false)) = -1
  /\ partition (newOutPullReplicationMsg 7 (-1) 3 256000 0 (2 ^ 63 - 1)
                  (fun _ _ => false)) = 3
  /\ cutoff (newOutPullReplicationMsg 7 (-1) 3 256000 0 (2 ^ 63 - 1)
               (fun _ _ => false)) = 256000
  /\ rangeStart (newOutPullReplicationMsg 7 (-1) 3 256000 0 (2 ^ 63 - 1)
                   (fun _ _ => false)) = 0
  /\ rangeStop (newOutPullReplicationMsg 7 (-1) 3 256000 0 (2 ^ 63 - 1)
                  (fun _ _ => false)) = 2 ^ 63 - 1.
Proof.
  apply (pull_replication_header_round_trip 7 (-1) 3 256000 0 (2 ^ 63 - 1)
           (fun _ _ => false)); lia.
Defined.

Lemma uint64_small v : 0 <= v < 2 ^ 64 -> uint64 v = v.
Proof. intros H. unfold uint64. now apply Z.mod_small. Qed.

Lemma shl64_value x s :
  0 <= s < 64 -> 0 <= x -> x * 2 ^ s < 2 ^ 64 -> shl64 x s = x * 2 ^ s.
Proof.
  intros Hs Hx Hfit. unfold shl64.
  destruct (Z.ltb_spec s 64); [|lia].
  rewrite Z.shiftl_mul_pow2 by lia. apply uint64_small. nia.
Qed.

(** The two ends [f] computes, when there are no more workers than keys in
    a partition. *)
Lemma outRange_value pbc ws p w :
  0 < pbc < 64 ->
  1 <= ws <= 2 ^ (64 - pbc) ->
  0 <= p < 2 ^ pbc ->
  0 <= w < ws ->
  outRange pbc ws p w
  = Ret (p * 2 ^ (64 - pbc) + 2 ^ (64 - pbc) / ws * w,
         if w + 1 =? ws then (p + 1) * 2 ^ (64 - pbc) - 1
         else p * 2 ^ (64 - pbc) + 2 ^ (64 - pbc) / ws * (w + 1) - 1).
Proof.
  intros Hb Hws Hp Hw. unfold outRange.
  assert (E1 : uint16 (64 - pbc) = 64 - pbc)
    by (unfold uint16; apply Z.mod_small; lia).
  rewrite E1.
  assert (HS : 0 < 2 ^ (64 - pbc)) by (apply Z.pow_pos_nonneg; lia).
  assert (HP : 2 ^ 1 <= 2 ^ pbc) by (apply Z.pow_le_mono_r; lia).
  assert (HS2 : 2 ^ 1 <= 2 ^ (64 - pbc)) by (apply Z.pow_le_mono_r; lia).
  assert (HPS : 2 ^ pbc * 2 ^ (64 - pbc) = 2 ^ 64).
  { rewrite <- Z.pow_add_r by lia. f_equal. lia. }
  assert (Hq : 2 ^ (64 - pbc) / ws * ws <= 2 ^ (64 - pbc))
    by (rewrite Z.mul_comm; apply Z.mul_div_le; lia).
  assert (Hq1 : 1 <= 2 ^ (64 - pbc) / ws)
    by (apply Z.div_le_lower_bound; lia).
  rewrite (shl64_value 1 (64 - pbc)) by nia.
  rewrite (shl64_value p (64 - pbc)) by nia.
  rewrite (shl64_value 1 pbc) by nia.
  rewrite !Z.mul_1_l.
  set (S := 2 ^ (64 - pbc)) in *. set (P := 2 ^ pbc) in *.
  set (q := S / ws) in *.
  destruct (Z.eqb_spec ws 0); [lia|].
  assert (Hw1 : uint64 (w + 1) = w + 1) by (apply uint64_small; nia).
  assert (Hp1 : uint64 (p + 1) = p + 1) by (apply uint64_small; nia).
  rewrite Hw1, Hp1.
  rewrite (uint64_small (q * w)) by nia.
  rewrite (uint64_small (p * S + q * w)) by nia.
  f_equal. f_equal.
  destruct (Z.eqb_spec (w + 1) ws) as [Hlast|Hmid].
  - destruct (Z.eqb_spec (p + 1) P) as [Hend|Hin].
    + unfold MaxUint64. nia.
    + rewrite (shl64_value (p + 1) (64 - pbc)) by (fold S; nia).
      fold S. apply uint64_small. nia.
  - rewrite (uint64_small (q * (w + 1))) by nia.
    rewrite (uint64_small (p * S + q * (w + 1))) by nia.
    apply uint64_small. nia.
Qed.

(** X18.  In [outPullReplicationPass], when there are no more workers than
    keys in a partition, the key ranges [f] computes for the workers tile
    partition [p] exactly: every range is non-empty and lies inside the
    partition, the range of worker 0 starts at the partition's first key,
    the range of a worker that is not the last ends just before the next
    worker's range starts, and the last worker's range ends at the
    partition's last key. *)
Theorem outRange_tiles_partition pbc ws p w :
  0 < pbc < 64 ->
  1 <= ws <= 2 ^ (64 - pbc) ->
  0 <= p < 2 ^ pbc ->
  0 <= w < ws ->
  exists rb re,
    outRange pbc ws p w = Ret (rb, re)
    /\ p * 2 ^ (64 - pbc) <= rb <= re
    /\ re < (p + 1) * 2 ^ (64 - pbc)
    /\ (w = 0 -> rb = p * 2 ^ (64 - pbc))
    /\ (w + 1 = ws -> re = (p + 1) * 2 ^ (64 - pbc) - 1)
    /\ (w + 1 < ws ->
        exists re', outRange pbc ws p (w + 1) = Ret (re + 1, re')).
Proof.
  intros Hb Hws Hp Hw.
  assert (HS : 0 < 2 ^ (64 - pbc)) by (apply Z.pow_pos_nonneg; lia).
  assert (Hq : 2 ^ (64 - pbc) / ws * ws <= 2 ^ (64 - pbc))
    by (rewrite Z.mul_comm; apply Z.mul_div_le; lia).
  assert (Hq1 : 1 <= 2 ^ (64 - pbc) / ws)
    by (apply Z.div_le_lower_bound; lia).
  do 2 eexists. split; [apply outRange_value; assumption|].
  set (S := 2 ^ (64 - pbc)) in *. set (q := S / ws) in *.
  destruct (Z.eqb_spec (w + 1) ws) as [Hlast|Hmid].
  - split; [nia|]. split; [nia|]. split; [nia|]. split; [nia|]. lia.
  - split; [nia|]. split; [nia|]. split; [nia|]. split; [lia|].
    intros Hnext. eexists.
    rewrite outRange_value by (assumption || lia).
    fold S. fold q. do 2 f_equal. lia.
Qed.

Lemma outRange_tiles_partition_witness :
  exists rb re,
    outRange 1 3 1 1 = Ret (rb, re)
    /\ 1 * 2 ^ (64 - 1) <= rb <= re
    /\ re < (1 + 1) * 2 ^ (64 - 1)
    /\ (1 = 0 -> rb = 1 * 2 ^ (64 - 1))
    /\ (1 + 1 = 3 -> re = (1 + 1) * 2 ^ (64 - 1) - 1)
    /\ (1 + 1 < 3 ->
        exists re', outRange 1 3 1 (1 + 1) = Ret (re + 1, re')).
Proof.
  apply (outRange_tiles_partition 1 3 1 1).
  - lia.
  - vm_compute. split; discriminate.
  - vm_compute. split; [discriminate|reflexivity].
  - lia.
Defined.

Lemma In_upTo a b x : In x (upTo a b) <-> a <= x < b.
Proof.
  unfold upTo. rewrite in_map_iff. split.
  - intros (i & <- & Hi). apply in_seq in Hi. lia.
  - intros Hx. exists (Z.to_nat (x - a)). split; [lia|].
    apply in_seq. lia.
Qed.

Lemma NoDup_upTo a b : NoDup (upTo a b).
Proof.
  unfold upTo. apply NoDup_map_NoDup_ForallPairs; [|apply seq_NoDup].
  intros i j _ _ H. lia.
Qed.

(** X19.  In a pass of [outPullReplicationPass] that is not aborted and
    sees no ring change, with partitions that fit 32 bits, every worker
    calls [f] once for each partition the ring says it is responsible for
    and for no other: the worker starts at partition
    [partitionCount / ws * w] and wraps around to the one before it. *)
Theorem passPartitions_each_once pbc ws w Responsible :
  0 < pbc <= 32 ->
  0 <= w < ws ->
  ws < 2 ^ 64 ->
  exists ps,
    passPartitions pbc ws w Responsible = Ret ps
    /\ NoDup ps
    /\ (forall p, In p ps <-> 0 <= p < 2 ^ pbc /\ Responsible p = true)
    /\ (Responsible (2 ^ pbc / ws * w) = true ->
        hd_error ps = Some (2 ^ pbc / ws * w)).
Proof.
  intros Hb Hw Hws. unfold passPartitions.
  assert (HP1 : 2 ^ 1 <= 2 ^ pbc) by (apply Z.pow_le_mono_r; lia).
  assert (HP2 : 2 ^ pbc <= 2 ^ 32) by (apply Z.pow_le_mono_r; lia).
  rewrite (shl64_value 1 pbc) by lia. rewrite Z.mul_1_l.
  set (P := 2 ^ pbc) in *.
  destruct (Z.eqb_spec ws 0); [lia|].
  assert (Hq : P / ws * ws <= P)
    by (rewrite Z.mul_comm; apply Z.mul_div_le; lia).
  assert (Hq0 : 0 <= P / ws) by (apply Z.div_pos; lia).
  assert (Hlt : w = 0 \/ P / ws * w < P) by nia.
  rewrite (uint64_small (P / ws * w)) by nia.
  set (pb := P / ws * w) in *.
  assert (Hpb : 0 <= pb < P) by (unfold pb; nia).
  eexists. split; [reflexivity|]. split; [|split].
  - apply NoDup_filter, NoDup_app; try apply NoDup_upTo.
    intros x H1 H2. apply In_upTo in H1. apply In_upTo in H2. lia.
  - intros x. rewrite filter_In, in_app_iff, !In_upTo. split.
    + intros [Hx HR]. assert (Hx' : 0 <= x < P) by lia.
      split; [exact Hx'|].
      replace (uint32 x) with x in HR; [exact HR|].
      unfold uint32. symmetry. apply Z.mod_small. lia.
    + intros [Hx HR]. split; [lia|].
      replace (uint32 x) with x; [exact HR|].
      unfold uint32. symmetry. apply Z.mod_small. lia.
  - intros HR.
    assert (E : upTo pb P = pb :: upTo (pb + 1) P).
    { unfold upTo. replace (Z.to_nat (P - pb))
        with (Datatypes.S (Z.to_nat (P - (pb + 1)))) by lia.
      cbn [seq map]. f_equal; [lia|].
      rewrite <- seq_shift, map_map. apply map_ext. intros i. lia. }
    rewrite E. cbn [app List.filter].
    replace (uint32 pb) with pb
      by (unfold uint32; symmetry; apply Z.mod_small; lia).
    now rewrite HR.
Qed.

Lemma passPartitions_each_once_witness :
  exists ps,
    passPartitions 2 3 1 (fun p => negb (p =? 2)) = Ret ps
    /\ NoDup ps
    /\ (forall p, In p ps
                  <-> 0 <= p < 2 ^ 2 /\ (fun p => negb (p =? 2)) p = true)
    /\ ((fun p => negb (p =? 2)) (2 ^ 2 / 3 * 1) = true ->
        hd_error ps = Some (2 ^ 2 / 3 * 1)).
Proof.
  apply (passPartitions_each_once 2 3 1 (fun p => negb (p =? 2))).
  - lia.
  - lia.
  - vm_compute. reflexivity.
Defined.

End outpullreplication_facts.


(** ** File headers ([storefile]) *)

Module header_facts.
Import valuestorefile_header.

Lemma head_value_eq ci :
  head ci = valuedirectfile.valueFileType ++ bigEndian 4 ci.
Proof.
  unfold head, patch. rewrite bigEndian_length.
  change (skipn (28 + 4) headText) with (@nil byte).
  now rewrite app_nil_r.
Qed.

Lemma bytesEqual_length x y :
  valuedirectfile.bytesEqual x y = true -> List.length x = List.length y.
Proof. intros H. now rewrite (valuetoc_facts.bytesEqual_eq _ _ H). Qed.

Lemma readValueHeader_of ft ci rest toc :
  List.length ft = 28%nat ->
  0 <= ci < 2 ^ 32 ->
  _readValueHeader (ft ++ bigEndian 4 ci ++ rest) toc
  = if negb (valuedirectfile.bytesEqual ft
               (if toc then valuedirectfile.tocFileType
                else valuedirectfile.valueFileType))
    then (0, Some ErrUnknownFileType)
    else if ci <? 32 then (0, Some (ErrChecksumIntervalTooSmall ci))
         else (ci, None).
Proof.
  intros Hft Hci. unfold _readValueHeader.
  assert (L : List.length (ft ++ bigEndian 4 ci ++ rest)
              = (32 + List.length rest)%nat)
    by (rewrite !length_app, bigEndian_length, Hft; lia).
  rewrite L.
  destruct (Nat.ltb_spec (32 + List.length rest) 32); [lia|].
  assert (F : firstn 32 (ft ++ bigEndian 4 ci ++ rest)
              = ft ++ bigEndian 4 ci).
  { rewrite app_assoc. apply valuetoc_facts.firstn_app_exact.
    rewrite length_app, bigEndian_length, Hft. reflexivity. }
  rewrite F.
  rewrite (valuetoc_facts.firstn_app_exact ft) by assumption.
  rewrite (valuetoc_facts.skipn_app_exact ft) by assumption.
  rewrite firstn_all2 by (rewrite bigEndian_length; lia).
  rewrite fromBigEndian_bigEndian_small
    by (change (2 ^ (8 * Z.of_nat 4)) with (2 ^ 32); lia).
  reflexivity.
Qed.

(** X20.  The header [createValueReadWriteFile] writes is read back by
    [readValueHeader], and the header [tocWriter] writes by
    [readValueHeaderTOC]: for a checksum interval of at least 32 the
    interval is returned with a nil error, for a smaller one 0 and the
    too-small error.  Each reader rejects the other kind of file as an
    unknown file type, and a file shorter than 32 bytes with the read
    error. *)
Theorem readValueHeader_round_trip ci rest :
  0 <= ci < 2 ^ 32 ->
  readValueHeader (head ci ++ rest)
  = (if ci <? 32 then (0, Some (ErrChecksumIntervalTooSmall ci))
     else (ci, None))
  /\ readValueHeaderTOC (valuestore_toc.head ci ++ rest)
     = (if ci <? 32 then (0, Some (ErrChecksumIntervalTooSmall ci))
        else (ci, None))
  /\ readValueHeaderTOC (head ci ++ rest) = (0, Some ErrUnknownFileType)
  /\ readValueHeader (valuestore_toc.head ci ++ rest)
     = (0, Some ErrUnknownFileType)
  /\ ((List.length rest < 32)%nat ->
      readValueHeader rest = (0, Some ErrReadFull)
      /\ readValueHeaderTOC rest = (0, Some ErrReadFull)).
Proof.
  intros Hci.
  assert (U : uint32 ci = ci) by (unfold uint32; apply Z.mod_small; lia).
  unfold readValueHeader, readValueHeaderTOC.
  rewrite head_value_eq, valuetoc_facts.head_eq, U, <- !app_assoc.
  rewrite !readValueHeader_of by (reflexivity || assumption).
  repeat split.
  - unfold _readValueHeader.
    destruct (Nat.ltb_spec (List.length rest) 32); [reflexivity|lia].
  - unfold _readValueHeader.
    destruct (Nat.ltb_spec (List.length rest) 32); [reflexivity|lia].
Qed.

Lemma readValueHeader_round_trip_witness :
  readValueHeader (head 1024 ++ [])
  = (if 1024 <? 32 then (0, Some (ErrChecksumIntervalTooSmall 1024))
     else (1024, None))
  /\ readValueHeaderTOC (valuestore_toc.head 1024 ++ [])
     = (if 1024 <? 32 then (0, Some (ErrChecksumIntervalTooSmall 1024))
        else (1024, None))
  /\ readValueHeaderTOC (head 1024 ++ []) = (0, Some ErrUnknownFileType)
  /\ readValueHeader (valuestore_toc.head 1024 ++ [])
     = (0, Some ErrUnknownFileType)
  /\ ((List.length (@nil byte) < 32)%nat ->
      readValueHeader [] = (0, Some ErrReadFull)
      /\ readValueHeaderTOC [] = (0, Some ErrReadFull)).
Proof.
  apply (readValueHeader_round_trip 1024 []). lia.
Defined.

End header_facts.

(** ** Resizing the location index ([split] and [unsplit]) *)

Module resize_facts.
Import valuelocmap valuelocmap_facts.

#[local] Arguments items : simpl never.

Lemma key_dec (kA kB kA' kB' : Z) :
  (kA' = kA /\ kB' = kB) \/ (kA' <> kA \/ kB' <> kB).
Proof. lia. Qed.

Lemma isMatch_own x : blockID x <> 0 -> isMatch (keyA x) (keyB x) x = true.
Proof.
  intros H. unfold isMatch. rewrite !Z.eqb_refl.
  destruct (Z.eqb_spec (blockID x) 0); [contradiction|reflexivity].
Qed.

Lemma findItem_useUnused_other kA kB x bk :
  keyA x <> kA \/ keyB x <> kB ->
  findItem kA kB (items (useUnused (fun _ => x) bk))
  = findItem kA kB (items bk).
Proof.
  intros H. rewrite !findItem_filter.
  rewrite (filter_useUnused (keyA x) (keyB x) kA kB); [reflexivity| |].
  - destruct H; [left|right]; congruence.
  - intros _. split; reflexivity.
Qed.

Lemma uniqueKeys_cons x l :
  uniqueKeys (x :: l) = true <->
  (blockID x <> 0 -> findItem (keyA x) (keyB x) l = None)
  /\ uniqueKeys l = true.
Proof.
  cbn [uniqueKeys]. rewrite andb_true_iff. split; intros [H1 H2];
    (split; [|exact H2]).
  - intros B. destruct (Z.eqb_spec (blockID x) 0); [contradiction|].
    cbn [orb] in H1. now destruct (findItem (keyA x) (keyB x) l).
  - destruct (Z.eqb_spec (blockID x) 0); [reflexivity|]. cbn [orb].
    now rewrite H1.
Qed.

Lemma isMatch_other_key kA kB x :
  blockID x <> 0 -> (keyA x <> kA \/ keyB x <> kB) <-> isMatch kA kB x = false.
Proof.
  intros B. unfold isMatch.
  destruct (Z.eqb_spec (blockID x) 0); [contradiction|]. cbn [negb andb].
  destruct (Z.eqb_spec (keyA x) kA), (Z.eqb_spec (keyB x) kB); cbn;
    split; intros H; try reflexivity; try discriminate; try lia.
Qed.

(** Putting a key that a chain does not hold into its first unused item
    keeps the keys of the chain unique. *)
Lemma uniqueKeys_updUnused x l l' :
  uniqueKeys l = true ->
  findItem (keyA x) (keyB x) l = None ->
  updUnused (fun _ => x) l = Some l' ->
  uniqueKeys l' = true.
Proof.
  revert l'. induction l as [|y l IH]; intros l' U F E; cbn [updUnused] in E;
    [discriminate|].
  apply uniqueKeys_cons in U as [Uy U].
  cbn [findItem] in F.
  destruct (Z.eqb_spec (blockID y) 0) as [By|By].
  - injection E as <-. apply uniqueKeys_cons. split; [|exact U].
    intros _. assert (M : isMatch (keyA x) (keyB x) y = false)
      by (unfold isMatch; now rewrite By).
    now rewrite M in F.
  - destruct (isMatch (keyA x) (keyB x) y) eqn:M; [discriminate|].
    destruct (updUnused (fun _ => x) l) as [r|] eqn:Er; [|discriminate].
    injection E as <-. apply uniqueKeys_cons. split; [|now apply IH].
    intros _. specialize (Uy By).
    apply isMatch_other_key in M; [|exact By].
    rewrite findItem_filter in Uy |- *.
    rewrite (filter_updUnused (keyA x) (keyB x) (keyA y) (keyB y)
               ltac:(lia) (fun _ => x) l r); [exact Uy| |exact Er].
    intros _. split; reflexivity.
Qed.

Lemma uniqueKeys_useUnused x bk :
  uniqueKeys (items bk) = true ->
  findItem (keyA x) (keyB x) (items bk) = None ->
  blockID x <> 0 ->
  uniqueKeys (items (useUnused (fun _ => x) bk)) = true.
Proof.
  intros U F B. unfold useUnused.
  destruct (updUnused (fun _ => x) (items bk)) as [l'|] eqn:E.
  - assert (Hne : l' <> []).
    { unfold items in E. cbn [updUnused] in E.
      destruct (blockID (head bk) =? 0); [injection E as <-; discriminate|].
      destruct (updUnused _ (next bk)); [injection E as <-|]; discriminate. }
    rewrite items_bucketOfItems by exact Hne.
    eapply uniqueKeys_updUnused; eauto.
  - unfold items in *. cbn [head next].
    apply uniqueKeys_cons in U as [Uh U].
    cbn [findItem] in F.
    destruct (isMatch (keyA x) (keyB x) (head bk)) eqn:M; [discriminate|].
    apply uniqueKeys_cons. split.
    + intros Bh. cbn [findItem].
      assert (M' : isMatch (keyA (head bk)) (keyB (head bk)) x = false).
      { apply isMatch_other_key; [exact B|].
        apply isMatch_other_key in M; [lia|exact Bh]. }
      rewrite M'. auto.
    + apply uniqueKeys_cons. split; [intros _; exact F|exact U].
Qed.

Section Move.
Variable moves : valueLoc -> bool.

#[local] Abbreviation clearMoving := (valuelocmap.clearMoving moves).
#[local] Abbreviation Copied := (valuelocmap.Copied moves).
#[local] Abbreviation settledAt := (valuelocmap.settledAt moves).

Lemma moving_inUse x : moving moves x = true -> blockID x <> 0.
Proof.
  unfold moving. intros H. apply andb_prop in H as [H _].
  now apply negb_true_iff, Z.eqb_neq in H.
Qed.

Lemma moving_moves x : moving moves x = true -> moves x = true.
Proof. unfold moving. intros H. now apply andb_prop in H as [_ H]. Qed.

Lemma findItem_skip kA kB x l :
  isMatch kA kB x = false -> findItem kA kB (x :: l) = findItem kA kB l.
Proof. intros H. cbn [findItem]. now rewrite H. Qed.

Lemma isMatch_not_moving kA kB x :
  isMatch kA kB x = true -> moving moves x = false -> moves x = false.
Proof.
  intros M N. apply isMatch_keys in M as (B & _ & _).
  unfold moving in N. destruct (Z.eqb_spec (blockID x) 0); [contradiction|].
  exact N.
Qed.

(** The first pass that copies, into a bucket that holds none of the keys
    that move. *)
Lemma moveItems_copy l :
  forall bk n,
    uniqueKeys l = true ->
    (forall x, In x l -> moving moves x = true ->
               findItem (keyA x) (keyB x) (items bk) = None) ->
    exists bk' n',
      moveItems moves false l bk n = (l, bk', n')
      /\ (uniqueKeys (items bk) = true -> uniqueKeys (items bk') = true)
      /\ forall kA kB,
           findItem kA kB (items bk')
           = match findItem kA kB (items bk) with
             | Some i => Some i
             | None => findItem kA kB (List.filter moves l)
             end.
Proof.
  induction l as [|x l IH]; intros bk n U Hd.
  - exists bk, n. split; [reflexivity|]. split; [auto|]. intros kA kB. cbn.
    now destruct (findItem kA kB (items bk)).
  - cbn [uniqueKeys] in U. apply andb_prop in U as [Ux U].
    cbn [moveItems]. destruct (moving moves x) eqn:Mx.
    + rewrite (Hd x (or_introl eq_refl) Mx).
      pose proof (moving_inUse x Mx) as Bx.
      pose proof (moving_moves x Mx) as Vx.
      assert (Ux' : findItem (keyA x) (keyB x) l = None).
      { destruct (Z.eqb_spec (blockID x) 0); [contradiction|].
        cbn [orb] in Ux. now destruct (findItem (keyA x) (keyB x) l). }
      destruct (IH (useUnused (fun _ => x) bk)
                  (mkTally (usedSrc n) (int32 (usedDst n + 1))
                     (uint32 (copied n + 1)) (cleared n)) U)
        as (bk' & n' & E & Q & F).
      { intros y Hy My.
        destruct (key_dec (keyA y) (keyB y) (keyA x) (keyB x)) as [[EA EB]|Ho].
        - exfalso.
          assert (findItem (keyA x) (keyB x) l <> None).
          { rewrite EA, EB. clear - Hy My.
            pose proof (moving_inUse y My) as By.
            induction l as [|z l IH]; [destruct Hy|].
            cbn [findItem]. destruct (isMatch (keyA y) (keyB y) z) eqn:Ez;
              [discriminate|].
            destruct Hy as [->|Hy]; [|auto].
            now rewrite isMatch_own in Ez. }
          contradiction.
        - rewrite findItem_useUnused_other by exact Ho.
          apply Hd; [now right|exact My]. }
      rewrite E. exists bk', n'. split; [reflexivity|].
      split.
      { intros Ub. apply Q, uniqueKeys_useUnused; [exact Ub| |exact Bx].
        apply Hd; [now left|exact Mx]. }
      intros kA kB. rewrite F. cbn [List.filter]. rewrite Vx.
      destruct (key_dec kA kB (keyA x) (keyB x)) as [[EA EB]|Ho].
      * rewrite <- EA, <- EB.
        rewrite (findItem_useUnused (keyA x) (keyB x) (fun _ => x) bk x);
          [ | apply Hd; [now left|exact Mx] | reflexivity
            | now apply isMatch_own ].
        rewrite (Hd x (or_introl eq_refl) Mx).
        cbn [findItem]. now rewrite isMatch_own.
      * rewrite findItem_useUnused_other by exact Ho.
        destruct (findItem kA kB (items bk)); [reflexivity|].
        rewrite findItem_skip; [reflexivity|].
        destruct (isMatch kA kB x) eqn:Em; [|reflexivity].
        apply isMatch_keys in Em as (_ & EA & EB). lia.
    + destruct (IH bk n U) as (bk' & n' & E & Q & F).
      { intros y Hy My. apply Hd; [now right|exact My]. }
      rewrite E. exists bk', n'. split; [reflexivity|].
      split; [exact Q|].
      intros kA kB. rewrite F.
      destruct (findItem kA kB (items bk)); [reflexivity|].
      cbn [List.filter]. destruct (moves x) eqn:Vx; [|reflexivity].
      rewrite findItem_skip; [reflexivity|].
      destruct (isMatch kA kB x) eqn:Em; [|reflexivity].
      pose proof (isMatch_not_moving _ _ _ Em Mx). congruence.
Qed.

(** A pass over a bucket whose moving items are all in the other bucket
    already, at least as new: nothing is copied. *)
Lemma moveItems_settled clear l :
  forall bk n,
    (forall x, In x l -> moving moves x = true ->
               exists o, findItem (keyA x) (keyB x) (items bk) = Some o
                         /\ timestamp x <= timestamp o) ->
    exists n',
      moveItems moves clear l bk n = (map (clearMoving clear) l, bk, n')
      /\ copied n' = copied n
      /\ usedDst n' = usedDst n
      /\ (clear = false -> n' = n)
      /\ (existsb (moving moves) l = false -> n' = n).
Proof.
  induction l as [|x l IH]; intros bk n H.
  - exists n. cbn. auto.
  - cbn [moveItems map existsb]. unfold valuelocmap.clearMoving at 1.
    destruct (moving moves x) eqn:Mx.
    + destruct (H x (or_introl eq_refl) Mx) as (o & Fo & To).
      rewrite Fo. destruct (Z.gtb_spec (timestamp x) (timestamp o)); [lia|].
      destruct clear.
      * destruct (IH bk (mkTally (int32 (usedSrc n - 1)) (usedDst n)
                           (copied n) (uint32 (cleared n + 1))))
          as (n' & E & C & U & _ & _).
        { intros y Hy. apply H. now right. }
        rewrite E. exists n'. cbn [andb orb].
        repeat split; [exact C|exact U|discriminate|discriminate].
      * destruct (IH bk n) as (n' & E & C & U & N & _).
        { intros y Hy. apply H. now right. }
        rewrite E. exists n'. cbn [andb orb].
        repeat split; [exact C|exact U|exact N|discriminate].
    + destruct (IH bk n) as (n' & E & C & U & N & X).
      { intros y Hy. apply H. now right. }
      rewrite E. exists n'. rewrite andb_false_r. cbn [orb].
      repeat split; assumption.
Qed.

Lemma clearMoving_false l : map (clearMoving false) l = l.
Proof. unfold valuelocmap.clearMoving. cbn [andb]. apply map_id. Qed.

Lemma moving_cleared x : moving moves (clearMoving true x) = false.
Proof.
  unfold valuelocmap.clearMoving. cbn [andb]. destruct (moving moves x) eqn:M;
    [reflexivity|exact M].
Qed.

Lemma existsb_moving_cleared l :
  existsb (moving moves) (map (clearMoving true) l) = false.
Proof.
  induction l as [|x l IH]; [reflexivity|].
  cbn [map existsb]. now rewrite moving_cleared, IH.
Qed.

Lemma clearMoving_idle clear l :
  existsb (moving moves) l = false -> map (clearMoving clear) l = l.
Proof.
  induction l as [|x l IH]; [reflexivity|]. cbn [existsb map].
  intros H. apply orb_false_elim in H as [Hx Hl].
  unfold valuelocmap.clearMoving at 1. rewrite Hx, andb_false_r. now rewrite IH.
Qed.

Lemma moveBucket_at clear j r bkS bkD :
  0 < locks (src r) -> locks (src r) <= locks (dst r) ->
  nth_error (buckets (src r)) j = Some bkS ->
  nth_error (buckets (dst r)) j = Some bkD ->
  moveBucket moves clear (Z.of_nat j) r
  = let '(l, bkD', n) :=
      moveItems moves clear (items bkS) bkD
        (mkTally (used (src r)) (used (dst r)) (copies r) (clears r)) in
    Some (mkResize
            (mkStore (set_nth (buckets (src r)) j (bucketOfItems l bkS))
               (locks (src r)) (usedSrc n))
            (mkStore (set_nth (buckets (dst r)) j bkD')
               (locks (dst r)) (usedDst n))
            (copied n) (cleared n)).
Proof.
  intros L1 L2 NS ND. unfold moveBucket, lockOK.
  destruct (Z.eqb_spec (locks (src r)) 0); [lia|]. cbn [negb guard bind].
  pose proof (Z.mod_pos_bound (Z.of_nat j) (locks (src r)) L1) as Hm.
  destruct (Z.ltb_spec (Z.of_nat j mod locks (src r)) (locks (dst r)));
    [|lia].
  destruct (Z.ltb_spec (Z.of_nat j mod locks (src r)) (locks (src r)));
    [|lia].
  cbn [guard bind]. rewrite Nat2Z.id, NS. cbn [bind]. rewrite ND.
  reflexivity.
Qed.

Section Loops.
Variable clear : bool.
Variable cores : Z.
Hypothesis Hcores : 1 <= cores.
Variable n : nat.
Variable I : resize -> Prop.
Variable D : nat -> resize -> Prop.
Hypothesis Ilen : forall r, I r -> List.length (buckets (src r)) = n.
Hypothesis Hstep :
  forall j r, (j < n)%nat -> I r ->
    exists r', moveBucket moves clear (Z.of_nat j) r = Some r'
               /\ I r' /\ D j r' /\ (forall i, D i r -> D i r').

Lemma strideLoop_inv fuel :
  forall bix r,
    I r -> bix < Z.of_nat n -> (Z.to_nat (bix + 1) <= fuel)%nat ->
    exists r',
      strideLoop moves clear fuel cores bix r = Some r'
      /\ I r'
      /\ (forall i, D i r -> D i r')
      /\ (forall j, 0 <= j <= bix -> (bix - j) mod cores = 0 ->
                    D (Z.to_nat j) r').
Proof.
  induction fuel as [|fuel IH]; intros bix r Ir Hb Hf.
  - assert (bix < 0) by lia. cbn [strideLoop].
    destruct (Z.ltb_spec bix 0); [|lia].
    exists r. repeat split; auto. intros; lia.
  - cbn [strideLoop]. destruct (Z.ltb_spec bix 0).
    + exists r. repeat split; auto. intros; lia.
    + destruct (Hstep (Z.to_nat bix) r ltac:(lia) Ir)
        as (r1 & E1 & I1 & D1 & M1).
      rewrite Z2Nat.id in E1 by lia. rewrite E1. cbn [bind].
      destruct (IH (bix - cores) r1 I1 ltac:(lia) ltac:(lia))
        as (r2 & E2 & I2 & M2 & C2).
      exists r2. split; [exact E2|]. split; [exact I2|].
      split; [auto|].
      intros j Hj Hm.
      destruct (Z.eq_dec j bix) as [->|Hne].
      * apply M2, D1.
      * apply C2.
        -- assert (cores <= bix - j); [|lia].
           apply Z.mod_divide in Hm; [|lia]. destruct Hm as [q Hq].
           assert (0 < q) by nia. nia.
        -- replace (bix - cores - j) with (bix - j + (-1) * cores) by lia.
           now rewrite Z.mod_add by lia.
Qed.

Lemma onePass_inv r :
  I r ->
  exists r',
    onePass moves clear cores r = Some r'
    /\ I r'
    /\ (forall i, D i r -> D i r')
    /\ (forall j, (j < n)%nat -> D j r').
Proof.
  intros Ir. unfold onePass.
  destruct (Z.leb_spec 0 cores); [|lia]. cbn [guard bind].
  assert (G : forall k, (k <= Z.to_nat cores)%nat ->
            exists r',
              fold_left
                (fun acc core =>
                   r' <- acc ;; moveStride moves clear cores (Z.of_nat core) r')
                (seq 0 k) (Some r) = Some r'
              /\ I r'
              /\ (forall i, D i r -> D i r')
              /\ (forall j, (j < n)%nat ->
                    (Z.of_nat n - 1 - Z.of_nat j) mod cores < Z.of_nat k ->
                    D j r')).
  { induction k as [|k IHk]; intros Hk.
    - exists r. cbn. repeat split; auto. intros j Hj Hm.
      pose proof (Z.mod_pos_bound (Z.of_nat n - 1 - Z.of_nat j) cores
                    ltac:(lia)). lia.
    - destruct (IHk ltac:(lia)) as (r1 & E1 & I1 & M1 & C1).
      rewrite seq_S, fold_left_app, E1. cbn [fold_left bind Nat.add].
      unfold moveStride. rewrite (Ilen r1 I1).
      destruct (strideLoop_inv n (Z.of_nat n - 1 - Z.of_nat k) r1 I1
                  ltac:(lia) ltac:(lia))
        as (r2 & E2 & I2 & M2 & C2).
      exists r2. split; [exact E2|]. split; [exact I2|].
      split; [auto|].
      intros j Hj Hm.
      destruct (Z.lt_ge_cases ((Z.of_nat n - 1 - Z.of_nat j) mod cores)
                  (Z.of_nat k)) as [Hlt|Hge].
      + apply M2, C1; assumption.
      + assert (Hk' : (Z.of_nat n - 1 - Z.of_nat j) mod cores = Z.of_nat k)
          by lia.
        pose proof (Z.div_mod (Z.of_nat n - 1 - Z.of_nat j) cores
                      ltac:(lia)) as Hdm.
        assert (Hq : 0 <= (Z.of_nat n - 1 - Z.of_nat j) / cores)
          by (apply Z.div_pos; lia).
        rewrite <- (Nat2Z.id j). apply C2.
        * nia.
        * replace (Z.of_nat n - 1 - Z.of_nat k - Z.of_nat j)
            with ((Z.of_nat n - 1 - Z.of_nat j) / cores * cores) by nia.
          apply Z.mod_mul. lia. }
  destruct (G (Z.to_nat cores) (le_n _)) as (r' & E & I' & M & C).
  exists r'. split; [exact E|]. split; [exact I'|]. split; [exact M|].
  intros j Hj. apply C; [exact Hj|].
  pose proof (Z.mod_pos_bound (Z.of_nat n - 1 - Z.of_nat j) cores
                ltac:(lia)). lia.
Qed.

End Loops.

Lemma set_nth_id {A} (l : list A) i x :
  nth_error l i = Some x -> set_nth l i x = l.
Proof.
  revert i. induction l as [|h t IH]; intros [|i] H; cbn in *;
    try discriminate; [congruence|]. now rewrite IH.
Qed.

Lemma bucketOfItems_items bk : bucketOfItems (items bk) bk = bk.
Proof. now destruct bk. Qed.

Lemma store_eta s : mkStore (buckets s) (locks s) (used s) = s.
Proof. now destruct s. Qed.

Lemma moveItems_keep l :
  forall bk n l' bk' n',
    moveItems moves false l bk n = (l', bk', n') ->
    l' = l /\ usedSrc n' = usedSrc n /\ cleared n' = cleared n.
Proof.
  induction l as [|x l IH]; intros bk n l' bk' n' E; cbn [moveItems] in E.
  - injection E as <- <- <-. auto.
  - destruct (moving moves x).
    + destruct (findItem (keyA x) (keyB x) (items bk)) as [o|].
      * destruct (timestamp x >? timestamp o).
        -- destruct (moveItems moves false l _ _) as [[r b] m] eqn:Er.
           injection E as <- <- <-.
           destruct (IH _ _ _ _ _ Er) as (-> & U & C). cbn in *. auto.
        -- destruct (moveItems moves false l _ _) as [[r b] m] eqn:Er.
           injection E as <- <- <-.
           destruct (IH _ _ _ _ _ Er) as (-> & U & C). auto.
      * destruct (moveItems moves false l _ _) as [[r b] m] eqn:Er.
        injection E as <- <- <-.
        destruct (IH _ _ _ _ _ Er) as (-> & U & C). cbn in *. auto.
    + destruct (moveItems moves false l _ _) as [[r b] m] eqn:Er.
      injection E as <- <- <-.
      destruct (IH _ _ _ _ _ Er) as (-> & U & C). auto.
Qed.

Lemma findItem_In y l :
  In y l -> blockID y <> 0 -> findItem (keyA y) (keyB y) l <> None.
Proof.
  intros Hy By. induction l as [|z l IH]; [destruct Hy|].
  cbn [findItem]. destruct (isMatch (keyA y) (keyB y) z) eqn:Ez;
    [discriminate|].
  destruct Hy as [->|Hy]; [|auto]. now rewrite isMatch_own in Ez.
Qed.

Lemma uniqueKeys_head x l :
  uniqueKeys (x :: l) = true -> blockID x <> 0 ->
  findItem (keyA x) (keyB x) l = None.
Proof.
  cbn [uniqueKeys]. intros U B. apply andb_prop in U as [U _].
  destruct (Z.eqb_spec (blockID x) 0); [contradiction|]. cbn [orb] in U.
  now destruct (findItem (keyA x) (keyB x) l).
Qed.

Lemma uniqueKeys_tail x l : uniqueKeys (x :: l) = true -> uniqueKeys l = true.
Proof. cbn [uniqueKeys]. intros U. now apply andb_prop in U as [_ U]. Qed.

Lemma findItem_unique l x :
  uniqueKeys l = true -> In x l -> moving moves x = true ->
  findItem (keyA x) (keyB x) (List.filter moves l) = Some x.
Proof.
  intros U Hx Mx. pose proof (moving_inUse x Mx) as Bx.
  induction l as [|y l IH]; [destruct Hx|].
  cbn [List.filter]. destruct Hx as [->|Hx].
  - rewrite (moving_moves x Mx). cbn [findItem]. now rewrite isMatch_own.
  - specialize (IH (uniqueKeys_tail _ _ U) Hx).
    destruct (moves y) eqn:Vy; [|exact IH].
    cbn [findItem]. destruct (isMatch (keyA x) (keyB x) y) eqn:Em;
      [|exact IH].
    exfalso. apply isMatch_keys in Em as (By & EA & EB).
    pose proof (uniqueKeys_head _ _ U By) as N.
    rewrite EA, EB in N. now apply (findItem_In x l Hx Bx).
Qed.

Ltac same_bucket HD HS HD0 :=
  injection HD as <-;
  match type of HS with
  | nth_error ?l ?j = Some _ =>
      match goal with
      | N : nth_error l j = Some _ |- _ =>
          lazymatch N with
          | HS => fail
          | _ => rewrite N in HS; injection HS as <-
          end
      end
  end;
  match type of HD0 with
  | nth_error ?l ?j = Some _ =>
      match goal with
      | N : nth_error l j = Some _ |- _ =>
          lazymatch N with
          | HD0 => fail
          | _ => rewrite N in HD0; injection HD0 as <-
          end
      end
  end.

Section Phases.
Variable cores : Z.
Hypothesis Hcores : 1 <= cores.
Variables sa sd : valuesLocStore.
Hypothesis Hlen : List.length (buckets sd) = List.length (buckets sa).
Hypothesis Hlocks : 0 < locks sa <= locks sd.
Hypothesis Huniq : storeUnique sa = true.
Hypothesis Hdisj :
  forall j bkS bkD x,
    nth_error (buckets sa) j = Some bkS ->
    nth_error (buckets sd) j = Some bkD ->
    In x (items bkS) -> moving moves x = true ->
    findItem (keyA x) (keyB x) (items bkD) = None.

Lemma unique_at j bkS :
  nth_error (buckets sa) j = Some bkS -> uniqueKeys (items bkS) = true.
Proof.
  intros H. unfold storeUnique in Huniq.
  rewrite forallb_forall in Huniq. apply Huniq.
  eapply nth_error_In; eauto.
Qed.

Lemma Copied_settled j bkS bkD0 bkD :
  nth_error (buckets sa) j = Some bkS ->
  nth_error (buckets sd) j = Some bkD0 ->
  Copied bkS bkD0 bkD ->
  forall x, In x (items bkS) -> moving moves x = true ->
    exists o, findItem (keyA x) (keyB x) (items bkD) = Some o
              /\ timestamp x <= timestamp o.
Proof.
  intros NS ND C x Hx Mx. exists x. split; [|lia].
  rewrite C, (Hdisj j bkS bkD0 x NS ND Hx Mx).
  apply findItem_unique; [eapply unique_at; eauto|exact Hx|exact Mx].
Qed.

(** The first pass that copies. *)
Lemma copy_pass_first cl :
  exists r,
    onePass moves false cores (mkResize sa sd 0 cl) = Some r
    /\ src r = sa
    /\ locks (dst r) = locks sd
    /\ List.length (buckets (dst r)) = List.length (buckets sa)
    /\ clears r = cl
    /\ (storeUnique sd = true -> storeUnique (dst r) = true)
    /\ forall j bkS bkD0 bkD,
         nth_error (buckets sa) j = Some bkS ->
         nth_error (buckets sd) j = Some bkD0 ->
         nth_error (buckets (dst r)) j = Some bkD ->
         Copied bkS bkD0 bkD.
Proof.
  set (I := fun r : resize =>
              src r = sa /\ locks (dst r) = locks sd
              /\ List.length (buckets (dst r)) = List.length (buckets sa)
              /\ clears r = cl
              /\ (storeUnique sd = true -> storeUnique (dst r) = true)
              /\ forall j bkS bkD0 bkD,
                   nth_error (buckets sa) j = Some bkS ->
                   nth_error (buckets sd) j = Some bkD0 ->
                   nth_error (buckets (dst r)) j = Some bkD ->
                   bkD = bkD0 \/ Copied bkS bkD0 bkD).
  set (D := fun (j : nat) (r : resize) =>
              forall bkS bkD0 bkD,
                nth_error (buckets sa) j = Some bkS ->
                nth_error (buckets sd) j = Some bkD0 ->
                nth_error (buckets (dst r)) j = Some bkD ->
                Copied bkS bkD0 bkD).
  destruct (onePass_inv false cores Hcores (List.length (buckets sa)) I D)
    with (r := mkResize sa sd 0 cl) as (r & E & Ir & _ & Dr).
  - intros r (Es & _). now rewrite Es.
  - intros j r Hj (Es & El & En & Ec & Eq & Hb).
    destruct (nth_error (buckets sa) j) as [bkS|] eqn:NS;
      [|apply nth_error_None in NS; lia].
    destruct (nth_error (buckets sd) j) as [bkD0|] eqn:ND0;
      [|apply nth_error_None in ND0; lia].
    destruct (nth_error (buckets (dst r)) j) as [bkD|] eqn:ND;
      [|apply nth_error_None in ND; lia].
    rewrite (moveBucket_at false j r bkS bkD)
      by (rewrite ?Es, ?El; (lia || assumption)).
    destruct (moveItems moves false (items bkS) bkD _)
      as [[l bk'] n'] eqn:Em.
    destruct (moveItems_keep _ _ _ _ _ _ Em) as (-> & Eu & Ecl).
    cbn [usedSrc cleared] in Eu, Ecl.
    assert (C' : Copied bkS bkD0 bk'
                 /\ (uniqueKeys (items bkD) = true ->
                     uniqueKeys (items bk') = true)).
    { destruct (Hb j bkS bkD0 bkD NS ND0 ND) as [->|C].
      - destruct (moveItems_copy (items bkS) bkD0
                    (mkTally (used (src r)) (used (dst r)) (copies r)
                       (clears r)) (unique_at j bkS NS))
          as (bk2 & n2 & E2 & Q2 & F2).
        { intros x Hx Mx. eapply Hdisj; eauto. }
        rewrite E2 in Em. injection Em as <- <-. split; [exact F2|exact Q2].
      - destruct (moveItems_settled false (items bkS) bkD
                    (mkTally (used (src r)) (used (dst r)) (copies r)
                       (clears r))
                    (Copied_settled j bkS bkD0 bkD NS ND0 C))
          as (n2 & E2 & _).
        rewrite E2 in Em. injection Em as _ <- _. split; [exact C|auto]. }
    destruct C' as [C' Q'].
    eexists. split; [reflexivity|].
    assert (Esrc : mkStore (set_nth (buckets (src r)) j
                              (bucketOfItems (items bkS) bkS))
                     (locks (src r)) (usedSrc n') = sa).
    { rewrite bucketOfItems_items, Eu, Es.
      rewrite set_nth_id by exact NS. apply store_eta. }
    split; [|split].
    + unfold I. cbn [src dst clears locks buckets].
      split; [exact Esrc|]. split; [exact El|].
      split; [now rewrite set_nth_length|]. split; [congruence|].
      split.
      { intros Hq. specialize (Eq Hq). unfold storeUnique in *.
        cbn [buckets]. apply valuestore_facts.forallb_set_nth; [exact Eq|].
        apply Q'. rewrite forallb_forall in Eq. apply Eq.
        eapply nth_error_In; eauto. }
      intros i bS bD0 bD HS HD0 HD.
      destruct (Nat.eq_dec j i) as [<-|Hne].
      * rewrite (set_nth_same _ _ _ _ ND) in HD.
        right. same_bucket HD HS HD0. exact C'.
      * rewrite set_nth_other in HD by exact Hne. eauto.
    + unfold D. cbn [dst buckets]. intros bS bD0 bD HS HD0 HD.
      rewrite (set_nth_same _ _ _ _ ND) in HD.
      same_bucket HD HS HD0. exact C'.
    + unfold D. cbn [dst buckets]. intros i Di bS bD0 bD HS HD0 HD.
      destruct (Nat.eq_dec j i) as [<-|Hne].
      * rewrite (set_nth_same _ _ _ _ ND) in HD.
        same_bucket HD HS HD0. exact C'.
      * rewrite set_nth_other in HD by exact Hne. eauto.
  - unfold I. cbn [src dst clears]. repeat split; auto.
    intros j bkS bkD0 bkD _ H1 H2. left. congruence.
  - destruct Ir as (Es & El & En & Ec & Eq & Hb).
    exists r. repeat split; try assumption.
    intros j bkS bkD0 bkD NS ND0 ND.
    apply (Dr j); [|assumption..].
    apply nth_error_Some. congruence.
Qed.

End Phases.

Lemma resize_eta r : mkResize (src r) (dst r) (copies r) (clears r) = r.
Proof. now destruct r. Qed.

(** A pass that finds nothing to copy and nothing to clear. *)
Lemma idle_pass clear cores r :
  1 <= cores ->
  0 < locks (src r) <= locks (dst r) ->
  List.length (buckets (dst r)) = List.length (buckets (src r)) ->
  settledAt (src r) (dst r) ->
  (clear = true ->
   forall j bkS, nth_error (buckets (src r)) j = Some bkS ->
                 existsb (moving moves) (items bkS) = false) ->
  onePass moves clear cores r = Some r.
Proof.
  intros Hcores Hlocks Hlen Hset Hclr.
  destruct (onePass_inv clear cores Hcores (List.length (buckets (src r)))
              (fun r' => r' = r) (fun _ _ => True))
    with (r := r) as (r' & E & -> & _).
  - now intros r' ->.
  - intros j r' Hj ->.
    destruct (nth_error (buckets (src r)) j) as [bkS|] eqn:NS;
      [|apply nth_error_None in NS; lia].
    destruct (nth_error (buckets (dst r)) j) as [bkD|] eqn:ND;
      [|apply nth_error_None in ND; lia].
    rewrite (moveBucket_at clear j r bkS bkD) by (lia || assumption).
    destruct (moveItems_settled clear (items bkS) bkD
                (mkTally (used (src r)) (used (dst r)) (copies r)
                   (clears r)))
      as (n' & Em & _ & _ & N1 & N2).
    { intros x Hx Mx. eapply Hset; eauto. }
    rewrite Em.
    assert (En : n' = mkTally (used (src r)) (used (dst r)) (copies r)
                        (clears r)).
    { destruct clear; [apply N2; eapply Hclr; eauto|now apply N1]. }
    assert (El : map (clearMoving clear) (items bkS) = items bkS).
    { destruct clear; [|apply clearMoving_false].
      apply clearMoving_idle. eapply Hclr; eauto. }
    rewrite El, En. cbn [usedSrc usedDst copied cleared].
    rewrite bucketOfItems_items, !set_nth_id by assumption.
    rewrite !store_eta, resize_eta. eauto.
  - reflexivity.
  - exact E.
Qed.

Section Clearing.
Variable cores : Z.
Hypothesis Hcores : 1 <= cores.
Variables sa d1 : valuesLocStore.
Hypothesis Hlen : List.length (buckets d1) = List.length (buckets sa).
Hypothesis Hlocks : 0 < locks sa <= locks d1.
Hypothesis Hset : settledAt sa d1.

(** The first pass that clears. *)
Lemma clear_pass_first :
  exists r,
    onePass moves true cores (mkResize sa d1 0 0) = Some r
    /\ dst r = d1
    /\ copies r = 0
    /\ locks (src r) = locks sa
    /\ List.length (buckets (src r)) = List.length (buckets sa)
    /\ forall j bkS0 bkS,
         nth_error (buckets sa) j = Some bkS0 ->
         nth_error (buckets (src r)) j = Some bkS ->
         items bkS = map (clearMoving true) (items bkS0).
Proof.
  set (I := fun r : resize =>
              dst r = d1 /\ copies r = 0 /\ locks (src r) = locks sa
              /\ List.length (buckets (src r)) = List.length (buckets sa)
              /\ forall j bkS0 bkS,
                   nth_error (buckets sa) j = Some bkS0 ->
                   nth_error (buckets (src r)) j = Some bkS ->
                   bkS = bkS0
                   \/ items bkS = map (clearMoving true) (items bkS0)).
  set (D := fun (j : nat) (r : resize) =>
              forall bkS0 bkS,
                nth_error (buckets sa) j = Some bkS0 ->
                nth_error (buckets (src r)) j = Some bkS ->
                items bkS = map (clearMoving true) (items bkS0)).
  destruct (onePass_inv true cores Hcores (List.length (buckets sa)) I D)
    with (r := mkResize sa d1 0 0) as (r & E & Ir & _ & Dr).
  - now intros r (_ & _ & _ & En & _).
  - intros j r Hj (Ed & Ec & El & En & Hb).
    destruct (nth_error (buckets sa) j) as [bkS0|] eqn:NS0;
      [|apply nth_error_None in NS0; lia].
    destruct (nth_error (buckets (src r)) j) as [bkS|] eqn:NS;
      [|apply nth_error_None in NS; lia].
    destruct (nth_error (buckets d1) j) as [bkD|] eqn:ND;
      [|apply nth_error_None in ND; lia].
    rewrite (moveBucket_at true j r bkS bkD)
      by (rewrite ?Ed, ?El; (lia || assumption)).
    assert (Hs : forall x, In x (items bkS) -> moving moves x = true ->
                 exists o, findItem (keyA x) (keyB x) (items bkD) = Some o
                           /\ timestamp x <= timestamp o).
    { destruct (Hb j bkS0 bkS NS0 NS) as [->|Ei].
      - intros x Hx Mx. eapply Hset; eauto.
      - intros x Hx Mx. exfalso. rewrite Ei in Hx.
        pose proof (existsb_moving_cleared (items bkS0)) as X.
        assert (existsb (moving moves)
                  (map (clearMoving true) (items bkS0)) = true)
          by (apply existsb_exists; eauto).
        congruence. }
    destruct (moveItems_settled true (items bkS) bkD
                (mkTally (used (src r)) (used (dst r)) (copies r)
                   (clears r)) Hs)
      as (n' & Em & Cn & Un & _ & _).
    rewrite Em. cbn [copied usedDst] in Cn, Un.
    assert (Ei' : map (clearMoving true) (items bkS)
                  = map (clearMoving true) (items bkS0)).
    { destruct (Hb j bkS0 bkS NS0 NS) as [->|Ei]; [reflexivity|].
      rewrite Ei. apply clearMoving_idle, existsb_moving_cleared. }
    assert (Hne : map (clearMoving true) (items bkS) <> [])
      by (unfold items; discriminate).
    eexists. split; [reflexivity|].
    split; [|split].
    + unfold I. cbn [src dst copies locks buckets].
      split.
      { rewrite Un, Ed. rewrite set_nth_id by exact ND. apply store_eta. }
      split; [congruence|]. split; [exact El|].
      split; [now rewrite set_nth_length|].
      intros i b0 b H0 H1.
      destruct (Nat.eq_dec j i) as [<-|Hne'].
      * rewrite (set_nth_same _ _ _ _ NS) in H1. injection H1 as <-.
        rewrite NS0 in H0. injection H0 as <-.
        right. rewrite <- Ei'. reflexivity.
      * rewrite set_nth_other in H1 by exact Hne'. eauto.
    + unfold D. cbn [src buckets]. intros b0 b H0 H1.
      rewrite (set_nth_same _ _ _ _ NS) in H1. injection H1 as <-.
      rewrite NS0 in H0. injection H0 as <-.
      rewrite <- Ei'. reflexivity.
    + unfold D. cbn [src buckets]. intros i Di b0 b H0 H1.
      destruct (Nat.eq_dec j i) as [<-|Hne'].
      * rewrite (set_nth_same _ _ _ _ NS) in H1. injection H1 as <-.
        rewrite NS0 in H0. injection H0 as <-.
        rewrite <- Ei'. reflexivity.
      * rewrite set_nth_other in H1 by exact Hne'. eauto.
  - unfold I. cbn [src dst copies]. repeat split; auto.
    intros j b0 b H0 H1. left. congruence.
  - destruct Ir as (Ed & Ec & El & En & Hb).
    exists r. repeat split; try assumption.
    intros j b0 b H0 H1. apply (Dr j); [|assumption..].
    apply nth_error_Some. congruence.
Qed.

End Clearing.

Section Run.
Variable cores : Z.
Hypothesis Hcores : 1 <= cores.
Variables sa sd : valuesLocStore.
Hypothesis Hlen : List.length (buckets sd) = List.length (buckets sa).
Hypothesis Hlocks : 0 < locks sa <= locks sd.
Hypothesis Huniq : storeUnique sa = true.
Hypothesis Hdisj :
  forall j bkS bkD x,
    nth_error (buckets sa) j = Some bkS ->
    nth_error (buckets sd) j = Some bkD ->
    In x (items bkS) -> moving moves x = true ->
    findItem (keyA x) (keyB x) (items bkD) = None.

Lemma copyPasses_done fuel r :
  copies r = 0 -> copyPasses fuel moves cores 2 r = Some r.
Proof. intros E. destruct fuel; cbn; now rewrite E. Qed.

Lemma clearPasses_done fuel r :
  copies r = 0 -> clears r = 0 -> clearPasses fuel moves cores 2 r = Some r.
Proof. intros E1 E2. destruct fuel; cbn; now rewrite E1, E2. Qed.

(** The two loops of passes, run one after the other: two passes each. *)
Lemma resize_run fuel :
  (2 <= fuel)%nat ->
  exists r1 r2,
    copyPasses fuel moves cores 0 (mkResize sa sd 0 0) = Some r1
    /\ clearPasses fuel moves cores 0 r1 = Some r2
    /\ locks (src r2) = locks sa
    /\ List.length (buckets (src r2)) = List.length (buckets sa)
    /\ locks (dst r2) = locks sd
    /\ List.length (buckets (dst r2)) = List.length (buckets sa)
    /\ (forall j bkS0 bkS,
          nth_error (buckets sa) j = Some bkS0 ->
          nth_error (buckets (src r2)) j = Some bkS ->
          items bkS = map (clearMoving true) (items bkS0))
    /\ (forall j bkS0 bkD0 bkD,
          nth_error (buckets sa) j = Some bkS0 ->
          nth_error (buckets sd) j = Some bkD0 ->
          nth_error (buckets (dst r2)) j = Some bkD ->
          Copied bkS0 bkD0 bkD)
    /\ (storeUnique sd = true -> storeUnique (dst r2) = true).
Proof.
  intros Hf. destruct fuel as [|[|fuel]]; try lia.
  destruct (copy_pass_first cores Hcores sa sd Hlen Hlocks Huniq Hdisj 0)
    as (ra & Ea & Sa & La & Na & Ca & Qa & Pa).
  assert (Hset : settledAt sa (dst ra)).
  { intros j bkS bkD x NS ND Hx Mx.
    destruct (nth_error (buckets sd) j) as [bkD0|] eqn:ND0.
    - eapply (Copied_settled sa sd); eauto.
    - apply nth_error_None in ND0.
      assert (j < List.length (buckets sa))%nat
        by (apply nth_error_Some; congruence). lia. }
  assert (Era : mkResize (src ra) (dst ra) 0 (clears ra)
                = mkResize sa (dst ra) 0 0) by (now rewrite Sa, Ca).
  assert (Eidle : onePass moves false cores (mkResize sa (dst ra) 0 0)
                  = Some (mkResize sa (dst ra) 0 0)).
  { apply idle_pass; cbn [src dst]; try assumption; try lia;
      try discriminate. }
  destruct (clear_pass_first cores Hcores sa (dst ra) Na
              ltac:(rewrite La; exact Hlocks) Hset)
    as (rb & Eb & Db & Cb & Lb & Nb & Pb).
  assert (Hnone : forall j bkS,
             nth_error (buckets (src rb)) j = Some bkS ->
             existsb (moving moves) (items bkS) = false).
  { intros j bkS NS.
    destruct (nth_error (buckets sa) j) as [bkS0|] eqn:NS0.
    - rewrite (Pb j bkS0 bkS NS0 NS). apply existsb_moving_cleared.
    - apply nth_error_None in NS0.
      assert (j < List.length (buckets (src rb)))%nat
        by (apply nth_error_Some; congruence). lia. }
  assert (Eidle2 : onePass moves true cores (mkResize (src rb) (dst rb) 0 0)
                   = Some (mkResize (src rb) (dst rb) 0 0)).
  { apply idle_pass; cbn [src dst]; try assumption.
    - rewrite Lb, Db, La. exact Hlocks.
    - rewrite Db, Nb. exact Na.
    - intros j bkS bkD x NS ND Hx Mx. exfalso.
      pose proof (Hnone j bkS NS) as X.
      assert (existsb (moving moves) (items bkS) = true)
        by (apply existsb_exists; eauto).
      congruence.
    - intros _. exact Hnone. }
  exists (mkResize sa (dst ra) 0 0), (mkResize (src rb) (dst rb) 0 0).
  split.
  { cbn [copyPasses]. cbn [Z.ltb Z.compare orb src dst clears bind].
    rewrite Ea. cbn [bind]. cbn [Z.add Z.ltb Z.compare Pos.compare orb].
    change (1 <? 2) with true. cbn [orb]. rewrite Era, Eidle. cbn [bind].
    apply copyPasses_done. reflexivity. }
  split.
  { cbn [clearPasses]. cbn [Z.ltb Z.compare orb src dst bind].
    rewrite Eb. cbn [bind]. change (0 + 1 <? 2) with true. cbn [orb].
    rewrite Eidle2. cbn [bind].
    apply clearPasses_done; reflexivity. }
  cbn [src dst]. rewrite Db.
  repeat split; assumption.
Qed.

End Run.

Lemma findItem_cleared_kept kA kB l :
  (forall x, isMatch kA kB x = true -> moves x = false) ->
  findItem kA kB (map (clearMoving true) l) = findItem kA kB l.
Proof.
  intros H. induction l as [|x l IH]; [reflexivity|].
  cbn [map findItem].
  assert (Ex : clearMoving true x
               = if moving moves x then clearBlockID x else x)
    by reflexivity.
  rewrite Ex, IH.
  destruct (moving moves x) eqn:Mx; [|reflexivity].
  assert (C : isMatch kA kB (clearBlockID x) = false) by reflexivity.
  rewrite C.
  destruct (isMatch kA kB x) eqn:Em; [|reflexivity].
  pose proof (H x Em). pose proof (moving_moves x Mx). congruence.
Qed.

Lemma findItem_cleared_None kA kB l :
  findItem kA kB l = None ->
  findItem kA kB (map (clearMoving true) l) = None.
Proof.
  induction l as [|x l IH]; [reflexivity|]. cbn [map findItem].
  destruct (isMatch kA kB x) eqn:Em; [discriminate|]. intros H.
  assert (Ex : clearMoving true x
               = if moving moves x then clearBlockID x else x)
    by reflexivity.
  rewrite Ex. destruct (moving moves x).
  - assert (C : isMatch kA kB (clearBlockID x) = false) by reflexivity.
    rewrite C. auto.
  - rewrite Em. auto.
Qed.

Lemma uniqueKeys_cleared l :
  uniqueKeys l = true -> uniqueKeys (map (clearMoving true) l) = true.
Proof.
  induction l as [|x l IH]; [reflexivity|]. intros U.
  apply uniqueKeys_cons in U as [Ux U]. cbn [map].
  apply uniqueKeys_cons. split; [|auto].
  assert (Ex : clearMoving true x
               = if moving moves x then clearBlockID x else x)
    by reflexivity.
  rewrite Ex. destruct (moving moves x).
  - intros B. now cbn in B.
  - intros B. apply findItem_cleared_None. auto.
Qed.

Lemma findItem_filter_moves kA kB l :
  (forall x, isMatch kA kB x = true -> moves x = true) ->
  findItem kA kB (List.filter moves l) = findItem kA kB l.
Proof.
  intros H. induction l as [|x l IH]; [reflexivity|].
  cbn [List.filter findItem].
  destruct (isMatch kA kB x) eqn:Em.
  - rewrite (H x Em). cbn [findItem]. now rewrite Em.
  - destruct (moves x); [|exact IH]. cbn [findItem]. now rewrite Em.
Qed.

End Move.

Lemma GetNode_leafOf lm s kA kB v :
  GetNode (leafOf lm s) kA kB v = lookupIn s kA kB v.
Proof.
  unfold leafOf, lookupIn. cbn [GetNode bind].
  destruct (indexes s kB) as [[bix lix]|]; [|reflexivity]. cbn [bind].
  destruct (Z.land kA lm =? 0); [reflexivity|].
  now destruct (getF kA kB bix lix s None v).
Qed.

Lemma lookupIn_eq s s' kA kB v :
  List.length (buckets s') = List.length (buckets s) ->
  0 < locks s -> 0 < locks s' ->
  (forall j bk bk',
      nth_error (buckets s) j = Some bk ->
      nth_error (buckets s') j = Some bk' ->
      findItem kA kB (items bk') = findItem kA kB (items bk)) ->
  lookupIn s' kA kB v = lookupIn s kA kB v.
Proof.
  intros Hl L L' H. unfold lookupIn, indexes. rewrite Hl.
  destruct (Z.eqb_spec (Z.of_nat (List.length (buckets s))) 0) as [E|E];
    [reflexivity|]. cbn [negb guard bind].
  destruct (Z.eqb_spec (locks s) 0); [lia|].
  destruct (Z.eqb_spec (locks s') 0); [lia|]. cbn [negb guard bind].
  set (bix := kB mod Z.of_nat (List.length (buckets s))).
  unfold getF. destruct v as [[[ts0 bid0] off0] len0]. unfold lockOK.
  pose proof (Z.mod_pos_bound bix (locks s) L).
  pose proof (Z.mod_pos_bound bix (locks s') L').
  destruct (Z.ltb_spec (bix mod locks s) (locks s)); [|lia].
  destruct (Z.ltb_spec (bix mod locks s') (locks s')); [|lia].
  cbn [guard bind].
  destruct (nth_error (buckets s) (Z.to_nat bix)) as [bk|] eqn:N;
    destruct (nth_error (buckets s') (Z.to_nat bix)) as [bk'|] eqn:N';
    cbn [bind]; try reflexivity.
  - now rewrite (H _ _ _ N N').
  - apply nth_error_None in N'.
    assert (Z.to_nat bix < List.length (buckets s))%nat
      by (apply nth_error_Some; congruence). lia.
  - apply nth_error_None in N.
    assert (Z.to_nat bix < List.length (buckets s'))%nat
      by (apply nth_error_Some; congruence). lia.
Qed.

Lemma rightOf_match lm kA kB x :
  isMatch kA kB x = true -> rightOf lm x = negb (Z.land kA lm =? 0).
Proof.
  intros M. apply isMatch_keys in M as (_ & <- & _). reflexivity.
Qed.

Lemma fresh_bucket n j bk :
  nth_error (repeat (mkBucket zeroLoc []) n) j = Some bk ->
  bk = mkBucket zeroLoc [].
Proof. intros H. apply nth_error_In in H. now apply repeat_spec in H. Qed.

Lemma onSide_spec lm right s :
  onSide lm right s = true <->
  forall j bk x, nth_error (buckets s) j = Some bk -> In x (items bk) ->
                 blockID x <> 0 -> rightOf lm x = right.
Proof.
  unfold onSide. rewrite forallb_forall. split.
  - intros H j bk x N Hx B.
    specialize (H bk (nth_error_In _ _ N)).
    rewrite forallb_forall in H. specialize (H x Hx).
    destruct (Z.eqb_spec (blockID x) 0); [contradiction|].
    cbn [orb] in H. now apply Bool.eqb_prop in H.
  - intros H bk Hb. apply In_nth_error in Hb as [j N].
    apply forallb_forall. intros x Hx.
    destruct (Z.eqb_spec (blockID x) 0); [reflexivity|]. cbn [orb].
    rewrite (H j bk x N Hx) by assumption. apply Bool.eqb_reflx.
Qed.

Lemma In_findItem kA kB l z :
  findItem kA kB l = Some z -> In z l.
Proof.
  induction l as [|x l IH]; cbn [findItem]; [discriminate|].
  destruct (isMatch kA kB x); [intros [= <-]; now left|].
  intros H. right. auto.
Qed.

(** [split], run to its end on a leaf that is not resizing, keeps what
    [Get] returns for every key; the left child then holds keys of the left
    half only and the right child keys of the right half only. *)
Lemma split_keeps fuel nsc cores lm sa :
  (2 <= fuel)%nat ->
  1 <= cores ->
  0 < locks sa ->
  nsc <= used sa ->
  storeUnique sa = true ->
  exists sl sr,
    split fuel false nsc cores (leafOf lm sa)
    = Some (mkNode lm (Some sl) (Some sr)
              (Some (leafOf (Z.shiftr lm 1) sl))
              (Some (leafOf (Z.shiftr lm 1) sr)) None)
    /\ onSide lm false sl = true
    /\ onSide lm true sr = true
    /\ storeUnique sl = true
    /\ storeUnique sr = true
    /\ List.length (buckets sl) = List.length (buckets sa)
    /\ List.length (buckets sr) = List.length (buckets sa)
    /\ locks sl = locks sa /\ locks sr = locks sa
    /\ forall kA kB v,
         GetNode (mkNode lm (Some sl) (Some sr)
                    (Some (leafOf (Z.shiftr lm 1) sl))
                    (Some (leafOf (Z.shiftr lm 1) sr)) None) kA kB v
         = GetNode (leafOf lm sa) kA kB v.
Proof.
  intros Hf Hc Hl Hu Hq.
  set (sb := mkStore (repeat (mkBucket zeroLoc [])
                        (List.length (buckets sa))) (locks sa) 0).
  destruct (resize_run (rightOf lm) cores Hc sa sb) with (fuel := fuel)
    as (r1 & r2 & E1 & E2 & Ls & Ns & Ld & Nd & Ps & Pd & Qd).
  - cbn. apply repeat_length.
  - cbn. lia.
  - exact Hq.
  - intros j bkS bkD x _ ND _ _. cbn in ND.
    apply fresh_bucket in ND. now subst bkD.
  - exact Hf.
  - assert (Fresh : forall j bkD0 kA kB,
               nth_error (buckets sb) j = Some bkD0 ->
               findItem kA kB (items bkD0) = None).
    { intros j bkD0 kA kB N. cbn in N. apply fresh_bucket in N.
      now subst bkD0. }
    assert (Pd' : forall j bkS0 bkD kA kB,
               nth_error (buckets sa) j = Some bkS0 ->
               nth_error (buckets (dst r2)) j = Some bkD ->
               findItem kA kB (items bkD)
               = findItem kA kB (List.filter (rightOf lm) (items bkS0))).
    { intros j bkS0 bkD kA kB NS ND.
      destruct (nth_error (buckets sb) j) as [bkD0|] eqn:N0.
      - rewrite (Pd j bkS0 bkD0 bkD NS N0 ND).
        now rewrite (Fresh j bkD0 kA kB N0).
      - apply nth_error_None in N0. cbn in N0. rewrite repeat_length in N0.
        assert (j < List.length (buckets sa))%nat
          by (apply nth_error_Some; congruence). lia. }
    exists (src r2), (dst r2).
    split.
    { unfold split, leafOf. cbn [bind].
      destruct (Z.ltb_spec (used sa) nsc); [lia|].
      fold sb. rewrite E1. cbn [bind]. rewrite E2. reflexivity. }
    split.
    { apply onSide_spec. intros j bk x N Hx B.
      destruct (nth_error (buckets sa) j) as [bkS0|] eqn:N0.
      - rewrite (Ps j bkS0 bk N0 N) in Hx.
        apply in_map_iff in Hx as (y & <- & Hy).
        unfold valuelocmap.clearMoving in *. cbn [andb] in *.
        destruct (moving (rightOf lm) y) eqn:My; [now cbn in B|].
        unfold moving in My.
        destruct (Z.eqb_spec (blockID y) 0); [contradiction|exact My].
      - apply nth_error_None in N0.
        assert (j < List.length (buckets (src r2)))%nat
          by (apply nth_error_Some; congruence). lia. }
    split.
    { apply onSide_spec. intros j bk x N Hx B.
      destruct (nth_error (buckets sa) j) as [bkS0|] eqn:N0.
      - pose proof (Pd' j bkS0 bk (keyA x) (keyB x) N0 N) as F.
        destruct (findItem (keyA x) (keyB x) (items bk)) as [z|] eqn:Fz;
          [|now apply (findItem_In x _ Hx B) in Fz].
        symmetry in F. pose proof (In_findItem _ _ _ _ F) as Hz.
        apply filter_In in Hz as [_ Rz].
        apply findItem_Some in F.
        rewrite (rightOf_match lm _ _ _ F) in Rz.
        unfold rightOf. exact Rz.
      - apply nth_error_None in N0.
        assert (j < List.length (buckets (dst r2)))%nat
          by (apply nth_error_Some; congruence). lia. }
    split.
    { unfold storeUnique. apply forallb_forall. intros bk Hb.
      apply In_nth_error in Hb as [j N].
      destruct (nth_error (buckets sa) j) as [bkS0|] eqn:N0.
      - rewrite (Ps j bkS0 bk N0 N). apply uniqueKeys_cleared.
        unfold storeUnique in Hq. rewrite forallb_forall in Hq.
        apply Hq. eapply nth_error_In; eauto.
      - apply nth_error_None in N0.
        assert (j < List.length (buckets (src r2)))%nat
          by (apply nth_error_Some; congruence). lia. }
    split.
    { apply Qd. unfold storeUnique, sb. cbn [buckets].
      apply forallb_forall. intros bk Hb. apply repeat_spec in Hb.
      now subst bk. }
    split; [exact Ns|]. split; [exact Nd|].
    split; [exact Ls|]. split; [exact Ld|].
    intros kA kB v. rewrite GetNode_leafOf.
    cbn [GetNode]. fold (leafOf (Z.shiftr lm 1) (src r2)).
    fold (leafOf (Z.shiftr lm 1) (dst r2)).
    destruct (Z.eqb_spec (Z.land kA lm) 0) as [El|Er].
    + rewrite GetNode_leafOf. apply lookupIn_eq; try lia.
      intros j bk bk' N N'. rewrite (Ps j bk bk' N N').
      apply findItem_cleared_kept. intros x M.
      rewrite (rightOf_match lm _ _ _ M).
      destruct (Z.eqb_spec (Z.land kA lm) 0); [reflexivity|contradiction].
    + rewrite GetNode_leafOf. apply lookupIn_eq; try lia.
      * cbn in Ld. lia.
      * intros j bk bk' N N'. rewrite (Pd' j bk bk' kA kB N N').
        apply findItem_filter_moves. intros x M.
        rewrite (rightOf_match lm _ _ _ M).
        destruct (Z.eqb_spec (Z.land kA lm) 0); [contradiction|reflexivity].
Qed.

Lemma filter_all {A} (l : list A) : List.filter (fun _ => true) l = l.
Proof. induction l as [|x l IH]; cbn; [reflexivity|now rewrite IH]. Qed.

Lemma findItem_other_side lm right s j bk kA kB :
  onSide lm right s = true ->
  nth_error (buckets s) j = Some bk ->
  negb (Z.land kA lm =? 0) = negb right ->
  findItem kA kB (items bk) = None.
Proof.
  intros Hs N Hk.
  destruct (findItem kA kB (items bk)) as [z|] eqn:F; [|reflexivity].
  exfalso. pose proof (In_findItem _ _ _ _ F) as Hz.
  apply findItem_Some in F.
  pose proof (rightOf_match lm _ _ _ F) as R.
  apply isMatch_keys in F as (B & _ & _).
  rewrite onSide_spec in Hs. rewrite (Hs j bk z N Hz B) in R.
  rewrite <- R in Hk. now destruct right.
Qed.

(** [unsplit], run to its end on a node whose two children are leaves that
    hold keys of their own half only, keeps what [Get] returns for every
    key. *)
Lemma unsplit_keeps fuel cores lm lmc lmd na nb ne sl sr :
  (2 <= fuel)%nat ->
  1 <= cores ->
  0 < locks sr <= locks sl ->
  List.length (buckets sl) = List.length (buckets sr) ->
  storeUnique sr = true ->
  onSide lm false sl = true ->
  onSide lm true sr = true ->
  exists s,
    unsplit fuel false false false cores
      (mkNode lm na nb (Some (leafOf lmc sl)) (Some (leafOf lmd sr)) ne)
    = Some (leafOf lm s)
    /\ List.length (buckets s) = List.length (buckets sl)
    /\ locks s = locks sl
    /\ (storeUnique sl = true -> storeUnique s = true)
    /\ forall kA kB v,
         GetNode (leafOf lm s) kA kB v
         = GetNode (mkNode lm na nb (Some (leafOf lmc sl))
                      (Some (leafOf lmd sr)) ne) kA kB v.
Proof.
  intros Hf Hc Hl Hn Hq HL HR.
  destruct (resize_run (fun _ => true) cores Hc sr sl) with (fuel := fuel)
    as (r1 & r2 & E1 & E2 & Ls & Ns & Ld & Nd & Ps & Pd & Qd);
    try assumption.
  - intros j bkS bkD x NS ND Hx Mx.
    apply (findItem_other_side lm false sl j); [assumption..|].
    rewrite onSide_spec in HR.
    pose proof (HR j bkS x NS Hx (moving_inUse _ x Mx)) as R.
    unfold rightOf in R. now rewrite R.
  - exists (dst r2).
    split.
    { unfold unsplit, leafOf. cbn [c a isSome orb bind].
      rewrite E1. cbn [bind]. rewrite E2. reflexivity. }
    split; [congruence|]. split; [exact Ld|]. split; [exact Qd|].
    intros kA kB v. rewrite GetNode_leafOf. cbn [GetNode].
    destruct (Z.eqb_spec (Z.land kA lm) 0) as [El|Er].
    + fold (leafOf lmc sl). rewrite GetNode_leafOf.
      apply lookupIn_eq; try lia.
      intros j bk bk' N N'.
      destruct (nth_error (buckets sr) j) as [bkS0|] eqn:N0.
      * rewrite (Pd j bkS0 bk bk' N0 N N').
        destruct (findItem kA kB (items bk)); [reflexivity|].
        rewrite filter_all.
        apply (findItem_other_side lm true sr j); [assumption..|].
        rewrite El. reflexivity.
      * apply nth_error_None in N0.
        assert (j < List.length (buckets sl))%nat
          by (apply nth_error_Some; congruence). lia.
    + fold (leafOf lmd sr). rewrite GetNode_leafOf.
      apply lookupIn_eq; try lia.
      intros j bk bk' N N'.
      destruct (nth_error (buckets sl) j) as [bkD0|] eqn:N0.
      * rewrite (Pd j bk bkD0 bk' N N0 N').
        rewrite (findItem_other_side lm false sl j bkD0 kA kB HL N0).
        -- now rewrite filter_all.
        -- destruct (Z.eqb_spec (Z.land kA lm) 0);
             [contradiction|reflexivity].
      * apply nth_error_None in N0.
        assert (j < List.length (buckets sr))%nat
          by (apply nth_error_Some; congruence). lia.
Qed.

(** X21.  [split], run to its end on a leaf that is not resizing and holds
    no key twice, with at least one core and one lock, finishes within two
    passes of each kind and changes nothing for [Get]: for every key, [Get]
    on the node with its two new children returns what it returned before.
    The left child then holds keys of the left half only and the right
    child keys of the right half only, each key at most once, and both
    have as many buckets and locks as the store that was split. *)
Theorem split_keeps_Get fuel nodeSplitCount cores lm sa :
  (2 <= fuel)%nat ->
  1 <= cores ->
  0 < locks sa ->
  nodeSplitCount <= used sa ->
  storeUnique sa = true ->
  exists sl sr,
    split fuel false nodeSplitCount cores (leafOf lm sa)
    = Some (mkNode lm (Some sl) (Some sr)
              (Some (leafOf (Z.shiftr lm 1) sl))
              (Some (leafOf (Z.shiftr lm 1) sr)) None)
    /\ onSide lm false sl = true
    /\ onSide lm true sr = true
    /\ storeUnique sl = true
    /\ storeUnique sr = true
    /\ List.length (buckets sl) = List.length (buckets sa)
    /\ List.length (buckets sr) = List.length (buckets sa)
    /\ locks sl = locks sa /\ locks sr = locks sa
    /\ forall kA kB v,
         GetNode (mkNode lm (Some sl) (Some sr)
                    (Some (leafOf (Z.shiftr lm 1) sl))
                    (Some (leafOf (Z.shiftr lm 1) sr)) None) kA kB v
         = GetNode (leafOf lm sa) kA kB v.
Proof.
  intros Hf Hc Hl Hu Hq.
  destruct (split_keeps fuel nodeSplitCount cores lm sa Hf Hc Hl Hu Hq)
    as (sl & sr & H).
  exists sl, sr. exact H.
Qed.

Lemma split_keeps_Get_witness :
  exists sl sr,
    split 2 false 0 2 (leafOf (2 ^ 63) bothHalves)
    = Some (mkNode (2 ^ 63) (Some sl) (Some sr)
              (Some (leafOf (Z.shiftr (2 ^ 63) 1) sl))
              (Some (leafOf (Z.shiftr (2 ^ 63) 1) sr)) None)
    /\ onSide (2 ^ 63) false sl = true
    /\ onSide (2 ^ 63) true sr = true
    /\ storeUnique sl = true
    /\ storeUnique sr = true
    /\ List.length (buckets sl) = List.length (buckets bothHalves)
    /\ List.length (buckets sr) = List.length (buckets bothHalves)
    /\ locks sl = locks bothHalves /\ locks sr = locks bothHalves
    /\ forall kA kB v,
         GetNode (mkNode (2 ^ 63) (Some sl) (Some sr)
                    (Some (leafOf (Z.shiftr (2 ^ 63) 1) sl))
                    (Some (leafOf (Z.shiftr (2 ^ 63) 1) sr)) None) kA kB v
         = GetNode (leafOf (2 ^ 63) bothHalves) kA kB v.
Proof.
  apply (split_keeps_Get 2 0 2 (2 ^ 63) bothHalves).
  - lia.
  - lia.
  - reflexivity.
  - vm_compute. discriminate.
  - reflexivity.
Defined.

(** X22.  [unsplit], run to its end on a node that is not resizing and
    whose two children are leaves that hold keys of their own half only,
    with as many buckets each and the right one holding no key twice,
    finishes within two passes of each kind and changes nothing for [Get]:
    for every key, [Get] on the resulting leaf returns what it returned on
    the node with its two children. *)
Theorem unsplit_keeps_Get fuel cores lm lmc lmd na nb ne sl sr :
  (2 <= fuel)%nat ->
  1 <= cores ->
  0 < locks sr <= locks sl ->
  List.length (buckets sl) = List.length (buckets sr) ->
  storeUnique sr = true ->
  onSide lm false sl = true ->
  onSide lm true sr = true ->
  exists s,
    unsplit fuel false false false cores
      (mkNode lm na nb (Some (leafOf lmc sl)) (Some (leafOf lmd sr)) ne)
    = Some (leafOf lm s)
    /\ List.length (buckets s) = List.length (buckets sl)
    /\ locks s = locks sl
    /\ (storeUnique sl = true -> storeUnique s = true)
    /\ forall kA kB v,
         GetNode (leafOf lm s) kA kB v
         = GetNode (mkNode lm na nb (Some (leafOf lmc sl))
                      (Some (leafOf lmd sr)) ne) kA kB v.
Proof.
  intros Hf Hc Hl Hn Hq HL HR.
  destruct (unsplit_keeps fuel cores lm lmc lmd na nb ne sl sr
              Hf Hc Hl Hn Hq HL HR) as (s & H).
  exists s. exact H.
Qed.

Lemma unsplit_keeps_Get_witness :
  exists s,
    unsplit 2 false false false 2
      (mkNode (2 ^ 63) None None (Some (leafOf (2 ^ 62) leftHalf))
         (Some (leafOf (2 ^ 62) rightHalf)) None)
    = Some (leafOf (2 ^ 63) s)
    /\ List.length (buckets s) = List.length (buckets leftHalf)
    /\ locks s = locks leftHalf
    /\ (storeUnique leftHalf = true -> storeUnique s = true)
    /\ forall kA kB v,
         GetNode (leafOf (2 ^ 63) s) kA kB v
         = GetNode (mkNode (2 ^ 63) None None
                      (Some (leafOf (2 ^ 62) leftHalf))
                      (Some (leafOf (2 ^ 62) rightHalf)) None) kA kB v.
Proof.
  apply (unsplit_keeps_Get 2 2 (2 ^ 63) (2 ^ 62) (2 ^ 62) None None None
           leftHalf rightHalf).
  - lia.
  - lia.
  - vm_compute. split; [reflexivity|discriminate].
  - reflexivity.
  - reflexivity.
  - reflexivity.
  - reflexivity.
Defined.

(** X23.  [split] followed by [unsplit] of the same node, each run to its
    end, gives back a leaf on which [Get] returns for every key what it
    returned before the split: what [split] leaves in the two children is
    what [unsplit] needs to merge them. *)
Theorem split_then_unsplit fuel nodeSplitCount cores lm sa :
  (2 <= fuel)%nat ->
  1 <= cores ->
  0 < locks sa ->
  nodeSplitCount <= used sa ->
  storeUnique sa = true ->
  exists vln s,
    split fuel false nodeSplitCount cores (leafOf lm sa) = Some vln
    /\ unsplit fuel false false false cores vln = Some (leafOf lm s)
    /\ storeUnique s = true
    /\ forall kA kB v,
         GetNode (leafOf lm s) kA kB v = GetNode (leafOf lm sa) kA kB v.
Proof.
  intros Hf Hc Hl Hu Hq.
  destruct (split_keeps fuel nodeSplitCount cores lm sa Hf Hc Hl Hu Hq)
    as (sl & sr & Es & SL & SR & QL & QR & NL & NR & LL & LR & G).
  destruct (unsplit_keeps fuel cores lm (Z.shiftr lm 1) (Z.shiftr lm 1)
              (Some sl) (Some sr) None sl sr Hf Hc)
    as (s & Eu & Ns & Ls & Qs & G'); try assumption.
  - lia.
  - congruence.
  - eexists. exists s. split; [exact Es|]. split; [exact Eu|].
    split; [auto|].
    intros kA kB v. now rewrite G', G.
Qed.

Lemma split_then_unsplit_witness :
  exists vln s,
    split 2 false 0 2 (leafOf (2 ^ 63) bothHalves) = Some vln
    /\ unsplit 2 false false false 2 vln = Some (leafOf (2 ^ 63) s)
    /\ storeUnique s = true
    /\ forall kA kB v,
         GetNode (leafOf (2 ^ 63) s) kA kB v
         = GetNode (leafOf (2 ^ 63) bothHalves) kA kB v.
Proof.
  apply (split_then_unsplit 2 0 2 (2 ^ 63) bothHalves).
  - lia.
  - lia.
  - reflexivity.
  - vm_compute. discriminate.
  - reflexivity.
Defined.

End resize_facts.

(** ** The index never holds a key twice *)

Module unique_facts.
Import valuelocmap valuelocmap_facts resize_facts.

#[local] Arguments items : simpl never.

Lemma uniqueKeys_updItem kA kB g l :
  (forall x, keyA (g x) = keyA x /\ keyB (g x) = keyB x) ->
  uniqueKeys l = true -> uniqueKeys (updItem kA kB g l) = true.
Proof.
  intros Hg. induction l as [|y l IH]; [reflexivity|]. intros U.
  apply uniqueKeys_cons in U as [Uy U]. cbn [updItem].
  destruct (isMatch kA kB y) eqn:M.
  - apply uniqueKeys_cons. split; [|exact U].
    intros _. destruct (Hg y) as [-> ->]. apply Uy.
    now apply isMatch_keys in M.
  - apply uniqueKeys_cons. split; [|auto].
    intros By. specialize (Uy By).
    apply isMatch_other_key in M; [|exact By].
    rewrite findItem_filter in Uy |- *.
    rewrite (filter_updItem kA kB (keyA y) (keyB y)); [exact Uy| |exact Hg].
    lia.
Qed.

Lemma uniqueKeys_updBucketItem kA kB g bk :
  (forall x, keyA (g x) = keyA x /\ keyB (g x) = keyB x) ->
  uniqueKeys (items bk) = true ->
  uniqueKeys (items (updBucketItem kA kB g bk)) = true.
Proof.
  intros Hg U. rewrite items_updBucketItem. now apply uniqueKeys_updItem.
Qed.

Lemma useUnused_ext g v bk :
  (forall x, g x = v) -> useUnused g bk = useUnused (fun _ => v) bk.
Proof.
  intros Hg. unfold useUnused.
  assert (E : forall l, updUnused g l = updUnused (fun _ => v) l).
  { induction l as [|x l IH]; [reflexivity|]. cbn [updUnused].
    now rewrite Hg, IH. }
  now rewrite E, Hg.
Qed.

Lemma uniqueKeys_unused_updUnused x l l' :
  blockID x = 0 -> uniqueKeys l = true ->
  updUnused (fun _ => x) l = Some l' -> uniqueKeys l' = true.
Proof.
  intros Bx. revert l'. induction l as [|y l IH]; intros l' U E;
    cbn [updUnused] in E; [discriminate|].
  apply uniqueKeys_cons in U as [Uy U].
  destruct (Z.eqb_spec (blockID y) 0) as [By|By].
  - injection E as <-. apply uniqueKeys_cons. split; [|exact U].
    intros B. contradiction.
  - destruct (updUnused (fun _ => x) l) as [r|] eqn:Er; [|discriminate].
    injection E as <-. apply uniqueKeys_cons. split; [|now apply IH].
    intros _. specialize (Uy By). clear - Uy Er Bx.
    revert r Er Uy. induction l as [|z l IH]; intros r Er Uy;
      cbn [updUnused] in Er; [discriminate|].
    cbn [findItem] in Uy.
    destruct (isMatch (keyA y) (keyB y) z) eqn:M; [discriminate|].
    destruct (blockID z =? 0).
    + injection Er as <-. cbn [findItem].
      assert (Mx : isMatch (keyA y) (keyB y) x = false)
        by (unfold isMatch; now rewrite Bx).
      now rewrite Mx.
    + destruct (updUnused (fun _ => x) l) as [r'|] eqn:Er'; [|discriminate].
      injection Er as <-. cbn [findItem]. rewrite M. now apply IH.
Qed.

(** Writing a key that the chain does not hold into an unused item keeps
    the keys unique, whether the item written is in use or not. *)
Lemma uniqueKeys_useUnused_any x bk :
  uniqueKeys (items bk) = true ->
  findItem (keyA x) (keyB x) (items bk) = None ->
  uniqueKeys (items (useUnused (fun _ => x) bk)) = true.
Proof.
  intros U F. destruct (Z.eq_dec (blockID x) 0) as [Bx|Bx];
    [|now apply uniqueKeys_useUnused].
  unfold useUnused.
  destruct (updUnused (fun _ => x) (items bk)) as [l'|] eqn:E.
  - assert (Hne : l' <> []).
    { unfold items in E. cbn [updUnused] in E.
      destruct (blockID (head bk) =? 0); [injection E as <-; discriminate|].
      destruct (updUnused _ (next bk)); [injection E as <-|]; discriminate. }
    rewrite items_bucketOfItems by exact Hne.
    eapply uniqueKeys_unused_updUnused; eauto.
  - unfold items in *. cbn [head next].
    apply uniqueKeys_cons in U as [Uh U].
    apply uniqueKeys_cons. split.
    + intros Bh. cbn [findItem].
      assert (Mx : isMatch (keyA (head bk)) (keyB (head bk)) x = false)
        by (unfold isMatch; now rewrite Bx).
      rewrite Mx. auto.
    + apply uniqueKeys_cons. split; [intros B; contradiction|exact U].
Qed.

Lemma storeUnique_withBucket s bix bk :
  storeUnique s = true -> uniqueKeys (items bk) = true ->
  storeUnique (withBucket s bix bk) = true.
Proof.
  unfold storeUnique, withBucket. cbn [buckets]. intros U B.
  now apply valuestore_facts.forallb_set_nth.
Qed.

Lemma storeUnique_addUsed s n : storeUnique (addUsed s n) = storeUnique s.
Proof. reflexivity. Qed.

Lemma storeUnique_nth s bix bk :
  storeUnique s = true -> nth_error (buckets s) bix = Some bk ->
  uniqueKeys (items bk) = true.
Proof.
  unfold storeUnique. intros U N. rewrite forallb_forall in U.
  apply U. eapply nth_error_In; eauto.
Qed.

Section SetUnique.
Variables (kA kB ts bid off len : Z) (even : bool).

Lemma setF_unique bix lix s fb s' fb' old :
  setF kA kB ts bid off len even bix lix s fb = Some (s', fb', old) ->
  storeUnique s = true -> optUnique fb = true ->
  storeUnique s' = true /\ optUnique fb' = true.
Proof.
  unfold setF. intros H Us Uf.
  apply bind_Some in H as ([] & _ & H).
  apply bind_Some in H as ([] & _ & H).
  apply bind_Some in H as (bk & Hbk & H).
  apply bind_Some in H as (fbm & Hfbm & H).
  pose proof (storeUnique_nth s bix bk Us Hbk) as Ub.
  assert (Hfb : optUnique
                  match fb, fbm with
                  | Some f, Some _ =>
                      match nth_error (buckets f) bix with
                      | Some fbk =>
                          Some (withBucket (addUsed f (-1)) bix
                                  (updBucketItem kA kB clearBlockID fbk))
                      | None => fb
                      end
                  | _, _ => fb
                  end = true).
  { destruct fb as [f|]; [|reflexivity].
    destruct fbm; [|exact Uf].
    destruct (nth_error (buckets f) bix) as [fbk|] eqn:Hfbk; [|exact Uf].
    cbn [optUnique] in *. apply storeUnique_withBucket.
    - now rewrite storeUnique_addUsed.
    - apply uniqueKeys_updBucketItem; [apply clearBlockID_keys|].
      eapply storeUnique_nth; eauto. }
  assert (Hkept : forall g,
             (forall x, keyA (g x) = keyA x /\ keyB (g x) = keyB x) ->
             storeUnique (withBucket s bix (updBucketItem kA kB g bk)) = true).
  { intros g Hg. apply storeUnique_withBucket; [exact Us|].
    now apply uniqueKeys_updBucketItem. }
  assert (Hsame : storeUnique (withBucket s bix bk) = true)
    by now apply storeUnique_withBucket.
  assert (Hnew : forall t b o l,
             findItem kA kB (items bk) = None ->
             uniqueKeys
               (items (useUnused
                         (fun item => setData t b o l (setKey kA kB item))
                         bk)) = true).
  { intros t b o l F.
    rewrite (useUnused_ext _ (mkValueLoc kA kB t b o l))
      by (intros x; reflexivity).
    apply uniqueKeys_useUnused_any; [exact Ub|exact F]. }
  destruct (findItem kA kB (items bk)) as [sm|] eqn:Fs; destruct fbm as [fm|].
  - destruct (timestamp sm >=? timestamp fm);
      [destruct (supersedes ts (timestamp sm) even)
      |destruct (supersedes ts (timestamp fm) even)];
      injection H as <- <- _; (split; [|exact Hfb]);
      try exact Hsame; apply Hkept, setData_keys.
  - destruct (supersedes ts (timestamp sm) even);
      injection H as <- <- _; (split; [|exact Hfb]);
      try exact Hsame; apply Hkept, setData_keys.
  - destruct (supersedes ts (timestamp fm) even);
      injection H as <- <- _; (split; [|exact Hfb]);
      (apply storeUnique_withBucket;
       [now rewrite storeUnique_addUsed|]); now apply Hnew.
  - injection H as <- <- _. split; [|exact Hfb].
    apply storeUnique_withBucket; [now rewrite storeUnique_addUsed|].
    now apply Hnew.
Qed.

Lemma clearWritten_unique bix lix s s' :
  clearWritten kA kB ts bid off len bix lix s = Some s' ->
  storeUnique s = true -> storeUnique s' = true.
Proof.
  unfold clearWritten. intros H U.
  apply bind_Some in H as ([] & _ & H).
  apply bind_Some in H as (bk & Hbk & H).
  injection H as <-.
  apply storeUnique_withBucket; [exact U|].
  apply uniqueKeys_updBucketItem; [|eapply storeUnique_nth; eauto].
  intros x. destruct (_ && _); [apply clearBlockID_keys|split; reflexivity].
Qed.

Lemma treeUnique_node lm na nb nc nd ne :
  treeUnique (mkNode lm na nb nc nd ne) = true <->
  optUnique na = true /\ optUnique nb = true /\ optUnique ne = true
  /\ (forall cn, nc = Some cn -> treeUnique cn = true)
  /\ (forall dn, nd = Some dn -> treeUnique dn = true).
Proof.
  cbn [treeUnique]. rewrite !andb_true_iff. split.
  - intros ((((A & B) & E) & C) & D). repeat split; try assumption.
    + intros cn ->. exact C.
    + intros dn ->. exact D.
  - intros (A & B & E & C & D). repeat split; try assumption.
    + destruct nc; auto.
    + destruct nd; auto.
Qed.

Lemma SetNode_unique vln :
  forall o vln' o' old,
    SetNode kA kB ts bid off len even vln o = Some (vln', o', old) ->
    treeUnique vln = true -> treeUnique vln' = true.
Proof.
  induction vln as [lm na nb nc nd ne IHc IHd] using valueLocNode_induction.
  intros o vln' o' old H U. cbn [SetNode] in H.
  apply treeUnique_node in U as (Ua & Ub & Ue & Uc & Ud).
  destruct nc as [cn|].
  - destruct (Z.land kA lm =? 0).
    + apply bind_Some in H as ([[cn' o1] old1] & Hc & H).
      injection H as <- <- <-.
      apply treeUnique_node. repeat split; try assumption.
      intros c' [= <-]. eapply IHc; eauto.
    + destruct nd as [dn|]; [|discriminate].
      apply bind_Some in H as ([[dn' o1] old1] & Hd & H).
      injection H as <- <- <-.
      apply treeUnique_node. repeat split; try assumption.
      intros d' [= <-]. eapply IHd; eauto.
  - apply bind_Some in H as (sa & -> & H).
    apply bind_Some in H as ([bix lix] & _ & H).
    cbn [optUnique] in Ua.
    destruct (Z.land kA lm =? 0).
    + apply bind_Some in H as ([[sa' fb'] old1] & Hf & H).
      injection H as <- <- <-.
      destruct (setF_unique _ _ _ _ _ _ _ Hf Ua eq_refl) as [Us _].
      apply treeUnique_node. repeat split; try assumption.
    + destruct nb as [sb|].
      * apply bind_Some in H as ([[sb' fa] old1] & Hf & H).
        injection H as <- <- <-.
        destruct (setF_unique _ _ _ _ _ _ _ Hf Ub Ua) as [Us Uf].
        apply treeUnique_node. repeat split; try assumption.
      * apply bind_Some in H as ([[sa' ne'] old1] & Hf & H).
        destruct (setF_unique _ _ _ _ _ _ _ Hf Ua Ue) as [Us Uf].
        assert (Plain :
          treeUnique (mkNode lm (Some sa') None None nd ne') = true).
        { apply treeUnique_node. repeat split; try assumption. }
        destruct (supersedes ts old1 even);
          [|injection H as <- <- <-; exact Plain].
        destruct nd as [dn|]; [|injection H as <- <- <-; exact Plain].
        apply bind_Some in H as (sa'' & Hc & H).
        apply bind_Some in H as ([[dn' o1] old2] & Hd & H).
        injection H as <- <- <-.
        apply treeUnique_node. repeat split; try assumption.
        -- cbn [optUnique]. eapply clearWritten_unique; eauto.
        -- intros d' [= <-]. eapply IHd; eauto.
Qed.

End SetUnique.

Lemma NewValueLocMap_unique bucketCount lockCount cfgCores splt :
  treeUnique (root (NewValueLocMap bucketCount lockCount cfgCores splt))
  = true.
Proof.
  cbn. rewrite !andb_true_r. unfold storeUnique. cbn [buckets].
  apply forallb_forall. intros bk Hb. apply repeat_spec in Hb.
  now subst bk.
Qed.

(** X24.  [Set] never stores a key twice: on an index none of whose stores
    holds a key in two items in use, a [Set] that returns leaves an index
    with the same property, whichever branch it takes (overwrite, move from
    the fallback store, new item, retry in the child node). *)
Theorem Set_keeps_keys_unique
    vlm kA kB ts bid off len even vlm' old :
  treeUnique (root vlm) = true ->
  SetLoc kA kB ts bid off len even vlm = Some (vlm', old) ->
  treeUnique (root vlm') = true.
Proof.
  intros U H. unfold SetLoc in H.
  apply bind_Some in H as ([[r o] old1] & Hn & H).
  injection H as <- _. cbn [root].
  eapply SetNode_unique; eauto.
Qed.

Lemma Set_keeps_keys_unique_witness :
  exists vlm1 vlm2 old,
    SetLoc 3 4 512 1 0 5 false emptyIndex = Some (vlm1, 0)
    /\ SetLoc 3 4 1280 2 5 7 false vlm1 = Some (vlm2, old)
    /\ treeUnique (root vlm1) = true
    /\ treeUnique (root vlm2) = true.
Proof.
  eexists. eexists. eexists.
  split; [vm_compute; reflexivity|].
  match goal with
  | |- SetLoc _ _ _ _ _ _ _ ?v = _ /\ _ => pose (vlm1 := v)
  end.
  split; [vm_compute; reflexivity|].
  split; [vm_compute; reflexivity|].
  apply (Set_keeps_keys_unique vlm1 3 4 1280 2 5 7 false _ 512).
  - vm_compute. reflexivity.
  - vm_compute. reflexivity.
Defined.

End unique_facts.

(** ** Writing a value file *)

Module valuefilewrite_facts.
Import valuestorefile_write.

Lemma uint32_add_l a b : uint32 (uint32 a + b) = uint32 (a + b).
Proof. unfold uint32. apply Zplus_mod_idemp_l. Qed.

Section Written.
Variable Sum32 : list byte -> Z.
Variables checksumInterval memClearers : Z.
Hypothesis Hci : 1 <= checksumInterval.
Hypothesis Hbuf : checksumInterval + 4 < 2 ^ 32.
Hypothesis Hmc : 1 <= memClearers.

#[local] Abbreviation L := (layout Sum32 checksumInterval).
#[local] Abbreviation ci := (Z.to_nat checksumInterval).

#[local] Abbreviation indexOK := (indexOK memClearers).

Lemma bufLen_eq : bufLen checksumInterval = checksumInterval + 4.
Proof. unfold bufLen, uint32. apply Z.mod_small. lia. Qed.

(** *** The layout *)

Lemma checksummed_fuel f g p :
  (List.length p <= f)%nat -> (List.length p <= g)%nat ->
  checksummed Sum32 checksumInterval f p
  = checksummed Sum32 checksumInterval g p.
Proof.
  revert g p. induction f as [|f IH]; intros [|g] p Hf Hg; cbn [checksummed];
    try reflexivity.
  - destruct p; [|cbn in Hf; lia].
    destruct (Z.leb_spec (Z.of_nat (@List.length byte [])) checksumInterval);
      [reflexivity|cbn in *; lia].
  - destruct p; [|cbn in Hg; lia].
    destruct (Z.leb_spec (Z.of_nat (@List.length byte [])) checksumInterval);
      [reflexivity|cbn in *; lia].
  - destruct (Z.leb_spec (Z.of_nat (List.length p)) checksumInterval);
      [reflexivity|].
    rewrite (IH g); [reflexivity| |]; rewrite length_skipn; lia.
Qed.

Lemma layout_short p :
  Z.of_nat (List.length p) <= checksumInterval -> L p = p.
Proof.
  intros H. unfold layout. destruct (List.length p) eqn:E; [reflexivity|].
  cbn [checksummed]. rewrite E.
  destruct (Z.leb_spec (Z.of_nat (S n)) checksumInterval); [reflexivity|lia].
Qed.

Lemma layout_full c rest :
  Z.of_nat (List.length c) = checksumInterval -> rest <> [] ->
  L (c ++ rest) = c ++ bigEndian 4 (Sum32 c) ++ L rest.
Proof.
  intros Hc Hr. unfold layout.
  assert (Hl : (0 < List.length rest)%nat)
    by (destruct rest; [contradiction|cbn; lia]).
  destruct (List.length (c ++ rest)) eqn:E;
    [rewrite length_app in E; lia|].
  cbn [checksummed]. rewrite E.
  rewrite length_app in E.
  destruct (Z.leb_spec (Z.of_nat (S n)) checksumInterval); [lia|].
  replace ci with (List.length c) by lia.
  rewrite firstn_app, firstn_all, Nat.sub_diag, firstn_O, app_nil_r.
  rewrite skipn_app, skipn_all, Nat.sub_diag, skipn_O. cbn [app].
  rewrite (checksummed_fuel n (List.length rest)); [reflexivity|lia|lia].
Qed.

(** *** Sending blocks on *)

Lemma free_spec fl b :
  indexOK fl ->
  exists fl',
    free memClearers fl b = Ret fl'
    /\ id fl' = id fl /\ writerFP fl' = writerFP fl
    /\ writerOffset fl' = writerOffset fl
    /\ writerCurrentBuf fl' = writerCurrentBuf fl
    /\ indexOK fl'
    /\ map snd (freeable fl') = map snd (freeable fl) ++ [b].
Proof.
  unfold valuestorefile_write.indexOK, free. intros Hi.
  destruct (Z.leb_spec 0 (freeableMemBlockChanIndex fl)); [|lia].
  destruct (Z.ltb_spec (freeableMemBlockChanIndex fl) memClearers); [|lia].
  cbn [andb]. eexists. split; [reflexivity|].
  cbn [id writerFP writerOffset writerCurrentBuf freeableMemBlockChanIndex
       freeable].
  repeat split; try lia.
  - destruct (Z.geb_spec (freeableMemBlockChanIndex fl + 1) memClearers); lia.
  - destruct (Z.geb_spec (freeableMemBlockChanIndex fl + 1) memClearers); lia.
  - rewrite map_app. reflexivity.
Qed.

Lemma freeAll_spec bs : forall fl,
  indexOK fl ->
  exists fl',
    freeAll memClearers fl bs = Ret fl'
    /\ id fl' = id fl /\ writerFP fl' = writerFP fl
    /\ writerOffset fl' = writerOffset fl
    /\ writerCurrentBuf fl' = writerCurrentBuf fl
    /\ indexOK fl'
    /\ map snd (freeable fl') = map snd (freeable fl) ++ bs.
Proof.
  induction bs as [|b bs IH]; intros fl Hi; cbn [freeAll].
  - exists fl. rewrite app_nil_r. repeat split; auto; apply Hi.
  - destruct (free_spec fl b Hi) as (fl1 & -> & E1 & E2 & E3 & E4 & Hi1 & E5).
    cbn [runBind].
    destruct (IH fl1 Hi1) as (fl' & -> & F1 & F2 & F3 & F4 & Hi' & F5).
    exists fl'. split; [reflexivity|].
    rewrite F1, F2, F3, F4, F5, E1, E2, E3, E4, E5, <- app_assoc.
    repeat split; auto; apply Hi'.
Qed.

(** *** The copy loop *)

Lemma uint32_range z : 0 <= uint32 z < 2 ^ 32.
Proof. unfold uint32. apply Z.mod_pos_bound. lia. Qed.

Lemma writeLoop_spec fuel : forall fl cur left,
  Z.of_nat (List.length (buf cur)) <= checksumInterval ->
  indexOK fl ->
  0 <= writerOffset fl < 2 ^ 32 ->
  (2 * List.length left
   + (if (Z.of_nat (List.length (buf cur)) <? checksumInterval)%Z
      then 0 else 1) <= fuel)%nat ->
  exists fl' cur',
    writeLoop Sum32 checksumInterval memClearers fuel fl cur left
    = Ret (fl', cur')
    /\ id fl' = id fl
    /\ writerCurrentBuf fl' = writerCurrentBuf fl
    /\ writerOffset fl'
       = uint32 (writerOffset fl + Z.of_nat (List.length left))
    /\ Z.of_nat (List.length (buf cur')) <= checksumInterval
    /\ (Z.of_nat (List.length (buf cur)) < checksumInterval \/ left <> [] ->
        Z.of_nat (List.length (buf cur')) < checksumInterval)
    /\ indexOK fl'
    /\ map snd (freeable fl') ++ memBlocks cur'
       = map snd (freeable fl) ++ memBlocks cur
    /\ (forall rest, rest <> [] ->
          writerFP fl' ++ L (buf cur' ++ rest)
          = writerFP fl ++ L (buf cur ++ left ++ rest)).
Proof.
  assert (Done : forall f fl cur,
            Z.of_nat (List.length (buf cur)) <= checksumInterval ->
            indexOK fl -> 0 <= writerOffset fl < 2 ^ 32 ->
            exists fl' cur',
              writeLoop Sum32 checksumInterval memClearers f fl cur []
              = Ret (fl', cur')
              /\ id fl' = id fl
              /\ writerCurrentBuf fl' = writerCurrentBuf fl
              /\ writerOffset fl'
                 = uint32 (writerOffset fl
                           + Z.of_nat (@List.length byte []))
              /\ Z.of_nat (List.length (buf cur')) <= checksumInterval
              /\ (Z.of_nat (List.length (buf cur)) < checksumInterval
                  \/ @nil byte <> [] ->
                  Z.of_nat (List.length (buf cur')) < checksumInterval)
              /\ indexOK fl'
              /\ map snd (freeable fl') ++ memBlocks cur'
                 = map snd (freeable fl) ++ memBlocks cur
              /\ (forall rest, rest <> [] ->
                    writerFP fl' ++ L (buf cur' ++ rest)
                    = writerFP fl ++ L (buf cur ++ [] ++ rest))).
  { intros f fl cur Hheld Hi Ho. exists fl, cur.
    split; [destruct f; reflexivity|].
    cbn [List.length]. change (Z.of_nat 0) with 0. rewrite Z.add_0_r.
    unfold uint32. rewrite Z.mod_small by lia.
    repeat split; auto; try apply Hi. intros [E|E]; [exact E|contradiction]. }
  induction fuel as [|fuel IH]; intros fl cur left Hheld Hi Ho Hfuel.
  - destruct left as [|x left]; [|cbn in Hfuel; lia].
    now apply Done.
  - destruct left as [|x left]; [now apply Done|].
    set (lft := x :: left) in *.
    assert (Hl : (0 < List.length lft)%nat) by (cbn; lia).
    cbn [writeLoop]. fold lft.
    destruct (Z.ltb_spec checksumInterval (Z.of_nat (List.length (buf cur))));
      [lia|].
    rewrite bufLen_eq.
    destruct (Z.ltb_spec (checksumInterval + 4) checksumInterval); [lia|].
    cbn [orb].
    set (n := Z.to_nat (Z.min (checksumInterval
                               - Z.of_nat (List.length (buf cur)))
                          (Z.of_nat (List.length lft)))).
    assert (Hn : (n <= List.length lft)%nat) by lia.
    assert (Hlen : List.length (buf cur ++ firstn n lft)
                   = (List.length (buf cur) + n)%nat)
      by (rewrite length_app, firstn_length_le; lia).
    assert (Hsplit : lft = firstn n lft ++ skipn n lft)
      by (symmetry; apply firstn_skipn).
    rewrite Hlen.
    destruct (Z.geb_spec (Z.of_nat (List.length (buf cur) + n))
                checksumInterval) as [Hfull|Hpart].
    + (* the buffer is full *)
      assert (Hn' : Z.of_nat (List.length (buf cur)) + Z.of_nat n
                    = checksumInterval) by lia.
      match goal with
      | |- context [freeAll _ ?f ?bs] =>
          destruct (freeAll_spec bs f) as (fl2 & -> & E1 & E2 & E3 & E4 & Hi2 & E5);
            [exact Hi|]
      end.
      cbn [runBind].
      cbn [id writerFP writerOffset writerCurrentBuf freeable] in *.
      destruct (IH fl2 (mkWriteBuf [] []) (skipn n lft))
        as (fl' & cur' & -> & F1 & F2 & F3 & F4 & F5 & Hi' & F6 & F7).
      * cbn. lia.
      * exact Hi2.
      * rewrite E3. apply uint32_range.
      * cbn [buf List.length]. rewrite length_skipn.
        destruct (Z.ltb_spec (Z.of_nat 0) checksumInterval); [|lia].
        destruct (Z.ltb_spec (Z.of_nat (List.length (buf cur)))
                    checksumInterval); lia.
      * exists fl', cur'. split; [reflexivity|].
        rewrite F1, F2, F3, E1, E3, E4, length_skipn, uint32_add_l.
        split; [reflexivity|]. split; [reflexivity|].
        split; [f_equal; lia|]. split; [exact F4|].
        split; [intros _; apply F5; left; cbn; lia|].
        split; [exact Hi'|].
        split; [rewrite F6, E5; cbn [memBlocks]; now rewrite app_nil_r|].
        intros rest Hr. rewrite F7 by exact Hr. rewrite E2.
        cbn [buf app]. rewrite <- !app_assoc. f_equal.
        replace (buf cur ++ lft ++ rest)
          with ((buf cur ++ firstn n lft) ++ skipn n lft ++ rest)
          by (rewrite <- app_assoc, (app_assoc (firstn n lft)),
                firstn_skipn; reflexivity).
        rewrite (layout_full (buf cur ++ firstn n lft)
                   (skipn n lft ++ rest));
          [rewrite <- !app_assoc; reflexivity| |].
        -- rewrite Hlen. lia.
        -- destruct (skipn n lft); [destruct rest; [contradiction|]|];
             discriminate.
    + (* the values end inside the buffer *)
      assert (Hall : n = List.length lft) by lia.
      rewrite Hall, skipn_all, firstn_all.
      destruct (Done fuel
                  (mkWriting (id fl) (writerFP fl)
                     (uint32 (writerOffset fl + Z.of_nat (List.length lft)))
                     (writerCurrentBuf fl) (freeableMemBlockChanIndex fl)
                     (freeable fl))
                  (mkWriteBuf (buf cur ++ lft) (memBlocks cur)))
        as (fl' & cur' & E & F1 & F2 & F3 & F4 & _ & Hi' & F6 & F7).
      * cbn [buf]. rewrite length_app. lia.
      * exact Hi.
      * apply uint32_range.
      * exists fl', cur'. split; [exact E|].
        assert (Ec : cur' = mkWriteBuf (buf cur ++ lft) (memBlocks cur))
          by (destruct fuel; cbn in E; congruence).
        cbn [id writerFP writerOffset writerCurrentBuf freeable buf
             memBlocks] in *.
        rewrite F1, F2, F3.
        split; [reflexivity|]. split; [reflexivity|].
        split.
        { cbn [List.length]. change (Z.of_nat 0) with 0. rewrite Z.add_0_r.
          unfold uint32. now rewrite Z.mod_mod by lia. }
        split; [exact F4|].
        split; [intros _; subst cur'; cbn [buf]; rewrite length_app; lia|].
        split; [exact Hi'|]. split; [exact F6|].
        intros rest Hr. rewrite F7 by exact Hr.
        cbn [app]. now rewrite <- app_assoc.
Qed.

(** *** One block *)

Lemma write_spec fl cur mb :
  writerCurrentBuf fl = Some cur ->
  Z.of_nat (List.length (buf cur)) <= checksumInterval ->
  indexOK fl ->
  0 <= writerOffset fl < 2 ^ 32 ->
  exists fl' cur',
    write Sum32 checksumInterval memClearers fl (Some mb) = Ret fl'
    /\ writerCurrentBuf fl' = Some cur'
    /\ Z.of_nat (List.length (buf cur')) <= checksumInterval
    /\ indexOK fl'
    /\ id fl' = id fl
    /\ writerOffset fl'
       = uint32 (writerOffset fl
                 + Z.of_nat (List.length (bytesOf (valuestore.values mb))))
    /\ Permutation (map snd (freeable fl') ++ memBlocks cur')
         (map snd (freeable fl) ++ memBlocks cur
          ++ [valuestore.mkMemBlock (valuestore.id mb) (id fl)
                (writerOffset fl) (valuestore.toc mb)
                (valuestore.values mb)])
    /\ (forall rest, rest <> [] ->
          writerFP fl' ++ L (buf cur' ++ rest)
          = writerFP fl
            ++ L (buf cur ++ bytesOf (valuestore.values mb) ++ rest)).
Proof.
  intros Hcur Hheld Hi Ho. cbn [write valuestore.values].
  set (mb' := valuestore.mkMemBlock _ _ _ _ _).
  assert (Hlen : (List.length (bytesOf (valuestore.values mb))
                  <= len (valuestore.values mb))%nat)
    by (unfold bytesOf; rewrite length_firstn; lia).
  destruct (Nat.ltb_spec (len (valuestore.values mb)) 1) as [Hempty|Hsome].
  - (* no values: the block is sent on at once *)
    destruct (free_spec fl mb' Hi) as (fl' & -> & E1 & E2 & E3 & E4 & Hi' & E5).
    assert (Hnil : bytesOf (valuestore.values mb) = []).
    { destruct (bytesOf (valuestore.values mb)); [reflexivity|].
      cbn in Hlen. lia. }
    exists fl', cur. rewrite E1, E2, E3, E4, E5, Hnil.
    cbn [List.length app]. change (Z.of_nat 0) with 0. rewrite Z.add_0_r.
    split; [reflexivity|]. split; [exact Hcur|]. split; [exact Hheld|].
    split; [exact Hi'|]. split; [reflexivity|].
    split; [unfold uint32; rewrite Z.mod_small; lia|].
    split; [|intros rest _; reflexivity].
    rewrite <- !app_assoc. apply Permutation_app_head.
    apply Permutation_app_comm.
  - rewrite Hcur. cbn [orFault runBind].
    destruct (writeLoop_spec (2 * len (valuestore.values mb) + 1) fl cur
                (bytesOf (valuestore.values mb)) Hheld Hi Ho)
      as (fl1 & cur1 & -> & E1 & E2 & E3 & E4 & E5 & Hi1 & E6 & E7).
    { destruct (_ <? _)%Z; lia. }
    cbn [runBind].
    destruct (Nat.eqb_spec (List.length (buf cur1)) 0) as [Hzero|Hheld1].
    + (* the last buffer went out full *)
      destruct (free_spec (withCurrentBuf fl1 (Some cur1)) mb')
        as (fl' & -> & F1 & F2 & F3 & F4 & Hi' & F5); [exact Hi1|].
      cbn [withCurrentBuf id writerFP writerOffset writerCurrentBuf
           freeable] in *.
      exists fl', cur1. rewrite F1, F2, F3, F4, F5, E1, E3.
      repeat split; auto; try apply Hi'.
      rewrite <- !app_assoc.
      apply Permutation_trans
        with (l' := (map snd (freeable fl1) ++ memBlocks cur1) ++ [mb']).
      * rewrite <- !app_assoc. apply Permutation_app_head.
        apply Permutation_app_comm.
      * rewrite E6, <- app_assoc. reflexivity.
    + eexists. eexists. split; [reflexivity|].
      cbn [withCurrentBuf id writerFP writerOffset writerCurrentBuf
           freeable buf memBlocks].
      rewrite E1, E3.
      repeat split; auto; try apply Hi1.
      cbn [memBlocks]. rewrite !app_assoc, E6. reflexivity.
Qed.

(** *** Block after block *)

Lemma writeAll_spec bs : forall fl cur,
  writerCurrentBuf fl = Some cur ->
  Z.of_nat (List.length (buf cur)) <= checksumInterval ->
  indexOK fl ->
  0 <= writerOffset fl < 2 ^ 32 ->
  exists fl' cur',
    writeAll Sum32 checksumInterval memClearers fl bs = Ret fl'
    /\ writerCurrentBuf fl' = Some cur'
    /\ Z.of_nat (List.length (buf cur')) <= checksumInterval
    /\ indexOK fl'
    /\ id fl' = id fl
    /\ writerOffset fl'
       = uint32 (writerOffset fl + Z.of_nat (List.length (valuesOf bs)))
    /\ Permutation (map snd (freeable fl') ++ memBlocks cur')
         (map snd (freeable fl) ++ memBlocks cur
          ++ stamped (id fl) (writerOffset fl) bs)
    /\ (forall rest, rest <> [] ->
          writerFP fl' ++ L (buf cur' ++ rest)
          = writerFP fl ++ L (buf cur ++ valuesOf bs ++ rest)).
Proof.
  induction bs as [|b bs IH]; intros fl cur Hcur Hheld Hi Ho.
  - exists fl, cur. cbn [writeAll valuesOf map List.concat stamped List.length app].
    change (Z.of_nat 0) with 0. rewrite Z.add_0_r, app_nil_r.
    repeat split; auto; try apply Hi.
    unfold uint32. rewrite Z.mod_small; lia.
  - cbn [writeAll].
    destruct (write_spec fl cur b Hcur Hheld Hi Ho)
      as (fl1 & cur1 & -> & Hcur1 & Hheld1 & Hi1 & E1 & E2 & E3 & E4).
    cbn [runBind].
    destruct (IH fl1 cur1 Hcur1 Hheld1 Hi1)
      as (fl' & cur' & -> & Hcur' & Hheld' & Hi' & F1 & F2 & F3 & F4).
    { rewrite E2. apply uint32_range. }
    exists fl', cur'. split; [reflexivity|].
    split; [exact Hcur'|]. split; [exact Hheld'|]. split; [exact Hi'|].
    split; [congruence|].
    unfold valuesOf in *. cbn [map List.concat stamped].
    split; [|split].
    + rewrite F2, E2, uint32_add_l, length_app. f_equal. lia.
    + rewrite E1, E2 in F3.
      eapply Permutation_trans; [exact F3|].
      match goal with
      | |- Permutation _ (_ ++ _ ++ ?m :: ?S) =>
          change (m :: S) with ([m] ++ S)
      end.
      rewrite !app_assoc. apply Permutation_app_tail.
      rewrite <- app_assoc. exact E3.
    + intros rest Hr. rewrite F4 by exact Hr.
      rewrite E4; [now rewrite <- app_assoc|].
      destruct (List.concat _); [exact Hr|discriminate].
Qed.

(** *** The trailer *)

Lemma trailer_length : List.length valuestorefile.term = 8%nat.
Proof. reflexivity. Qed.

Lemma closeWriting_layout held file :
  8 <= checksumInterval ->
  Z.of_nat (List.length held) <= checksumInterval ->
  valuestorefile.closeWriting Sum32 checksumInterval held file
  = Ret (file ++ L (held ++ valuestorefile.term)).
Proof.
  intros H8 Hheld.
  destruct (Z.eq_dec (Z.of_nat (List.length held)) checksumInterval)
    as [Hfull|Hroom].
  - (* the buffer is full: it goes out with its checksum first *)
    rewrite layout_full by (exact Hfull || discriminate).
    rewrite (layout_short valuestorefile.term) by (rewrite trailer_length; lia).
    unfold valuestorefile.closeWriting.
    change (2 * List.length valuestorefile.term + 1)%nat with 17%nat.
    unfold valuestorefile.term.
    rewrite (valuefile_facts.writeTerm_turn Sum32 checksumInterval 16 held
               _ _ file 0); [|lia|cbn [List.length]; lia].
    cbn [skipn firstn]. rewrite app_nil_r.
    rewrite (valuefile_facts.writeTerm_turn Sum32 checksumInterval 15 []
               _ _ _ 8); [|cbn; lia|cbn [List.length]; lia].
    cbn [skipn firstn valuestorefile.writeTerm app].
    rewrite <- !app_assoc. reflexivity.
  - rewrite valuefile_facts.closeWriting_output by lia. cbv zeta.
    f_equal. f_equal.
    set (k := Z.to_nat (Z.min (checksumInterval - Z.of_nat (List.length held))
                          8)).
    destruct (Nat.ltb_spec k 8) as [Hk|Hk].
    + assert (Hkl : List.length (firstn k valuestorefile.term) = k)
        by (rewrite firstn_length_le; [reflexivity|rewrite trailer_length; lia]).
      replace (held ++ valuestorefile.term)
        with ((held ++ firstn k valuestorefile.term)
              ++ skipn k valuestorefile.term)
        by (rewrite <- app_assoc, firstn_skipn; reflexivity).
      rewrite layout_full.
      * rewrite layout_short; [rewrite <- !app_assoc; reflexivity|].
        rewrite length_skipn, trailer_length. lia.
      * rewrite length_app, Hkl. lia.
      * intros E. apply (f_equal (@List.length byte)) in E.
        rewrite length_skipn, trailer_length in E. cbn [List.length] in E. lia.
    + assert (Ek : k = 8%nat) by lia. rewrite Ek.
      change (firstn 8 valuestorefile.term) with valuestorefile.term.
      change (skipn 8 valuestorefile.term) with (@nil byte).
      cbn [app]. rewrite app_nil_r.
      rewrite layout_short; [reflexivity|].
      rewrite length_app, trailer_length. lia.
Qed.

End Written.

(** *** A file from its creation to its end *)

Lemma value_head_length checksumInterval :
  List.length (valuestorefile_header.head checksumInterval) = 32%nat.
Proof.
  rewrite header_facts.head_value_eq, length_app, bigEndian_length.
  reflexivity.
Qed.

Lemma createValueReadWriteFile_spec checksumInterval fileID :
  32 <= checksumInterval -> checksumInterval + 4 < 2 ^ 32 ->
  createValueReadWriteFile checksumInterval fileID
  = mkWriting fileID [] 32
      (Some (mkWriteBuf (valuestorefile_header.head checksumInterval) []))
      0 [].
Proof.
  intros H32 Hbuf. unfold createValueReadWriteFile.
  rewrite bufLen_eq by lia.
  rewrite firstn_all2 by (rewrite value_head_length; lia).
  rewrite value_head_length. reflexivity.
Qed.

Lemma writtenFile_spec Sum32 checksumInterval memClearers fileID bs :
  32 <= checksumInterval -> checksumInterval + 4 < 2 ^ 32 ->
  1 <= memClearers ->
  exists fl,
    writtenFile Sum32 checksumInterval memClearers fileID bs = Ret fl
    /\ writerFP fl
       = layout Sum32 checksumInterval
           (valuestorefile_header.head checksumInterval ++ valuesOf bs
            ++ valuestorefile.term)
    /\ writerCurrentBuf fl = None
    /\ id fl = fileID
    /\ writerOffset fl = uint32 (32 + Z.of_nat (List.length (valuesOf bs)))
    /\ Permutation (map snd (freeable fl)) (stamped fileID 32 bs).
Proof.
  intros H32 Hbuf Hmc. unfold writtenFile.
  rewrite createValueReadWriteFile_spec by assumption.
  destruct (writeAll_spec Sum32 checksumInterval memClearers
              ltac:(lia) Hbuf Hmc bs
              (mkWriting fileID [] 32
                 (Some (mkWriteBuf
                          (valuestorefile_header.head checksumInterval) []))
                 0 [])
              (mkWriteBuf (valuestorefile_header.head checksumInterval) []))
    as (fl1 & cur1 & -> & Hcur & Hheld & Hi & E1 & E2 & E3 & E4).
  - reflexivity.
  - cbn [buf]. rewrite value_head_length. lia.
  - unfold indexOK. cbn. lia.
  - cbn. lia.
  - cbn [runBind id writerFP writerOffset freeable buf memBlocks map app]
      in *.
    unfold closeWriting. rewrite Hcur.
    rewrite (closeWriting_layout Sum32 checksumInterval ltac:(lia))
      by (exact Hheld || lia).
    cbn [runBind].
    match goal with
    | |- context [freeAll _ ?f ?l] =>
        destruct (freeAll_spec memClearers Hmc l f)
          as (fl2 & -> & F1 & F2 & F3 & F4 & Hi2 & F5); [exact Hi|]
    end.
    cbn [runBind id writerFP writerOffset writerCurrentBuf freeable] in *.
    eexists. split; [reflexivity|].
    cbn [withCurrentBuf id writerFP writerOffset writerCurrentBuf freeable].
    rewrite F1, F2, F3, F5, E1, E2.
    split; [|repeat split; assumption].
    apply (E4 valuestorefile.term). discriminate.
Qed.

(** Where [stamped] puts a block: behind what the blocks before it hold. *)
Lemma stamped_offset fileID bs : forall offset b,
  0 <= offset ->
  offset + Z.of_nat (List.length (valuesOf bs)) < 2 ^ 32 ->
  In b (stamped fileID offset bs) ->
  exists pre post,
    valuesOf bs = pre ++ bytesOf (valuestore.values b) ++ post
    /\ valuestore.fileOffset b = offset + Z.of_nat (List.length pre)
    /\ valuestore.fileID b = fileID.
Proof.
  induction bs as [|b0 bs IH]; intros offset b Ho Hfit Hin;
    cbn [stamped] in Hin; [contradiction|].
  unfold valuesOf in *. cbn [map List.concat] in *.
  rewrite length_app in Hfit.
  destruct Hin as [<-|Hin].
  - exists [], (List.concat
                  (map (fun b => bytesOf (valuestore.values b)) bs)).
    cbn [app List.length valuestore.values valuestore.fileOffset
         valuestore.fileID].
    repeat split. lia.
  - unfold uint32 in Hin. rewrite Z.mod_small in Hin by lia.
    destruct (IH (offset
                  + Z.of_nat (List.length (bytesOf (valuestore.values b0))))
                b) as (pre & post & E & Eo & Ef); [lia|lia|exact Hin|].
    exists (bytesOf (valuestore.values b0) ++ pre), post.
    rewrite E, length_app, <- app_assoc. repeat split; [lia|exact Ef].
Qed.

(** X25.  A value file created with an interval of at least 32, written
    block by block and closed holds the header, the values of the blocks in
    the order written and the trailer, cut into intervals of
    [checksumInterval] bytes with the murmur3 checksum of each interval
    behind it; the last interval has none, not even when it is full.  The
    file is then closed for writing, and closing it again changes
    nothing. *)
Theorem written_file_layout Sum32 checksumInterval memClearers fileID bs :
  32 <= checksumInterval -> checksumInterval + 4 < 2 ^ 32 ->
  1 <= memClearers ->
  exists fl,
    writtenFile Sum32 checksumInterval memClearers fileID bs = Ret fl
    /\ writerFP fl
       = layout Sum32 checksumInterval
           (valuestorefile_header.head checksumInterval ++ valuesOf bs
            ++ valuestorefile.term)
    /\ writerCurrentBuf fl = None
    /\ closeWriting Sum32 checksumInterval memClearers fl = Ret fl.
Proof.
  intros H32 Hbuf Hmc.
  destruct (writtenFile_spec Sum32 checksumInterval memClearers fileID bs
              H32 Hbuf Hmc) as (fl & E & Hfile & Hcur & _).
  exists fl. repeat split; try assumption.
  unfold closeWriting. rewrite Hcur. reflexivity.
Qed.

Lemma written_file_layout_witness :
  exists fl,
    writtenFile (fun l => Z.of_nat (List.length l)) 40 2 7 threeBlocks
    = Ret fl
    /\ writerFP fl
       = layout (fun l => Z.of_nat (List.length l)) 40
           (valuestorefile_header.head 40 ++ valuesOf threeBlocks
            ++ valuestorefile.term)
    /\ writerCurrentBuf fl = None
    /\ closeWriting (fun l => Z.of_nat (List.length l)) 40 2 fl = Ret fl.
Proof.
  apply (written_file_layout (fun l => Z.of_nat (List.length l)) 40 2 7
           threeBlocks); lia.
Defined.

(** X26.  By the time the file is closed, [write] and [closeWriting] have
    sent every block written to the freeable channels exactly once, each
    with the id of the file and, as its offset, 32 plus the number of bytes
    the blocks written before it hold (in 32 bits); [fl.writerOffset] ends
    32 plus the number of bytes of all of them. *)
Theorem written_blocks_sent_on_once
    Sum32 checksumInterval memClearers fileID bs :
  32 <= checksumInterval -> checksumInterval + 4 < 2 ^ 32 ->
  1 <= memClearers ->
  exists fl,
    writtenFile Sum32 checksumInterval memClearers fileID bs = Ret fl
    /\ Permutation (map snd (freeable fl)) (stamped fileID 32 bs)
    /\ writerOffset fl = uint32 (32 + Z.of_nat (List.length (valuesOf bs))).
Proof.
  intros H32 Hbuf Hmc.
  destruct (writtenFile_spec Sum32 checksumInterval memClearers fileID bs
              H32 Hbuf Hmc) as (fl & E & _ & _ & _ & Hoff & Hperm).
  exists fl. repeat split; assumption.
Qed.

Lemma written_blocks_sent_on_once_witness :
  exists fl,
    writtenFile (fun l => Z.of_nat (List.length l)) 40 2 7 threeBlocks
    = Ret fl
    /\ Permutation (map snd (freeable fl)) (stamped 7 32 threeBlocks)
    /\ writerOffset fl
       = uint32 (32 + Z.of_nat (List.length (valuesOf threeBlocks))).
Proof.
  apply (written_blocks_sent_on_once (fun l => Z.of_nat (List.length l))
           40 2 7 threeBlocks); lia.
Defined.

(** X27.  What [write] stores is what [read] finds: for a file of less
    than 2^32 bytes of payload, every block the writer has sent on carries
    the id of the file and the offset at which the payload of the file
    (header, values, trailer) holds the values of the block, so that [read]
    at that offset, for a timestamp that is no deletion, appends exactly
    these values. *)
Theorem written_values_read_back
    Sum32 checksumInterval memClearers fileID bs fl b
    nameTimestamp readerFPs kA timestampbits value :
  32 <= checksumInterval -> checksumInterval + 4 < 2 ^ 32 ->
  1 <= memClearers ->
  32 + Z.of_nat (List.length (valuesOf bs)) < 2 ^ 32 ->
  writtenFile Sum32 checksumInterval memClearers fileID bs = Ret fl ->
  In b (map snd (freeable fl)) ->
  Z.land timestampbits valuestore._TSB_DELETION = 0 ->
  readerFPs <> 0 ->
  valuestore.fileID b = fileID
  /\ valuestore.fileRead
       (valuestore.mkFile nameTimestamp readerFPs
          (valuestorefile_header.head checksumInterval ++ valuesOf bs
           ++ valuestorefile.term))
       kA timestampbits (valuestore.fileOffset b)
       (Z.of_nat (List.length (bytesOf (valuestore.values b)))) value
     = Ret (timestampbits, value ++ bytesOf (valuestore.values b), None).
Proof.
  intros H32 Hbuf Hmc Hfit Hrun Hin Hts Hrd.
  destruct (writtenFile_spec Sum32 checksumInterval memClearers fileID bs
              H32 Hbuf Hmc) as (fl' & E & _ & _ & _ & _ & Hperm).
  rewrite Hrun in E. injection E as <-.
  apply (Permutation_in _ Hperm) in Hin.
  destruct (stamped_offset fileID bs 32 b ltac:(lia) Hfit Hin)
    as (pre & post & Ev & Eo & Ef).
  split; [exact Ef|].
  unfold valuestore.fileRead. rewrite Hts. cbn [Z.eqb negb].
  cbn [valuestore.payload valuestore.readerFPs].
  destruct (Z.eqb_spec readerFPs 0) as [|_]; [contradiction|].
  rewrite Eo, Ev, Nat2Z.id.
  replace (Z.to_nat (32 + Z.of_nat (List.length pre)))
    with (List.length (valuestorefile_header.head checksumInterval ++ pre))
    by (rewrite length_app, value_head_length; lia).
  rewrite <- !app_assoc, (app_assoc (valuestorefile_header.head _)).
  rewrite skipn_app, skipn_all, Nat.sub_diag, skipn_O. cbn [app].
  rewrite firstn_app, firstn_all, Nat.sub_diag, firstn_O, app_nil_r.
  destruct (Z.ltb_spec (Z.of_nat (List.length (bytesOf (valuestore.values b))))
              (Z.of_nat (List.length (bytesOf (valuestore.values b)))));
    [lia|reflexivity].
Qed.

Lemma written_values_read_back_witness :
  valuestore.fileID
    (valuestore.mkMemBlock 3 7 37 (makeSlice 0) (mkSlice [x0a; x0b; x0c] 3))
  = 7
  /\ valuestore.fileRead
       (valuestore.mkFile 0 1
          (valuestorefile_header.head 40 ++ valuesOf threeBlocks
           ++ valuestorefile.term))
       1 1280 37 3 []
     = Ret (1280, [x0a; x0b; x0c], None).
Proof.
  eapply (written_values_read_back (fun l => Z.of_nat (List.length l))
            40 2 7 threeBlocks _
            (valuestore.mkMemBlock 3 7 37 (makeSlice 0)
               (mkSlice [x0a; x0b; x0c] 3))
            0 1 1 1280 []).
  - lia.
  - lia.
  - lia.
  - vm_compute. reflexivity.
  - vm_compute. reflexivity.
  - vm_compute. right. right. left. reflexivity.
  - vm_compute. reflexivity.
  - lia.
Defined.

(** X28.  With a checksum interval below 32 the header does not fit the
    interval of the first buffer, and the first [write] of a block that
    holds values, on the file [createValueReadWriteFile] returns, panics
    with a slice bound out of range. *)
Theorem write_small_interval_faults
    Sum32 checksumInterval memClearers fileID mb :
  0 <= checksumInterval < 32 ->
  bytesOf (valuestore.values mb) <> [] ->
  write Sum32 checksumInterval memClearers
    (createValueReadWriteFile checksumInterval fileID) (Some mb)
  = Fault SliceBounds.
Proof.
  intros Hci Hval. unfold write. cbn [valuestore.values].
  assert (Hlen : (1 <= len (valuestore.values mb))%nat).
  { unfold bytesOf in Hval. destruct (len (valuestore.values mb)); [|lia].
    now rewrite firstn_O in Hval. }
  destruct (Nat.ltb_spec (len (valuestore.values mb)) 1); [lia|].
  unfold createValueReadWriteFile at 1.
  cbn [writerCurrentBuf orFault runBind].
  replace (2 * len (valuestore.values mb) + 1)%nat
    with (S (2 * len (valuestore.values mb))) by lia.
  destruct (bytesOf (valuestore.values mb)) as [|x l]; [contradiction|].
  cbn [writeLoop buf].
  assert (Hb : bufLen checksumInterval = checksumInterval + 4)
    by (unfold bufLen, uint32; apply Z.mod_small; lia).
  rewrite Hb, length_firstn, value_head_length.
  destruct (Z.ltb_spec checksumInterval
              (Z.of_nat (Nat.min (Z.to_nat (checksumInterval + 4)) 32)));
    [reflexivity|lia].
Qed.

Lemma write_small_interval_faults_witness :
  write (fun l => Z.of_nat (List.length l)) 28 2
    (createValueReadWriteFile 28 7)
    (Some (valuestore.mkMemBlock 3 0 0 (makeSlice 0)
             (mkSlice [x0a; x0b; x0c] 3)))
  = Fault SliceBounds.
Proof.
  apply (write_small_interval_faults (fun l => Z.of_nat (List.length l))
           28 2 7).
  - lia.
  - vm_compute. discriminate.
Defined.

End valuefilewrite_facts.

(** ** Moving the index over to the file *)

Module memclearer_facts.
Import valuestore valuestore_memclearer.

Lemma tocOf_length es : List.length (tocOf es) = (32 * List.length es)%nat.
Proof.
  unfold tocOf. induction es as [|[[[[a b] c] d] e] es IH];
    [reflexivity|].
  cbn [map List.concat List.length]. rewrite length_app, valuestore_facts.tocEntry_length, IH.
  lia.
Qed.

Lemma tocOf_app es1 es2 : tocOf (es1 ++ es2) = tocOf es1 ++ tocOf es2.
Proof. unfold tocOf. now rewrite map_app, concat_app. Qed.

(** The TOC around its [j]th entry. *)
Lemma tocOf_nth es j kA kB ts off length :
  nth_error es j = Some (kA, kB, ts, off, length) ->
  exists pre post,
    tocOf es = pre ++ tocEntry kA kB ts off length ++ post
    /\ List.length pre = (32 * j)%nat.
Proof.
  intros H. destruct (nth_error_split es j H) as (l1 & l2 & -> & Hl).
  exists (tocOf l1), (tocOf l2).
  change ((kA, kB, ts, off, length) :: l2)
    with ([(kA, kB, ts, off, length)] ++ l2).
  rewrite !tocOf_app, tocOf_length, Hl. split; [|reflexivity].
  unfold tocOf at 2. cbn [map List.concat]. now rewrite app_nil_r.
Qed.

Lemma Uint32_bigEndian v rest :
  0 <= v < 2 ^ 32 -> valuestore_toc.Uint32 (bigEndian 4 v ++ rest) = v.
Proof.
  intros Hv. unfold valuestore_toc.Uint32.
  rewrite valuetoc_facts.firstn_app_exact by apply bigEndian_length.
  apply fromBigEndian_bigEndian_small.
  change (2 ^ (8 * Z.of_nat 4)) with (2 ^ 32). exact Hv.
Qed.

Section Entry.
Variables (s : slice) (pre post : list byte).
Variables (kA kB ts off length : Z).
Hypothesis Hs : bytesOf s = pre ++ tocEntry kA kB ts off length ++ post.
Hypothesis Hlen : (len s <= cap s)%nat.
Hypothesis HA : 0 <= kA < 2 ^ 64.
Hypothesis HB : 0 <= kB < 2 ^ 64.
Hypothesis HT : 0 <= ts < 2 ^ 64.

Lemma len_bytesOf : List.length (bytesOf s) = len s.
Proof. unfold bytesOf, cap in *. rewrite length_firstn. lia. Qed.

Lemma entry_fits :
  (List.length pre + 32 <= len s)%nat.
Proof.
  rewrite <- len_bytesOf, Hs, !length_app, valuestore_facts.tocEntry_length. lia.
Qed.

Lemma skipn_entry (k : nat) (front back : list byte) :
  tocEntry kA kB ts off length = front ++ back ->
  List.length front = k ->
  skipn (Z.to_nat (Z.of_nat (List.length pre) + Z.of_nat k)) (bytesOf s)
  = back ++ post.
Proof.
  intros E Hk. rewrite Hs, E, <- app_assoc, app_assoc.
  apply valuetoc_facts.skipn_app_exact. rewrite length_app. lia.
Qed.

Lemma keyA_read :
  uint64From s (Z.of_nat (List.length pre)) = Ret kA.
Proof.
  pose proof entry_fits as F. unfold uint64From.
  destruct (Z.ltb_spec (Z.of_nat (List.length pre)) 0); [lia|].
  destruct (Z.ltb_spec (Z.of_nat (len s)) (Z.of_nat (List.length pre)));
    [lia|].
  cbn [orb].
  destruct (Z.ltb_spec (Z.of_nat (len s) - Z.of_nat (List.length pre)) 8);
    [lia|].
  replace (Z.of_nat (List.length pre))
    with (Z.of_nat (List.length pre) + Z.of_nat 0) by lia.
  rewrite (skipn_entry 0 [] (tocEntry kA kB ts off length)) by reflexivity.
  unfold tocEntry. rewrite <- !app_assoc.
  now rewrite valuetoc_facts.Uint64_bigEndian.
Qed.

Lemma keyB_read :
  uint64From s (Z.of_nat (List.length pre) + 8) = Ret kB.
Proof.
  pose proof entry_fits as F. unfold uint64From.
  destruct (Z.ltb_spec (Z.of_nat (List.length pre) + 8) 0); [lia|].
  destruct (Z.ltb_spec (Z.of_nat (len s)) (Z.of_nat (List.length pre) + 8));
    [lia|].
  cbn [orb].
  destruct (Z.ltb_spec (Z.of_nat (len s) - (Z.of_nat (List.length pre) + 8))
              8); [lia|].
  change 8 with (Z.of_nat 8) at 1.
  rewrite (skipn_entry 8 (bigEndian 8 kA)
             (bigEndian 8 kB ++ bigEndian 8 ts ++ bigEndian 4 (uint32 off)
              ++ bigEndian 4 (uint32 length)));
    [|reflexivity|apply bigEndian_length].
  rewrite <- !app_assoc.
  now rewrite valuetoc_facts.Uint64_bigEndian.
Qed.

Lemma timestampbits_read :
  uint64From s (Z.of_nat (List.length pre) + 16) = Ret ts.
Proof.
  pose proof entry_fits as F. unfold uint64From.
  destruct (Z.ltb_spec (Z.of_nat (List.length pre) + 16) 0); [lia|].
  destruct (Z.ltb_spec (Z.of_nat (len s)) (Z.of_nat (List.length pre) + 16));
    [lia|].
  cbn [orb].
  destruct (Z.ltb_spec (Z.of_nat (len s) - (Z.of_nat (List.length pre) + 16))
              8); [lia|].
  change 16 with (Z.of_nat 16) at 1.
  rewrite (skipn_entry 16 (bigEndian 8 kA ++ bigEndian 8 kB)
             (bigEndian 8 ts ++ bigEndian 4 (uint32 off)
              ++ bigEndian 4 (uint32 length)));
    [|unfold tocEntry; now rewrite <- !app_assoc
     |rewrite length_app, !bigEndian_length; reflexivity].
  rewrite <- !app_assoc.
  now rewrite valuetoc_facts.Uint64_bigEndian.
Qed.

Lemma uint32_bounds z : 0 <= uint32 z < 2 ^ 32.
Proof. unfold uint32. apply Z.mod_pos_bound. lia. Qed.

Lemma offset_read :
  uint32From s (Z.of_nat (List.length pre) + 24) = Ret (uint32 off).
Proof.
  pose proof entry_fits as F. unfold uint32From.
  destruct (Z.ltb_spec (Z.of_nat (List.length pre) + 24) 0); [lia|].
  destruct (Z.ltb_spec (Z.of_nat (len s)) (Z.of_nat (List.length pre) + 24));
    [lia|].
  cbn [orb].
  destruct (Z.ltb_spec (Z.of_nat (len s) - (Z.of_nat (List.length pre) + 24))
              4); [lia|].
  change 24 with (Z.of_nat 24) at 1.
  rewrite (skipn_entry 24
             (bigEndian 8 kA ++ bigEndian 8 kB ++ bigEndian 8 ts)
             (bigEndian 4 (uint32 off) ++ bigEndian 4 (uint32 length)));
    [|unfold tocEntry; now rewrite <- !app_assoc
     |rewrite !length_app, !bigEndian_length; reflexivity].
  rewrite <- !app_assoc.
  now rewrite Uint32_bigEndian by apply uint32_bounds.
Qed.

Lemma length_read :
  uint32From s (Z.of_nat (List.length pre) + 28) = Ret (uint32 length).
Proof.
  pose proof entry_fits as F. unfold uint32From.
  destruct (Z.ltb_spec (Z.of_nat (List.length pre) + 28) 0); [lia|].
  destruct (Z.ltb_spec (Z.of_nat (len s)) (Z.of_nat (List.length pre) + 28));
    [lia|].
  cbn [orb].
  destruct (Z.ltb_spec (Z.of_nat (len s) - (Z.of_nat (List.length pre) + 28))
              4); [lia|].
  change 28 with (Z.of_nat 28) at 1.
  rewrite (skipn_entry 28
             (bigEndian 8 kA ++ bigEndian 8 kB ++ bigEndian 8 ts
              ++ bigEndian 4 (uint32 off))
             (bigEndian 4 (uint32 length)));
    [|unfold tocEntry; now rewrite <- !app_assoc
     |rewrite !length_app, !bigEndian_length; reflexivity].
  now rewrite Uint32_bigEndian by apply uint32_bounds.
Qed.

End Entry.

(** What [clearEntry] asks of the index for the entry it finds. *)
Lemma clearEntry_index st v mb tsn pre post kA kB ts off length st1 v1 :
  bytesOf (toc mb) = pre ++ tocEntry kA kB ts off length ++ post ->
  (len (toc mb) <= cap (toc mb))%nat ->
  0 <= kA < 2 ^ 64 -> 0 <= kB < 2 ^ 64 -> 0 <= ts < 2 ^ 64 ->
  clearEntry st v mb tsn (Z.of_nat (List.length pre)) = Ret (st1, v1) ->
  exists old,
    (if Z.land ts _TSB_LOCAL_REMOVAL =? 0
     then valuelocmap.SetLoc kA kB ts (fileID mb)
            (uint32 (fileOffset mb + uint32 off)) (uint32 length) true
            (locmap st)
     else valuelocmap.SetLoc kA kB ts 0 0 0 true (locmap st))
    = Some (locmap st1, old).
Proof.
  intros Hs Hlen HA HB HT H. unfold clearEntry in H.
  rewrite (keyA_read _ _ _ _ _ _ _ _ Hs Hlen HA) in H.
  rewrite (keyB_read _ _ _ _ _ _ _ _ Hs Hlen HB) in H.
  rewrite (timestampbits_read _ _ _ _ _ _ _ _ Hs Hlen HT) in H.
  cbn [runBind] in H.
  destruct (Z.land ts _TSB_LOCAL_REMOVAL =? 0).
  - rewrite (offset_read _ _ _ _ _ _ _ _ Hs Hlen) in H.
    rewrite (length_read _ _ _ _ _ _ _ _ Hs Hlen) in H.
    cbn [runBind] in H.
    destruct (valuelocmap.SetLoc _ _ _ _ _ _ _ _) as [[m' old]|];
      [|discriminate].
    exists old. cbn [orFault runBind] in H.
    destruct (old >? ts); [now injection H as <- _|].
    repeat match type of H with
           | runBind ?m _ = Ret _ =>
               destruct m; cbn [runBind] in H; [|discriminate]
           end.
    now injection H as <- _.
  - cbn [runBind] in H.
    destruct (valuelocmap.SetLoc _ _ _ _ _ _ _ _) as [[m' old]|];
      [|discriminate].
    exists old. cbn [orFault runBind] in H.
    destruct (old >? ts); [now injection H as <- _|].
    repeat match type of H with
           | runBind ?m _ = Ret _ =>
               destruct m; cbn [runBind] in H; [|discriminate]
           end.
    now injection H as <- _.
Qed.

Section Relocate.
Variables (mb : valueMemBlock) (tsn : run Z).
Variable es : list (Z * Z * Z * Z * Z).
Variables (i : nat) (kA kB ts off length : Z).
Hypothesis Hes : bytesOf (toc mb) = tocOf es.
Hypothesis Hlen : (len (toc mb) <= cap (toc mb))%nat.
Hypothesis Hrange :
  Forall (fun '(a, b, c, _, _) =>
            0 <= a < 2 ^ 64 /\ 0 <= b < 2 ^ 64 /\ 0 <= c < 2 ^ 64) es.
Hypothesis Hi : nth_error es i = Some (kA, kB, ts, off, length).
Hypothesis Hbit : Z.land ts _TSB_LOCAL_REMOVAL = 0.
Hypothesis Hothers :
  forall j ts' off' length',
    j <> i -> nth_error es j = Some (kA, kB, ts', off', length') ->
    ts' < ts /\ Z.land ts' _TSB_LOCAL_REMOVAL = 0.
Hypothesis Hfid : fileID mb <> 0.

Let target : Z * Z * Z * Z :=
  (ts, fileID mb, uint32 (fileOffset mb + uint32 off), uint32 length).

(** Before the entry of the key is reached the index holds no newer
    timestamp for the key; from then on it holds the place in the file. *)
Let Inv (j : nat) (st : DefaultValueStore) : Prop :=
  valuelocmap.wellFormedFor (valuelocmap.root (locmap st)) kA kB = true
  /\ if (j <=? i)%nat
     then exists pts pbid poff plen,
            valuelocmap.Get (locmap st) kA kB = Some (pts, pbid, poff, plen)
            /\ pts <= ts
     else valuelocmap.Get (locmap st) kA kB = Some target.

Lemma len_toc : len (toc mb) = (32 * List.length es)%nat.
Proof. rewrite <- (len_bytesOf _ Hlen), Hes. apply tocOf_length. Qed.

Lemma clearEntry_Inv st v j st1 v1 :
  (j < List.length es)%nat ->
  Inv j st ->
  clearEntry st v mb tsn (32 * Z.of_nat j) = Ret (st1, v1) ->
  Inv (S j) st1.
Proof.
  unfold Inv. intros Hj [W G] H.
  destruct (nth_error es j) as [[[[[a b] c] d] e]|] eqn:Ej;
    [|apply nth_error_None in Ej; lia].
  destruct (tocOf_nth es j a b c d e Ej) as (pre & post & Et & Lpre).
  assert (Hr : 0 <= a < 2 ^ 64 /\ 0 <= b < 2 ^ 64 /\ 0 <= c < 2 ^ 64).
  { rewrite Forall_forall in Hrange.
    apply (Hrange (a, b, c, d, e)). eapply nth_error_In; eauto. }
  destruct Hr as (Ha & Hb & Hc).
  replace (32 * Z.of_nat j) with (Z.of_nat (List.length pre)) in H by lia.
  rewrite Et in Hes.
  destruct (clearEntry_index st v mb tsn pre post a b c d e st1 v1
              Hes Hlen Ha Hb Hc H) as (old & HS).
  destruct (Z.eq_dec a kA) as [->|Na];
    [destruct (Z.eq_dec b kB) as [->|Nb]|].
  - (* an entry of the key *)
    assert (Hc' : c <= ts /\ Z.land c _TSB_LOCAL_REMOVAL = 0
                  /\ (j = i -> c = ts /\ d = off /\ e = length)
                  /\ (j <> i -> c < ts)).
    { destruct (Nat.eq_dec j i) as [->|Nj].
      - rewrite Hi in Ej. injection Ej as <- <- <-.
        repeat split; try lia; try assumption; contradiction.
      - destruct (Hothers j c d e Nj Ej) as [Lt Bit].
        repeat split; try lia; try assumption; contradiction. }
    destruct Hc' as (Hle & Bit & Same & Other).
    rewrite Bit in HS. cbn [Z.eqb] in HS.
    destruct (valuelocmap_facts.SetLoc_Get (locmap st) kA kB c (fileID mb)
                (uint32 (fileOffset mb + uint32 d)) (uint32 e) true W Hfid)
      as (pts & pbid & poff & plen & vlm' & G0 & S0 & Z0 & G1 & W1).
    rewrite S0 in HS. injection HS as <- _.
    split; [exact W1|].
    rewrite G1. unfold valuelocmap.supersedes. cbn [andb].
    destruct (Nat.leb_spec j i) as [Hji|Hji].
    + destruct G as (pts' & pbid' & poff' & plen' & G' & Hpts).
      rewrite G0 in G'. injection G' as <- <- <- <-.
      destruct (Nat.leb_spec (S j) i) as [Hsji|Hsji].
      * destruct ((c >? pts) || (c =? pts) || (pbid =? 0));
          do 4 eexists; (split; [reflexivity|lia]).
      * assert (Eji : j = i) by lia.
        destruct (Same Eji) as (-> & -> & ->).
        assert (Hsup : (ts >? pts) || (ts =? pts) = true).
        { destruct (Z.gtb_spec ts pts); [reflexivity|].
          destruct (Z.eqb_spec ts pts); [reflexivity|lia]. }
        rewrite Hsup. reflexivity.
    + destruct (Nat.leb_spec (S j) i); [lia|].
      rewrite G0 in G. injection G as -> -> -> ->.
      assert (Hlt : c < ts) by (apply Other; lia).
      destruct (Z.gtb_spec c ts); [lia|].
      destruct (Z.eqb_spec c ts); [lia|].
      destruct (Z.eqb_spec (fileID mb) 0); [contradiction|].
      reflexivity.
  - (* an entry of another key *)
    assert (Hj' : j <> i).
    { intros ->. rewrite Hi in Ej. congruence. }
    assert (Fr : valuelocmap.Get (locmap st1) kA kB
                 = valuelocmap.Get (locmap st) kA kB
                 /\ valuelocmap.wellFormedFor
                      (valuelocmap.root (locmap st1)) kA kB
                    = valuelocmap.wellFormedFor
                        (valuelocmap.root (locmap st)) kA kB).
    { destruct (Z.land c _TSB_LOCAL_REMOVAL =? 0);
        eapply valuelocmap_facts.SetLoc_frame; try exact HS; right; auto. }
    destruct Fr as [Fg Fw]. split; [now rewrite Fw|].
    rewrite Fg.
    destruct (Nat.leb_spec j i), (Nat.leb_spec (S j) i); try lia; exact G.
  - assert (Hj' : j <> i).
    { intros ->. rewrite Hi in Ej. congruence. }
    assert (Fr : valuelocmap.Get (locmap st1) kA kB
                 = valuelocmap.Get (locmap st) kA kB
                 /\ valuelocmap.wellFormedFor
                      (valuelocmap.root (locmap st1)) kA kB
                    = valuelocmap.wellFormedFor
                        (valuelocmap.root (locmap st)) kA kB).
    { destruct (Z.land c _TSB_LOCAL_REMOVAL =? 0);
        eapply valuelocmap_facts.SetLoc_frame; try exact HS; left; auto. }
    destruct Fr as [Fg Fw]. split; [now rewrite Fw|].
    rewrite Fg.
    destruct (Nat.leb_spec j i), (Nat.leb_spec (S j) i); try lia; exact G.
Qed.

Lemma clearEntries_Inv fuel : forall st v j st' v',
  (j <= List.length es)%nat ->
  Inv j st ->
  clearEntries fuel st v mb tsn (32 * Z.of_nat j) = Ret (st', v') ->
  valuelocmap.Get (locmap st') kA kB = Some target.
Proof.
  assert (Hil : (i < List.length es)%nat)
    by (apply nth_error_Some; rewrite Hi; discriminate).
  assert (End : forall f st v j st' v',
            (j <= List.length es)%nat -> Inv j st ->
            (32 * Z.of_nat j <? Z.of_nat (len (toc mb))) = false ->
            clearEntries f st v mb tsn (32 * Z.of_nat j) = Ret (st', v') ->
            valuelocmap.Get (locmap st') kA kB = Some target).
  { intros f st v j st' v' Hj [W G] Hend H.
    assert (E : clearEntries f st v mb tsn (32 * Z.of_nat j) = Ret (st, v))
      by (destruct f; cbn [clearEntries]; now rewrite Hend).
    rewrite E in H. injection H as <- <-.
    rewrite len_toc in Hend. apply Z.ltb_ge in Hend.
    destruct (Nat.leb_spec j i); [lia|exact G]. }
  induction fuel as [|fuel IH]; intros st v j st' v' Hj HI H.
  - destruct (32 * Z.of_nat j <? Z.of_nat (len (toc mb))) eqn:Hc;
      [cbn [clearEntries] in H; rewrite Hc in H; discriminate|].
    eapply End; eauto.
  - destruct (32 * Z.of_nat j <? Z.of_nat (len (toc mb))) eqn:Hc;
      [|eapply End; eauto].
    cbn [clearEntries] in H. rewrite Hc in H.
    destruct (clearEntry st v mb tsn (32 * Z.of_nat j)) as [[st1 v1]|] eqn:E;
      [|discriminate].
    cbn [runBind] in H.
    rewrite len_toc in Hc. apply Z.ltb_lt in Hc.
    apply (IH st1 v1 (S j) st' v'); [lia| |].
    + eapply clearEntry_Inv; eauto. lia.
    + replace (32 * Z.of_nat (S j))
        with (32 * Z.of_nat j + _VALUE_FILE_ENTRY_SIZE)
        by (unfold _VALUE_FILE_ENTRY_SIZE; lia).
      exact H.
Qed.

End Relocate.

(** The loop touches the index only. *)
Lemma clearEntry_rest st v mb tsn o st1 v1 :
  clearEntry st v mb tsn o = Ret (st1, v1) ->
  locBlocks st1 = locBlocks st
  /\ freeMemBlockChan st1 = freeMemBlockChan st.
Proof.
  unfold clearEntry. intros H.
  repeat match type of H with
         | runBind ?m _ = Ret _ =>
             destruct m as [?x|]; cbn [runBind] in H; [|discriminate]
         | (let '(_, _) := ?p in _) = Ret _ => destruct p
         | (if ?b then _ else _) = Ret _ => destruct b
         end;
    injection H as <- _; split; reflexivity.
Qed.

Lemma clearEntries_rest fuel mb tsn : forall st v o st' v',
  clearEntries fuel st v mb tsn o = Ret (st', v') ->
  locBlocks st' = locBlocks st
  /\ freeMemBlockChan st' = freeMemBlockChan st.
Proof.
  induction fuel as [|fuel IH]; intros st v o st' v' H;
    cbn [clearEntries] in H;
    destruct (o <? Z.of_nat (len (toc mb))); try discriminate;
    try (injection H as <- _; split; reflexivity).
  destruct (clearEntry st v mb tsn o) as [[st1 v1]|] eqn:E; [|discriminate].
  cbn [runBind] in H.
  destruct (clearEntry_rest _ _ _ _ _ _ _ E) as [E1 E2].
  destruct (IH _ _ _ _ _ H) as [F1 F2].
  split; congruence.
Qed.

End memclearer_facts.
